(** * Soccer team generator: the team-assignment engine

    A shallow embedding of the team generation code of
    [js/UIManager.js] (class [TeamGenerator]: [generateTeams],
    [regenerateTeams], [calculateTeamSizes], [applyRandomization],
    [createBalancedTeamsWithSizeControl], [shuffleArray]) and of the two
    rating functions of [js/PlayerManager.js], with the properties of
    the engine proved about it; then of what the page shows of the
    teams and of the gallery ([updateTeamsDisplay],
    [sortPlayersByPosition], [getTeamSize], [updatePlayersList]), of
    the operations of [PlayerManager] on the state of the application,
    of the change detection [checkTeamSettingsChange] and of the
    validation and the duplicate-name loop of [importPlayersFromJSON].

    Conventions of the embedding.
    - JavaScript numbers that hold integers (team counts, sizes,
      ratings, ids, the snake cursor) are [Z]; lengths and indices of
      arrays are [nat].  The team count of the engine is the integer
      [parseInt] returned; where the change detection reads it, [NaN]
      is [None].
    - The other numbers, the values of [Math.random()] and what is
      computed from them, are doubles that are multiples of [2^-53],
      held as their numerators; a product or a sum the code computes
      with them is rounded as IEEE 754 does, to the nearest double,
      ties to even.
    - Player objects live in a heap and arrays hold references to
      them, so that the fields written during a run
      ([assignedPosition], [tempRatingAdjustment]) and by the player
      form are seen through every array that holds the player.
    - [Math.random()] is a draw from an explicit stream, threaded
      through the code in the order of the calls; everything is proved
      for every stream.
    - A new object gets the first address at which no object lives;
      the objects that were there are not touched by it.
    - A property access on [undefined], the only exception the code
      embedded can raise, is [None] in the [option] monad.  The
      elements of the page the code looks up are taken to exist, and
      the storage to accept what is saved. *)

From Stdlib Require Import ZArith Lia.
From stdpp Require Import base tactics option numbers list sorting gmap strings pretty.

Set Default Proof Using "Type".

(** ** Numbers *)

(** A fraction is held as its numerator over [2^53]. *)
Definition resolution : Z := 2 ^ 53.

(** The multiple of the unit in the last place nearest to [p], for
    [0 <= p]: a double has 53 significant bits, so above [2^53] the
    unit is [2 ^ (Z.log2 p - 52)]; halfway between two multiples the
    one with the even quotient is taken. *)
Definition roundMagnitude (p : Z) : Z :=
  let s := (Z.log2 p - 52)%Z in
  if bool_decide (s ≤ 0)%Z then p
  else
    let q := (p `div` 2 ^ s)%Z in
    let r := (p `mod` 2 ^ s)%Z in
    let half := (2 ^ (s - 1))%Z in
    if bool_decide (half < r)%Z || (bool_decide (r = half) && Z.odd q)
    then ((q + 1) * 2 ^ s)%Z
    else (q * 2 ^ s)%Z.

(** The numerator of the double nearest to [p / 2^53]: what a sum or
    a product of value [p / 2^53] is rounded to. *)
Definition roundDouble (p : Z) : Z := (Z.sgn p * roundMagnitude (Z.abs p))%Z.

(** ** Data model *)

(** A stat block; the engine only reads [overall]. *)
Record Stats := { overall : Z }.

(** References to player objects. *)
Definition ref := nat.

(** A player object.  The [id] is a number of which the engine only
    uses equality; [assignedPosition] and [tempRatingAdjustment] are
    [None] when the object has no such property, and the adjustment is
    a numerator over [2^53]. *)
Record Player := {
  id : Z;
  name : string;
  positions : list string;
  preferredPosition : string;
  outfieldStats : option Stats;
  gkStats : option Stats;
  assignedPosition : option string;
  tempRatingAdjustment : option Z
}.

Definition Heap := ref → Player.

(** [player.assignedPosition = pos] *)
Definition setAssignedPosition (pos : string) (p : Player) : Player :=
  {| id := id p; name := name p; positions := positions p;
     preferredPosition := preferredPosition p;
     outfieldStats := outfieldStats p; gkStats := gkStats p;
     assignedPosition := Some pos;
     tempRatingAdjustment := tempRatingAdjustment p |}.

(** [{...player, tempRatingAdjustment: j}] *)
Definition withTempRatingAdjustment (j : Z) (p : Player) : Player :=
  {| id := id p; name := name p; positions := positions p;
     preferredPosition := preferredPosition p;
     outfieldStats := outfieldStats p; gkStats := gkStats p;
     assignedPosition := assignedPosition p;
     tempRatingAdjustment := Some j |}.

(** [delete player.tempRatingAdjustment] *)
Definition deleteTempRatingAdjustment (p : Player) : Player :=
  {| id := id p; name := name p; positions := positions p;
     preferredPosition := preferredPosition p;
     outfieldStats := outfieldStats p; gkStats := gkStats p;
     assignedPosition := assignedPosition p;
     tempRatingAdjustment := None |}.

(** Writing one object of the heap. *)
Definition update (r : ref) (f : Player → Player) (h : Heap) : Heap :=
  λ r', if decide (r' = r) then f (h r) else h r'.

Record Formation := {
  goalkeeper : option ref;
  defenders : list ref;
  midfielders : list ref;
  forwards : list ref
}.

(** The value of [team.averageRating]: the number [0] the team is
    created with and keeps when it is empty, or the string that
    [toFixed(1)] returns, a sign and a count of tenths
    ([AvgFixed false 825] is ["82.5"]). *)
Inductive Average :=
  | AvgNumber (n : Z)
  | AvgFixed (negative : bool) (tenths : Z).

Record Team := {
  teamId : Z;
  teamName : string;
  players : list ref;
  formation : Formation;
  totalRating : Z;
  averageRating : Average;
  targetSize : option Z
}.

(** The three outfield formation lines, the [priority] tags of the
    assignment pool. *)
Inductive Line := defender | midfielder | forward.

Global Instance Line_eq_dec : EqDecision Line.
Proof. solve_decision. Defined.

Definition GK : string := "GK".

(** [positionCategories] and [linePositions] (the same table twice in
    the source). *)
Definition linePositions (line : Line) : list string :=
  match line with
  | defender => ["CB"; "LB"; "RB"]
  | midfielder => ["CDM"; "CM"; "CAM"; "LM"; "RM"]
  | forward => ["LW"; "RW"; "ST"]
  end%string.

(** The capacity tested before each push into a formation line. *)
Definition lineCapacity (line : Line) : nat :=
  match line with defender => 4 | midfielder => 4 | forward => 3 end.

Definition lineOf (line : Line) (f : Formation) : list ref :=
  match line with
  | defender => defenders f
  | midfielder => midfielders f
  | forward => forwards f
  end.

(** ** PlayerManager: ratings *)

Definition getPlayerOverallRating (player : Player) : Z :=
  match gkStats player, outfieldStats player with
  | Some gk, Some out =>
      if decide (preferredPosition player = GK) then overall gk else overall out
  | Some gk, None => overall gk
  | None, Some out => overall out
  | None, None => 75
  end.

Definition getPlayerRatingForPosition (player : Player) (assignedPos : string) : Z :=
  match (if decide (assignedPos = GK) then gkStats player else None) with
  | Some gk => overall gk
  | None =>
      match outfieldStats player with
      | Some out => overall out
      | None =>
          match gkStats player with
          | Some gk => Z.max (overall gk - 20) 40
          | None => 75
          end
      end
  end.

(** ** Size planner *)

(** [base + (i < extra ? 1 : 0)], the size of the team at index [i]. *)
Definition teamQuota (baseSize extraPlayers : Z) (i : nat) : Z :=
  (baseSize + (if bool_decide (Z.of_nat i < extraPlayers)%Z then 1 else 0))%Z.

(** [calculateTeamSizes]: [Math.floor(a / b)] is [Z.div] and [%] is
    [Z.rem]. *)
Definition calculateTeamSizes (totalPlayers numTeams : Z) : list Z :=
  let baseSize := (totalPlayers `div` numTeams)%Z in
  let extraPlayers := (totalPlayers `rem` numTeams)%Z in
  teamQuota baseSize extraPlayers <$> seq 0 (Z.to_nat numTeams).

(** The same computation as [generateTeams] writes it, with a loop that
    pushes onto [targetTeamSizes]. *)
Fixpoint pushTeamSizes (basePlayersPerTeam extraPlayers : Z) (i : nat) (count : nat)
    (targetTeamSizes : list Z) : list Z :=
  match count with
  | O => targetTeamSizes
  | S count' =>
      pushTeamSizes basePlayersPerTeam extraPlayers (S i) count'
        (targetTeamSizes ++ [teamQuota basePlayersPerTeam extraPlayers i])
  end.

Definition sumZ (l : list Z) : Z := foldr Z.add 0%Z l.

(** ** Randomness *)

(** The stream of draws and the number of draws made so far.  A draw
    [d] stands for the value [d / 2^53] of [Math.random()], with
    [0 <= d < 2^53]. *)
Record Rng := { draws : nat → Z; consumed : nat }.

Definition Rand (A : Type) := Rng → A * Rng.

Definition retR {A} (a : A) : Rand A := λ g, (a, g).
Definition bindR {A B} (m : Rand A) (k : A → Rand B) : Rand B :=
  λ g, let '(a, g') := m g in k a g'.

Notation "x <~ m ; k" := (bindR m (λ x, k))
  (at level 100, m at next level, right associativity, only parsing).

(** [Math.random()], as the numerator over [2^53]. *)
Definition mathRandom : Rand Z :=
  λ g, ((draws g (consumed g) `mod` resolution)%Z,
        {| draws := draws g; consumed := S (consumed g) |}).

(** [Math.floor(Math.random() * n)]: the floor of the rounded
    product. *)
Definition randomBelow (n : Z) : Rand Z :=
  d <~ mathRandom; retR (roundDouble (d * n) `div` resolution)%Z.

(** [[array[i], array[j]] = [array[j], array[i]]]; both indices are
    inside the array wherever the engine swaps. *)
Definition swap {A} (i j : nat) (array : list A) : list A :=
  match array !! i, array !! j with
  | Some x, Some y => <[j := x]> (<[i := y]> array)
  | _, _ => array
  end.

(** The loop of [shuffleArray], [i] running down to [1]. *)
Fixpoint shuffleLoop {A} (i : nat) (array : list A) : Rand (list A) :=
  match i with
  | O => retR array
  | S i' =>
      j <~ randomBelow (Z.of_nat i + 1);
      shuffleLoop i' (swap i (Z.to_nat j) array)
  end.

(** Fisher-Yates shuffle. *)
Definition shuffleArray {A} (array : list A) : Rand (list A) :=
  shuffleLoop (length array - 1) array.

(** ** Sorting *)

(** [Array.prototype.sort] is stable: an element moves in front of
    those it is not behind.  [behind x y] is [compare(x, y) > 0]. *)
Fixpoint insertSorted {A} (behind : A → A → bool) (x : A) (l : list A) : list A :=
  match l with
  | [] => [x]
  | y :: l' => if behind x y then y :: insertSorted behind x l' else x :: l
  end.

Definition stableSort {A} (behind : A → A → bool) (l : list A) : list A :=
  foldr (insertSorted behind) [] l.

(** ** Teams under construction *)

Definition emptyFormation : Formation :=
  {| goalkeeper := None; defenders := []; midfielders := []; forwards := [] |}.

(** The team built for [index] by [Array.from({ length: numTeams }, ...)];
    [targetTeamSizes[index]] is [undefined] past the end of the array. *)
Definition newTeam (targetTeamSizes : list Z) (index : nat) : Team :=
  {| teamId := Z.of_nat index + 1;
     teamName := "Team " +:+ pretty (Z.of_nat index + 1)%Z;
     players := [];
     formation := emptyFormation;
     totalRating := 0;
     averageRating := AvgNumber 0;
     targetSize := targetTeamSizes !! index |}.

(** [team.formation.goalkeeper = player] *)
Definition setGoalkeeper (pl : ref) (f : Formation) : Formation :=
  {| goalkeeper := Some pl; defenders := defenders f;
     midfielders := midfielders f; forwards := forwards f |}.

(** [team.formation.<line>.push(player)] *)
Definition pushLine (line : Line) (pl : ref) (f : Formation) : Formation :=
  match line with
  | defender =>
      {| goalkeeper := goalkeeper f; defenders := defenders f ++ [pl];
         midfielders := midfielders f; forwards := forwards f |}
  | midfielder =>
      {| goalkeeper := goalkeeper f; defenders := defenders f;
         midfielders := midfielders f ++ [pl]; forwards := forwards f |}
  | forward =>
      {| goalkeeper := goalkeeper f; defenders := defenders f;
         midfielders := midfielders f; forwards := forwards f ++ [pl] |}
  end.

(** [team.players.push(player)], with the formation the team has by
    then. *)
Definition pushPlayer (pl : ref) (f : Formation) (team : Team) : Team :=
  {| teamId := teamId team; teamName := teamName team;
     players := players team ++ [pl];
     formation := f;
     totalRating := totalRating team; averageRating := averageRating team;
     targetSize := targetSize team |}.

(** [team.players.length >= team.targetSize]; a comparison with
    [undefined] is false. *)
Definition reachedTargetSize (team : Team) : bool :=
  match targetSize team with
  | Some size => bool_decide (size ≤ Z.of_nat (length (players team)))%Z
  | None => false
  end.

(** [team.players.length < team.targetSize] *)
Definition belowTargetSize (team : Team) : bool :=
  match targetSize team with
  | Some size => bool_decide (Z.of_nat (length (players team)) < size)%Z
  | None => false
  end.

(** [team.formation.<line>.length < capacity] *)
Definition hasRoom (line : Line) (team : Team) : bool :=
  bool_decide (length (lineOf line (formation team)) < lineCapacity line).

(** The variables of a run of [createBalancedTeamsWithSizeControl]. *)
Record Run := {
  heap : Heap;
  teams : list Team;
  assignedPlayers : gset Z;
  currentTeam : Z;
  direction : Z
}.

(** [teams[i]] for a number [i]. *)
Definition teamAt (ts : list Team) (i : Z) : option Team :=
  if bool_decide (0 ≤ i)%Z then ts !! Z.to_nat i else None.

(** A loop whose body may raise. *)
Fixpoint forEachM {S A} (body : S → A → option S) (l : list A) (s : S) : option S :=
  match l with
  | [] => Some s
  | a :: l' => s' ← body s a; forEachM body l' s'
  end.

(** ** Phase 1: goalkeepers *)

(** [p.positions.includes('GK')] *)
Definition canKeep (p : Player) : bool := bool_decide (GK ∈ positions p).

(** [p.preferredPosition === 'GK'] *)
Definition prefersGK (p : Player) : bool := bool_decide (preferredPosition p = GK).

(** The body of the goalkeeper loop. *)
Definition assignGoalkeeper (st : Run) (pl : ref) (teamIndex : nat) : option Run :=
  team ← teams st !! teamIndex;
  Some {| heap := update pl (setAssignedPosition GK) (heap st);
          teams := <[teamIndex :=
                      pushPlayer pl (setGoalkeeper pl (formation team)) team]> (teams st);
          assignedPlayers := assignedPlayers st ∪ {[ id (heap st pl) ]};
          currentTeam := currentTeam st;
          direction := direction st |}.

(** [for (i = 0; i < teamOrder.length && i < shuffledGKs.length; i++)] *)
Fixpoint goalkeeperLoop (teamOrder : list nat) (shuffledGKs : list ref) (st : Run) : option Run :=
  match teamOrder, shuffledGKs with
  | teamIndex :: teamOrder', pl :: shuffledGKs' =>
      st' ← assignGoalkeeper st pl teamIndex;
      goalkeeperLoop teamOrder' shuffledGKs' st'
  | _, _ => Some st
  end.

(** [getPlayerOverallRating(a) + (a.tempRatingAdjustment || 0)], the
    rounded sum, as a numerator over [2^53]. *)
Definition effectiveRating (p : Player) : Z :=
  roundDouble (getPlayerOverallRating p * resolution
               + default 0 (tempRatingAdjustment p))%Z.

(** The comparison function of the rating sort, as [behind]:
    [ratingB - ratingA > 0]. *)
Definition sortPlayers (h : Heap) (l : list ref) : list ref :=
  stableSort (λ a b, bool_decide (effectiveRating (h a) < effectiveRating (h b))%Z) l.

(** [p => !assignedPlayers.has(p.id)] *)
Definition unassigned (st : Run) (pl : ref) : bool :=
  bool_decide (id (heap st pl) ∉ assignedPlayers st).

(** ** Phase 2: the snake draft *)

Record PoolItem := { player : ref; priority : Line }.

(** [p.positions.some(pos => positionCategories.<line>.includes(pos))] *)
Definition playsIn (line : Line) (p : Player) : bool :=
  existsb (λ pos, bool_decide (pos ∈ linePositions line)) (positions p).

(** One position group, cut to its share of the pool:
    [for (i = 0; i < Math.min(group.length, numTeams * capacity); i++)]. *)
Definition poolShare (numTeams : Z) (line : Line) (group : list ref) : list PoolItem :=
  (λ pl, {| player := pl; priority := line |})
    <$> take (Z.to_nat (numTeams * Z.of_nat (lineCapacity line))) group.

(** [getBestPositionForFormationLine] for the three outfield lines (it
    is never called for the goalkeeper line). *)
Definition getBestPositionForFormationLine (p : Player) (formationLine : Line) : string :=
  let availablePositions :=
    filter (λ pos, pos ∈ linePositions formationLine) (positions p) in
  if bool_decide (preferredPosition p ∈ availablePositions) then preferredPosition p
  else default (default ""%string (head (linePositions formationLine)))
               (head availablePositions).

(** Moving to the next team in snake pattern: the four statements
    repeated three times in the draft. *)
Definition advance (numTeams : Z) (st : Run) : Run :=
  let next := (currentTeam st + direction st)%Z in
  if bool_decide (numTeams ≤ next)%Z then
    {| heap := heap st; teams := teams st; assignedPlayers := assignedPlayers st;
       currentTeam := numTeams - 1; direction := -1 |}
  else if bool_decide (next < 0)%Z then
    {| heap := heap st; teams := teams st; assignedPlayers := assignedPlayers st;
       currentTeam := 0; direction := 1 |}
  else
    {| heap := heap st; teams := teams st; assignedPlayers := assignedPlayers st;
       currentTeam := next; direction := direction st |}.

(** The line the if-chain of the draft puts the player in: the line of
    the item's priority when it has room, else the first line, in the
    order defenders, midfielders, forwards, that has room and that the
    player can play. *)
Definition chooseLine (prio : Line) (p : Player) (team : Team) : option Line :=
  if hasRoom prio team then Some prio
  else if hasRoom defender team && playsIn defender p then Some defender
  else if hasRoom midfielder team && playsIn midfielder p then Some midfielder
  else if hasRoom forward team && playsIn forward p then Some forward
  else None.

(** The four statements of every branch of that chain. *)
Definition draftInto (line : Line) (pl : ref) (team : Team) (st : Run) : Run :=
  {| heap := update pl
       (setAssignedPosition (getBestPositionForFormationLine (heap st pl) line)) (heap st);
     teams := <[Z.to_nat (currentTeam st) :=
                 pushPlayer pl (pushLine line pl (formation team)) team]> (teams st);
     assignedPlayers := assignedPlayers st ∪ {[ id (heap st pl) ]};
     currentTeam := currentTeam st;
     direction := direction st |}.

(** [while (attempts < numTeams && !assigned)], by the attempts left;
    the result tells whether the player was assigned. *)
Fixpoint draftLoop (numTeams : Z) (item : PoolItem) (attemptsLeft : nat) (st : Run)
    : option (Run * bool) :=
  match attemptsLeft with
  | O => Some (st, false)
  | S attemptsLeft' =>
      team ← teamAt (teams st) (currentTeam st);
      if reachedTargetSize team then
        draftLoop numTeams item attemptsLeft' (advance numTeams st)
      else
        match chooseLine (priority item) (heap st (player item)) team with
        | Some line => Some (draftInto line (player item) team st, true)
        | None => draftLoop numTeams item attemptsLeft' (advance numTeams st)
        end
  end.

(** The body of [for (const item of assignmentPool)]. *)
Definition draftItem (numTeams : Z) (st : Run) (item : PoolItem) : option Run :=
  if unassigned st (player item) then
    '(st', assigned) ← draftLoop numTeams item (Z.to_nat numTeams) st;
    Some (if assigned : bool then advance numTeams st' else st')
  else Some st.

Definition snakeDraft (numTeams : Z) (assignmentPool : list PoolItem) (st : Run) : option Run :=
  forEachM (draftItem numTeams) assignmentPool st.

(** ** Phase 3: the leftover sweep *)

(** [teams.filter(team => team.players.length < team.targetSize)],
    each team with its index in [teams], then sorted by current size. *)
Definition teamsWithSpace (ts : list Team) : list (nat * Team) :=
  stableSort (λ a b, bool_decide (length (players b.2) < length (players a.2)))
    (filter (λ it, belowTargetSize it.2) (imap pair ts)).

(** The first formation line with room, in the order of the if-chain. *)
Definition spareLine (team : Team) : option Line :=
  if hasRoom defender team then Some defender
  else if hasRoom midfielder team then Some midfielder
  else if hasRoom forward team then Some forward
  else None.

(** [for (const team of teamsWithSpace)], up to its [break]. *)
Fixpoint firstWithSpareLine (candidates : list (nat * Team)) : option (nat * Team * Line) :=
  match candidates with
  | [] => None
  | (i, team) :: candidates' =>
      match spareLine team with
      | Some line => Some (i, team, line)
      | None => firstWithSpareLine candidates'
      end
  end.

Definition sweepInto (i : nat) (team' : Team) (pl : ref) (st : Run) : Run :=
  {| heap := heap st;
     teams := <[i := team']> (teams st);
     assignedPlayers := assignedPlayers st ∪ {[ id (heap st pl) ]};
     currentTeam := currentTeam st;
     direction := direction st |}.

(** The body of [for (const player of finalRemainingPlayers)]; [None]
    is its [break]. *)
Definition sweepPlayer (st : Run) (pl : ref) : option Run :=
  match teamsWithSpace (teams st) with
  | [] => None
  | ((smallest, smallestTeam) :: _) as candidates =>
      match firstWithSpareLine candidates with
      | Some (i, team, line) =>
          Some (sweepInto i (pushPlayer pl (pushLine line pl (formation team)) team) pl st)
      | None =>
          Some (sweepInto smallest (pushPlayer pl (formation smallestTeam) smallestTeam) pl st)
      end
  end.

Fixpoint leftoverSweep (finalRemainingPlayers : list ref) (st : Run) : Run :=
  match finalRemainingPlayers with
  | [] => st
  | pl :: rest =>
      match sweepPlayer st pl with
      | Some st' => leftoverSweep rest st'
      | None => st
      end
  end.

(** ** The phases with their random choices *)

(** The variables as they are initialised: empty teams, nobody
    assigned, the cursor at [Math.floor(Math.random() * numTeams)] and
    the direction [Math.random() > 0.5 ? 1 : -1]. *)
Definition startRun (numTeams : Z) (targetTeamSizes : list Z) (h : Heap)
    (start coin : Z) : Run :=
  {| heap := h;
     teams := newTeam targetTeamSizes <$> seq 0 (Z.to_nat numTeams);
     assignedPlayers := ∅;
     currentTeam := start;
     direction := if bool_decide (resolution < 2 * coin)%Z then 1 else -1 |}.

(** Up to the end of phase 1: the teams are created, the snake cursor
    is drawn, the keepers are shuffled and dealt. *)
Definition goalkeeperPhase (numTeams : Z) (targetTeamSizes : list Z)
    (sortedPlayers : list ref) (h : Heap) : Rand (option Run) :=
  start <~ randomBelow numTeams;
  coin <~ mathRandom;
  let st0 := startRun numTeams targetTeamSizes h start coin in
  let allGKCapablePlayers :=
    filter (λ pl, canKeep (h pl) && unassigned st0 pl) sortedPlayers in
  preferredGKs <~ shuffleArray (filter (λ pl, prefersGK (h pl)) allGKCapablePlayers);
  alternativeGKs <~
    shuffleArray (filter (λ pl, negb (prefersGK (h pl))) allGKCapablePlayers);
  teamOrder <~ shuffleArray (seq 0 (Z.to_nat numTeams));
  retR (goalkeeperLoop teamOrder (preferredGKs ++ alternativeGKs) st0).

(** Phase 2: the position groups, the pool and the draft. *)
Definition draftPhase (numTeams : Z) (sortedPlayers : list ref) (st : Run)
    : Rand (option Run) :=
  let remainingPlayers := filter (unassigned st) sortedPlayers in
  groupDefenders <~
    shuffleArray (filter (λ pl, playsIn defender (heap st pl)) remainingPlayers);
  groupMidfielders <~
    shuffleArray (filter (λ pl, playsIn midfielder (heap st pl)) remainingPlayers);
  groupForwards <~
    shuffleArray (filter (λ pl, playsIn forward (heap st pl)) remainingPlayers);
  assignmentPool <~
    shuffleArray (poolShare numTeams defender groupDefenders
                  ++ poolShare numTeams midfielder groupMidfielders
                  ++ poolShare numTeams forward groupForwards);
  retR (snakeDraft numTeams assignmentPool st).

(** [sortedPlayers.filter(p => !assignedPlayers.has(p.id))], the
    players handed to phase 3. *)
Definition finalRemainingPlayers (sortedPlayers : list ref) (st : Run) : list ref :=
  filter (unassigned st) sortedPlayers.

(** Phase 3. *)
Definition sweepPhase (sortedPlayers : list ref) (st : Run) : Rand Run :=
  shuffled <~ shuffleArray (finalRemainingPlayers sortedPlayers st);
  retR (leftoverSweep shuffled st).

(** What a run returns: the teams, and the heap their players are in. *)
Record Result := { resultTeams : list Team; resultHeap : Heap }.

(** All players of all teams, team after team. *)
Definition placed (ts : list Team) : list ref := concat (players <$> ts).

Section Engine.

(** [Number.prototype.toFixed] rounds the double it is given; when
    the exact quotient lies halfway between two tenths, the side the
    double falls on decides.  [tieRoundsUp total count] tells that
    side; nothing is assumed about it. *)
Variable tieRoundsUp : Z → Z → bool.

(** [(total / count).toFixed(1)] for [count > 0]. *)
Definition toFixed1 (total count : Z) : Average :=
  let magnitude := (10 * Z.abs total)%Z in
  let below := (magnitude `div` count)%Z in
  let rest := (magnitude `mod` count)%Z in
  AvgFixed (bool_decide (total < 0)%Z)
    (if bool_decide (2 * rest < count)%Z then below
     else if bool_decide (count < 2 * rest)%Z then below + 1
     else if tieRoundsUp total count then below + 1 else below)%Z.

(** [team.players.forEach(player => delete player.tempRatingAdjustment)] *)
Definition stripTeam (h : Heap) (team : Team) : Heap :=
  foldl (λ h' pl, update pl deleteTempRatingAdjustment h') h (players team).

(** The two assignments that follow. *)
Definition rateTeam (h : Heap) (team : Team) : Team :=
  let total :=
    foldl (λ sum pl, sum + getPlayerOverallRating (h pl))%Z 0%Z (players team) in
  {| teamId := teamId team; teamName := teamName team;
     players := players team; formation := formation team;
     totalRating := total;
     averageRating :=
       if bool_decide (0 < length (players team))
       then toFixed1 total (Z.of_nat (length (players team)))
       else AvgNumber 0;
     targetSize := targetSize team |}.

(** [teams.forEach(team => { ... })] *)
Fixpoint rateTeams (h : Heap) (ts : list Team) : Result :=
  match ts with
  | [] => {| resultTeams := []; resultHeap := h |}
  | team :: ts' =>
      let h' := stripTeam h team in
      let rest := rateTeams h' ts' in
      {| resultTeams := rateTeam h' team :: resultTeams rest;
         resultHeap := resultHeap rest |}
  end.

Definition createBalancedTeamsWithSizeControl (numTeams : Z) (targetTeamSizes : list Z)
    (playersToUse : list ref) (h : Heap) : Rand (option Result) :=
  let sortedPlayers := sortPlayers h playersToUse in
  afterGoalkeepers <~ goalkeeperPhase numTeams targetTeamSizes sortedPlayers h;
  match afterGoalkeepers with
  | None => retR None
  | Some st1 =>
      afterDraft <~ draftPhase numTeams sortedPlayers st1;
      match afterDraft with
      | None => retR None
      | Some st2 =>
          st3 <~ sweepPhase sortedPlayers st2;
          retR (Some (rateTeams (heap st3) (teams st3)))
      end
  end.

(** [generateTeams], from the team count read from the page and the
    players chosen by the selection mode; [None] when it stops at
    one of its alerts. *)
Definition generateTeams (numTeams : Z) (playersToUse : list ref) (h : Heap)
    : Rand (option Result) :=
  match playersToUse with
  | [] => retR None
  | _ =>
      let totalPlayers := Z.of_nat (length playersToUse) in
      let basePlayersPerTeam := (totalPlayers `div` numTeams)%Z in
      let extraPlayers := (totalPlayers `rem` numTeams)%Z in
      let targetTeamSizes :=
        pushTeamSizes basePlayersPerTeam extraPlayers 0 (Z.to_nat numTeams) [] in
      createBalancedTeamsWithSizeControl numTeams targetTeamSizes playersToUse h
  end.

(** [(Math.random() - 0.5) * 10] for the draw [d]: the difference is
    a double as it is, the product is rounded. *)
Definition jitter (d : Z) : Z := roundDouble ((d - resolution `div` 2) * 10)%Z.

(** The jitters of [count] players, drawn one after the other. *)
Fixpoint jitters (count : nat) : Rand (list Z) :=
  match count with
  | O => retR []
  | S count' =>
      d <~ mathRandom;
      rest <~ jitters count';
      retR (jitter d :: rest)
  end.

(** [applyRandomization]: three shuffles of a copy of the array, then
    a copy of every player with its jitter.  The copies are new
    objects: [next] is the first address at which no object lives yet,
    and the heap returned holds the copies from there on, in the order
    of the shuffled array, and below [next] what it held. *)
Definition applyRandomization (playersToUse : list ref) (next : ref) (h : Heap)
    : Rand (list ref * Heap) :=
  once <~ shuffleArray playersToUse;
  twice <~ shuffleArray once;
  shuffled <~ shuffleArray twice;
  adjustments <~ jitters (length shuffled);
  let copies := zip_with (λ pl j, withTempRatingAdjustment j (h pl)) shuffled adjustments in
  retR (seq next (length copies),
        λ r, if decide (r < next) then h r else default (h r) (copies !! (r - next))).

(** [regenerateTeams], from the teams of the previous run, the
    selection mode, the players it selects and the first free address
    of the heap; [None] when it stops: no previous teams, or the mode
    'selected' with nobody selected. *)
Definition regenerateTeams (previousTeams : list Team) (playerSelection : string)
    (playersToUse : list ref) (next : ref) (h : Heap) : Rand (option Result) :=
  match previousTeams with
  | [] => retR None
  | _ =>
      if bool_decide (playerSelection = "selected"%string)
         && bool_decide (playersToUse = [])
      then retR None
      else
        let numTeams := Z.of_nat (length previousTeams) in
        let targetSizes := calculateTeamSizes (Z.of_nat (length playersToUse)) numTeams in
        randomized <~ applyRandomization playersToUse next h;
        createBalancedTeamsWithSizeControl numTeams targetSizes randomized.1 randomized.2
  end.

End Engine.

(** ** What the page shows *)

(** [updateTeamsDisplay] lists under "Substitutes" the players
    [team.players.slice(11)], when [team.players.length > 11]. *)
Definition substitutes (team : Team) : list ref :=
  if bool_decide (11 < length (players team)) then drop 11 (players team) else [].

(** The [positionCategory] under which the rating of a substitute is
    shown. *)
Definition substituteCategory (p : Player) : string :=
  let preferredPos := preferredPosition p in
  if bool_decide (preferredPos = GK) then "GK"
  else if bool_decide (preferredPos ∈ ["CB"; "LB"; "RB"]) then "DEF"
  else if bool_decide (preferredPos ∈ ["CDM"; "CM"; "CAM"; "LM"; "RM"]) then "MID"
  else if bool_decide (preferredPos ∈ ["LW"; "RW"; "ST"]) then "ATT"
  else "ATT".

(** The rating shown beside a substitute. *)
Definition substituteRating (p : Player) : Z :=
  getPlayerRatingForPosition p (substituteCategory p).

(** The own properties of the table [positionOrder] of
    [sortPlayersByPosition]. *)
Definition positionOrder : gmap string Z :=
  list_to_map
    [("LW", 1); ("LM", 2); ("LB", 3); ("CDM", 4); ("CM", 5); ("CAM", 6);
     ("CB", 7); ("ST", 8); ("RB", 9); ("RM", 10); ("RW", 11); ("GK", 12)]%Z.

(** [a.preferredPosition || a.positions[0]]: the empty string counts
    as absent, and the first position is [undefined] when there is
    none. *)
Definition sortPosition (p : Player) : option string :=
  if bool_decide (preferredPosition p = ""%string) then head (positions p)
  else Some (preferredPosition p).

(** The names of the members of [Object.prototype], which a lookup
    in the table finds besides its own properties; they are functions,
    and an object for [__proto__]. *)
Definition objectPrototype : list string :=
  ["constructor"; "hasOwnProperty"; "isPrototypeOf"; "propertyIsEnumerable";
   "toLocaleString"; "toString"; "valueOf"; "__proto__"; "__defineGetter__";
   "__defineSetter__"; "__lookupGetter__"; "__lookupSetter__"]%string.

(** [positionOrder[pos] || 50]: a number of the table; [50] where the
    lookup gives [undefined], as it does for the position [undefined];
    and [None] for an inherited member, which is not a number. *)
Definition sortOrder (p : Player) : option Z :=
  match sortPosition p with
  | None => Some 50%Z
  | Some pos =>
      match positionOrder !! pos with
      | Some order => Some order
      | None => if bool_decide (pos ∈ objectPrototype) then None else Some 50%Z
      end
  end.

(** [orderA - orderB > 0]; the difference is [NaN], and so not
    positive, when one of the two is not a number. *)
Definition behindInOrder (orderA orderB : option Z) : bool :=
  match orderA, orderB with
  | Some a, Some b => bool_decide (b < a)%Z
  | _, _ => false
  end.

(** [[...players].sort((a, b) => orderA - orderB)] *)
Definition sortPlayersByPosition (h : Heap) (l : list ref) : list ref :=
  stableSort (λ a b, behindInOrder (sortOrder (h a)) (sortOrder (h b))) l.

(** [getTeamSize]: the entries of the formation that are not [null]. *)
Definition getTeamSize (team : Team) : nat :=
  length
    (filter (λ entry : option ref, entry ≠ None)
       (goalkeeper (formation team)
        :: (Some <$> defenders (formation team))
        ++ (Some <$> midfielders (formation team))
        ++ (Some <$> forwards (formation team)))).

(** ** The gallery *)

(** The state of the application that [PlayerManager] and the change
    detection of [TeamGenerator] work on: the heap of player objects,
    with the [selected] flag of the objects kept in a map of its own
    (absent where the object has no such property) and the first
    address not yet in use; the array [app.players]; the teams of the
    last generation; the player being edited and the player count of
    the last generation, both [null] at the start. *)
Record App := {
  appHeap : Heap;
  appSelected : gmap ref bool;
  appNext : ref;
  appPlayers : list ref;
  appTeams : list Team;
  playerBeingEdited : option ref;
  lastGenerationPlayerCount : option Z
}.

(** [player.selected] as a condition. *)
Definition isSelected (app : App) (r : ref) : bool :=
  default false (appSelected app !! r).

Definition getSelectedPlayers (app : App) : list ref :=
  filter (λ r, isSelected app r) (appPlayers app).

(** [this.app.players.find(p => p.id === playerId)] *)
Definition findPlayer (playerId : Z) (app : App) : option ref :=
  head (filter (λ r, id (appHeap app r) = playerId) (appPlayers app)).

Definition removePlayer (playerId : Z) (app : App) : App :=
  {| appHeap := appHeap app; appSelected := appSelected app; appNext := appNext app;
     appPlayers := filter (λ r, id (appHeap app r) ≠ playerId) (appPlayers app);
     appTeams := appTeams app; playerBeingEdited := playerBeingEdited app;
     lastGenerationPlayerCount := lastGenerationPlayerCount app |}.

(** [player.selected = value] *)
Definition setSelected (r : ref) (value : bool) (app : App) : App :=
  {| appHeap := appHeap app; appSelected := <[r := value]> (appSelected app);
     appNext := appNext app; appPlayers := appPlayers app;
     appTeams := appTeams app; playerBeingEdited := playerBeingEdited app;
     lastGenerationPlayerCount := lastGenerationPlayerCount app |}.

Definition togglePlayerSelection (playerId : Z) (app : App) : App :=
  match findPlayer playerId app with
  | Some r => setSelected r (negb (isSelected app r)) app
  | None => app
  end.

(** [this.app.players.forEach(player => { player.selected = value })] *)
Definition selectEach (value : bool) (app : App) : App :=
  foldl (λ app' r, setSelected r value app') app (appPlayers app).

Definition selectAllPlayers (app : App) : App := selectEach true app.

Definition deselectAllPlayers (app : App) : App := selectEach false app.

(** [clearPlayers], with the answer given to its [confirm]. *)
Definition clearPlayers (confirmed : bool) (app : App) : App :=
  match appPlayers app with
  | [] => app
  | _ =>
      if confirmed then
        {| appHeap := appHeap app; appSelected := appSelected app; appNext := appNext app;
           appPlayers := []; appTeams := [];
           playerBeingEdited := playerBeingEdited app;
           lastGenerationPlayerCount := lastGenerationPlayerCount app |}
      else app
  end.

(** [shufflePlayers]: the loop of [shuffleArray] on [app.players]. *)
Definition shufflePlayers (app : App) : Rand App :=
  shuffled <~ shuffleArray (appPlayers app);
  retR {| appHeap := appHeap app; appSelected := appSelected app; appNext := appNext app;
          appPlayers := shuffled; appTeams := appTeams app;
          playerBeingEdited := playerBeingEdited app;
          lastGenerationPlayerCount := lastGenerationPlayerCount app |}.

(** The players a generation uses, by the value of the selection
    mode: the choice made by [generateTeams], [getCurrentTeamConfig]
    and [checkTeamSettingsChange]. *)
Definition playersForSelection (playerSelection : string) (app : App) : list ref :=
  if bool_decide (playerSelection = "selected"%string) then getSelectedPlayers app
  else appPlayers app.

(** [this.app.teams = []] *)
Definition clearTeams (app : App) : App :=
  {| appHeap := appHeap app; appSelected := appSelected app; appNext := appNext app;
     appPlayers := appPlayers app; appTeams := [];
     playerBeingEdited := playerBeingEdited app;
     lastGenerationPlayerCount := lastGenerationPlayerCount app |}.

(** [checkTeamSettingsChange], from what [parseInt] makes of the team
    count of the page ([None] for [NaN], which differs from every
    number) and the selection mode. *)
Definition checkTeamSettingsChange (currentTeamCount : option Z)
    (currentPlayerSelection : string) (app : App) : App :=
  match appTeams app with
  | [] => app
  | _ =>
      let currentPlayersToUse := playersForSelection currentPlayerSelection app in
      let teamCountChanged :=
        match currentTeamCount with
        | Some count => bool_decide (Z.of_nat (length (appTeams app)) ≠ count)
        | None => true
        end in
      let playerCountChanged :=
        match lastGenerationPlayerCount app with
        | Some last =>
            bool_decide (last ≠ 0%Z)
            && bool_decide (last ≠ Z.of_nat (length currentPlayersToUse))
        | None => false
        end in
      if teamCountChanged || playerCountChanged then clearTeams app else app
  end.

(** What [addPlayer] and [updatePlayer] read from the form: the name
    after [trim()], the values of the checked position boxes, the
    value of the preferred position, and what [parseInt] makes of the
    two [overall] inputs ([None] for [NaN]).  The other stats of a
    block are read in the same way; as in [Stats] they are left out. *)
Record Form := {
  formName : string;
  formPositions : list string;
  formPreferredPosition : string;
  formOverall : option Z;
  formGkOverall : option Z
}.

(** [parseInt(value) || 75] *)
Definition parsedOr75 (parsed : option Z) : Z :=
  match parsed with
  | Some n => if decide (n = 0%Z) then 75%Z else n
  | None => 75%Z
  end.

(** [positions.includes('GK')] and [positions.some(pos => pos !== 'GK')] *)
Definition isGoalkeeper (positions : list string) : bool := bool_decide (GK ∈ positions).

Definition hasOutfieldPositions (positions : list string) : bool :=
  existsb (λ pos, bool_decide (pos ≠ GK)) positions.

(** The fields both functions compute from the form, written over a
    player object [p]; [first] is [positions[0]]. *)
Definition writeForm (form : Form) (first : string) (p : Player) : Player :=
  {| id := id p;
     name := formName form;
     positions := formPositions form;
     preferredPosition :=
       if bool_decide (formPreferredPosition form = ""%string) then first
       else formPreferredPosition form;
     outfieldStats :=
       if hasOutfieldPositions (formPositions form)
       then Some {| overall := parsedOr75 (formOverall form) |} else None;
     gkStats :=
       if isGoalkeeper (formPositions form)
       then Some {| overall := parsedOr75 (formGkOverall form) |} else None;
     assignedPosition := assignedPosition p;
     tempRatingAdjustment := tempRatingAdjustment p |}.

(** What [updatePlayersList] reads of a player for the card it shows:
    both overall ratings for a player with 'GK' and another position,
    else one.  [None] when building the card raises a TypeError: a
    stat block that is read is missing. *)
Inductive Card :=
  | dualCard (gkOverall outfieldOverall : Z)
  | singleCard (overallRating : Z).

Definition playerCard (p : Player) : option Card :=
  if isGoalkeeper (positions p) && hasOutfieldPositions (positions p) then
    out ← outfieldStats p;
    gk ← gkStats p;
    Some (dualCard (overall gk) (overall out))
  else
    match (if isGoalkeeper (positions p) then gkStats p else None) with
    | Some gk => Some (singleCard (overall gk))
    | None => out ← outfieldStats p; Some (singleCard (overall out))
    end.

(** [updatePlayersList]: the cards of the gallery, or [None] when one
    of them raises.  It writes nothing. *)
Definition updatePlayersList (app : App) : option (list Card) :=
  mapM (λ r, playerCard (appHeap app r)) (appPlayers app).

(** The object literal of [addPlayer] before the stats are added, with
    [Date.now()] as its id. *)
Definition blankPlayer (now : Z) : Player :=
  {| id := now; name := ""; positions := []; preferredPosition := "";
     outfieldStats := None; gkStats := None;
     assignedPosition := None; tempRatingAdjustment := None |}.

(** [this.app.players.push(player)] for the new object [player], which
    is selected. *)
Definition pushNewPlayer (player : Player) (app : App) : App :=
  {| appHeap := λ r, if decide (r = appNext app) then player else appHeap app r;
     appSelected := <[appNext app := true]> (appSelected app);
     appNext := S (appNext app);
     appPlayers := appPlayers app ++ [appNext app];
     appTeams := appTeams app;
     playerBeingEdited := playerBeingEdited app;
     lastGenerationPlayerCount := lastGenerationPlayerCount app |}.

(** [addPlayer], from the form, the clock and the two settings of the
    page that [checkTeamSettingsChange] reads.  [None] when it stops
    at an alert, before anything is written; otherwise the state it
    leaves: when [updatePlayersList] raises after the push, the
    change detection is not reached. *)
Definition addPlayer (form : Form) (now : Z) (currentTeamCount : option Z)
    (currentPlayerSelection : string) (app : App) : option App :=
  if bool_decide (formName form = ""%string) then None
  else
    match formPositions form with
    | [] => None
    | first :: _ =>
        let pushed := pushNewPlayer (writeForm form first (blankPlayer now)) app in
        match updatePlayersList pushed with
        | Some _ =>
            Some (checkTeamSettingsChange currentTeamCount currentPlayerSelection pushed)
        | None => Some pushed
        end
    end.

(** [editPlayer]: the player found becomes the player being edited. *)
Definition editPlayer (playerId : Z) (app : App) : App :=
  match findPlayer playerId app with
  | Some r =>
      {| appHeap := appHeap app; appSelected := appSelected app; appNext := appNext app;
         appPlayers := appPlayers app; appTeams := appTeams app;
         playerBeingEdited := Some r;
         lastGenerationPlayerCount := lastGenerationPlayerCount app |}
  | None => app
  end.

(** [cancelEdit]: nobody is being edited; the rest resets the form. *)
Definition cancelEdit (app : App) : App :=
  {| appHeap := appHeap app; appSelected := appSelected app; appNext := appNext app;
     appPlayers := appPlayers app; appTeams := appTeams app;
     playerBeingEdited := None;
     lastGenerationPlayerCount := lastGenerationPlayerCount app |}.

(** The writes of [updatePlayer] to the object [r] being edited;
    [first] is [positions[0]]. *)
Definition writeEdited (r : ref) (form : Form) (first : string) (app : App) : App :=
  {| appHeap := update r (writeForm form first) (appHeap app);
     appSelected := appSelected app; appNext := appNext app;
     appPlayers := appPlayers app; appTeams := appTeams app;
     playerBeingEdited := playerBeingEdited app;
     lastGenerationPlayerCount := lastGenerationPlayerCount app |}.

(** [updatePlayer].  [None] when it returns before writing: nobody is
    being edited, or the form stops at an alert; otherwise the state
    it leaves.  It ends through [cancelEdit], which is not reached
    when [updatePlayersList] raises after the object is written. *)
Definition updatePlayer (form : Form) (app : App) : option App :=
  match playerBeingEdited app with
  | None => None
  | Some r =>
      if bool_decide (formName form = ""%string) then None
      else
        match formPositions form with
        | [] => None
        | first :: _ =>
            let written := writeEdited r form first app in
            match updatePlayersList written with
            | Some _ => Some (cancelEdit written)
            | None => Some written
            end
        end
  end.

(** The duplicate-name loop of [importPlayersFromJSON], for names that
    are strings: [names] are the names of [app.players], [name] is
    [playerData.name].  The [while] of the source has no bound;
    [attemptsLeft] bounds the tests of the loop condition, and [None]
    stands for a loop that has not ended within them. *)
Fixpoint uniqueNameLoop (names : list string) (name finalName : string)
    (nameCounter : Z) (attemptsLeft : nat) : option string :=
  match attemptsLeft with
  | O => None
  | S attemptsLeft' =>
      if bool_decide (finalName ∈ names) then
        uniqueNameLoop names name (name +:+ " (" +:+ pretty nameCounter +:+ ")")
          (nameCounter + 1)%Z attemptsLeft'
      else Some finalName
  end.

(** The name an imported player gets, with one test more than there
    are names: the loop is shown below to end within them. *)
Definition uniqueName (names : list string) (name : string) : option string :=
  uniqueNameLoop names name name 1%Z (S (length names)).

(** The names of [app.players] as the import loop goes through the
    imported names, pushing each player under its final name. *)
Fixpoint importNames (names imported : list string) : option (list string) :=
  match imported with
  | [] => Some names
  | name :: imported' =>
      finalName ← uniqueName names name;
      importNames (names ++ [finalName]) imported'
  end.

(** What the import reads of a record of the file before it pushes
    anybody: the name, [None] when the record has none, and whether
    [positions] is there and is an array.  A name, when there is one,
    is a string. *)
Record PlayerData := { dataName : option string; positionsIsArray : bool }.

(** [!player.name || !player.positions || !Array.isArray(player.positions)];
    the empty string is no name. *)
Definition invalidPlayer (playerData : PlayerData) : bool :=
  match dataName playerData with
  | None => true
  | Some name => bool_decide (name = ""%string) || negb (positionsIsArray playerData)
  end.

(** [importPlayersFromJSON], once the file is parsed and holds an array
    of players, as it acts on the names of [app.players].  One invalid
    record cancels the import before anything is changed.  [confirmed]
    is the answer to the question whether the players of the gallery
    are to be replaced, asked when there are any.  An entry of the
    array that is no object has no name either, and stops the import
    as well: a number at the test, [null] by the exception it raises
    there, which the import catches. *)
Definition importPlayersFromJSON (names : list string) (confirmed : bool)
    (playersToImport : list PlayerData) : option (list string) :=
  let invalidPlayers := filter (λ playerData, invalidPlayer playerData) playersToImport in
  if bool_decide (0 < length invalidPlayers) then Some names
  else
    let shouldReplace := if bool_decide (0 < length names) then confirmed else true in
    importNames (if shouldReplace then [] else names)
      (omap dataName playersToImport).

(** [generateTeams] as a step of the application: it chooses the
    players by the selection mode, runs the engine on the player
    objects themselves, and stores the teams and the player count;
    [None] when it stops at an alert or the engine raises, before
    anything is stored. *)
Definition generateTeamsStep (tieRoundsUp : Z → Z → bool) (numTeams : Z)
    (playerSelection : string) (app : App) : Rand (option App) :=
  let playersToUse := playersForSelection playerSelection app in
  generated <~ generateTeams tieRoundsUp numTeams playersToUse (appHeap app);
  retR (res ← generated;
        Some {| appHeap := resultHeap res; appSelected := appSelected app;
                appNext := appNext app; appPlayers := appPlayers app;
                appTeams := resultTeams res;
                playerBeingEdited := playerBeingEdited app;
                lastGenerationPlayerCount := Some (Z.of_nat (length playersToUse)) |}).

(** The role under which [updateTeamsDisplay] asks for the rating of
    a player of a formation line. *)
Definition lineRole (line : Line) : string :=
  match line with defender => "DEF" | midfielder => "MID" | forward => "ATT" end.

(** The rating shown beside a player of a formation line. *)
Definition lineupRating (line : Line) (p : Player) : Z :=
  getPlayerRatingForPosition p (lineRole line).

(** The state the constructor of [SoccerTeamGenerator] sets up, before
    anything is loaded from the storage: no player object is in use. *)
Definition initialApp (h : Heap) : App :=
  {| appHeap := h; appSelected := ∅; appNext := 0; appPlayers := [];
     appTeams := []; playerBeingEdited := None; lastGenerationPlayerCount := None |}.

(** ** Sample data *)

Definition stats (n : Z) : option Stats := Some {| overall := n |}.

Definition keeper (i : Z) (rating : Z) : Player :=
  {| id := i; name := "Keeper"; positions := [GK]; preferredPosition := GK;
     outfieldStats := None; gkStats := stats rating;
     assignedPosition := None; tempRatingAdjustment := None |}.

Definition outfielder (i : Z) (pos : string) (rating : Z) : Player :=
  {| id := i; name := "Outfielder"; positions := [pos]; preferredPosition := pos;
     outfieldStats := stats rating; gkStats := None;
     assignedPosition := None; tempRatingAdjustment := None |}.

(** The dual-role player of the rating examples. *)
Definition dualRole : Player :=
  {| id := 7; name := "Dual"; positions := [GK; "CB"%string]; preferredPosition := GK;
     outfieldStats := stats 78; gkStats := stats 90;
     assignedPosition := None; tempRatingAdjustment := None |}.

(** A heap holding the given players at the addresses [0], [1], ... *)
Definition heapOf (l : list Player) : Heap := λ r, default (keeper 0 75) (l !! r).

(** The stream that starts with the given draws and goes on with 0. *)
Definition rngOf (l : list Z) : Rng :=
  {| draws := λ k, default 0%Z (l !! k); consumed := 0 |}.

(** A sample squad: two keepers and seven outfielders. *)
Definition squad : list Player :=
  [keeper 1 80; dualRole; outfielder 2 "CB" 70; outfielder 3 "ST" 75;
   outfielder 4 "CM" 60; outfielder 5 "LB" 66; outfielder 6 "RW" 81;
   outfielder 8 "CAM" 77; outfielder 9 "CB" 59].

(** A player of all three outfield lines. *)
Definition versatile (i : Z) (rating : Z) : Player :=
  {| id := i; name := "versatile"; positions := ["CB"; "CM"; "ST"];
     preferredPosition := "CM"; outfieldStats := stats rating; gkStats := None;
     assignedPosition := None; tempRatingAdjustment := None |}.

(** A squad with three players who sit in every position group of the
    draft. *)
Definition mixedSquad : list Player :=
  [keeper 1 80; versatile 2 74; outfielder 3 "ST" 75; versatile 4 68;
   outfielder 5 "LB" 66; dualRole; outfielder 6 "RW" 81; versatile 8 77;
   outfielder 9 "CB" 59].

(** A squad that leaves players to phase 3 when it is dealt to two
    teams: three keepers, and nine centre-backs for the eight places
    the pool has for defenders. *)
Definition deepSquad : list Player :=
  [keeper 1 80; keeper 2 72; keeper 3 64;
   outfielder 4 "CB" 70; outfielder 5 "CB" 71; outfielder 6 "CB" 72;
   outfielder 7 "CB" 73; outfielder 8 "CB" 74; outfielder 9 "CB" 75;
   outfielder 10 "CB" 76; outfielder 11 "CB" 77; outfielder 12 "CB" 78].

(** A squad that fills the twelve slots of one team and leaves two
    players on its bench. *)
Definition fullSquad : list Player :=
  deepSquad ++ [outfielder 13 "ST" 79; outfielder 14 "CM" 69].

(** ** Vocabulary of the properties *)

(** The fields of a player that no run writes. *)
Definition sameIdentity (p q : Player) : Prop :=
  id p = id q ∧ name p = name q ∧ positions p = positions q
  ∧ preferredPosition p = preferredPosition q
  ∧ outfieldStats p = outfieldStats q ∧ gkStats p = gkStats q.

(** Where a player is put in a team. *)
Inductive Slot := inGoal | inLine (line : Line) | onBench.

Definition slotFormation (slot : Slot) (pl : ref) (f : Formation) : Formation :=
  match slot with
  | inGoal => setGoalkeeper pl f
  | inLine line => pushLine line pl f
  | onBench => f
  end.

(** [places pl st st']: the state [st'] is [st] after [pl] joined one
    team, in a formation line only if the line had room. *)
Definition places (pl : ref) (st st' : Run) : Prop :=
  ∃ (i : nat) (team : Team) (slot : Slot),
    teams st !! i = Some team
    ∧ (∀ line, slot = inLine line → hasRoom line team)
    ∧ teams st' = <[i := pushPlayer pl (slotFormation slot pl (formation team)) team]> (teams st)
    ∧ assignedPlayers st' = assignedPlayers st ∪ {[ id (heap st pl) ]}
    ∧ (∀ r, sameIdentity (heap st r) (heap st' r))
    ∧ currentTeam st' = currentTeam st
    ∧ direction st' = direction st.

(** [sweeps pl st st']: the state [st'] is [st] after phase 3 put
    [pl] into a team that was below its target size: into a formation
    line that had room or, when no team below its target size had room
    in any line, among the players of a smallest such team without a
    slot. *)
Definition sweeps (pl : ref) (st st' : Run) : Prop :=
  ∃ (i : nat) (team : Team) (slot : Slot),
    teams st !! i = Some team
    ∧ belowTargetSize team
    ∧ st' = sweepInto i (pushPlayer pl (slotFormation slot pl (formation team)) team) pl st
    ∧ match slot with
      | inGoal => False
      | inLine line => hasRoom line team
      | onBench =>
          (∀ t line, t ∈ teams st → belowTargetSize t → ¬ hasRoom line t)
          ∧ (∀ t, t ∈ teams st → belowTargetSize t →
               length (players team) ≤ length (players t))
      end.

(** [swept l st st']: phase 3 over the players [l] takes the state
    [st] to [st']: the players are put into teams one after the other,
    and the rest of the list is dropped only at a state in which no
    team is below its target size. *)
Inductive swept : list ref → Run → Run → Prop :=
  | swept_nil st : swept [] st st
  | swept_full pl l st :
      (∀ team, team ∈ teams st → ¬ belowTargetSize team) → swept (pl :: l) st st
  | swept_cons pl l st st' st'' :
      sweeps pl st st' → swept l st' st'' → swept (pl :: l) st st''.

(** The position [sortPlayersByPosition] looks up for the player is
    not the name of a member of [Object.prototype]. *)
Definition plainPosition (p : Player) : bool :=
  match sortPosition p with
  | Some pos => bool_decide (pos ∉ objectPrototype)
  | None => true
  end.

(** The players that hold a slot of a formation. *)
Definition slots (f : Formation) : list ref :=
  option_list (goalkeeper f) ++ defenders f ++ midfielders f ++ forwards f.

(** How many slots of a formation are held. *)
Definition slotted (f : Formation) : nat :=
  length (option_list (goalkeeper f)) + length (defenders f)
  + length (midfielders f) + length (forwards f).

(** The slot caps of a team; the players without a slot are the
    substitutes. *)
Definition withinCaps (team : Team) : Prop :=
  length (option_list (goalkeeper (formation team))) ≤ 1
  ∧ length (defenders (formation team)) ≤ 4
  ∧ length (midfielders (formation team)) ≤ 4
  ∧ length (forwards (formation team)) ≤ 3
  ∧ slotted (formation team) ≤ length (players team)
  ∧ (∀ pl, pl ∈ slots (formation team) → pl ∈ players team).

(** What holds of the variables of a run between its steps, for the
    heap [h0] and the players [input] the run was given. *)
Record wellFormed (numTeams : Z) (h0 : Heap) (input : list ref) (st : Run) : Prop := {
  wf_length : length (teams st) = Z.to_nat numTeams;
  wf_caps : Forall withinCaps (teams st);
  wf_heap : ∀ r, sameIdentity (h0 r) (heap st r);
  wf_input : ∀ r, r ∈ placed (teams st) → r ∈ input;
  wf_assigned : ∀ r, r ∈ placed (teams st) → id (h0 r) ∈ assignedPlayers st;
  wf_placed : ∀ i, i ∈ assignedPlayers st → ∃ r, r ∈ placed (teams st) ∧ id (h0 r) = i
}.

(** [dealt l st st']: the state [st'] is [st] after the players of [l]
    joined teams, one after the other. *)
Inductive dealt : list ref → Run → Run → Prop :=
  | dealt_nil st : dealt [] st st
  | dealt_cons pl l st st' st'' :
      places pl st st' → dealt l st' st'' → dealt (pl :: l) st st''.

(** No id twice among the players of the teams. *)
Definition distinctIds (h0 : Heap) (ts : list Team) : Prop :=
  NoDup ((λ r, id (h0 r)) <$> placed ts).

Definition cursorInRange (numTeams : Z) (st : Run) : Prop :=
  (0 ≤ currentTeam st < numTeams)%Z.

(** The cursor is on one of the [numTeams] teams. *)
Definition cursorOnTeam (numTeams : Z) (st : Run) : Prop :=
  cursorInRange numTeams st ∧ length (teams st) = Z.to_nat numTeams.

(** What every step of phases 2 and 3 keeps. *)
Definition keeps (numTeams : Z) (h0 : Heap) (input : list ref) (st st' : Run) : Prop :=
  wellFormed numTeams h0 input st'
  ∧ (distinctIds h0 (teams st) → distinctIds h0 (teams st'))
  ∧ (∀ r, r ∈ placed (teams st) → r ∈ placed (teams st')).

(** A team holds no more players than its target size. *)
Definition withinTarget (team : Team) : Prop :=
  match targetSize team with
  | Some size => (Z.of_nat (length (players team)) ≤ size)%Z
  | None => True
  end.

(** A team nobody joined yet. *)
Definition untouched (team : Team) : Prop :=
  players team = [] ∧ goalkeeper (formation team) = None.

(** The keepers of the teams. *)
Definition keepers (ts : list Team) : list ref :=
  omap (λ team, goalkeeper (formation team)) ts.

(** A team as phase 1 leaves it: its keeper and nobody else, or nobody. *)
Definition keeperDealt (h : Heap) (team : Team) : Prop :=
  match goalkeeper (formation team) with
  | Some g => players team = [g] ∧ assignedPosition (h g) = Some GK
  | None => players team = []
  end.

(** The fields of a team that no phase writes. *)
Definition sameTeam (team team' : Team) : Prop :=
  teamId team' = teamId team
  ∧ teamName team' = teamName team
  ∧ targetSize team' = targetSize team.

(** [grown team team']: the team [team'] is [team] after players were
    appended to it by phases 2 and 3: the keeper is the same, the
    players and the formation lines are continued at their end. *)
Definition grown (team team' : Team) : Prop :=
  sameTeam team team'
  ∧ goalkeeper (formation team') = goalkeeper (formation team)
  ∧ players team `prefix_of` players team'
  ∧ ∀ line, lineOf line (formation team) `prefix_of` lineOf line (formation team').

(** The sizes the teams have. *)
Definition teamSizes (ts : list Team) : list Z :=
  (λ team, Z.of_nat (length (players team))) <$> ts.

(** What a heap [h] holds in [assignedPosition] for a player of a
    formation line, against the heap [h0] the run was given: the
    position the draft chooses for that line, for a player who plays
    in the line, or the value the player came with. *)
Definition lineMarked (h0 h : Heap) (line : Line) (pl : ref) : Prop :=
  (playsIn line (h0 pl)
   ∧ assignedPosition (h pl) = Some (getBestPositionForFormationLine (h0 pl) line))
  ∨ assignedPosition (h pl) = assignedPosition (h0 pl).

(** The same for a team: the keeper is marked 'GK', the players of the
    lines are marked as above, and the substitutes have the value they
    came with. *)
Definition teamMarked (h0 h : Heap) (team : Team) : Prop :=
  (∀ kp, goalkeeper (formation team) = Some kp → assignedPosition (h kp) = Some GK)
  ∧ (∀ line pl, pl ∈ lineOf line (formation team) → lineMarked h0 h line pl)
  ∧ (∀ pl, pl ∈ players team → pl ∉ slots (formation team) →
       assignedPosition (h pl) = assignedPosition (h0 pl)).

(** And for the variables of a run: the players of no team have the
    value they came with. *)
Definition marked (h0 : Heap) (st : Run) : Prop :=
  Forall (teamMarked h0 (heap st)) (teams st)
  ∧ ∀ r, r ∉ placed (teams st) → assignedPosition (heap st r) = assignedPosition (h0 r).

(** The snake order of [numTeams] teams, as a cycle of [2 * numTeams]
    picks: up the teams, then down, the team at either end picked
    twice in a row.  [snakeCursor numTeams m] is the cursor and the
    direction at the pick [m] of the cycle. *)
Definition snakeCursor (numTeams m : Z) : Z * Z :=
  if bool_decide (m < numTeams)%Z then (m, 1%Z) else ((2 * numTeams - 1 - m)%Z, (-1)%Z).

(** A draw that makes [Math.floor(Math.random() * n)] the index [j]. *)
Definition drawFor (j n : Z) : Z := ((j * resolution + n - 1) `div` n)%Z.

(** A team in the order its players joined: first those who hold a
    slot of the formation, then those who hold none, who joined only
    when the three lines were full. *)
Definition fielded (team : Team) : Prop :=
  (∀ pl, pl ∈ take (slotted (formation team)) (players team) → pl ∈ slots (formation team))
  ∧ (∀ pl, pl ∈ drop (slotted (formation team)) (players team) →
       pl ∉ slots (formation team))
  ∧ (slotted (formation team) < length (players team) → ∀ line, ¬ hasRoom line team).

(** A player as the form of the page makes them: at least one
    position, goalkeeper stats exactly for a player with 'GK' among
    the positions, outfield stats exactly for a player with another
    position, and no overall rating of 0. *)
Definition coherent (p : Player) : Prop :=
  positions p ≠ []
  ∧ (is_Some (gkStats p) ↔ GK ∈ positions p)
  ∧ (is_Some (outfieldStats p) ↔ ∃ pos, pos ∈ positions p ∧ pos ≠ GK)
  ∧ (∀ s, gkStats p = Some s ∨ outfieldStats p = Some s → overall s ≠ 0%Z).

(** The addresses of the players of the gallery are in use. *)
Definition allocated (app : App) : Prop :=
  ∀ r, r ∈ appPlayers app → r < appNext app.

(** The names the duplicate-name loop tries, in order: the name
    itself, then the name with the counter [1], [2], ... *)
Definition candidateName (name : string) (k : nat) : string :=
  match k with
  | O => name
  | S _ => name +:+ " (" +:+ pretty (Z.of_nat k) +:+ ")"
  end.

(** The operations of the page on the state of the application, each
    with what it reads from the page, the clock or the random stream:
    the player form, the gallery, the change detection and the
    generation of teams.  [regenerateTeams], the import, the sample
    players and the storage are not among them. *)
Inductive pageStep : App → App → Prop :=
  | stepAddPlayer form now currentTeamCount currentPlayerSelection app app' :
      addPlayer form now currentTeamCount currentPlayerSelection app = Some app' →
      pageStep app app'
  | stepRemovePlayer playerId app : pageStep app (removePlayer playerId app)
  | stepEditPlayer playerId app : pageStep app (editPlayer playerId app)
  | stepUpdatePlayer form app app' : updatePlayer form app = Some app' → pageStep app app'
  | stepCancelEdit app : pageStep app (cancelEdit app)
  | stepShufflePlayers app g : pageStep app (shufflePlayers app g).1
  | stepClearPlayers confirmed app : pageStep app (clearPlayers confirmed app)
  | stepTogglePlayerSelection playerId app : pageStep app (togglePlayerSelection playerId app)
  | stepSelectAllPlayers app : pageStep app (selectAllPlayers app)
  | stepDeselectAllPlayers app : pageStep app (deselectAllPlayers app)
  | stepCheckTeamSettingsChange currentTeamCount currentPlayerSelection app :
      pageStep app (checkTeamSettingsChange currentTeamCount currentPlayerSelection app)
  | stepGenerateTeams tieRoundsUp numTeams playerSelection app g app' :
      (generateTeamsStep tieRoundsUp numTeams playerSelection app g).1 = Some app' →
      pageStep app app'.

(** What these operations keep: no object is twice in the gallery;
    the objects of the gallery, of the teams and of the edit are in
    use, and every object in use is as the form makes them; every
    player of the gallery has a [selected] flag; the teams respect the
    slot caps; and where there are teams, the player count of the last
    generation is a positive number. *)
Definition sound (app : App) : Prop :=
  NoDup (appPlayers app)
  ∧ allocated app
  ∧ (∀ r, r < appNext app → coherent (appHeap app r))
  ∧ (∀ r, r ∈ appPlayers app → is_Some (appSelected app !! r))
  ∧ (∀ r, r ∈ placed (appTeams app) → r < appNext app)
  ∧ (∀ r, playerBeingEdited app = Some r → r < appNext app)
  ∧ Forall withinCaps (appTeams app)
  ∧ (appTeams app ≠ [] →
     ∃ count, lastGenerationPlayerCount app = Some count ∧ (0 < count)%Z).

(** * Proofs *)

(** ** Size planner *)

Section Sizes.
Variables baseSize extraPlayers : Z.

Lemma sumZ_app (l k : list Z) : sumZ (l ++ k) = (sumZ l + sumZ k)%Z.
Proof. unfold sumZ. induction l as [|x l IH]; simpl; lia. Qed.

Lemma sumZ_quota (n : nat) :
  (0 ≤ extraPlayers)%Z →
  sumZ (teamQuota baseSize extraPlayers <$> seq 0 n)
  = (Z.of_nat n * baseSize + Z.min (Z.of_nat n) extraPlayers)%Z.
Proof.
  intros Hextra. induction n as [|n IH].
  - simpl. lia.
  - rewrite seq_S, fmap_app, sumZ_app, IH. simpl. unfold teamQuota.
    case_bool_decide; lia.
Qed.

Lemma pushTeamSizes_fmap (count i : nat) (acc : list Z) :
  pushTeamSizes baseSize extraPlayers i count acc
  = acc ++ (teamQuota baseSize extraPlayers <$> seq i count).
Proof.
  revert i acc. induction count as [|count IH]; intros i acc; simpl.
  - by rewrite app_nil_r.
  - rewrite IH, <- app_assoc. done.
Qed.
End Sizes.

(** [generateTeams] computes the sizes that [calculateTeamSizes] returns. *)
Lemma pushTeamSizes_calculateTeamSizes (totalPlayers numTeams : Z) :
  pushTeamSizes (totalPlayers `div` numTeams) (totalPlayers `rem` numTeams)
    0 (Z.to_nat numTeams) []
  = calculateTeamSizes totalPlayers numTeams.
Proof. by rewrite pushTeamSizes_fmap. Qed.

Lemma calculateTeamSizes_length (totalPlayers numTeams : Z) :
  length (calculateTeamSizes totalPlayers numTeams) = Z.to_nat numTeams.
Proof. unfold calculateTeamSizes. by rewrite length_fmap, length_seq. Qed.

Lemma calculateTeamSizes_lookup (totalPlayers numTeams : Z) (i : nat) :
  i < Z.to_nat numTeams →
  calculateTeamSizes totalPlayers numTeams !! i
  = Some (totalPlayers `div` numTeams
          + (if bool_decide (Z.of_nat i < totalPlayers `rem` numTeams)%Z then 1 else 0))%Z.
Proof.
  intros Hi. unfold calculateTeamSizes.
  rewrite list_lookup_fmap, lookup_seq_lt by done. done.
Qed.

(** C3: for [totalPlayers >= 0] and [numTeams >= 1], [calculateTeamSizes]
    returns exactly [numTeams] sizes, none negative; the team at index
    [i] gets [floor(totalPlayers / numTeams) + 1] when
    [i < totalPlayers mod numTeams] and [floor(totalPlayers / numTeams)]
    otherwise; the sizes sum to [totalPlayers]; any two sizes differ by
    at most one; the sizes [generateTeams] computes inline are the
    same; and 9 players in 3 teams give [3; 3; 3], 23 players in 3
    teams give [8; 8; 7]. *)
Theorem calculateTeamSizes_fair (totalPlayers numTeams : Z)
    (Htotal : (0 ≤ totalPlayers)%Z) (Hteams : (1 ≤ numTeams)%Z) :
  let sizes := calculateTeamSizes totalPlayers numTeams in
  Z.of_nat (length sizes) = numTeams
  ∧ (∀ (i : nat) size, sizes !! i = Some size →
       (0 ≤ size)%Z
       ∧ size = (if bool_decide (Z.of_nat i < totalPlayers `mod` numTeams)%Z
                 then totalPlayers `div` numTeams + 1
                 else totalPlayers `div` numTeams)%Z)
  ∧ sumZ sizes = totalPlayers
  ∧ (∀ (i j : nat) a b, sizes !! i = Some a → sizes !! j = Some b → (a - b ≤ 1)%Z)
  ∧ pushTeamSizes (totalPlayers `div` numTeams) (totalPlayers `rem` numTeams)
      0 (Z.to_nat numTeams) [] = sizes
  ∧ calculateTeamSizes 9 3 = [3; 3; 3]%Z
  ∧ calculateTeamSizes 23 3 = [8; 8; 7]%Z.
Proof.
  intros sizes.
  assert (Hrem : (totalPlayers `rem` numTeams = totalPlayers `mod` numTeams)%Z)
    by (apply Z.rem_mod_nonneg; lia).
  assert (Hmod : (0 ≤ totalPlayers `mod` numTeams < numTeams)%Z)
    by (apply Z.mod_pos_bound; lia).
  assert (Hdiv : (0 ≤ totalPlayers `div` numTeams)%Z)
    by (apply Z.div_pos; lia).
  assert (Hlookup : ∀ (i : nat) size, sizes !! i = Some size →
            size = (totalPlayers `div` numTeams
                    + (if bool_decide (Z.of_nat i < totalPlayers `mod` numTeams)%Z
                       then 1 else 0))%Z).
  { intros i size Hi. subst sizes.
    assert (i < Z.to_nat numTeams) as Hlt.
    { apply lookup_lt_Some in Hi. by rewrite calculateTeamSizes_length in Hi. }
    rewrite calculateTeamSizes_lookup, Hrem in Hi by done. congruence. }
  split_and!.
  - subst sizes. rewrite calculateTeamSizes_length. lia.
  - intros i size Hi. apply Hlookup in Hi. case_bool_decide; lia.
  - subst sizes. unfold calculateTeamSizes. rewrite sumZ_quota by lia.
    rewrite Hrem. pose proof (Z.div_mod totalPlayers numTeams). lia.
  - intros i j a b Hi Hj. apply Hlookup in Hi, Hj.
    repeat case_bool_decide; lia.
  - apply pushTeamSizes_calculateTeamSizes.
  - reflexivity.
  - reflexivity.
Qed.

Lemma calculateTeamSizes_fair_witness :
  (0 ≤ 23)%Z ∧ (1 ≤ 3)%Z
  ∧ Z.of_nat (length (calculateTeamSizes 23 3)) = 3%Z
  ∧ sumZ (calculateTeamSizes 23 3) = 23%Z.
Proof.
  assert (H0 : (0 ≤ 23)%Z) by lia. assert (H1 : (1 ≤ 3)%Z) by lia.
  pose proof (calculateTeamSizes_fair 23 3 H0 H1) as (Hlen & _ & Hsum & _).
  split_and!; [assumption | assumption | exact Hlen | exact Hsum].
Defined.

(** ** Ratings *)

(** C7: [getPlayerOverallRating] returns, when both stat blocks are
    present, the goalkeeper overall if the preferred position is GK and
    the outfield overall otherwise; the overall of the only block when
    exactly one is present; 75 when there is none.  The dual-role
    player preferring GK with overalls 90 and 78 is rated 90. *)
Theorem getPlayerOverallRating_cases (p : Player) :
  (∀ gk out, gkStats p = Some gk → outfieldStats p = Some out →
     getPlayerOverallRating p
     = if decide (preferredPosition p = GK) then overall gk else overall out)
  ∧ (∀ gk, gkStats p = Some gk → outfieldStats p = None →
       getPlayerOverallRating p = overall gk)
  ∧ (∀ out, gkStats p = None → outfieldStats p = Some out →
       getPlayerOverallRating p = overall out)
  ∧ (gkStats p = None → outfieldStats p = None → getPlayerOverallRating p = 75%Z)
  ∧ getPlayerOverallRating dualRole = 90%Z.
Proof.
  unfold getPlayerOverallRating. split_and!.
  - intros gk out -> ->. done.
  - intros gk -> ->. done.
  - intros out -> ->. done.
  - intros -> ->. done.
  - reflexivity.
Qed.

(** C8: [getPlayerRatingForPosition] returns the goalkeeper overall when
    the role is GK and the player has goalkeeper stats; in every other
    case the outfield overall when the player has outfield stats,
    whatever the role; the goalkeeper overall less 20, not below 40,
    exactly when the player has goalkeeper stats, no outfield stats and
    a role other than GK; 75 when there is no stat block.  The
    dual-role player of the example, rated for 'ST' or 'ATT', yields
    78. *)
Theorem getPlayerRatingForPosition_cases (p : Player) (role : string) :
  (∀ gk, role = GK → gkStats p = Some gk →
     getPlayerRatingForPosition p role = overall gk)
  ∧ (∀ out, role ≠ GK ∨ gkStats p = None → outfieldStats p = Some out →
       getPlayerRatingForPosition p role = overall out)
  ∧ (∀ gk, role ≠ GK → gkStats p = Some gk → outfieldStats p = None →
       getPlayerRatingForPosition p role = Z.max (overall gk - 20) 40)
  ∧ (gkStats p = None → outfieldStats p = None →
       getPlayerRatingForPosition p role = 75%Z)
  ∧ getPlayerRatingForPosition dualRole "ST" = 78%Z
  ∧ getPlayerRatingForPosition dualRole "ATT" = 78%Z
  ∧ getPlayerRatingForPosition (keeper 1 90) "ATT" = 70%Z
  ∧ getPlayerRatingForPosition (keeper 1 50) "ATT" = 40%Z.
Proof.
  unfold getPlayerRatingForPosition. split_and!.
  - intros gk -> ->. by rewrite decide_True.
  - intros out [Hrole | ->] ->.
    + by rewrite decide_False.
    + by destruct (decide _).
  - intros gk Hrole -> ->. by rewrite decide_False.
  - intros -> ->. by destruct (decide _).
  - reflexivity.
  - reflexivity.
  - reflexivity.
  - reflexivity.
Qed.

(** ** Numbers *)

(** Rounding picks one of the two multiples of the unit around [p],
    the nearer one. *)
Lemma roundMagnitude_cases (p : Z) :
  (0 ≤ p)%Z →
  let s := (Z.log2 p - 52)%Z in
  (s ≤ 0 ∧ roundMagnitude p = p)%Z
  ∨ (0 < s)%Z
    ∧ ∃ q r, (p = q * 2 ^ s + r ∧ 0 ≤ r < 2 ^ s ∧ 0 ≤ q
             ∧ (roundMagnitude p = q * 2 ^ s ∧ 2 * r ≤ 2 ^ s
                ∨ roundMagnitude p = (q + 1) * 2 ^ s ∧ 2 ^ s ≤ 2 * r))%Z.
Proof.
  intros Hp s. unfold roundMagnitude. fold s.
  case_bool_decide as Hs; [by left|]. right. split; [lia|].
  assert (Hpow : (0 < 2 ^ s)%Z) by (apply Z.pow_pos_nonneg; lia).
  assert (Hhalf : (2 ^ s = 2 * 2 ^ (s - 1))%Z).
  { rewrite <- Z.pow_succ_r by lia. f_equal. lia. }
  exists (p `div` 2 ^ s)%Z, (p `mod` 2 ^ s)%Z.
  pose proof (Z.div_mod p (2 ^ s)) as Hdiv.
  pose proof (Z.mod_pos_bound p (2 ^ s) Hpow) as Hmod.
  pose proof (Z.div_pos p (2 ^ s) Hp Hpow) as Hq.
  split; [lia|]. split; [done|]. split; [done|].
  destruct (bool_decide (2 ^ (s - 1) < p `mod` 2 ^ s)%Z) eqn:Hover; simpl.
  - apply bool_decide_eq_true in Hover. right. split; [done|lia].
  - apply bool_decide_eq_false in Hover.
    destruct (bool_decide (p `mod` 2 ^ s = 2 ^ (s - 1))%Z) eqn:Htie; simpl.
    + apply bool_decide_eq_true in Htie.
      destruct (Z.odd (p `div` 2 ^ s)); [right|left]; (split; [done|lia]).
    + apply bool_decide_eq_false in Htie. left. split; [done|lia].
Qed.

Lemma unit_below (p : Z) :
  (0 < p)%Z → (2 ^ (Z.log2 p - 52) * 2 ^ 52 ≤ p)%Z.
Proof.
  intros Hp. destruct (Z.log2_spec p Hp) as [Hlow _].
  destruct (decide (52 ≤ Z.log2 p)%Z) as [Hbig|Hsmall].
  - rewrite <- Z.pow_add_r by lia. replace (Z.log2 p - 52 + 52)%Z with (Z.log2 p) by lia.
    done.
  - rewrite Z.pow_neg_r by lia. lia.
Qed.

(** The relative error of rounding is at most [2^-53]. *)
Lemma roundMagnitude_error (p : Z) :
  (0 ≤ p)%Z → (Z.abs (roundMagnitude p - p) * resolution ≤ p)%Z.
Proof.
  intros Hp.
  destruct (roundMagnitude_cases p Hp) as [[_ ->]|[Hs (q & r & Hpq & Hr & Hq & Hround)]].
  { rewrite Z.sub_diag. simpl. done. }
  assert (0 < p)%Z as Hpos.
  { destruct (decide (p = 0%Z)) as [->|]; [simpl in Hs; lia|lia]. }
  pose proof (unit_below p Hpos) as Hunit.
  set (u := (2 ^ (Z.log2 p - 52))%Z) in *.
  change resolution with (2 * 2 ^ 52)%Z.
  destruct Hround as [[-> Hhalf]|[-> Hhalf]]; nia.
Qed.

Lemma roundMagnitude_nonneg (p : Z) : (0 ≤ p)%Z → (0 ≤ roundMagnitude p)%Z.
Proof.
  intros Hp.
  destruct (roundMagnitude_cases p Hp) as [[_ ->]|[Hs (q & r & Hpq & Hr & Hq & Hround)]];
    [done|].
  assert (0 < 2 ^ (Z.log2 p - 52))%Z by (apply Z.pow_pos_nonneg; lia).
  destruct Hround as [[-> _]|[-> _]]; nia.
Qed.

(** Rounding does not cross a multiple of the unit. *)
Lemma roundMagnitude_above (p m : Z) :
  (0 ≤ m ≤ p)%Z → ((0 < Z.log2 p - 52)%Z → (2 ^ (Z.log2 p - 52) | m)%Z) →
  (m ≤ roundMagnitude p)%Z.
Proof.
  intros [Hm Hmp] Hunit.
  destruct (roundMagnitude_cases p) as [[_ ->]|[Hs (q & r & Hpq & Hr & Hq & Hround)]];
    [lia|done|].
  destruct (Hunit Hs) as [k Hk].
  set (u := (2 ^ (Z.log2 p - 52))%Z) in *.
  assert (k ≤ q)%Z by nia.
  destruct Hround as [[-> _]|[-> _]]; nia.
Qed.

Lemma roundMagnitude_below (p m : Z) :
  (0 ≤ p ≤ m)%Z → ((0 < Z.log2 p - 52)%Z → (2 ^ (Z.log2 p - 52) | m)%Z) →
  (roundMagnitude p ≤ m)%Z.
Proof.
  intros [Hp Hpm] Hunit.
  destruct (roundMagnitude_cases p Hp) as [[_ ->]|[Hs (q & r & Hpq & Hr & Hq & Hround)]];
    [done|].
  destruct (Hunit Hs) as [k Hk].
  set (u := (2 ^ (Z.log2 p - 52))%Z) in *.
  destruct Hround as [[-> _]|[-> Hhalf]]; [nia|].
  assert (0 < r)%Z by nia.
  assert (q < k)%Z by nia. nia.
Qed.

Lemma roundDouble_nonneg (p : Z) : (0 ≤ p)%Z → roundDouble p = roundMagnitude p.
Proof.
  intros Hp. unfold roundDouble. rewrite Z.abs_eq by done.
  destruct (decide (p = 0%Z)) as [->|]; [done|].
  rewrite Z.sgn_pos by lia. lia.
Qed.

Lemma roundDouble_opp (p : Z) : roundDouble (- p) = (- roundDouble p)%Z.
Proof. unfold roundDouble. rewrite Z.sgn_opp, Z.abs_opp. lia. Qed.

(** A number of at most 53 significant bits is a double. *)
Lemma roundDouble_exact (p : Z) :
  ((0 < Z.log2 (Z.abs p) - 52)%Z → (2 ^ (Z.log2 (Z.abs p) - 52) | p)%Z) →
  roundDouble p = p.
Proof.
  intros Hdiv.
  assert (Hmag : ∀ x, (0 ≤ x)%Z →
            ((0 < Z.log2 x - 52)%Z → (2 ^ (Z.log2 x - 52) | x)%Z) → roundMagnitude x = x).
  { intros x Hx Hunit. apply Z.le_antisymm.
    - by apply roundMagnitude_below.
    - by apply roundMagnitude_above. }
  unfold roundDouble. rewrite Hmag; [lia|lia|].
  intros Hs. by apply Z.divide_abs_r, Hdiv.
Qed.

(** The unit of a number below [2 ^ (53 + k)] divides the multiples of
    [2 ^ k]. *)
Lemma unit_divide (p m k : Z) :
  (0 < p < 2 ^ (53 + k))%Z → (0 ≤ k)%Z → (0 < Z.log2 p - 52)%Z →
  (2 ^ (Z.log2 p - 52) | m * 2 ^ k)%Z.
Proof.
  intros [Hp Hbound] Hk Hs.
  apply Z.log2_lt_pow2 in Hbound; [|done].
  apply Z.divide_mul_r.
  exists (2 ^ (k - (Z.log2 p - 52)))%Z.
  rewrite <- Z.pow_add_r by lia. f_equal. lia.
Qed.

(** The rounded product [d / 2^53 * n] stays below [n]. *)
Lemma roundDouble_product (d n : Z) :
  (0 ≤ d < resolution)%Z → (1 ≤ n)%Z →
  (0 ≤ roundDouble (d * n) < n * resolution)%Z.
Proof.
  intros Hd Hn.
  assert (HR : (0 < resolution)%Z) by reflexivity.
  assert (Hp : (0 ≤ d * n)%Z) by nia.
  rewrite roundDouble_nonneg by done.
  pose proof (roundMagnitude_nonneg _ Hp).
  pose proof (roundMagnitude_error _ Hp) as Herr.
  split; [done|]. nia.
Qed.

(** For [n] up to [2^52], a product that lies less than [n] above
    [j * 2^53] is rounded to a number of which [j] is the floor. *)
Lemma roundDouble_floor (p j n : Z) :
  (1 ≤ n)%Z → (2 * n ≤ resolution)%Z → (0 ≤ j < n)%Z →
  (j * resolution ≤ p < j * resolution + n)%Z →
  (roundDouble p `div` resolution = j)%Z.
Proof.
  intros Hn Hsmall Hj Hp.
  assert (HR : (0 < resolution)%Z) by reflexivity.
  assert (Hpos : (0 ≤ p)%Z) by nia.
  rewrite roundDouble_nonneg by done.
  pose proof (roundMagnitude_error _ Hpos) as Herr.
  assert (Hlow : (j * resolution ≤ roundMagnitude p)%Z).
  { apply roundMagnitude_above; [nia|]. intros Hs.
    apply (unit_divide p j 53); [|done..].
    assert (p ≠ 0)%Z by (intros ->; simpl in Hs; lia).
    split; [lia|]. change (2 ^ (53 + 53))%Z with (resolution * resolution)%Z. nia. }
  symmetry. apply (Z.div_unique_pos _ _ _ (roundMagnitude p - j * resolution)); nia.
Qed.

(** ** Randomness: draws and shuffles *)

Lemma bindR_run {A B} (m : Rand A) (k : A → Rand B) (g : Rng) :
  bindR m k g = k (m g).1 (m g).2.
Proof. unfold bindR. by destruct (m g). Qed.

Lemma mathRandom_range (g : Rng) : (0 ≤ (mathRandom g).1 < resolution)%Z.
Proof. simpl. apply Z.mod_pos_bound. reflexivity. Qed.

(** [Math.floor(Math.random() * n)] is an index below [n]. *)
Lemma randomBelow_range (n : Z) (g : Rng) :
  (1 ≤ n)%Z → (0 ≤ (randomBelow n g).1 < n)%Z.
Proof.
  intros Hn. unfold randomBelow. rewrite bindR_run. simpl.
  pose proof (mathRandom_range g) as Hd. simpl in Hd.
  set (d := (draws g (consumed g) `mod` resolution)%Z) in *.
  assert (0 < resolution)%Z by reflexivity.
  pose proof (roundDouble_product d n Hd Hn) as Hround.
  split.
  - apply Z.div_pos; lia.
  - apply Z.div_lt_upper_bound; lia.
Qed.

Lemma swap_Permutation {A} (i j : nat) (l : list A) : swap i j l ≡ₚ l.
Proof.
  unfold swap.
  destruct (l !! i) as [x|] eqn:Hi; [|done].
  destruct (l !! j) as [y|] eqn:Hj; [|done].
  by apply Permutation_insert_swap.
Qed.

Lemma shuffleLoop_Permutation {A} (i : nat) (l : list A) (g : Rng) :
  (shuffleLoop i l g).1 ≡ₚ l.
Proof.
  revert l g. induction i as [|i IH]; intros l g; [done|].
  cbn [shuffleLoop]. rewrite bindR_run, IH. apply swap_Permutation.
Qed.

(** A shuffle returns the elements it was given. *)
Lemma shuffleArray_Permutation {A} (l : list A) (g : Rng) :
  (shuffleArray l g).1 ≡ₚ l.
Proof. apply shuffleLoop_Permutation. Qed.

(** ** Sorting *)

Lemma insertSorted_Permutation {A} (behind : A → A → bool) (x : A) (l : list A) :
  insertSorted behind x l ≡ₚ x :: l.
Proof.
  induction l as [|y l IH]; [done|]. simpl.
  destruct (behind x y); [|done].
  by rewrite IH, Permutation_swap.
Qed.

(** A sort returns the elements it was given. *)
Lemma stableSort_Permutation {A} (behind : A → A → bool) (l : list A) :
  stableSort behind l ≡ₚ l.
Proof.
  induction l as [|x l IH]; [done|].
  unfold stableSort in *. simpl. by rewrite insertSorted_Permutation, IH.
Qed.

(** Sorted by a size, smallest first: the first element is a smallest. *)
Lemma stableSort_head_least {A} (size : A → nat) (l : list A) (first : A) (rest : list A) :
  stableSort (λ a b, bool_decide (size b < size a)) l = first :: rest →
  ∀ x, x ∈ l → size first ≤ size x.
Proof.
  revert first rest. induction l as [|y l IH]; intros first rest Hsort x Hx.
  { by apply elem_of_nil in Hx. }
  unfold stableSort in *. simpl in Hsort.
  destruct (foldr _ [] l) as [|c sorted] eqn:Hl.
  - assert (l = []) as ->.
    { apply Permutation_nil_r. rewrite <- Hl. symmetry.
      apply (stableSort_Permutation _ l). }
    simpl in Hsort. simplify_eq. apply list_elem_of_singleton in Hx. by subst.
  - specialize (IH c sorted eq_refl). simpl in Hsort.
    case_bool_decide; simplify_eq.
    + apply elem_of_cons in Hx as [->|Hx]; [lia|]. by apply IH.
    + apply elem_of_cons in Hx as [->|Hx]; [lia|].
      specialize (IH x Hx). lia.
Qed.

Lemma sortPlayers_Permutation (h : Heap) (l : list ref) : sortPlayers h l ≡ₚ l.
Proof. apply stableSort_Permutation. Qed.

(** ** The heap *)

Lemma sameIdentity_refl (p : Player) : sameIdentity p p.
Proof. by repeat split. Qed.

Lemma sameIdentity_trans (p q r : Player) :
  sameIdentity p q → sameIdentity q r → sameIdentity p r.
Proof. unfold sameIdentity. intros (?&?&?&?&?&?) (?&?&?&?&?&?). split_and!; congruence. Qed.

Lemma update_eq (pl : ref) (f : Player → Player) (h : Heap) :
  update pl f h pl = f (h pl).
Proof. unfold update. by rewrite decide_True. Qed.

Lemma update_ne (pl r : ref) (f : Player → Player) (h : Heap) :
  r ≠ pl → update pl f h r = h r.
Proof. intros. unfold update. by rewrite decide_False. Qed.

Lemma update_sameIdentity (pl : ref) (f : Player → Player) (h : Heap) :
  (∀ p, sameIdentity p (f p)) → ∀ r, sameIdentity (h r) (update pl f h r).
Proof.
  intros Hf r. unfold update. destruct (decide (r = pl)) as [->|]; [apply Hf|].
  apply sameIdentity_refl.
Qed.

Lemma setAssignedPosition_sameIdentity (pos : string) (p : Player) :
  sameIdentity p (setAssignedPosition pos p).
Proof. by repeat split. Qed.

Lemma deleteTempRatingAdjustment_sameIdentity (p : Player) :
  sameIdentity p (deleteTempRatingAdjustment p).
Proof. by repeat split. Qed.

Lemma sameIdentity_rating (p q : Player) :
  sameIdentity p q → getPlayerOverallRating q = getPlayerOverallRating p.
Proof.
  intros (_&_&_&Hpref&Hout&Hgk). unfold getPlayerOverallRating.
  by rewrite Hpref, Hout, Hgk.
Qed.

(** ** Joining a team *)

Lemma placed_app (ts ts' : list Team) : placed (ts ++ ts') = placed ts ++ placed ts'.
Proof. unfold placed. by rewrite fmap_app, concat_app. Qed.

Lemma placed_cons (team : Team) (ts : list Team) :
  placed (team :: ts) = players team ++ placed ts.
Proof. done. Qed.

Lemma elem_of_placed (ts : list Team) (r : ref) :
  r ∈ placed ts ↔ ∃ team, team ∈ ts ∧ r ∈ players team.
Proof.
  induction ts as [|team ts IH].
  - split; [by intros ?%elem_of_nil|]. by intros (? & ?%elem_of_nil & _).
  - rewrite placed_cons, elem_of_app, IH. split.
    + intros [?|(team' & ? & ?)].
      * exists team. split; [by left|done].
      * exists team'. split; [by right|done].
    + intros (team' & [->|?]%elem_of_cons & ?); [by left|].
      right. by exists team'.
Qed.

Lemma placed_insert (ts : list Team) (i : nat) (team team' : Team) (pl : ref) :
  ts !! i = Some team →
  players team' = players team ++ [pl] →
  placed (<[i := team']> ts) ≡ₚ pl :: placed ts.
Proof.
  intros Hi Hplayers.
  apply list_elem_of_split_length in Hi as (l1 & l2 & -> & ->).
  rewrite insert_app_r_alt, Nat.sub_diag by lia. simpl.
  rewrite !placed_app, !placed_cons, Hplayers.
  solve_Permutation.
Qed.

Lemma places_placed (pl : ref) (st st' : Run) :
  places pl st st' → placed (teams st') ≡ₚ pl :: placed (teams st).
Proof.
  intros (i & team & slot & Hi & _ & -> & _). by eapply placed_insert.
Qed.

Lemma places_length (pl : ref) (st st' : Run) :
  places pl st st' → length (teams st') = length (teams st).
Proof. intros (i & team & slot & Hi & _ & -> & _). by rewrite length_insert. Qed.

Lemma slotted_slotFormation (slot : Slot) (pl : ref) (f : Formation) :
  slotted (slotFormation slot pl f) ≤ S (slotted f).
Proof.
  unfold slotted. destruct slot as [|[]|]; simpl; rewrite ?length_app; simpl;
    destruct (goalkeeper f); simpl; lia.
Qed.

Lemma slots_slotFormation (slot : Slot) (pl r : ref) (f : Formation) :
  r ∈ slots (slotFormation slot pl f) → r = pl ∨ r ∈ slots f.
Proof.
  unfold slots. intros Hr. destruct slot as [|line|]; simpl in Hr.
  - apply elem_of_cons in Hr as [->|Hr]; [by left|].
    right. apply elem_of_app. by right.
  - destruct line; simpl in Hr;
      rewrite !elem_of_app in Hr; rewrite !elem_of_app;
      rewrite list_elem_of_singleton in Hr; tauto.
  - by right.
Qed.

Lemma pushPlayer_withinCaps (slot : Slot) (pl : ref) (team : Team) :
  withinCaps team →
  (∀ line, slot = inLine line → hasRoom line team) →
  withinCaps (pushPlayer pl (slotFormation slot pl (formation team)) team).
Proof.
  intros (Hgk & Hdef & Hmid & Hfwd & Hslots & Hheld) Hroom.
  pose proof (slotted_slotFormation slot pl (formation team)) as Hslotted.
  unfold withinCaps. simpl. rewrite length_app. simpl.
  split_and!; [| | | |lia|].
  - destruct slot as [|[]|]; simpl; done.
  - destruct slot as [|[]|]; simpl; try done.
    specialize (Hroom defender eq_refl). apply bool_decide_unpack in Hroom.
    simpl in Hroom. rewrite length_app. simpl. lia.
  - destruct slot as [|[]|]; simpl; try done.
    specialize (Hroom midfielder eq_refl). apply bool_decide_unpack in Hroom.
    simpl in Hroom. rewrite length_app. simpl. lia.
  - destruct slot as [|[]|]; simpl; try done.
    specialize (Hroom forward eq_refl). apply bool_decide_unpack in Hroom.
    simpl in Hroom. rewrite length_app. simpl. lia.
  - intros r [->|Hr]%slots_slotFormation; apply elem_of_app.
    + right. by apply list_elem_of_singleton.
    + left. by apply Hheld.
Qed.

Section Invariant.
Variables (numTeams : Z) (h0 : Heap) (input : list ref).

Lemma places_wellFormed (pl : ref) (st st' : Run) :
  wellFormed numTeams h0 input st →
  places pl st st' →
  pl ∈ input →
  wellFormed numTeams h0 input st'.
Proof.
  intros [Hlen Hcaps Hheap Hin Hassigned Hplaced] Hplaces Hpl.
  pose proof (places_placed _ _ _ Hplaces) as Hperm.
  pose proof (places_length _ _ _ Hplaces) as Hlen'.
  destruct Hplaces as (i & team & slot & Hi & Hroom & Hteams & Hset & Hsame & _ & _).
  assert (Hid : id (heap st pl) = id (h0 pl)).
  { symmetry. apply (Hheap pl). }
  split.
  - congruence.
  - rewrite Hteams. apply Forall_insert; [done|].
    apply pushPlayer_withinCaps; [|done].
    eapply Forall_lookup_1; eauto.
  - intros r. eapply sameIdentity_trans; [apply Hheap|apply Hsame].
  - intros r. rewrite Hperm. intros [->|?]%elem_of_cons; auto.
  - intros r. rewrite Hperm, Hset, Hid. intros [->|?]%elem_of_cons.
    + by apply elem_of_union_r, elem_of_singleton.
    + apply elem_of_union_l. auto.
  - intros j. rewrite Hset, Hid. intros [Hj| ->%elem_of_singleton]%elem_of_union.
    + destruct (Hplaced j Hj) as (r & Hr & <-). exists r. split; [|done].
      rewrite Hperm. by apply elem_of_cons; right.
    + exists pl. split; [|done]. rewrite Hperm. by apply elem_of_cons; left.
Qed.

Lemma places_distinctIds (pl : ref) (st st' : Run) :
  wellFormed numTeams h0 input st →
  distinctIds h0 (teams st) →
  places pl st st' →
  id (h0 pl) ∉ assignedPlayers st →
  distinctIds h0 (teams st').
Proof.
  intros Hwf Hdistinct Hplaces Hfresh. unfold distinctIds in *.
  rewrite (places_placed _ _ _ Hplaces). simpl.
  apply NoDup_cons. split; [|done].
  intros (r & Hid & Hr)%list_elem_of_fmap.
  apply Hfresh. rewrite Hid. by apply (wf_assigned _ _ _ _ Hwf).
Qed.
End Invariant.

(** ** Players joining one after the other *)

Lemma dealt_placed (l : list ref) (st st' : Run) :
  dealt l st st' → placed (teams st') ≡ₚ l ++ placed (teams st).
Proof.
  induction 1 as [|pl l st st' st'' Hplaces _ IH]; [done|].
  rewrite IH, (places_placed _ _ _ Hplaces). simpl. by rewrite Permutation_middle.
Qed.

Lemma dealt_cursor (l : list ref) (st st' : Run) :
  dealt l st st' → currentTeam st' = currentTeam st ∧ direction st' = direction st.
Proof.
  induction 1 as [|pl l st st' st'' Hplaces _ [IH1 IH2]]; [done|].
  destruct Hplaces as (_ & _ & _ & _ & _ & _ & _ & _ & Hcur & Hdir).
  split; congruence.
Qed.

Section Dealing.
Variables (numTeams : Z) (h0 : Heap) (input : list ref).

Lemma wf_id (st : Run) (r : ref) :
  wellFormed numTeams h0 input st → id (heap st r) = id (h0 r).
Proof. intros Hwf. symmetry. apply (wf_heap _ _ _ _ Hwf r). Qed.

Lemma dealt_wellFormed (l : list ref) (st st' : Run) :
  dealt l st st' →
  wellFormed numTeams h0 input st →
  (∀ r, r ∈ l → r ∈ input) →
  wellFormed numTeams h0 input st'.
Proof.
  induction 1 as [|pl l st st' st'' Hplaces _ IH]; intros Hwf Hl; [done|].
  apply IH.
  - eapply places_wellFormed; eauto. apply Hl. by left.
  - intros r Hr. apply Hl. by right.
Qed.

Lemma dealt_distinctIds (l : list ref) (st st' : Run) :
  dealt l st st' →
  wellFormed numTeams h0 input st →
  (∀ r, r ∈ l → r ∈ input) →
  distinctIds h0 (teams st) →
  NoDup ((λ r, id (h0 r)) <$> l) →
  (∀ r, r ∈ l → id (h0 r) ∉ assignedPlayers st) →
  distinctIds h0 (teams st').
Proof.
  induction 1 as [|pl l st st' st'' Hplaces _ IH];
    intros Hwf Hl Hdistinct Hnodup Hfresh; [done|].
  rewrite fmap_cons in Hnodup. apply NoDup_cons in Hnodup as [Hpl Hnodup].
  assert (Hin : pl ∈ input) by (apply Hl; by left).
  apply IH.
  - eapply places_wellFormed; eauto.
  - intros r Hr. apply Hl. by right.
  - eapply places_distinctIds; eauto. apply Hfresh. by left.
  - done.
  - intros r Hr.
    destruct Hplaces as (_ & _ & _ & _ & _ & _ & Hset & _).
    rewrite Hset. intros [Hold|Hnew%elem_of_singleton]%elem_of_union.
    + apply (Hfresh r); [by right|done].
    + apply Hpl. apply list_elem_of_fmap. exists r. split; [|done].
      rewrite Hnew. symmetry. by apply wf_id.
Qed.
End Dealing.

(** ** Phase 1 *)

Lemma assignGoalkeeper_places (st st' : Run) (pl : ref) (i : nat) :
  assignGoalkeeper st pl i = Some st' → places pl st st'.
Proof.
  unfold assignGoalkeeper. intros Hst.
  destruct (teams st !! i) as [team|] eqn:Hi; simplify_eq/=.
  exists i, team, inGoal. simpl. split_and!; try done.
  apply update_sameIdentity, setAssignedPosition_sameIdentity.
Qed.

Lemma keeperDealt_update (h : Heap) (pl : ref) (team : Team) :
  keeperDealt h team → keeperDealt (update pl (setAssignedPosition GK) h) team.
Proof.
  unfold keeperDealt. destruct (goalkeeper (formation team)) as [g|]; [|done].
  intros [Hplayers Hpos]. split; [done|].
  destruct (decide (g = pl)) as [->|Hne].
  - by rewrite update_eq.
  - by rewrite update_ne.
Qed.

(** The goalkeeper loop never raises when the team order holds indices
    of teams; over distinct untouched teams it leaves every team with
    its keeper alone or with nobody. *)
Lemma goalkeeperLoop_dealt (teamOrder : list nat) (shuffledGKs : list ref) (st : Run) :
  NoDup teamOrder →
  (∀ i, i ∈ teamOrder → ∃ team, teams st !! i = Some team ∧ untouched team) →
  Forall (keeperDealt (heap st)) (teams st) →
  ∃ st', goalkeeperLoop teamOrder shuffledGKs st = Some st'
         ∧ dealt (take (length teamOrder) shuffledGKs) st st'
         ∧ Forall (keeperDealt (heap st')) (teams st').
Proof.
  revert shuffledGKs st.
  induction teamOrder as [|i teamOrder IH]; intros shuffledGKs st Hnodup Hfresh Hdealt.
  { exists st. split_and!; [done|constructor|done]. }
  destruct shuffledGKs as [|pl shuffledGKs].
  { exists st. split_and!; [done|constructor|done]. }
  apply NoDup_cons in Hnodup as [Hi Hnodup].
  destruct (Hfresh i) as (team & Hteam & Hplayers & Hgk); [by left|].
  cbn [goalkeeperLoop length take].
  destruct (assignGoalkeeper st pl i) as [st1|] eqn:Hst1;
    [|by unfold assignGoalkeeper in Hst1; rewrite Hteam in Hst1].
  pose proof (assignGoalkeeper_places _ _ _ _ Hst1) as Hplaces.
  unfold assignGoalkeeper in Hst1. rewrite Hteam in Hst1. simplify_eq/=.
  match goal with |- context [goalkeeperLoop _ _ ?s] => set (st1 := s) in * end.
  destruct (IH shuffledGKs st1) as (st' & Hloop & Hrest & Hshape); [done| | |].
  - intros j Hj. destruct (Hfresh j) as (team' & Hteam' & Huntouched); [by right|].
    exists team'. split; [|done]. subst st1. simpl.
    rewrite list_lookup_insert_ne; [done|]. intros ->. done.
  - subst st1. simpl. apply Forall_insert.
    + eapply Forall_impl; [exact Hdealt|]. intros t. apply keeperDealt_update.
    + unfold keeperDealt. simpl. rewrite Hplayers. split; [done|]. by rewrite update_eq.
  - exists st'. split_and!; [done| |done]. econstructor; eauto.
Qed.

Lemma keeperDealt_placed (h : Heap) (ts : list Team) :
  Forall (keeperDealt h) ts → placed ts = keepers ts.
Proof.
  induction 1 as [|team ts Hteam _ IH]; [done|].
  rewrite placed_cons, IH. unfold keepers, keeperDealt in *. simpl.
  destruct (goalkeeper (formation team)) as [g|]; simpl.
  - destruct Hteam as [-> _]. done.
  - by rewrite Hteam.
Qed.

Lemma elem_of_keepers (ts : list Team) (g : ref) :
  g ∈ keepers ts ↔ ∃ team, team ∈ ts ∧ goalkeeper (formation team) = Some g.
Proof. unfold keepers. rewrite list_elem_of_omap. naive_solver. Qed.

(** ** The first state of a run *)

Lemma startRun_teams_lookup (numTeams : Z) (sizes : list Z) (h : Heap) (start coin : Z)
    (i : nat) :
  i < Z.to_nat numTeams →
  teams (startRun numTeams sizes h start coin) !! i = Some (newTeam sizes i).
Proof. intros Hi. simpl. rewrite list_lookup_fmap, lookup_seq_lt by done. done. Qed.

Lemma startRun_untouched (numTeams : Z) (sizes : list Z) (h : Heap) (start coin : Z)
    (team : Team) :
  team ∈ teams (startRun numTeams sizes h start coin) →
  untouched team ∧ withinCaps team.
Proof.
  simpl. intros (i & -> & _)%list_elem_of_fmap. split; [done|].
  unfold withinCaps, slotted, slots. simpl.
  split_and!; try lia. by intros pl ?%elem_of_nil.
Qed.

Lemma startRun_placed (numTeams : Z) (sizes : list Z) (h : Heap) (start coin : Z) :
  placed (teams (startRun numTeams sizes h start coin)) = [].
Proof.
  simpl. generalize (seq 0 (Z.to_nat numTeams)). intros l.
  induction l as [|i l IH]; [done|]. by rewrite fmap_cons, placed_cons, IH.
Qed.

Lemma startRun_wellFormed (numTeams : Z) (sizes : list Z) (h : Heap) (input : list ref)
    (start coin : Z) :
  wellFormed numTeams h input (startRun numTeams sizes h start coin).
Proof.
  split.
  - simpl. by rewrite length_fmap, length_seq.
  - apply Forall_forall. intros team Hteam. by apply startRun_untouched in Hteam as [_ ?].
  - intros r. apply sameIdentity_refl.
  - intros r. rewrite startRun_placed. by intros ?%elem_of_nil.
  - intros r. rewrite startRun_placed. by intros ?%elem_of_nil.
  - intros i. simpl. by intros ?%elem_of_empty.
Qed.

Lemma NoDup_fmap_submseteq {A B} (f : A → B) (l k : list A) :
  l ⊆+ k → NoDup (f <$> k) → NoDup (f <$> l).
Proof.
  intros [k' Hk]%submseteq_Permutation. rewrite Hk, fmap_app.
  by intros (? & _ & _)%NoDup_app.
Qed.

Lemma elem_of_submseteq_take {A} (n : nat) (l : list A) (x : A) :
  x ∈ take n l → x ∈ l.
Proof. intros Hx. eapply elem_of_submseteq; [done|]. apply sublist_submseteq, sublist_take. Qed.

Lemma goalkeeperPhase_run (numTeams : Z) (sizes : list Z) (sorted : list ref)
    (h : Heap) (g : Rng) :
  ∃ start coin preferredGKs alternativeGKs teamOrder,
    (goalkeeperPhase numTeams sizes sorted h g).1
    = goalkeeperLoop teamOrder (preferredGKs ++ alternativeGKs)
        (startRun numTeams sizes h start coin)
    ∧ ((1 ≤ numTeams)%Z → (0 ≤ start < numTeams)%Z)
    ∧ preferredGKs
        ≡ₚ filter (λ pl, prefersGK (h pl)) (filter (λ pl, canKeep (h pl)) sorted)
    ∧ alternativeGKs
        ≡ₚ filter (λ pl, negb (prefersGK (h pl))) (filter (λ pl, canKeep (h pl)) sorted)
    ∧ teamOrder ≡ₚ seq 0 (Z.to_nat numTeams).
Proof.
  unfold goalkeeperPhase. repeat (rewrite bindR_run; cbv beta zeta).
  set (start := (randomBelow numTeams g).1).
  set (g1 := (randomBelow numTeams g).2).
  set (coin := (mathRandom g1).1).
  set (g2 := (mathRandom g1).2).
  assert (Hall : filter (λ pl, canKeep (h pl)
                          && unassigned (startRun numTeams sizes h start coin) pl) sorted
                 = filter (λ pl, canKeep (h pl)) sorted).
  { apply list_filter_iff. intros pl. unfold unassigned. simpl.
    rewrite andb_True, bool_decide_spec.
    split; [by intros [? _]|]. intros ?. split; [done|apply not_elem_of_empty]. }
  rewrite Hall.
  eexists start, coin, _, _, _. split; [reflexivity|].
  split_and!.
  - intros Hn. by apply randomBelow_range.
  - apply shuffleArray_Permutation.
  - apply shuffleArray_Permutation.
  - apply shuffleArray_Permutation.
Qed.

(** Phase 1 never raises, and what it leaves behind. *)
Lemma goalkeeperPhase_spec (numTeams : Z) (sizes : list Z) (input : list ref)
    (h : Heap) (g : Rng) :
  ∃ st1 preferredGKs alternativeGKs,
    (goalkeeperPhase numTeams sizes (sortPlayers h input) h g).1 = Some st1
    ∧ wellFormed numTeams h input st1
    ∧ (NoDup ((λ r, id (h r)) <$> input) → distinctIds h (teams st1))
    ∧ ((1 ≤ numTeams)%Z → cursorInRange numTeams st1)
    ∧ Forall (keeperDealt (heap st1)) (teams st1)
    ∧ keepers (teams st1)
        ≡ₚ take (Z.to_nat numTeams) (preferredGKs ++ alternativeGKs)
    ∧ preferredGKs
        ≡ₚ filter (λ pl, prefersGK (h pl)) (filter (λ pl, canKeep (h pl)) input)
    ∧ alternativeGKs
        ≡ₚ filter (λ pl, negb (prefersGK (h pl))) (filter (λ pl, canKeep (h pl)) input)
    ∧ ∃ start coin,
        dealt (take (Z.to_nat numTeams) (preferredGKs ++ alternativeGKs))
          (startRun numTeams sizes h start coin) st1.
Proof.
  destruct (goalkeeperPhase_run numTeams sizes (sortPlayers h input) h g)
    as (start & coin & pref & alt & order & Hrun & Hstart & Hpref & Halt & Horder).
  rewrite (sortPlayers_Permutation h input) in Hpref, Halt.
  set (st0 := startRun numTeams sizes h start coin) in *.
  destruct (goalkeeperLoop_dealt order (pref ++ alt) st0)
    as (st1 & Hloop & Hdealt & Hshape).
  { rewrite Horder. apply NoDup_seq. }
  { intros i. rewrite Horder, elem_of_seq. intros [_ Hi]. simpl in Hi.
    exists (newTeam sizes i). split; [by apply startRun_teams_lookup|done]. }
  { apply Forall_forall. intros team [[Hplayers Hgk] _]%startRun_untouched.
    unfold keeperDealt. by rewrite Hgk. }
  assert (Hlen : length order = Z.to_nat numTeams).
  { by rewrite Horder, length_seq. }
  rewrite Hlen in Hdealt.
  assert (Hgks : pref ++ alt ≡ₚ filter (λ pl, canKeep (h pl)) input).
  { rewrite Hpref, Halt.
    rewrite (list_filter_iff (λ pl, negb (prefersGK (h pl))) (λ pl, ¬ prefersGK (h pl)))
      by (intros; apply negb_True).
    apply filter_app_complement. }
  assert (Hsub : take (Z.to_nat numTeams) (pref ++ alt) ⊆+ input).
  { etrans; [apply sublist_submseteq, sublist_take|].
    rewrite Hgks. apply sublist_submseteq, sublist_filter. }
  assert (Hin : ∀ r, r ∈ take (Z.to_nat numTeams) (pref ++ alt) → r ∈ input).
  { intros r Hr. by eapply elem_of_submseteq. }
  pose proof (startRun_wellFormed numTeams sizes h input start coin) as Hwf0.
  exists st1, pref, alt. split_and!; try done.
  - by rewrite Hrun.
  - eapply dealt_wellFormed; eauto.
  - intros Hids. eapply dealt_distinctIds; eauto.
    + unfold distinctIds. subst st0. rewrite startRun_placed. constructor.
    + by eapply NoDup_fmap_submseteq.
    + intros r _. simpl. apply not_elem_of_empty.
  - intros Hn. unfold cursorInRange.
    destruct (dealt_cursor _ _ _ Hdealt) as [-> _]. simpl. auto.
  - rewrite <- (keeperDealt_placed _ _ Hshape), (dealt_placed _ _ _ Hdealt).
    subst st0. by rewrite startRun_placed, app_nil_r.
  - by exists start, coin.
Qed.

(** C5: when [k] of the players given to a run have 'GK' among their
    positions, phase 1 ends without raising with a keeper in exactly
    [min(numTeams, k)] teams; a team with a keeper holds that keeper,
    marked [assignedPosition = 'GK'], as its only player, and the
    other teams are empty; every keeper is one of the GK-capable
    players; a keeper who does not prefer GK is dealt only once every
    GK-capable player preferring GK has been dealt; so with at least
    [numTeams] players preferring GK every keeper prefers GK. *)
Theorem goalkeeperPhase_allocation (numTeams : Z) (sizes : list Z) (input : list ref)
    (h : Heap) (g : Rng) :
  let capable := filter (λ pl, canKeep (h pl)) input in
  let preferring := filter (λ pl, prefersGK (h pl)) capable in
  ∃ st1,
    (goalkeeperPhase numTeams sizes (sortPlayers h input) h g).1 = Some st1
    ∧ length (keepers (teams st1)) = Z.to_nat numTeams `min` length capable
    ∧ Forall (keeperDealt (heap st1)) (teams st1)
    ∧ (∀ kp, kp ∈ keepers (teams st1) → kp ∈ capable)
    ∧ (∀ kp, kp ∈ keepers (teams st1) → ¬ prefersGK (h kp) →
         ∀ pl, pl ∈ preferring → pl ∈ keepers (teams st1))
    ∧ (Z.to_nat numTeams ≤ length preferring →
         ∀ kp, kp ∈ keepers (teams st1) → prefersGK (h kp)).
Proof.
  intros capable preferring.
  destruct (goalkeeperPhase_spec numTeams sizes input h g)
    as (st1 & pref & alt & Hrun & _ & _ & _ & Hshape & Hkeepers & Hpref & Halt & _).
  fold capable in Hpref, Halt. fold preferring in Hpref.
  set (n := Z.to_nat numTeams) in *.
  assert (Hgks : pref ++ alt ≡ₚ capable).
  { rewrite Hpref, Halt. unfold preferring.
    rewrite (list_filter_iff (λ pl, negb (prefersGK (h pl))) (λ pl, ¬ prefersGK (h pl)))
      by (intros; apply negb_True).
    apply filter_app_complement. }
  assert (Hprefers : ∀ pl, pl ∈ pref → prefersGK (h pl)).
  { intros pl. rewrite Hpref. unfold preferring.
    by intros [? _]%list_elem_of_filter. }
  exists st1. split_and!; try done.
  - rewrite Hkeepers, length_take, Hgks. done.
  - intros kp. rewrite Hkeepers, <- Hgks. apply elem_of_submseteq_take.
  - intros kp. rewrite Hkeepers, take_app, elem_of_app.
    intros [Hkp|Hkp] Hnot pl Hpl.
    { destruct Hnot. apply Hprefers. by eapply elem_of_submseteq_take. }
    assert (length pref < n) as Hlt.
    { destruct (decide (length pref < n)); [done|].
      replace (n - length pref) with 0 in Hkp by lia. by apply elem_of_nil in Hkp. }
    rewrite Hkeepers, take_app, take_ge by lia. apply elem_of_app. left. by rewrite Hpref.
  - intros Hmany kp. rewrite Hkeepers, take_app_le.
    + intros Hkp. apply Hprefers. by eapply elem_of_submseteq_take.
    + by rewrite Hpref.
Qed.

(** ** Phase 2: the snake cursor *)

Lemma advance_heap (numTeams : Z) (st : Run) : heap (advance numTeams st) = heap st.
Proof. unfold advance. by repeat case_bool_decide. Qed.

Lemma advance_teams (numTeams : Z) (st : Run) : teams (advance numTeams st) = teams st.
Proof. unfold advance. by repeat case_bool_decide. Qed.

Lemma advance_assignedPlayers (numTeams : Z) (st : Run) :
  assignedPlayers (advance numTeams st) = assignedPlayers st.
Proof. unfold advance. by repeat case_bool_decide. Qed.

(** The clamp-and-flip rule, in closed form. *)
Lemma advance_cursor (numTeams : Z) (st : Run) :
  (1 ≤ numTeams)%Z →
  let next := (currentTeam st + direction st)%Z in
  currentTeam (advance numTeams st) = Z.max 0 (Z.min (numTeams - 1) next)
  ∧ direction (advance numTeams st)
    = (if bool_decide (numTeams ≤ next)%Z then -1
       else if bool_decide (next < 0)%Z then 1 else direction st)%Z.
Proof. intros Hn next. unfold advance. fold next. repeat case_bool_decide; simpl; split; lia. Qed.

(** Wherever the cursor was, one move leaves it on a team. *)
Lemma advance_in_range (numTeams : Z) (st : Run) :
  (1 ≤ numTeams)%Z → cursorInRange numTeams (advance numTeams st).
Proof.
  intros Hn. unfold cursorInRange.
  destruct (advance_cursor numTeams st Hn) as [-> _]. lia.
Qed.

Lemma teamAt_in_range (numTeams : Z) (st : Run) :
  length (teams st) = Z.to_nat numTeams →
  cursorInRange numTeams st →
  ∃ team, teamAt (teams st) (currentTeam st) = Some team
          ∧ teams st !! Z.to_nat (currentTeam st) = Some team.
Proof.
  intros Hlen [Hlo Hhi]. unfold teamAt. rewrite bool_decide_eq_true_2 by done.
  destruct (lookup_lt_is_Some_2 (teams st) (Z.to_nat (currentTeam st))) as [team Hteam].
  { lia. }
  eauto.
Qed.

Lemma draftInto_length (line : Line) (pl : ref) (team : Team) (st : Run) :
  length (teams (draftInto line pl team st)) = length (teams st).
Proof. simpl. by rewrite length_insert. Qed.

Section Cursor.
Variable numTeams : Z.
Hypothesis Hteams : (1 ≤ numTeams)%Z.

Lemma advance_onTeam (st : Run) :
  cursorOnTeam numTeams st → cursorOnTeam numTeams (advance numTeams st).
Proof using Hteams.
  intros [_ Hlen]. split; [by apply advance_in_range|]. by rewrite advance_teams.
Qed.

(** The while loop of the draft finds a team at every lookup. *)
Lemma draftLoop_onTeam (item : PoolItem) (attempts : nat) (st : Run) :
  cursorOnTeam numTeams st →
  ∃ st' assigned,
    draftLoop numTeams item attempts st = Some (st', assigned) ∧ cursorOnTeam numTeams st'.
Proof using Hteams.
  revert st. induction attempts as [|attempts IH]; intros st Hst.
  { by exists st, false. }
  destruct Hst as [Hcur Hlen].
  destruct (teamAt_in_range numTeams st Hlen Hcur) as (team & Hteam & _).
  cbn [draftLoop]. rewrite Hteam. simpl.
  destruct (reachedTargetSize team).
  { apply IH, advance_onTeam. by split. }
  destruct (chooseLine _ _ team) as [line|].
  - eexists _, true. split; [done|]. split; [done|].
    by rewrite draftInto_length.
  - apply IH, advance_onTeam. by split.
Qed.

Lemma draftItem_onTeam (item : PoolItem) (st : Run) :
  cursorOnTeam numTeams st →
  ∃ st', draftItem numTeams st item = Some st' ∧ cursorOnTeam numTeams st'.
Proof using Hteams.
  intros Hst. unfold draftItem. destruct (unassigned st (player item)); [|eauto].
  destruct (draftLoop_onTeam item (Z.to_nat numTeams) st Hst)
    as (st' & assigned & -> & Hst').
  simpl. destruct assigned; eauto using advance_onTeam.
Qed.

Lemma snakeDraft_onTeam (pool : list PoolItem) (st : Run) :
  cursorOnTeam numTeams st →
  ∃ st', snakeDraft numTeams pool st = Some st' ∧ cursorOnTeam numTeams st'.
Proof using Hteams.
  revert st. induction pool as [|item pool IH]; intros st Hst; [by eauto|].
  destruct (draftItem_onTeam item st Hst) as (st1 & Hitem & Hst1).
  unfold snakeDraft in *. cbn [forEachM]. rewrite Hitem. simpl. by apply IH.
Qed.
End Cursor.

(** C10: for [numTeams >= 1] the snake cursor stays within
    [0 .. numTeams-1] throughout phase 2.  The cursor drawn at the
    start is in range, and phase 1 hands it over unchanged with
    [numTeams] teams; a move is the clamp of [currentTeam + direction]
    to the range, with the direction flipped to [-1] on overflow and to
    [+1] on underflow, so it lands in range; from a cursor in range the
    lookup [teams[currentTeam]] finds a team, and the while loop of one
    pool item, and the draft of a whole pool, end without raising and
    with the cursor in range. *)
Theorem snakeDraft_cursor_in_range (numTeams : Z) (st : Run) (item : PoolItem)
    (attempts : nat) (pool : list PoolItem)
    (Hteams : (1 ≤ numTeams)%Z)
    (Hlen : length (teams st) = Z.to_nat numTeams)
    (Hcur : cursorInRange numTeams st) :
  (∀ g, 0 ≤ (randomBelow numTeams g).1 < numTeams)%Z
  ∧ (∀ sizes input h g, ∃ st1,
       (goalkeeperPhase numTeams sizes (sortPlayers h input) h g).1 = Some st1
       ∧ cursorInRange numTeams st1
       ∧ length (teams st1) = Z.to_nat numTeams)
  ∧ cursorInRange numTeams (advance numTeams st)
  ∧ currentTeam (advance numTeams st)
    = Z.max 0 (Z.min (numTeams - 1) (currentTeam st + direction st))
  ∧ direction (advance numTeams st)
    = (if bool_decide (numTeams ≤ currentTeam st + direction st)%Z then -1
       else if bool_decide (currentTeam st + direction st < 0)%Z then 1
       else direction st)%Z
  ∧ is_Some (teamAt (teams st) (currentTeam st))
  ∧ (∃ st' assigned,
       draftLoop numTeams item attempts st = Some (st', assigned)
       ∧ cursorInRange numTeams st'
       ∧ length (teams st') = Z.to_nat numTeams)
  ∧ (∃ st',
       snakeDraft numTeams pool st = Some st'
       ∧ cursorInRange numTeams st'
       ∧ length (teams st') = Z.to_nat numTeams).
Proof.
  split_and!.
  - intros g. by apply randomBelow_range.
  - intros sizes input h g.
    destruct (goalkeeperPhase_spec numTeams sizes input h g)
      as (st1 & _ & _ & Hrun & Hwf & _ & Hrange & _).
    exists st1. split_and!; [done|by apply Hrange|apply (wf_length _ _ _ _ Hwf)].
  - by apply advance_in_range.
  - by apply advance_cursor.
  - by apply advance_cursor.
  - destruct (teamAt_in_range numTeams st Hlen Hcur) as (team & -> & _). by eexists.
  - destruct (draftLoop_onTeam numTeams Hteams item attempts st) as (st' & b & ? & ? & ?);
      [done|]. by exists st', b.
  - destruct (snakeDraft_onTeam numTeams Hteams pool st) as (st' & ? & ? & ?); [done|].
    by exists st'.
Qed.

Lemma snakeDraft_cursor_in_range_witness :
  let st := startRun 1 [2%Z] (heapOf [outfielder 1 "CB" 70; outfielder 2 "ST" 80]) 0 0 in
  let pool := [ {| player := 0; priority := defender |};
                {| player := 1; priority := forward |} ] in
  (1 ≤ 1)%Z
  ∧ length (teams st) = Z.to_nat 1
  ∧ cursorInRange 1 st
  ∧ ∃ st', snakeDraft 1 pool st = Some st' ∧ cursorInRange 1 st'.
Proof.
  intros st pool.
  assert (H1 : (1 ≤ 1)%Z) by lia.
  assert (Hlen : length (teams st) = Z.to_nat 1) by reflexivity.
  assert (Hcur : cursorInRange 1 st) by (unfold cursorInRange; simpl; lia).
  pose proof (snakeDraft_cursor_in_range 1 st {| player := 0; priority := defender |}
                1 pool H1 Hlen Hcur) as (_ & _ & _ & _ & _ & _ & _ & st' & Hdraft & Hrange & _).
  split_and!; [exact H1|exact Hlen|exact Hcur|].
  exists st'. split; [exact Hdraft|exact Hrange].
Defined.

(** ** Phase 2: what the draft preserves *)

Lemma chooseLine_hasRoom (prio : Line) (p : Player) (team : Team) (line : Line) :
  chooseLine prio p team = Some line → hasRoom line team.
Proof.
  unfold chooseLine. intros Hline.
  repeat match type of Hline with
         | (if ?c then _ else _) = _ => destruct c eqn:?
         end; simplify_eq;
    repeat match goal with
           | H : _ && _ = true |- _ => apply andb_prop in H as [? _]
           end;
    by apply Is_true_true.
Qed.

Lemma draftInto_places (line : Line) (pl : ref) (team : Team) (st : Run) :
  teams st !! Z.to_nat (currentTeam st) = Some team →
  hasRoom line team →
  places pl st (draftInto line pl team st).
Proof.
  intros Hteam Hroom. exists (Z.to_nat (currentTeam st)), team, (inLine line).
  simpl. split_and!; try done.
  - by intros ? [= <-].
  - apply update_sameIdentity, setAssignedPosition_sameIdentity.
Qed.

Lemma teamAt_lookup (ts : list Team) (i : Z) (team : Team) :
  teamAt ts i = Some team → ts !! Z.to_nat i = Some team.
Proof. unfold teamAt. by case_bool_decide. Qed.

Section Draft.
Variables (numTeams : Z) (h0 : Heap) (input : list ref).

Lemma wellFormed_cursor (st st' : Run) :
  heap st' = heap st → teams st' = teams st →
  assignedPlayers st' = assignedPlayers st →
  wellFormed numTeams h0 input st → wellFormed numTeams h0 input st'.
Proof. intros Hh Ht Ha [??????]. split; rewrite ?Hh, ?Ht, ?Ha; done. Qed.

Lemma advance_wellFormed (st : Run) :
  wellFormed numTeams h0 input st → wellFormed numTeams h0 input (advance numTeams st).
Proof.
  apply wellFormed_cursor;
    [apply advance_heap|apply advance_teams|apply advance_assignedPlayers].
Qed.

Lemma places_kept (pl : ref) (st st' : Run) :
  wellFormed numTeams h0 input st →
  pl ∈ input →
  id (h0 pl) ∉ assignedPlayers st →
  places pl st st' →
  keeps numTeams h0 input st st'.
Proof.
  intros Hwf Hpl Hfresh Hplaces. split_and!.
  - by eapply places_wellFormed.
  - intros Hdistinct. by eapply places_distinctIds.
  - intros r Hr. rewrite (places_placed _ _ _ Hplaces). by right.
Qed.

Lemma draftLoop_kept (item : PoolItem) (attempts : nat) (st st' : Run) (assigned : bool) :
  draftLoop numTeams item attempts st = Some (st', assigned) →
  wellFormed numTeams h0 input st →
  player item ∈ input →
  id (h0 (player item)) ∉ assignedPlayers st →
  keeps numTeams h0 input st st'.
Proof.
  revert st. induction attempts as [|attempts IH]; intros st Hloop Hwf Hpl Hfresh.
  { simplify_eq/=. by split_and!. }
  cbn [draftLoop] in Hloop.
  destruct (teamAt (teams st) (currentTeam st)) as [team|] eqn:Hteam; [|done].
  simpl in Hloop.
  assert (Hmove : keeps numTeams h0 input (advance numTeams st) st'
                  → keeps numTeams h0 input st st').
  { unfold keeps. by rewrite advance_teams. }
  destruct (reachedTargetSize team).
  { apply Hmove, IH; [done|by apply advance_wellFormed|done|].
    by rewrite advance_assignedPlayers. }
  destruct (chooseLine _ _ team) as [line|] eqn:Hline.
  - simplify_eq. apply (places_kept (player item)); [done..|].
    apply draftInto_places; [by apply teamAt_lookup|by eapply chooseLine_hasRoom].
  - apply Hmove, IH; [done|by apply advance_wellFormed|done|].
    by rewrite advance_assignedPlayers.
Qed.

Lemma draftItem_kept (item : PoolItem) (st st' : Run) :
  draftItem numTeams st item = Some st' →
  wellFormed numTeams h0 input st →
  player item ∈ input →
  keeps numTeams h0 input st st'.
Proof.
  unfold draftItem, unassigned. intros Hitem Hwf Hpl.
  case_bool_decide as Hfresh; [|simplify_eq; by split_and!].
  rewrite (wf_id _ _ _ _ _ Hwf) in Hfresh.
  destruct (draftLoop numTeams item (Z.to_nat numTeams) st) as [[st1 assigned]|] eqn:Hloop;
    [|done].
  simpl in Hitem. simplify_eq.
  destruct (draftLoop_kept _ _ _ _ _ Hloop Hwf Hpl Hfresh) as (Hwf1 & Hdistinct & Hplaced).
  destruct assigned; [|by split_and!].
  unfold keeps. rewrite advance_teams. split_and!; [|done..].
  by apply advance_wellFormed.
Qed.

Lemma snakeDraft_kept (pool : list PoolItem) (st st' : Run) :
  snakeDraft numTeams pool st = Some st' →
  wellFormed numTeams h0 input st →
  (∀ item, item ∈ pool → player item ∈ input) →
  keeps numTeams h0 input st st'.
Proof.
  unfold snakeDraft. revert st.
  induction pool as [|item pool IH]; intros st Hdraft Hwf Hpool.
  { simplify_eq/=. by split_and!. }
  cbn [forEachM] in Hdraft.
  destruct (draftItem numTeams st item) as [st1|] eqn:Hitem; [|done].
  simpl in Hdraft.
  destruct (draftItem_kept _ _ _ Hitem Hwf) as (Hwf1 & Hdistinct1 & Hplaced1).
  { apply Hpool. by left. }
  destruct (IH st1 Hdraft Hwf1) as (Hwf' & Hdistinct' & Hplaced').
  { intros it Hit. apply Hpool. by right. }
  split_and!; [done|tauto|auto].
Qed.

(** Without teams the draft makes no attempt. *)
Lemma snakeDraft_no_teams (pool : list PoolItem) (st : Run) :
  (numTeams ≤ 0)%Z → snakeDraft numTeams pool st = Some st.
Proof.
  intros Hn. unfold snakeDraft. induction pool as [|item pool IH]; [done|].
  cbn [forEachM].
  assert (draftItem numTeams st item = Some st) as ->; [|exact IH].
  unfold draftItem. replace (Z.to_nat numTeams) with 0 by lia.
  by destruct (unassigned st (player item)).
Qed.
End Draft.

Lemma poolShare_player (numTeams : Z) (line : Line) (group : list ref) (item : PoolItem) :
  item ∈ poolShare numTeams line group → player item ∈ group.
Proof.
  unfold poolShare. intros (pl & -> & Hpl)%list_elem_of_fmap. simpl.
  by eapply elem_of_submseteq_take.
Qed.

Lemma draftPhase_run (numTeams : Z) (sorted : list ref) (st : Run) (g : Rng) :
  ∃ assignmentPool,
    (draftPhase numTeams sorted st g).1 = snakeDraft numTeams assignmentPool st
    ∧ ∀ item, item ∈ assignmentPool → player item ∈ sorted.
Proof.
  unfold draftPhase. repeat (rewrite bindR_run; cbv beta zeta).
  eexists. split; [reflexivity|].
  intros item. rewrite shuffleArray_Permutation, !elem_of_app.
  intros [Hitem|[Hitem|Hitem]]; apply poolShare_player in Hitem;
    rewrite shuffleArray_Permutation in Hitem;
    apply list_elem_of_filter in Hitem as [_ Hitem];
    by apply list_elem_of_filter in Hitem as [_ Hitem].
Qed.

(** Phase 2 never raises, and what it keeps. *)
Lemma draftPhase_spec (numTeams : Z) (h0 : Heap) (input : list ref) (st1 : Run) (g : Rng) :
  wellFormed numTeams h0 input st1 →
  ((1 ≤ numTeams)%Z → cursorInRange numTeams st1) →
  ∃ st2,
    (draftPhase numTeams (sortPlayers h0 input) st1 g).1 = Some st2
    ∧ wellFormed numTeams h0 input st2
    ∧ (distinctIds h0 (teams st1) → distinctIds h0 (teams st2))
    ∧ (∀ r, r ∈ placed (teams st1) → r ∈ placed (teams st2)).
Proof.
  intros Hwf Hcur.
  destruct (draftPhase_run numTeams (sortPlayers h0 input) st1 g) as (pool & -> & Hpool).
  assert (∃ st2, snakeDraft numTeams pool st1 = Some st2) as [st2 Hdraft].
  { destruct (decide (1 ≤ numTeams)%Z) as [Hn|Hn].
    - destruct (snakeDraft_onTeam numTeams Hn pool st1) as (st2 & ? & _); [|by eauto].
      split; [by apply Hcur|apply (wf_length _ _ _ _ Hwf)].
    - exists st1. apply snakeDraft_no_teams. lia. }
  exists st2. split; [done|].
  eapply snakeDraft_kept; eauto.
  intros item Hitem. rewrite <- (sortPlayers_Permutation h0 input). by apply Hpool.
Qed.

(** ** Phase 3: the leftover sweep *)

Lemma elem_of_teamsWithSpace (ts : list Team) (i : nat) (team : Team) :
  (i, team) ∈ teamsWithSpace ts ↔ ts !! i = Some team ∧ belowTargetSize team.
Proof.
  unfold teamsWithSpace.
  rewrite stableSort_Permutation, list_elem_of_filter, elem_of_lookup_imap. simpl.
  split.
  - intros (Hbelow & j & t & [= -> ->] & Hj). done.
  - intros [Hi Hbelow]. split; [done|]. by exists i, team.
Qed.

Lemma teamsWithSpace_smallest (ts : list Team) (i : nat) (team : Team)
    (rest : list (nat * Team)) (t : Team) :
  teamsWithSpace ts = (i, team) :: rest →
  t ∈ ts → belowTargetSize t →
  length (players team) ≤ length (players t).
Proof.
  intros Hsorted [j Hj]%list_elem_of_lookup Hbelow.
  apply (stableSort_head_least (λ a : nat * Team, length (players a.2)) _ _ _ Hsorted (j, t)).
  apply list_elem_of_filter. split; [done|]. by apply elem_of_lookup_imap_2 with (f := pair).
Qed.

Lemma spareLine_hasRoom (team : Team) (line : Line) :
  spareLine team = Some line → hasRoom line team.
Proof.
  unfold spareLine. intros Hline.
  repeat match type of Hline with
         | (if ?c then _ else _) = _ => destruct c eqn:?
         end; simplify_eq; by apply Is_true_true.
Qed.

Lemma spareLine_None (team : Team) (line : Line) :
  spareLine team = None → ¬ hasRoom line team.
Proof.
  unfold spareLine. intros Hnone Hroom.
  destruct (hasRoom defender team) eqn:?; [done|].
  destruct (hasRoom midfielder team) eqn:?; [done|].
  destruct (hasRoom forward team) eqn:?; [done|].
  destruct line; by rewrite Is_true_true in Hroom; congruence.
Qed.

Lemma firstWithSpareLine_Some (candidates : list (nat * Team)) (i : nat) (team : Team)
    (line : Line) :
  firstWithSpareLine candidates = Some (i, team, line) →
  (i, team) ∈ candidates ∧ spareLine team = Some line.
Proof.
  induction candidates as [|[j t] candidates IH]; [done|]. simpl.
  destruct (spareLine t) as [l|] eqn:Ht.
  - intros [= -> -> ->]. split; [by left|done].
  - intros [? ?]%IH. split; [by right|done].
Qed.

Lemma firstWithSpareLine_None (candidates : list (nat * Team)) (i : nat) (team : Team) :
  firstWithSpareLine candidates = None →
  (i, team) ∈ candidates → spareLine team = None.
Proof.
  induction candidates as [|[j t] candidates IH]; [by intros _ ?%elem_of_nil|]. simpl.
  destruct (spareLine t) as [l|] eqn:Ht; [done|].
  intros Hnone [[= -> ->]|?]%elem_of_cons; [done|]. by apply IH.
Qed.

(** One turn of the sweep: it stops exactly when no team is below its
    target size; otherwise the player joins a team that is below its
    target size, in a formation line that has room, or, when no such
    team has room in any line, on the bench of a smallest one. *)
Lemma sweepPlayer_step (st : Run) (pl : ref) :
  match sweepPlayer st pl with
  | None => ∀ team, team ∈ teams st → ¬ belowTargetSize team
  | Some st' =>
      ∃ i team slot,
        teams st !! i = Some team
        ∧ belowTargetSize team
        ∧ st' = sweepInto i (pushPlayer pl (slotFormation slot pl (formation team)) team) pl st
        ∧ match slot with
          | inGoal => False
          | inLine line => hasRoom line team
          | onBench =>
              (∀ t line, t ∈ teams st → belowTargetSize t → ¬ hasRoom line t)
              ∧ (∀ t, t ∈ teams st → belowTargetSize t →
                   length (players team) ≤ length (players t))
          end
  end.
Proof.
  unfold sweepPlayer.
  destruct (teamsWithSpace (teams st)) as [|[smallest smallestTeam] rest] eqn:Hspace.
  { intros team [i Hi]%list_elem_of_lookup Hbelow.
    assert ((i, team) ∈ teamsWithSpace (teams st)) as Hin
      by by apply elem_of_teamsWithSpace.
    rewrite Hspace in Hin. by apply elem_of_nil in Hin. }
  destruct (firstWithSpareLine ((smallest, smallestTeam) :: rest))
    as [[[i team] line]|] eqn:Hfirst.
  - apply firstWithSpareLine_Some in Hfirst as [Hin Hline].
    rewrite <- Hspace in Hin. apply elem_of_teamsWithSpace in Hin as [Hi Hbelow].
    exists i, team, (inLine line). split_and!; [done..|].
    by apply spareLine_hasRoom.
  - assert ((smallest, smallestTeam) ∈ teamsWithSpace (teams st)) as Hin
      by (rewrite Hspace; by left).
    apply elem_of_teamsWithSpace in Hin as [Hi Hbelow].
    exists smallest, smallestTeam, onBench.
    split; [done|]. split; [done|]. split; [done|]. split.
    + intros t line [j Hj]%list_elem_of_lookup Ht.
      apply spareLine_None. eapply (firstWithSpareLine_None _ j); [exact Hfirst|].
      rewrite <- Hspace. by apply elem_of_teamsWithSpace.
    + intros t Ht Hspace_t. by eapply teamsWithSpace_smallest.
Qed.

Lemma sweepPlayer_places (st st' : Run) (pl : ref) :
  sweepPlayer st pl = Some st' → places pl st st'.
Proof.
  intros Hsweep. pose proof (sweepPlayer_step st pl) as Hstep. rewrite Hsweep in Hstep.
  destruct Hstep as (i & team & slot & Hi & _ & -> & Hslot).
  exists i, team, slot. simpl. split_and!; try done.
  intros line ->. done.
Qed.

(** The sweep deals a beginning of its list, and all of it unless no
    team is left below its target size. *)
Lemma leftoverSweep_dealt (l : list ref) (st : Run) :
  ∃ count,
    dealt (take count l) st (leftoverSweep l st)
    ∧ (take count l = l
       ∨ ∀ team, team ∈ teams (leftoverSweep l st) → ¬ belowTargetSize team).
Proof.
  revert st. induction l as [|pl l IH]; intros st.
  { exists 0. split; [constructor|by left]. }
  cbn [leftoverSweep]. pose proof (sweepPlayer_step st pl) as Hstep.
  destruct (sweepPlayer st pl) as [st'|] eqn:Hsweep.
  - destruct (IH st') as (count & Hdealt & Hall).
    exists (S count). simpl. split.
    + econstructor; [by apply sweepPlayer_places|done].
    + destruct Hall as [->|Hfull]; [by left|by right].
  - exists 0. split; [constructor|by right].
Qed.

(** The sweep, turn by turn. *)
Lemma leftoverSweep_swept (l : list ref) (st : Run) : swept l st (leftoverSweep l st).
Proof.
  revert st. induction l as [|pl l IH]; intros st; [constructor|].
  cbn [leftoverSweep]. pose proof (sweepPlayer_step st pl) as Hstep.
  destruct (sweepPlayer st pl) as [st'|] eqn:Hsweep.
  - eapply swept_cons; [exact Hstep|apply IH].
  - by apply swept_full.
Qed.

Lemma sweepPhase_run (sorted : list ref) (st : Run) (g : Rng) :
  ∃ shuffled,
    shuffled ≡ₚ finalRemainingPlayers sorted st
    ∧ (sweepPhase sorted st g).1 = leftoverSweep shuffled st.
Proof.
  unfold sweepPhase. rewrite bindR_run. cbv beta.
  eexists. split; [apply shuffleArray_Permutation|done].
Qed.

(** Phase 3: what it keeps, and whom it leaves out. *)
Lemma sweepPhase_spec (numTeams : Z) (h0 : Heap) (input : list ref) (st2 : Run) (g : Rng) :
  wellFormed numTeams h0 input st2 →
  let st3 := (sweepPhase (sortPlayers h0 input) st2 g).1 in
  wellFormed numTeams h0 input st3
  ∧ (NoDup ((λ r, id (h0 r)) <$> input) →
     distinctIds h0 (teams st2) → distinctIds h0 (teams st3))
  ∧ (∀ r, r ∈ placed (teams st2) → r ∈ placed (teams st3))
  ∧ ((∀ r, r ∈ finalRemainingPlayers (sortPlayers h0 input) st2 → r ∈ placed (teams st3))
     ∨ ∀ team, team ∈ teams st3 → ¬ belowTargetSize team).
Proof.
  intros Hwf st3.
  destruct (sweepPhase_run (sortPlayers h0 input) st2 g) as (shuffled & Hperm & Hrun).
  subst st3. rewrite Hrun. clear Hrun.
  destruct (leftoverSweep_dealt shuffled st2) as (count & Hdealt & Hall).
  set (st3 := leftoverSweep shuffled st2) in *.
  assert (Hsub : take count shuffled ⊆+ input).
  { etrans; [apply sublist_submseteq, sublist_take|].
    rewrite Hperm. unfold finalRemainingPlayers.
    etrans; [apply sublist_submseteq, sublist_filter|].
    by rewrite sortPlayers_Permutation. }
  assert (Hin : ∀ r, r ∈ take count shuffled → r ∈ input).
  { intros r Hr. by eapply elem_of_submseteq. }
  pose proof (dealt_placed _ _ _ Hdealt) as Hplaced.
  split_and!.
  - eapply dealt_wellFormed; eauto.
  - intros Hids Hdistinct. eapply dealt_distinctIds; eauto.
    + by eapply NoDup_fmap_submseteq.
    + intros r Hr. apply elem_of_submseteq_take in Hr. rewrite Hperm in Hr.
      apply list_elem_of_filter in Hr as [Hr _]. unfold unassigned in Hr.
      apply bool_decide_unpack in Hr. by rewrite (wf_id _ _ _ _ _ Hwf) in Hr.
  - intros r Hr. rewrite Hplaced. apply elem_of_app. by right.
  - destruct Hall as [Hall|Hfull]; [left|by right].
    intros r Hr. rewrite Hplaced, Hall, Hperm. apply elem_of_app. by left.
Qed.

(** ** Rating aggregation *)

Lemma foldl_sumZ {A} (f : A → Z) (l : list A) (start : Z) :
  foldl (λ sum a, sum + f a)%Z start l = (start + sumZ (f <$> l))%Z.
Proof.
  unfold sumZ. revert start. induction l as [|a l IH]; intros start.
  { cbn. lia. }
  rewrite fmap_cons. cbn [foldl foldr]. rewrite IH. lia.
Qed.

Lemma stripTeam_lookup (h : Heap) (team : Team) (r : ref) :
  stripTeam h team r
  = if decide (r ∈ players team) then deleteTempRatingAdjustment (h r) else h r.
Proof.
  unfold stripTeam. generalize (players team). intros l. revert h.
  induction l as [|pl l IH]; intros h.
  { done. }
  cbn [foldl]. rewrite IH. destruct (decide (r = pl)) as [->|Hne].
  - rewrite update_eq.
    destruct (decide (pl ∈ l)), (decide (pl ∈ pl :: l)) as [|Hn]; try done;
      destruct Hn; by left.
  - rewrite update_ne by done.
    destruct (decide (r ∈ l)), (decide (r ∈ pl :: l)) as [Hin|Hn]; try done.
    + destruct Hn. by right.
    + by apply elem_of_cons in Hin as [?|?].
Qed.

Lemma stripTeam_sameIdentity (h : Heap) (team : Team) (r : ref) :
  sameIdentity (h r) (stripTeam h team r).
Proof.
  rewrite stripTeam_lookup. destruct (decide _).
  - apply deleteTempRatingAdjustment_sameIdentity.
  - apply sameIdentity_refl.
Qed.

Lemma stripTeam_stripped (h : Heap) (team : Team) (r : ref) :
  r ∈ players team ∨ tempRatingAdjustment (h r) = None →
  tempRatingAdjustment (stripTeam h team r) = None.
Proof. rewrite stripTeam_lookup. destruct (decide _); [done|]. by intros [?|?]. Qed.

Section Rating.
Variable tieRoundsUp : Z → Z → bool.

(** [toFixed(1)] returns a nearest tenth of the quotient. *)
Lemma toFixed1_nearest (total count : Z) :
  (0 < count)%Z →
  ∃ tenths,
    toFixed1 tieRoundsUp total count = AvgFixed (bool_decide (total < 0)%Z) tenths
    ∧ (0 ≤ tenths)%Z
    ∧ (2 * Z.abs (10 * Z.abs total - tenths * count) ≤ count)%Z.
Proof.
  intros Hcount. unfold toFixed1.
  pose proof (Z.div_mod (10 * Z.abs total) count) as Hdiv.
  pose proof (Z.mod_pos_bound (10 * Z.abs total) count Hcount) as Hmod.
  assert (0 ≤ (10 * Z.abs total) `div` count)%Z by (apply Z.div_pos; lia).
  set (below := ((10 * Z.abs total) `div` count)%Z) in *.
  set (rest := ((10 * Z.abs total) `mod` count)%Z) in *.
  eexists. split; [reflexivity|].
  repeat case_bool_decide; try destruct (tieRoundsUp total count); split; nia.
Qed.

Lemma rateTeam_sameIdentity (h h' : Heap) (team : Team) :
  (∀ r, sameIdentity (h r) (h' r)) →
  rateTeam tieRoundsUp h' team = rateTeam tieRoundsUp h team.
Proof.
  intros Hsame. unfold rateTeam.
  assert (foldl (λ sum pl, sum + getPlayerOverallRating (h' pl))%Z 0%Z (players team)
          = foldl (λ sum pl, sum + getPlayerOverallRating (h pl))%Z 0%Z (players team))
    as ->; [|done].
  rewrite !foldl_sumZ. do 2 f_equal. apply list_fmap_ext.
  intros _ r _. by apply sameIdentity_rating.
Qed.

(** The teams and the heap that the last loop of a run returns. *)
Lemma rateTeams_spec (h : Heap) (ts : list Team) :
  let res := rateTeams tieRoundsUp h ts in
  resultTeams res = rateTeam tieRoundsUp h <$> ts
  ∧ (∀ r, sameIdentity (h r) (resultHeap res r))
  ∧ (∀ r, r ∈ placed ts ∨ tempRatingAdjustment (h r) = None →
       tempRatingAdjustment (resultHeap res r) = None).
Proof.
  revert h. induction ts as [|team ts IH]; intros h; simpl.
  { split_and!; [done|intros; apply sameIdentity_refl|]. by intros r [?%elem_of_nil|?]. }
  destruct (IH (stripTeam h team)) as (Hteams & Hsame & Hstripped).
  split_and!.
  - rewrite Hteams. f_equal.
    + apply rateTeam_sameIdentity. intros r. apply stripTeam_sameIdentity.
    + apply list_fmap_ext. intros _ t _.
      apply rateTeam_sameIdentity. intros r. apply stripTeam_sameIdentity.
  - intros r. eapply sameIdentity_trans; [apply stripTeam_sameIdentity|apply Hsame].
  - intros r Hr. apply Hstripped.
    rewrite placed_cons, elem_of_app in Hr.
    destruct Hr as [[Hr|Hr]|Hr]; [|by left|].
    + right. apply stripTeam_stripped. by left.
    + right. apply stripTeam_stripped. by right.
Qed.

Lemma placed_rateTeam (h : Heap) (ts : list Team) :
  placed (rateTeam tieRoundsUp h <$> ts) = placed ts.
Proof. unfold placed. rewrite <- list_fmap_compose. done. Qed.

(** ** A run, phase by phase *)

(** No phase raises; the states between the phases and what is known
    of them. *)
Lemma run_phases (numTeams : Z) (sizes : list Z) (input : list ref) (h : Heap) (g : Rng) :
  let sorted := sortPlayers h input in
  let phase1 := goalkeeperPhase numTeams sizes sorted h g in
  ∃ st1 st2,
    phase1.1 = Some st1
    ∧ (draftPhase numTeams sorted st1 phase1.2).1 = Some st2
    ∧ let st3 := (sweepPhase sorted st2 (draftPhase numTeams sorted st1 phase1.2).2).1 in
      (createBalancedTeamsWithSizeControl tieRoundsUp numTeams sizes input h g).1
      = Some (rateTeams tieRoundsUp (heap st3) (teams st3))
      ∧ wellFormed numTeams h input st2
      ∧ wellFormed numTeams h input st3
      ∧ (NoDup ((λ r, id (h r)) <$> input) →
         distinctIds h (teams st2) ∧ distinctIds h (teams st3))
      ∧ (∀ r, r ∈ placed (teams st2) → r ∈ placed (teams st3))
      ∧ ((∀ r, r ∈ finalRemainingPlayers sorted st2 → r ∈ placed (teams st3))
         ∨ ∀ team, team ∈ teams st3 → ¬ belowTargetSize team).
Proof.
  intros sorted phase1.
  destruct (goalkeeperPhase_spec numTeams sizes input h g)
    as (st1 & _ & _ & Hrun1 & Hwf1 & Hdistinct1 & Hcur1 & _).
  fold sorted in Hrun1. fold phase1 in Hrun1.
  destruct (draftPhase_spec numTeams h input st1 phase1.2 Hwf1 Hcur1)
    as (st2 & Hrun2 & Hwf2 & Hdistinct2 & _).
  fold sorted in Hrun2.
  destruct (sweepPhase_spec numTeams h input st2
              (draftPhase numTeams sorted st1 phase1.2).2 Hwf2)
    as (Hwf3 & Hdistinct3 & Hplaced3 & Hall).
  fold sorted in Hwf3, Hdistinct3, Hplaced3, Hall.
  exists st1, st2. split; [done|]. split; [done|]. intros st3.
  split_and!; try done.
  - unfold createBalancedTeamsWithSizeControl. fold sorted.
    rewrite bindR_run. fold phase1. rewrite Hrun1.
    rewrite bindR_run. rewrite Hrun2.
    rewrite bindR_run. done.
  - intros Hids. split; auto.
Qed.
End Rating.

(** ** Target sizes *)

(** Phases 2 and 3 test the target size before every push; phase 1 does
    not. *)

Lemma pushPlayer_reached (pl : ref) (f : Formation) (team : Team) :
  reachedTargetSize team = false → withinTarget (pushPlayer pl f team).
Proof.
  unfold reachedTargetSize, withinTarget. simpl.
  destruct (targetSize team) as [size|]; [|done].
  intros Hsize%bool_decide_eq_false. rewrite length_app. simpl. lia.
Qed.

Lemma pushPlayer_below (pl : ref) (f : Formation) (team : Team) :
  belowTargetSize team → withinTarget (pushPlayer pl f team).
Proof.
  unfold belowTargetSize, withinTarget. simpl.
  destruct (targetSize team) as [size|]; [|done].
  intros Hsize%bool_decide_unpack. rewrite length_app. simpl. lia.
Qed.

Lemma draftLoop_withinTarget (numTeams : Z) (item : PoolItem) (attempts : nat)
    (st st' : Run) (assigned : bool) :
  draftLoop numTeams item attempts st = Some (st', assigned) →
  Forall withinTarget (teams st) → Forall withinTarget (teams st').
Proof.
  revert st. induction attempts as [|attempts IH]; intros st Hloop Hteams.
  { by simplify_eq/=. }
  cbn [draftLoop] in Hloop.
  destruct (teamAt (teams st) (currentTeam st)) as [team|] eqn:Hteam; [|done].
  simpl in Hloop. destruct (reachedTargetSize team) eqn:Hreached.
  { apply (IH _ Hloop). by rewrite advance_teams. }
  destruct (chooseLine _ _ team) as [line|].
  - simplify_eq. simpl. apply Forall_insert; [done|]. by apply pushPlayer_reached.
  - apply (IH _ Hloop). by rewrite advance_teams.
Qed.

Lemma snakeDraft_withinTarget (numTeams : Z) (pool : list PoolItem) (st st' : Run) :
  snakeDraft numTeams pool st = Some st' →
  Forall withinTarget (teams st) → Forall withinTarget (teams st').
Proof.
  unfold snakeDraft. revert st.
  induction pool as [|item pool IH]; intros st Hdraft Hteams; [by simplify_eq/=|].
  cbn [forEachM] in Hdraft.
  destruct (draftItem numTeams st item) as [st1|] eqn:Hitem; [|done].
  apply (IH st1 Hdraft).
  unfold draftItem in Hitem. destruct (unassigned st (player item)); [|by simplify_eq].
  destruct (draftLoop numTeams item (Z.to_nat numTeams) st) as [[st2 assigned]|] eqn:Hloop;
    [|done].
  simpl in Hitem. simplify_eq.
  pose proof (draftLoop_withinTarget _ _ _ _ _ _ Hloop Hteams).
  destruct assigned; [by rewrite advance_teams|done].
Qed.

Lemma leftoverSweep_withinTarget (l : list ref) (st : Run) :
  Forall withinTarget (teams st) → Forall withinTarget (teams (leftoverSweep l st)).
Proof.
  revert st. induction l as [|pl l IH]; intros st Hteams; [done|].
  cbn [leftoverSweep]. pose proof (sweepPlayer_step st pl) as Hstep.
  destruct (sweepPlayer st pl) as [st'|]; [|done].
  destruct Hstep as (i & team & slot & Hi & Hbelow & -> & _).
  apply IH. simpl. apply Forall_insert; [done|]. by apply pushPlayer_below.
Qed.

Lemma places_targetSize (P : option Z → Prop) (pl : ref) (st st' : Run) :
  places pl st st' →
  Forall (λ team, P (targetSize team)) (teams st) →
  Forall (λ team, P (targetSize team)) (teams st').
Proof.
  intros (i & team & slot & Hi & _ & -> & _) Hteams.
  apply Forall_insert; [done|]. simpl.
  by apply (Forall_lookup_1 _ _ _ _ Hteams Hi).
Qed.

Lemma dealt_targetSize (P : option Z → Prop) (l : list ref) (st st' : Run) :
  dealt l st st' →
  Forall (λ team, P (targetSize team)) (teams st) →
  Forall (λ team, P (targetSize team)) (teams st').
Proof. induction 1; eauto using places_targetSize. Qed.

Lemma keeperDealt_withinTarget (h : Heap) (team : Team) :
  keeperDealt h team →
  (∀ size, targetSize team = Some size → (1 ≤ size)%Z) →
  withinTarget team.
Proof.
  unfold keeperDealt, withinTarget. intros Hdealt Hsize.
  destruct (targetSize team) as [size|]; [|done].
  specialize (Hsize size eq_refl).
  destruct (goalkeeper (formation team)).
  - destruct Hdealt as [-> _]. simpl. lia.
  - rewrite Hdealt. simpl. lia.
Qed.

(** Where every target size is at least 1, every returned team holds
    no more players than its target size. *)
Lemma run_withinTarget (tieRoundsUp : Z → Z → bool) (numTeams : Z) (sizes : list Z)
    (input : list ref) (h : Heap) (g : Rng) :
  (∀ size, size ∈ sizes → (1 ≤ size)%Z) →
  ∃ res,
    (createBalancedTeamsWithSizeControl tieRoundsUp numTeams sizes input h g).1 = Some res
    ∧ Forall withinTarget (resultTeams res).
Proof.
  intros Hsizes.
  destruct (run_phases tieRoundsUp numTeams sizes input h g)
    as (st1 & st2 & Hrun1 & Hrun2 & Hrun & _).
  set (sorted := sortPlayers h input) in *.
  set (phase1 := goalkeeperPhase numTeams sizes sorted h g) in *.
  assert (Hst1 : Forall withinTarget (teams st1)).
  { destruct (goalkeeperPhase_spec numTeams sizes input h g)
      as (st1' & pref & alt & Hrun1' & _ & _ & _ & Hshape & _ & _ & _ & start & coin & Hdealt).
    fold sorted in Hrun1'. fold phase1 in Hrun1'.
    assert (st1' = st1) as -> by congruence.
    assert (Hquota : Forall (λ team, ∀ size, targetSize team = Some size → (1 ≤ size)%Z)
                       (teams st1)).
    { apply (dealt_targetSize (λ target, ∀ size, target = Some size → (1 ≤ size)%Z)
               _ _ _ Hdealt).
      apply Forall_forall. simpl. intros team (i & -> & _)%list_elem_of_fmap size. simpl.
      intros Hi. apply Hsizes. by eapply list_elem_of_lookup_2. }
    rewrite Forall_forall in Hshape, Hquota. apply Forall_forall. intros team Hteam.
    eapply keeperDealt_withinTarget; eauto. }
  assert (Hst2 : Forall withinTarget (teams st2)).
  { destruct (draftPhase_run numTeams sorted st1 phase1.2) as (pool & Hpool & _).
    rewrite Hpool in Hrun2. by eapply snakeDraft_withinTarget. }
  eexists. split; [exact Hrun|].
  destruct (sweepPhase_run sorted st2 (draftPhase numTeams sorted st1 phase1.2).2)
    as (shuffled & _ & ->).
  destruct (rateTeams_spec tieRoundsUp (heap (leftoverSweep shuffled st2))
              (teams (leftoverSweep shuffled st2))) as (-> & _).
  apply Forall_fmap. eapply Forall_impl; [by apply leftoverSweep_withinTarget|].
  by intros team.
Qed.

(** With at least as many players as teams, every size that
    [calculateTeamSizes] plans is at least 1. *)
Lemma calculateTeamSizes_quota (totalPlayers numTeams size : Z) :
  (1 ≤ numTeams ≤ totalPlayers)%Z →
  size ∈ calculateTeamSizes totalPlayers numTeams → (1 ≤ size)%Z.
Proof.
  intros Hn. unfold calculateTeamSizes, teamQuota.
  intros (i & -> & _)%list_elem_of_fmap.
  assert (1 ≤ totalPlayers `div` numTeams)%Z.
  { apply Z.div_le_lower_bound; lia. }
  case_bool_decide; lia.
Qed.

(** ** The two entry points *)

Lemma run_distinctIds (tieRoundsUp : Z → Z → bool) (numTeams : Z)
    (targetTeamSizes : list Z) (playersToUse : list ref) (h : Heap) (g : Rng) :
  NoDup ((λ r, id (h r)) <$> playersToUse) →
  ∃ res,
    (createBalancedTeamsWithSizeControl tieRoundsUp numTeams targetTeamSizes
       playersToUse h g).1 = Some res
    ∧ NoDup ((λ r, id (resultHeap res r)) <$> placed (resultTeams res))
    ∧ (∀ r, r ∈ placed (resultTeams res) → r ∈ playersToUse)
    ∧ (∀ r, id (resultHeap res r) = id (h r)).
Proof.
  intros Hids.
  destruct (run_phases tieRoundsUp numTeams targetTeamSizes playersToUse h g)
    as (st1 & st2 & _ & _ & Hrun & _ & Hwf3 & Hdistinct & _).
  set (st3 := (sweepPhase _ st2 _).1) in *.
  destruct (rateTeams_spec tieRoundsUp (heap st3) (teams st3)) as (Hteams & Hsame & _).
  assert (Hid : ∀ r, id (resultHeap (rateTeams tieRoundsUp (heap st3) (teams st3)) r)
                     = id (h r)).
  { intros r. destruct (Hsame r) as [<- _]. by eapply wf_id. }
  eexists. split; [exact Hrun|]. rewrite Hteams, placed_rateTeam.
  split_and!.
  - erewrite list_fmap_ext; [by apply Hdistinct|]. intros _ r _. apply Hid.
  - apply (wf_input _ _ _ _ Hwf3).
  - exact Hid.
Qed.

(** [generateTeams] runs the engine on the sizes of [calculateTeamSizes]. *)
Lemma generateTeams_run (tieRoundsUp : Z → Z → bool) (numTeams : Z)
    (playersToUse : list ref) (h : Heap) :
  playersToUse ≠ [] →
  generateTeams tieRoundsUp numTeams playersToUse h
  = createBalancedTeamsWithSizeControl tieRoundsUp numTeams
      (calculateTeamSizes (Z.of_nat (length playersToUse)) numTeams) playersToUse h.
Proof.
  intros Hplayers. unfold generateTeams. destruct playersToUse as [|pl l]; [done|].
  by rewrite pushTeamSizes_calculateTeamSizes.
Qed.

Lemma jitters_length (count : nat) (g : Rng) : length (jitters count g).1 = count.
Proof.
  revert g. induction count as [|count IH]; intros g; [done|].
  cbn [jitters]. rewrite !bindR_run. simpl. by rewrite IH.
Qed.

(** [applyRandomization] returns copies of the players it was given,
    with the ids they had. *)
Lemma applyRandomization_ids (playersToUse : list ref) (next : ref) (h : Heap) (g : Rng) :
  let randomized := (applyRandomization playersToUse next h g).1 in
  (λ r, id (randomized.2 r)) <$> randomized.1 ≡ₚ (λ r, id (h r)) <$> playersToUse.
Proof.
  unfold applyRandomization. repeat (rewrite bindR_run; cbv beta zeta). simpl.
  set (shuffled := (shuffleArray _ _).1).
  set (adjustments := (jitters _ _).1).
  assert (Hlen : length adjustments = length shuffled) by apply jitters_length.
  assert (Hshuffled : shuffled ≡ₚ playersToUse).
  { subst shuffled. by rewrite !shuffleArray_Permutation. }
  rewrite <- Hshuffled. clear Hshuffled.
  set (copies := zip_with _ shuffled adjustments).
  assert (Hcopies : (λ p, id p) <$> copies = (λ r, id (h r)) <$> shuffled).
  { subst copies. clearbody shuffled adjustments. revert adjustments Hlen.
    induction shuffled as [|pl l IH]; intros [|j js] Hlen; simplify_eq/=; [done|].
    f_equal. by apply IH. }
  rewrite <- Hcopies.
  assert (∀ l : list Player,
            (λ r, id (if decide (r < next) then h r else default (h r) (l !! (r - next))))
              <$> seq next (length l)
            = (λ p, id p) <$> l)
    as ->; [|done].
  intros l. apply list_eq. intros i. rewrite !list_lookup_fmap.
  destruct (l !! i) as [p|] eqn:Hi.
  - rewrite lookup_seq_lt by eauto using lookup_lt_Some. simpl.
    rewrite decide_False by lia. replace (next + i - next) with i by lia.
    unfold ref. by rewrite Hi.
  - rewrite lookup_seq_ge; [done|]. by apply lookup_ge_None.
Qed.

(** Both entry points return teams in which no id occurs twice, when
    the players they are given have distinct ids. *)
Lemma generateTeams_distinctIds (tieRoundsUp : Z → Z → bool) (numTeams : Z)
    (playersToUse : list ref) (h : Heap) (g : Rng) :
  playersToUse ≠ [] →
  NoDup ((λ r, id (h r)) <$> playersToUse) →
  ∃ res,
    (generateTeams tieRoundsUp numTeams playersToUse h g).1 = Some res
    ∧ NoDup ((λ r, id (resultHeap res r)) <$> placed (resultTeams res)).
Proof.
  intros Hplayers Hids. rewrite generateTeams_run by done.
  destruct (run_distinctIds tieRoundsUp numTeams
              (calculateTeamSizes (Z.of_nat (length playersToUse)) numTeams)
              playersToUse h g Hids) as (res & ? & ? & _).
  by exists res.
Qed.

Lemma regenerateTeams_distinctIds (tieRoundsUp : Z → Z → bool) (previousTeams : list Team)
    (playerSelection : string) (playersToUse : list ref) (next : ref) (h : Heap)
    (g : Rng) :
  previousTeams ≠ [] →
  playersToUse ≠ [] →
  NoDup ((λ r, id (h r)) <$> playersToUse) →
  ∃ res,
    (regenerateTeams tieRoundsUp previousTeams playerSelection playersToUse next h g).1
    = Some res
    ∧ NoDup ((λ r, id (resultHeap res r)) <$> placed (resultTeams res)).
Proof.
  intros Hteams Hplayers Hids. unfold regenerateTeams.
  destruct previousTeams as [|team ts]; [done|].
  rewrite (bool_decide_eq_false_2 (playersToUse = [])), andb_false_r by done.
  rewrite bindR_run.
  pose proof (applyRandomization_ids playersToUse next h g) as Hcopies. simpl in Hcopies.
  rewrite <- Hcopies in Hids.
  destruct (run_distinctIds tieRoundsUp (Z.of_nat (length (team :: ts)))
              (calculateTeamSizes (Z.of_nat (length playersToUse))
                 (Z.of_nat (length (team :: ts))))
              _ _ (applyRandomization playersToUse next h g).2 Hids) as (res & ? & ? & _).
  by exists res.
Qed.

(** With at least as many players as teams, [generateTeams] returns
    teams that hold no more players than their target size. *)
Lemma generateTeams_withinTarget (tieRoundsUp : Z → Z → bool) (numTeams : Z)
    (playersToUse : list ref) (h : Heap) (g : Rng) :
  (1 ≤ numTeams ≤ Z.of_nat (length playersToUse))%Z →
  ∃ res,
    (generateTeams tieRoundsUp numTeams playersToUse h g).1 = Some res
    ∧ Forall withinTarget (resultTeams res).
Proof.
  intros Hn. rewrite generateTeams_run by (destruct playersToUse; simpl in *; [lia|done]).
  apply run_withinTarget. intros size. by apply calculateTeamSizes_quota.
Qed.

(** ** The properties of a run *)

Lemma NoDup_fmap_eq {A B} (f : A → B) (l : list A) (x y : A) :
  NoDup (f <$> l) → x ∈ l → y ∈ l → f x = f y → x = y.
Proof.
  induction l as [|a l IH]; [by intros _ ?%elem_of_nil|].
  rewrite fmap_cons, NoDup_cons. intros [Ha Hl] Hx Hy Hf.
  apply elem_of_cons in Hx as [->|Hx]; apply elem_of_cons in Hy as [->|Hy]; auto.
  - destruct Ha. rewrite Hf. by apply list_elem_of_fmap_2.
  - destruct Ha. rewrite <- Hf. by apply list_elem_of_fmap_2.
Qed.

Lemma belowTargetSize_rateTeam (tieRoundsUp : Z → Z → bool) (h : Heap) (team : Team) :
  belowTargetSize (rateTeam tieRoundsUp h team) = belowTargetSize team.
Proof. done. Qed.

(** C1, for players with distinct ids: when the players given to a run
    have distinct ids, the run ends without raising and no id occurs
    twice among the players of the returned teams, neither within a
    team nor across teams; the players of the teams are players that
    were given, with the ids they came with.  This holds for every
    pool the draft is run on, so also when a player sits in several
    position groups. *)
Theorem no_double_assignment (tieRoundsUp : Z → Z → bool) (numTeams : Z)
    (targetTeamSizes : list Z) (playersToUse : list ref) (h : Heap) (g : Rng)
    (Hids : NoDup ((λ r, id (h r)) <$> playersToUse)) :
  ∃ res,
    (createBalancedTeamsWithSizeControl tieRoundsUp numTeams targetTeamSizes
       playersToUse h g).1 = Some res
    ∧ NoDup ((λ r, id (resultHeap res r)) <$> placed (resultTeams res))
    ∧ (∀ r, r ∈ placed (resultTeams res) → r ∈ playersToUse)
    ∧ (∀ r, id (resultHeap res r) = id (h r)).
Proof. by apply run_distinctIds. Qed.

(** C4: every run ends without raising, and in every returned team the
    goalkeeper slot holds at most one player, there are at most 4
    defenders, 4 midfielders and 3 forwards, and the players holding a
    slot are players of the team and no more than them: whoever
    exceeds the slots is a substitute in [players] only. *)
Theorem formation_caps (tieRoundsUp : Z → Z → bool) (numTeams : Z)
    (targetTeamSizes : list Z) (playersToUse : list ref) (h : Heap) (g : Rng) :
  ∃ res,
    (createBalancedTeamsWithSizeControl tieRoundsUp numTeams targetTeamSizes
       playersToUse h g).1 = Some res
    ∧ ∀ team, team ∈ resultTeams res →
        length (option_list (goalkeeper (formation team))) ≤ 1
        ∧ length (defenders (formation team)) ≤ 4
        ∧ length (midfielders (formation team)) ≤ 4
        ∧ length (forwards (formation team)) ≤ 3
        ∧ slotted (formation team) ≤ length (players team)
        ∧ (∀ pl, pl ∈ slots (formation team) → pl ∈ players team).
Proof.
  destruct (run_phases tieRoundsUp numTeams targetTeamSizes playersToUse h g)
    as (st1 & st2 & _ & _ & Hrun & _ & Hwf3 & _).
  set (st3 := (sweepPhase _ st2 _).1) in *.
  destruct (rateTeams_spec tieRoundsUp (heap st3) (teams st3)) as (Hteams & _).
  eexists. split; [exact Hrun|]. rewrite Hteams.
  intros team (t & -> & Ht)%list_elem_of_fmap.
  pose proof (wf_caps _ _ _ _ Hwf3) as Hcaps.
  rewrite Forall_forall in Hcaps. exact (Hcaps t Ht).
Qed.

(** C6: every run ends without raising; in what it returns no player of
    a team, in its [players] or in a slot of its formation, carries a
    [tempRatingAdjustment]; the [totalRating] of a
    team is the sum of [getPlayerOverallRating] over its players; the
    [averageRating] of an empty team is the number 0, and that of any
    other team is [totalRating / players.length] to one decimal: a
    count of tenths, with the sign of the total, at most half a tenth
    away from the quotient. *)
Theorem rating_aggregation (tieRoundsUp : Z → Z → bool) (numTeams : Z)
    (targetTeamSizes : list Z) (playersToUse : list ref) (h : Heap) (g : Rng) :
  ∃ res,
    (createBalancedTeamsWithSizeControl tieRoundsUp numTeams targetTeamSizes
       playersToUse h g).1 = Some res
    ∧ ∀ team, team ∈ resultTeams res →
        (∀ pl, pl ∈ players team ∨ pl ∈ slots (formation team) →
           tempRatingAdjustment (resultHeap res pl) = None)
        ∧ totalRating team
          = sumZ ((λ pl, getPlayerOverallRating (resultHeap res pl)) <$> players team)
        ∧ match players team with
          | [] => averageRating team = AvgNumber 0
          | _ =>
              let count := Z.of_nat (length (players team)) in
              ∃ tenths,
                averageRating team
                = AvgFixed (bool_decide (totalRating team < 0)%Z) tenths
                ∧ (0 ≤ tenths)%Z
                ∧ (2 * Z.abs (10 * Z.abs (totalRating team) - tenths * count) ≤ count)%Z
          end.
Proof.
  destruct (run_phases tieRoundsUp numTeams targetTeamSizes playersToUse h g)
    as (st1 & st2 & _ & _ & Hrun & _ & Hwf3 & _).
  set (st3 := (sweepPhase _ st2 _).1) in *.
  destruct (rateTeams_spec tieRoundsUp (heap st3) (teams st3))
    as (Hteams & Hsame & Hstripped).
  eexists. split; [exact Hrun|]. rewrite Hteams.
  intros team (t & -> & Ht)%list_elem_of_fmap.
  split_and!.
  - intros pl Hpl. apply Hstripped. left. apply elem_of_placed. exists t.
    split; [done|]. destruct Hpl as [Hpl|Hpl]; [done|].
    pose proof (wf_caps _ _ _ _ Hwf3) as Hcaps. rewrite Forall_forall in Hcaps.
    by apply (Hcaps t Ht).
  - simpl. rewrite foldl_sumZ, Z.add_0_l. f_equal. apply list_fmap_ext.
    intros _ pl _. symmetry. by apply sameIdentity_rating.
  - simpl. destruct (players t) as [|pl l] eqn:Hplayers; [done|].
    rewrite bool_decide_eq_true_2 by (simpl; lia).
    apply toFixed1_nearest. simpl. lia.
Qed.

(** The players [versatile] sit in all three position groups. *)
Example versatile_groups (i rating : Z) :
  Forall (λ line, playsIn line (versatile i rating)) [defender; midfielder; forward].
Proof. repeat constructor. Qed.

Lemma no_double_assignment_witness :
  NoDup ((λ r, id (heapOf mixedSquad r)) <$> seq 0 9)
  ∧ ∃ res,
      (createBalancedTeamsWithSizeControl (λ _ _, true) 2 [5; 4]%Z (seq 0 9)
         (heapOf mixedSquad) (rngOf [3; 1; 4; 1; 5; 9; 2; 6]%Z)).1 = Some res
      ∧ NoDup ((λ r, id (resultHeap res r)) <$> placed (resultTeams res)).
Proof.
  assert (Hids : NoDup ((λ r, id (heapOf mixedSquad r)) <$> seq 0 9)).
  { apply (bool_decide_unpack _). vm_compute. exact I. }
  split; [exact Hids|].
  destruct (no_double_assignment (λ _ _, true) 2 [5; 4]%Z (seq 0 9) (heapOf mixedSquad)
              (rngOf [3; 1; 4; 1; 5; 9; 2; 6]%Z) Hids) as (res & Hrun & Hnodup & _).
  exists res. split; [exact Hrun|exact Hnodup].
Defined.

(** C1 does not hold of every run: the code does not make ids
    distinct, and phase 1 pushes the keepers without looking at
    [assignedPlayers].  Two keepers that share the id 1, given to
    [generateTeams] for two teams, end in one team each, so that the
    id 1 is in the [players] of both teams. *)
Lemma shared_id_in_two_teams :
  ∃ res,
    (generateTeams (λ _ _, true) 2 [0; 1] (heapOf [keeper 1 80; keeper 1 70])
       (rngOf [])).1 = Some res
    ∧ (λ r, id (heapOf [keeper 1 80; keeper 1 70] r)) <$> [0; 1] = [1; 1]%Z
    ∧ players <$> resultTeams res = [[0]; [1]]
    ∧ (λ r, id (resultHeap res r)) <$> placed (resultTeams res) = [1; 1]%Z
    ∧ ¬ NoDup ((λ r, id (resultHeap res r)) <$> placed (resultTeams res)).
Proof.
  eexists. split; [vm_compute; reflexivity|].
  split; [reflexivity|]. split; [vm_compute; reflexivity|].
  split; [vm_compute; reflexivity|].
  vm_compute. intros Hnodup. apply NoDup_cons in Hnodup as [Hin _]. apply Hin. by left.
Qed.

(** C9, for players with distinct ids: when the players given to a
    run have distinct ids, no phase raises; every given player whom
    phases 1 and 2 left out of the teams, drafted from the pool or
    not, is in the list handed to phase 3; phase 3 goes through that
    list, in a shuffled order, and puts each player in turn in a team
    that is then below its target size, in a formation line that has
    room or, when no team below its target size has room in any line,
    among the players of a smallest such team, without a slot; it
    drops the players left in the list only once no team is below its
    target size; and the teams returned are those phase 3 ends with,
    rated, so that a given player is missing from them only if no
    returned team is below its target size. *)
Theorem leftover_sweep (tieRoundsUp : Z → Z → bool) (numTeams : Z)
    (targetTeamSizes : list Z) (playersToUse : list ref) (h : Heap) (g : Rng)
    (Hids : NoDup ((λ r, id (h r)) <$> playersToUse)) :
  let sortedPlayers := sortPlayers h playersToUse in
  let phase1 := goalkeeperPhase numTeams targetTeamSizes sortedPlayers h g in
  ∃ st1 st2 shuffled st3 res,
    phase1.1 = Some st1
    ∧ (draftPhase numTeams sortedPlayers st1 phase1.2).1 = Some st2
    ∧ (createBalancedTeamsWithSizeControl tieRoundsUp numTeams targetTeamSizes
         playersToUse h g).1 = Some res
    ∧ (∀ r, r ∈ playersToUse → r ∉ placed (teams st2) →
         r ∈ finalRemainingPlayers sortedPlayers st2)
    ∧ shuffled = (shuffleArray (finalRemainingPlayers sortedPlayers st2)
                    (draftPhase numTeams sortedPlayers st1 phase1.2).2).1
    ∧ shuffled ≡ₚ finalRemainingPlayers sortedPlayers st2
    ∧ st3 = (sweepPhase sortedPlayers st2
               (draftPhase numTeams sortedPlayers st1 phase1.2).2).1
    ∧ swept shuffled st2 st3
    ∧ res = rateTeams tieRoundsUp (heap st3) (teams st3)
    ∧ players <$> resultTeams res = players <$> teams st3
    ∧ formation <$> resultTeams res = formation <$> teams st3
    ∧ targetSize <$> resultTeams res = targetSize <$> teams st3
    ∧ (∀ r, r ∈ placed (teams st2) → r ∈ placed (resultTeams res))
    ∧ (∀ r, r ∈ playersToUse →
         r ∈ placed (resultTeams res)
         ∨ ∀ team, team ∈ resultTeams res → ¬ belowTargetSize team).
Proof.
  intros sortedPlayers phase1.
  destruct (run_phases tieRoundsUp numTeams targetTeamSizes playersToUse h g)
    as (st1 & st2 & Hrun1 & Hrun2 & Hrun & Hwf2 & Hwf3 & _ & Hkept & Hall).
  fold sortedPlayers in Hrun1, Hrun2, Hrun, Hkept, Hall.
  fold phase1 in Hrun1, Hrun2, Hrun, Hkept, Hall.
  set (st3 := (sweepPhase _ st2 _).1) in *.
  destruct (rateTeams_spec tieRoundsUp (heap st3) (teams st3)) as (Hteams & _).
  set (shuffled := (shuffleArray (finalRemainingPlayers sortedPlayers st2)
                      (draftPhase numTeams sortedPlayers st1 phase1.2).2).1).
  assert (Hshuffled : shuffled ≡ₚ finalRemainingPlayers sortedPlayers st2)
    by apply shuffleArray_Permutation.
  assert (Hsweep : st3 = leftoverSweep shuffled st2).
  { subst st3 shuffled. unfold sweepPhase. by rewrite bindR_run. }
  assert (Hhanded : ∀ r, r ∈ playersToUse → r ∉ placed (teams st2) →
                      r ∈ finalRemainingPlayers sortedPlayers st2).
  { intros r Hr Hout. unfold finalRemainingPlayers.
    apply list_elem_of_filter. split.
    - unfold unassigned. apply bool_decide_pack. intros Hassigned.
      destruct (wf_placed _ _ _ _ Hwf2 _ Hassigned) as (r' & Hr' & Hid).
      rewrite (wf_id _ _ _ _ _ Hwf2) in Hid.
      assert (r' = r) as ->; [|done].
      eapply (NoDup_fmap_eq (λ r, id (h r))); eauto.
      by apply (wf_input _ _ _ _ Hwf2).
    - subst sortedPlayers. by rewrite sortPlayers_Permutation. }
  exists st1, st2, shuffled, st3, (rateTeams tieRoundsUp (heap st3) (teams st3)).
  rewrite Hteams, placed_rateTeam.
  split_and!; [done..| | | | | |done|].
  - clearbody st3. rewrite Hsweep. apply leftoverSweep_swept.
  - done.
  - rewrite <- list_fmap_compose. by apply list_fmap_ext.
  - rewrite <- list_fmap_compose. by apply list_fmap_ext.
  - rewrite <- list_fmap_compose. by apply list_fmap_ext.
  - intros r Hr.
    destruct (decide (r ∈ placed (teams st2))) as [Hin|Hout]; [left; by apply Hkept|].
    destruct Hall as [Hall|Hfull]; [left; by apply Hall, Hhanded|right].
    intros team (t & -> & Ht)%list_elem_of_fmap.
    rewrite belowTargetSize_rateTeam. by apply Hfull.
Qed.

(** A run that leaves two players to phase 3: of the three keepers of
    [deepSquad] one is left without a team in phase 1, and of its nine
    centre-backs one is left out of the pool; phase 3 finds the
    defenders of both teams complete and makes them midfielders. *)
Example deepSquad_leftovers :
  ∃ st1 st2,
    (goalkeeperPhase 2 [6; 6]%Z (sortPlayers (heapOf deepSquad) (seq 0 12))
       (heapOf deepSquad) (rngOf [3; 1; 4; 1; 5; 9; 2; 6]%Z)).1 = Some st1
    ∧ (draftPhase 2 (sortPlayers (heapOf deepSquad) (seq 0 12)) st1
         (goalkeeperPhase 2 [6; 6]%Z (sortPlayers (heapOf deepSquad) (seq 0 12))
            (heapOf deepSquad) (rngOf [3; 1; 4; 1; 5; 9; 2; 6]%Z)).2).1 = Some st2
    ∧ players <$> teams st2 = [[2; 9; 8; 5; 4]; [1; 7; 6; 3; 10]]
    ∧ finalRemainingPlayers (sortPlayers (heapOf deepSquad) (seq 0 12)) st2 = [0; 11]
    ∧ (λ res, (players <$> resultTeams res, midfielders ∘ formation <$> resultTeams res))
        <$> (createBalancedTeamsWithSizeControl (λ _ _, true) 2 [6; 6]%Z (seq 0 12)
               (heapOf deepSquad) (rngOf [3; 1; 4; 1; 5; 9; 2; 6]%Z)).1
      = Some ([[2; 9; 8; 5; 4; 11]; [1; 7; 6; 3; 10; 0]], [[11]; [0]]).
Proof.
  eexists _, _. split; [vm_compute; reflexivity|]. split; [vm_compute; reflexivity|].
  split_and!; vm_compute; reflexivity.
Qed.

Lemma leftover_sweep_witness :
  NoDup ((λ r, id (heapOf deepSquad r)) <$> seq 0 12)
  ∧ ∃ st2 shuffled st3 res,
      (createBalancedTeamsWithSizeControl (λ _ _, true) 2 [6; 6]%Z (seq 0 12)
         (heapOf deepSquad) (rngOf [3; 1; 4; 1; 5; 9; 2; 6]%Z)).1 = Some res
      ∧ shuffled ≡ₚ finalRemainingPlayers (sortPlayers (heapOf deepSquad) (seq 0 12)) st2
      ∧ swept shuffled st2 st3
      ∧ players <$> resultTeams res = players <$> teams st3
      ∧ ∀ r, r ∈ seq 0 12 →
          r ∈ placed (resultTeams res)
          ∨ ∀ team, team ∈ resultTeams res → ¬ belowTargetSize team.
Proof.
  assert (Hids : NoDup ((λ r, id (heapOf deepSquad r)) <$> seq 0 12)).
  { apply (bool_decide_unpack _). vm_compute. exact I. }
  split; [exact Hids|].
  destruct (leftover_sweep (λ _ _, true) 2 [6; 6]%Z (seq 0 12) (heapOf deepSquad)
              (rngOf [3; 1; 4; 1; 5; 9; 2; 6]%Z) Hids)
    as (_ & st2 & shuffled & st3 & res & _ & _ & Hrun & _ & _ & Hshuffled & _ & Hswept
        & _ & Hplayers & _ & _ & _ & Hall).
  exists st2, shuffled, st3, res.
  split; [exact Hrun|]. split; [exact Hshuffled|]. split; [exact Hswept|].
  split; [exact Hplayers|exact Hall].
Defined.

(** C9 does not hold of every run: a player is handed to phase 3 by
    the id, not as the object.  Of two centre-backs that
    share the id 1, given to a run for two teams of one player each,
    the draft places one; the other one is then neither in a team nor
    in the list of phase 3, and is missing from the returned teams
    although the second team is empty, below its target size. *)
Lemma shared_id_never_handed :
  ∃ st1 st2 res team,
    (goalkeeperPhase 2 [1; 1]%Z
       (sortPlayers (heapOf [outfielder 1 "CB" 70; outfielder 1 "CB" 60]) [0; 1])
       (heapOf [outfielder 1 "CB" 70; outfielder 1 "CB" 60]) (rngOf [])).1 = Some st1
    ∧ (draftPhase 2
         (sortPlayers (heapOf [outfielder 1 "CB" 70; outfielder 1 "CB" 60]) [0; 1]) st1
         (goalkeeperPhase 2 [1; 1]%Z
            (sortPlayers (heapOf [outfielder 1 "CB" 70; outfielder 1 "CB" 60]) [0; 1])
            (heapOf [outfielder 1 "CB" 70; outfielder 1 "CB" 60]) (rngOf [])).2).1
      = Some st2
    ∧ (createBalancedTeamsWithSizeControl (λ _ _, true) 2 [1; 1]%Z [0; 1]
         (heapOf [outfielder 1 "CB" 70; outfielder 1 "CB" 60]) (rngOf [])).1 = Some res
    ∧ placed (teams st2) = [0]
    ∧ finalRemainingPlayers
        (sortPlayers (heapOf [outfielder 1 "CB" 70; outfielder 1 "CB" 60]) [0; 1]) st2
      = []
    ∧ placed (resultTeams res) = [0]
    ∧ resultTeams res !! 1 = Some team
    ∧ players team = []
    ∧ targetSize team = Some 1%Z
    ∧ belowTargetSize team.
Proof.
  eexists _, _, _, _. split; [vm_compute; reflexivity|].
  split; [vm_compute; reflexivity|]. split; [vm_compute; reflexivity|].
  split_and!; vm_compute; first [reflexivity|exact I].
Qed.

(** C2: the size cap does not hold after every run.  With one
    goalkeeper and two teams, [generateTeams] plans the sizes [1; 0];
    when the team order is shuffled to [1; 0], phase 1 puts the keeper
    in the second team, which ends with one player and target size 0,
    while the first team, of target size 1, stays empty. *)
Theorem goalkeeper_exceeds_zero_target (tieRoundsUp : Z → Z → bool) :
  resultTeams <$> (generateTeams tieRoundsUp 2 [0] (heapOf [keeper 1 80]) (rngOf [])).1
  = Some
      [ {| teamId := 1; teamName := "Team 1"; players := [];
           formation := emptyFormation;
           totalRating := 0; averageRating := AvgNumber 0;
           targetSize := Some 1%Z |};
        {| teamId := 2; teamName := "Team 2"; players := [0];
           formation := setGoalkeeper 0 emptyFormation;
           totalRating := 80; averageRating := AvgFixed false 800;
           targetSize := Some 0%Z |} ].
Proof. vm_compute. reflexivity. Qed.

(** * The engine, further *)

(** ** Teams over a run: what stays and what grows *)

Lemma sameTeam_refl (team : Team) : sameTeam team team.
Proof. by split_and!. Qed.

Lemma sameTeam_trans (a b c : Team) : sameTeam a b → sameTeam b c → sameTeam a c.
Proof. intros (? & ? & ?) (? & ? & ?). split_and!; congruence. Qed.

Lemma grown_refl (team : Team) : grown team team.
Proof. by split_and!. Qed.

Lemma grown_trans (a b c : Team) : grown a b → grown b c → grown a c.
Proof.
  intros (Hs & Hg & Hp & Hl) (Hs' & Hg' & Hp' & Hl'). split_and!.
  - by eapply sameTeam_trans.
  - congruence.
  - by etrans.
  - intros line. etrans; [apply Hl|apply Hl'].
Qed.

Lemma Forall2_insert_r {A} (R : A → A → Prop) (ts : list A) (i : nat) (team team' : A) :
  (∀ t, R t t) → ts !! i = Some team → R team team' → Forall2 R ts (<[i := team']> ts).
Proof.
  intros Hrefl Hi HR. rewrite <- (list_insert_id ts i team Hi) at 1.
  apply Forall2_insert; [|done]. apply Forall_Forall2_diag, Forall_forall. auto.
Qed.

Lemma Forall2_grown_trans (ts ts' ts'' : list Team) :
  Forall2 grown ts ts' → Forall2 grown ts' ts'' → Forall2 grown ts ts''.
Proof. apply Forall2_trans, grown_trans. Qed.

Lemma pushLine_prefix (line' line : Line) (pl : ref) (f : Formation) :
  lineOf line' f `prefix_of` lineOf line' (pushLine line pl f).
Proof. destruct line, line'; simpl; try done; by apply prefix_app_r. Qed.

Lemma pushLine_goalkeeper (line : Line) (pl : ref) (f : Formation) :
  goalkeeper (pushLine line pl f) = goalkeeper f.
Proof. by destruct line. Qed.

(** Joining a team anywhere but in goal continues the team. *)
Lemma pushPlayer_grown (slot : Slot) (pl : ref) (team : Team) :
  slot ≠ inGoal →
  grown team (pushPlayer pl (slotFormation slot pl (formation team)) team).
Proof.
  intros Hslot. split; [done|]. split; [|split]; simpl.
  - destruct slot as [|line|]; [done|apply pushLine_goalkeeper|done].
  - by apply prefix_app_r.
  - intros line'. destruct slot as [|line|]; [done|apply pushLine_prefix|done].
Qed.

Lemma places_sameTeam (pl : ref) (st st' : Run) :
  places pl st st' → Forall2 sameTeam (teams st) (teams st').
Proof.
  intros (i & team & slot & Hi & _ & -> & _).
  eapply Forall2_insert_r; [apply sameTeam_refl|done|]. by split_and!.
Qed.

Lemma dealt_sameTeam (l : list ref) (st st' : Run) :
  dealt l st st' → Forall2 sameTeam (teams st) (teams st').
Proof.
  induction 1 as [st|pl l st st' st'' Hplaces _ IH].
  - apply Forall_Forall2_diag, Forall_forall. intros. apply sameTeam_refl.
  - eapply Forall2_trans; [apply sameTeam_trans|by eapply places_sameTeam|done].
Qed.

Lemma Forall2_grown_refl (ts : list Team) : Forall2 grown ts ts.
Proof. apply Forall_Forall2_diag, Forall_forall. intros. apply grown_refl. Qed.

Lemma draftInto_grown (line : Line) (pl : ref) (team : Team) (st : Run) :
  teams st !! Z.to_nat (currentTeam st) = Some team →
  Forall2 grown (teams st) (teams (draftInto line pl team st)).
Proof.
  intros Hteam. simpl. eapply Forall2_insert_r; [apply grown_refl|done|].
  by apply (pushPlayer_grown (inLine line)).
Qed.

Lemma draftLoop_grown (numTeams : Z) (item : PoolItem) (attempts : nat)
    (st st' : Run) (assigned : bool) :
  draftLoop numTeams item attempts st = Some (st', assigned) →
  Forall2 grown (teams st) (teams st').
Proof.
  revert st. induction attempts as [|attempts IH]; intros st Hloop.
  { simplify_eq/=. apply Forall2_grown_refl. }
  cbn [draftLoop] in Hloop.
  destruct (teamAt (teams st) (currentTeam st)) as [team|] eqn:Hteam; [|done].
  simpl in Hloop. destruct (reachedTargetSize team).
  { rewrite <- (advance_teams numTeams st). by apply IH. }
  destruct (chooseLine _ _ team) as [line|].
  - simplify_eq. apply draftInto_grown. by apply teamAt_lookup.
  - rewrite <- (advance_teams numTeams st). by apply IH.
Qed.

Lemma draftItem_grown (numTeams : Z) (item : PoolItem) (st st' : Run) :
  draftItem numTeams st item = Some st' → Forall2 grown (teams st) (teams st').
Proof.
  unfold draftItem. intros Hitem.
  destruct (unassigned st (player item)); [|simplify_eq; apply Forall2_grown_refl].
  destruct (draftLoop numTeams item (Z.to_nat numTeams) st) as [[st1 assigned]|] eqn:Hloop;
    [|done].
  simpl in Hitem. simplify_eq. apply draftLoop_grown in Hloop.
  destruct assigned; [by rewrite advance_teams|done].
Qed.

Lemma snakeDraft_grown (numTeams : Z) (pool : list PoolItem) (st st' : Run) :
  snakeDraft numTeams pool st = Some st' → Forall2 grown (teams st) (teams st').
Proof.
  unfold snakeDraft. revert st.
  induction pool as [|item pool IH]; intros st Hdraft.
  { simplify_eq/=. apply Forall2_grown_refl. }
  cbn [forEachM] in Hdraft.
  destruct (draftItem numTeams st item) as [st1|] eqn:Hitem; [|done].
  eapply Forall2_grown_trans; [by eapply draftItem_grown|by apply IH].
Qed.

Lemma leftoverSweep_grown (l : list ref) (st : Run) :
  Forall2 grown (teams st) (teams (leftoverSweep l st)).
Proof.
  revert st. induction l as [|pl l IH]; intros st; [apply Forall2_grown_refl|].
  cbn [leftoverSweep]. pose proof (sweepPlayer_step st pl) as Hstep.
  destruct (sweepPlayer st pl) as [st'|]; [|apply Forall2_grown_refl].
  destruct Hstep as (i & team & slot & Hi & _ & -> & Hslot).
  eapply Forall2_grown_trans; [|apply IH]. simpl.
  eapply Forall2_insert_r; [apply grown_refl|done|].
  apply pushPlayer_grown. by intros ->.
Qed.

Lemma rateTeam_grown (tieRoundsUp : Z → Z → bool) (h : Heap) (team : Team) :
  grown team (rateTeam tieRoundsUp h team).
Proof. by split_and!. Qed.

(** The pool of the draft: every item is a player still unassigned who
    plays in the line of the item's priority. *)
Lemma draftPhase_pool (numTeams : Z) (sorted : list ref) (st : Run) (g : Rng) :
  ∃ assignmentPool,
    (draftPhase numTeams sorted st g).1 = snakeDraft numTeams assignmentPool st
    ∧ ∀ item, item ∈ assignmentPool →
        player item ∈ sorted
        ∧ unassigned st (player item)
        ∧ playsIn (priority item) (heap st (player item)).
Proof.
  unfold draftPhase. repeat (rewrite bindR_run; cbv beta zeta).
  eexists. split; [reflexivity|].
  intros item. rewrite shuffleArray_Permutation, !elem_of_app.
  unfold poolShare.
  intros [Hitem|[Hitem|Hitem]];
    apply list_elem_of_fmap in Hitem as (pl & -> & Hpl);
    apply elem_of_submseteq_take in Hpl;
    rewrite shuffleArray_Permutation in Hpl;
    apply list_elem_of_filter in Hpl as [Hplays Hpl];
    apply list_elem_of_filter in Hpl as [Hfree Hpl]; done.
Qed.

Section Steps.
Variable tieRoundsUp : Z → Z → bool.

(** A run, step by step: the keepers dealt to the new teams, the pool
    drafted, the rest swept, the teams rated. *)
Lemma run_steps (numTeams : Z) (sizes : list Z) (input : list ref) (h : Heap) (g : Rng) :
  ∃ start coin gks st1 pool st2 shuffled,
    let st0 := startRun numTeams sizes h start coin in
    let st3 := leftoverSweep shuffled st2 in
    (createBalancedTeamsWithSizeControl tieRoundsUp numTeams sizes input h g).1
    = Some (rateTeams tieRoundsUp (heap st3) (teams st3))
    ∧ (goalkeeperPhase numTeams sizes (sortPlayers h input) h g).1 = Some st1
    ∧ dealt gks st0 st1
    ∧ Forall (keeperDealt (heap st1)) (teams st1)
    ∧ snakeDraft numTeams pool st1 = Some st2
    ∧ (∀ item, item ∈ pool →
         player item ∈ input
         ∧ unassigned st1 (player item)
         ∧ playsIn (priority item) (h (player item)))
    ∧ shuffled ≡ₚ finalRemainingPlayers (sortPlayers h input) st2
    ∧ wellFormed numTeams h input st1
    ∧ wellFormed numTeams h input st2
    ∧ wellFormed numTeams h input st3.
Proof.
  destruct (run_phases tieRoundsUp numTeams sizes input h g)
    as (st1 & st2 & Hrun1 & Hrun2 & Hrun & Hwf2 & Hwf3 & _).
  set (sorted := sortPlayers h input) in *.
  set (phase1 := goalkeeperPhase numTeams sizes sorted h g) in *.
  destruct (goalkeeperPhase_spec numTeams sizes input h g)
    as (st1' & pref & alt & Hrun1' & Hwf1 & _ & _ & Hshape & _ & _ & _ & start & coin & Hdealt).
  fold sorted in Hrun1'. fold phase1 in Hrun1'.
  assert (st1' = st1) as -> by congruence.
  destruct (draftPhase_pool numTeams sorted st1 phase1.2) as (pool & Hpool & Hitems).
  rewrite Hpool in Hrun2.
  destruct (sweepPhase_run sorted st2 (draftPhase numTeams sorted st1 phase1.2).2)
    as (shuffled & Hperm & Hsweep).
  rewrite Hsweep in Hrun, Hwf3.
  exists start, coin, (take (Z.to_nat numTeams) (pref ++ alt)), st1, pool, st2, shuffled.
  cbv zeta.
  split_and!; try done.
  intros item (Hin & Hfree & Hplays)%Hitems. split_and!; [|done|].
  - subst sorted. by rewrite sortPlayers_Permutation in Hin.
  - unfold playsIn in *.
    destruct (wf_heap _ _ _ _ Hwf1 (player item)) as (_ & _ & -> & _). done.
Qed.

Lemma rateTeams_teams (h : Heap) (ts : list Team) :
  resultTeams (rateTeams tieRoundsUp h ts) = rateTeam tieRoundsUp h <$> ts.
Proof. by destruct (rateTeams_spec tieRoundsUp h ts) as (? & _). Qed.

(** The teams a run returns are the teams phase 1 left, continued. *)
Lemma run_grown (numTeams : Z) (sizes : list Z) (input : list ref) (h : Heap) (g : Rng) :
  ∃ start coin gks st1 res,
    (createBalancedTeamsWithSizeControl tieRoundsUp numTeams sizes input h g).1 = Some res
    ∧ (goalkeeperPhase numTeams sizes (sortPlayers h input) h g).1 = Some st1
    ∧ dealt gks (startRun numTeams sizes h start coin) st1
    ∧ Forall (keeperDealt (heap st1)) (teams st1)
    ∧ wellFormed numTeams h input st1
    ∧ Forall2 grown (teams st1) (resultTeams res).
Proof.
  destruct (run_steps numTeams sizes input h g)
    as (start & coin & gks & st1 & pool & st2 & shuffled
        & Hrun & Hrun1 & Hdealt & Hshape & Hdraft & _ & _ & Hwf1 & _).
  eexists start, coin, gks, st1, _. split; [exact Hrun|].
  split_and!; try done.
  rewrite rateTeams_teams.
  eapply Forall2_grown_trans; [by eapply snakeDraft_grown|].
  eapply Forall2_grown_trans; [apply leftoverSweep_grown|].
  apply Forall2_fmap_r, Forall_Forall2_diag, Forall_forall.
  intros team _. apply rateTeam_grown.
Qed.
End Steps.

(** ** Counting the players of the teams *)

Lemma sumZ_teamSizes (ts : list Team) :
  sumZ (teamSizes ts) = Z.of_nat (length (placed ts)).
Proof.
  unfold teamSizes, sumZ. induction ts as [|team ts IH]; [done|].
  rewrite fmap_cons, placed_cons, length_app. cbn [foldr]. rewrite IH. lia.
Qed.

Lemma teamSizes_lookup (ts : list Team) (i : nat) (size : Z) :
  teamSizes ts !! i = Some size
  ↔ ∃ team, ts !! i = Some team ∧ size = Z.of_nat (length (players team)).
Proof.
  unfold teamSizes. rewrite list_lookup_fmap.
  destruct (ts !! i) as [team|]; simpl; split.
  - intros [= <-]. by exists team.
  - by intros (? & [= <-] & ->).
  - done.
  - by intros (? & ? & _).
Qed.

Lemma Forall2_le_sumZ (l k : list Z) :
  Forall2 Z.le l k → (sumZ l ≤ sumZ k)%Z.
Proof. unfold sumZ. induction 1; simpl; lia. Qed.

(** Sizes that are no larger one by one and no smaller in sum are the
    same sizes. *)
Lemma Forall2_le_sumZ_eq (l k : list Z) :
  Forall2 Z.le l k → (sumZ k ≤ sumZ l)%Z → l = k.
Proof.
  induction 1 as [|x y l k Hxy Hlk IH]; [done|].
  pose proof (Forall2_le_sumZ _ _ Hlk). unfold sumZ in *. simpl. intros Hsum.
  f_equal; [lia|]. apply IH. lia.
Qed.

Lemma calculateTeamSizes_sum (totalPlayers numTeams : Z) :
  (0 ≤ totalPlayers)%Z → (1 ≤ numTeams)%Z →
  sumZ (calculateTeamSizes totalPlayers numTeams) = totalPlayers.
Proof.
  intros Htotal Hteams. unfold calculateTeamSizes.
  rewrite Z.rem_mod_nonneg by lia.
  pose proof (Z.mod_pos_bound totalPlayers numTeams) as Hmod.
  rewrite sumZ_quota by lia.
  pose proof (Z.div_mod totalPlayers numTeams). lia.
Qed.

Section Counting.
Variable tieRoundsUp : Z → Z → bool.

(** The teams a run returns are the teams it created, with the
    identity and the target size they were created with. *)
Lemma run_sameTeam (numTeams : Z) (sizes : list Z) (input : list ref) (h : Heap) (g : Rng) :
  ∃ res,
    (createBalancedTeamsWithSizeControl tieRoundsUp numTeams sizes input h g).1 = Some res
    ∧ Forall2 sameTeam (newTeam sizes <$> seq 0 (Z.to_nat numTeams)) (resultTeams res).
Proof.
  destruct (run_grown tieRoundsUp numTeams sizes input h g)
    as (start & coin & gks & st1 & res & Hrun & _ & Hdealt & _ & _ & Hgrown).
  exists res. split; [done|].
  eapply Forall2_trans; [apply sameTeam_trans|exact (dealt_sameTeam _ _ _ Hdealt)|].
  eapply Forall2_impl; [exact Hgrown|]. by intros t t' [? _].
Qed.

Lemma run_lookup (numTeams : Z) (sizes : list Z) (input : list ref) (h : Heap) (g : Rng) :
  ∃ res,
    (createBalancedTeamsWithSizeControl tieRoundsUp numTeams sizes input h g).1 = Some res
    ∧ length (resultTeams res) = Z.to_nat numTeams
    ∧ ∀ i team, resultTeams res !! i = Some team → sameTeam (newTeam sizes i) team.
Proof.
  destruct (run_sameTeam numTeams sizes input h g) as (res & Hrun & Hsame).
  exists res. split; [done|]. split.
  - apply Forall2_length in Hsame. by rewrite length_fmap, length_seq in Hsame.
  - intros i team Hi.
    destruct (Forall2_lookup_r _ _ _ _ _ Hsame Hi) as (t0 & Ht0 & Ht).
    rewrite list_lookup_fmap in Ht0.
    destruct (seq 0 (Z.to_nat numTeams) !! i) as [j|] eqn:Hj; [|done].
    apply lookup_seq in Hj as [-> _]. by simplify_eq/=.
Qed.

(** Either every given player is in a returned team, or no returned
    team is below its target size. *)
Lemma run_placed_or_full (numTeams : Z) (sizes : list Z) (input : list ref)
    (h : Heap) (g : Rng) :
  NoDup ((λ r, id (h r)) <$> input) →
  ∃ res,
    (createBalancedTeamsWithSizeControl tieRoundsUp numTeams sizes input h g).1 = Some res
    ∧ NoDup (placed (resultTeams res))
    ∧ (∀ r, r ∈ placed (resultTeams res) → r ∈ input)
    ∧ ((∀ r, r ∈ input → r ∈ placed (resultTeams res))
       ∨ Forall (λ team, ¬ belowTargetSize team) (resultTeams res)).
Proof.
  intros Hids.
  destruct (run_phases tieRoundsUp numTeams sizes input h g)
    as (st1 & st2 & _ & _ & Hrun & Hwf2 & Hwf3 & Hdistinct & Hkept & Hall).
  set (sorted := sortPlayers h input) in *.
  set (st3 := (sweepPhase _ st2 _).1) in *.
  eexists. split; [exact Hrun|]. rewrite rateTeams_teams, placed_rateTeam.
  split_and!.
  - destruct (Hdistinct Hids) as [_ Hnodup]. by apply NoDup_fmap_1 in Hnodup.
  - apply (wf_input _ _ _ _ Hwf3).
  - destruct Hall as [Hall|Hfull]; [left|right].
    + intros r Hr.
      destruct (decide (r ∈ placed (teams st2))) as [Hin|Hout]; [by apply Hkept|].
      apply Hall. unfold finalRemainingPlayers.
      apply list_elem_of_filter. split.
      * unfold unassigned. apply bool_decide_pack. intros Hassigned.
        destruct (wf_placed _ _ _ _ Hwf2 _ Hassigned) as (r' & Hr' & Hid).
        rewrite (wf_id _ _ _ _ _ Hwf2) in Hid.
        assert (r' = r) as ->; [|done].
        eapply (NoDup_fmap_eq (λ r, id (h r))); eauto.
        by apply (wf_input _ _ _ _ Hwf2).
      * subst sorted. by rewrite sortPlayers_Permutation.
    + apply Forall_fmap, Forall_forall. intros team Hteam. exact (Hfull team Hteam).
Qed.

(** Where the planned sizes make room for all the players, nobody is
    left out. *)
Lemma run_everyone (numTeams : Z) (sizes : list Z) (input : list ref) (h : Heap) (g : Rng) :
  NoDup ((λ r, id (h r)) <$> input) →
  Z.to_nat numTeams ≤ length sizes →
  (Z.of_nat (length input) ≤ sumZ (take (Z.to_nat numTeams) sizes))%Z →
  ∃ res,
    (createBalancedTeamsWithSizeControl tieRoundsUp numTeams sizes input h g).1 = Some res
    ∧ placed (resultTeams res) ≡ₚ input.
Proof.
  intros Hids Hlen Hroom.
  destruct (run_placed_or_full numTeams sizes input h g Hids)
    as (res & Hrun & Hnodup & Hin & Hall).
  destruct (run_lookup numTeams sizes input h g) as (res' & Hrun' & Hteams & Hsame).
  assert (res' = res) as -> by congruence.
  exists res. split; [done|].
  assert (Hsub : placed (resultTeams res) ⊆+ input).
  { by apply NoDup_submseteq. }
  destruct Hall as [Hall|Hfull].
  { apply NoDup_Permutation; [done|by apply NoDup_fmap_1 in Hids|]. split; auto. }
  apply submseteq_length_Permutation; [done|].
  assert (Forall2 Z.le (take (Z.to_nat numTeams) sizes) (teamSizes (resultTeams res)))
    as Hle%Forall2_le_sumZ.
  { apply Forall2_same_length_lookup_2.
    - unfold teamSizes. rewrite length_take, length_fmap. lia.
    - intros i size len [Hi _]%lookup_take_Some (team & Hteam & ->)%teamSizes_lookup.
      destruct (Hsame i team Hteam) as (_ & _ & Htarget). simpl in Htarget.
      rewrite Forall_forall in Hfull.
      assert (Hnot : ¬ belowTargetSize team).
      { eapply Hfull, list_elem_of_lookup_2, Hteam. }
      unfold belowTargetSize in Hnot. rewrite Htarget, Hi in Hnot.
      case_bool_decide; [by destruct Hnot|lia]. }
  rewrite sumZ_teamSizes in Hle. lia.
Qed.

(** Where moreover every planned size is at least 1 and the sizes sum
    to the number of players, every team gets its planned size. *)
Lemma run_exact (numTeams : Z) (sizes : list Z) (input : list ref) (h : Heap) (g : Rng) :
  NoDup ((λ r, id (h r)) <$> input) →
  length sizes = Z.to_nat numTeams →
  (∀ size, size ∈ sizes → (1 ≤ size)%Z) →
  sumZ sizes = Z.of_nat (length input) →
  ∃ res,
    (createBalancedTeamsWithSizeControl tieRoundsUp numTeams sizes input h g).1 = Some res
    ∧ placed (resultTeams res) ≡ₚ input
    ∧ teamSizes (resultTeams res) = sizes.
Proof.
  intros Hids Hlen Hsizes Hsum.
  destruct (run_everyone numTeams sizes input h g Hids) as (res & Hrun & Hperm).
  { lia. }
  { rewrite take_ge by lia. lia. }
  destruct (run_lookup numTeams sizes input h g) as (res' & Hrun' & Hteams & Hsame).
  assert (res' = res) as -> by congruence.
  destruct (run_withinTarget tieRoundsUp numTeams sizes input h g Hsizes)
    as (res' & Hrun'' & Hwithin).
  assert (res' = res) as -> by congruence.
  exists res. split_and!; [done..|].
  apply Forall2_le_sumZ_eq.
  - apply Forall2_same_length_lookup_2.
    + unfold teamSizes. rewrite length_fmap. lia.
    + intros i len size (team & Hteam & ->)%teamSizes_lookup Hi.
      destruct (Hsame i team Hteam) as (_ & _ & Htarget). simpl in Htarget.
      rewrite Forall_forall in Hwithin.
      assert (Hin : withinTarget team).
      { eapply Hwithin, list_elem_of_lookup_2, Hteam. }
      unfold withinTarget in Hin. by rewrite Htarget, Hi in Hin.
  - rewrite sumZ_teamSizes, Hperm. lia.
Qed.
End Counting.

(** X1: every run ends without raising and returns [numTeams] teams;
    the team at index [i] has the id [i + 1], the name "Team" followed
    by that number, and the target size [targetTeamSizes[i]], undefined
    past the end of that array: no phase touches these three fields. *)
Theorem run_team_identity (tieRoundsUp : Z → Z → bool) (numTeams : Z)
    (targetTeamSizes : list Z) (playersToUse : list ref) (h : Heap) (g : Rng) :
  ∃ res,
    (createBalancedTeamsWithSizeControl tieRoundsUp numTeams targetTeamSizes
       playersToUse h g).1 = Some res
    ∧ length (resultTeams res) = Z.to_nat numTeams
    ∧ ∀ i team, resultTeams res !! i = Some team →
        teamId team = (Z.of_nat i + 1)%Z
        ∧ teamName team = "Team " +:+ pretty (Z.of_nat i + 1)%Z
        ∧ targetSize team = targetTeamSizes !! i.
Proof.
  destruct (run_lookup tieRoundsUp numTeams targetTeamSizes playersToUse h g)
    as (res & Hrun & Hlen & Hsame).
  exists res. split_and!; [done..|].
  intros i team Hi. by destruct (Hsame i team Hi) as (? & ? & ?).
Qed.

(** X2: when the players given to a run have distinct ids, there is a
    target size for every team and the target sizes of the teams sum
    to at least the number of players, the run leaves nobody out: the
    players of the returned teams are the given players, each once. *)
Theorem run_places_everyone (tieRoundsUp : Z → Z → bool) (numTeams : Z)
    (targetTeamSizes : list Z) (playersToUse : list ref) (h : Heap) (g : Rng)
    (Hids : NoDup ((λ r, id (h r)) <$> playersToUse))
    (Hsizes : Z.to_nat numTeams ≤ length targetTeamSizes)
    (Hroom : (Z.of_nat (length playersToUse)
              ≤ sumZ (take (Z.to_nat numTeams) targetTeamSizes))%Z) :
  ∃ res,
    (createBalancedTeamsWithSizeControl tieRoundsUp numTeams targetTeamSizes
       playersToUse h g).1 = Some res
    ∧ placed (resultTeams res) ≡ₚ playersToUse.
Proof. by apply run_everyone. Qed.

Lemma run_places_everyone_witness :
  NoDup ((λ r, id (heapOf squad r)) <$> seq 0 9)
  ∧ Z.to_nat 2 ≤ length [3; 7]%Z
  ∧ (Z.of_nat (length (seq 0 9)) ≤ sumZ (take (Z.to_nat 2) [3; 7]))%Z
  ∧ ∃ res,
      (createBalancedTeamsWithSizeControl (λ _ _, true) 2 [3; 7]%Z (seq 0 9)
         (heapOf squad) (rngOf [3; 1; 4; 1; 5; 9; 2; 6]%Z)).1 = Some res
      ∧ placed (resultTeams res) ≡ₚ seq 0 9.
Proof.
  assert (Hids : NoDup ((λ r, id (heapOf squad r)) <$> seq 0 9)).
  { apply (bool_decide_unpack _). vm_compute. exact I. }
  assert (Hsizes : Z.to_nat 2 ≤ length [3; 7]%Z) by (simpl; lia).
  assert (Hroom : (Z.of_nat (length (seq 0 9)) ≤ sumZ (take (Z.to_nat 2) [3; 7]))%Z)
    by (vm_compute; discriminate).
  split_and!; [exact Hids|exact Hsizes|exact Hroom|].
  exact (run_places_everyone (λ _ _, true) 2 [3; 7]%Z (seq 0 9) (heapOf squad)
           (rngOf [3; 1; 4; 1; 5; 9; 2; 6]%Z) Hids Hsizes Hroom).
Defined.

(** X3: [generateTeams], asked for at least one team and given players
    with distinct ids, puts every player in a team, once; and when
    there are at least as many players as teams, the team at index [i]
    ends with exactly the size planned for it, so that the sizes of
    any two teams differ by at most one. *)
Theorem generateTeams_places_everyone (tieRoundsUp : Z → Z → bool) (numTeams : Z)
    (playersToUse : list ref) (h : Heap) (g : Rng)
    (Hteams : (1 ≤ numTeams)%Z)
    (Hplayers : playersToUse ≠ [])
    (Hids : NoDup ((λ r, id (h r)) <$> playersToUse)) :
  ∃ res,
    (generateTeams tieRoundsUp numTeams playersToUse h g).1 = Some res
    ∧ placed (resultTeams res) ≡ₚ playersToUse
    ∧ ((numTeams ≤ Z.of_nat (length playersToUse))%Z →
       teamSizes (resultTeams res)
       = calculateTeamSizes (Z.of_nat (length playersToUse)) numTeams
       ∧ ∀ a b, a ∈ teamSizes (resultTeams res) → b ∈ teamSizes (resultTeams res) →
           (a - b ≤ 1)%Z).
Proof.
  rewrite generateTeams_run by done.
  set (total := Z.of_nat (length playersToUse)).
  set (sizes := calculateTeamSizes total numTeams).
  assert (Hlen : length sizes = Z.to_nat numTeams) by apply calculateTeamSizes_length.
  assert (Hsum : sumZ sizes = total) by (apply calculateTeamSizes_sum; lia).
  destruct (run_everyone tieRoundsUp numTeams sizes playersToUse h g Hids)
    as (res & Hrun & Hperm).
  { lia. }
  { rewrite take_ge by lia. lia. }
  exists res. split_and!; [done..|]. intros Hmany.
  destruct (run_exact tieRoundsUp numTeams sizes playersToUse h g Hids Hlen)
    as (res' & Hrun' & _ & Hexact).
  { intros size. apply calculateTeamSizes_quota. lia. }
  { done. }
  assert (res' = res) as -> by congruence.
  split; [done|]. rewrite Hexact. subst sizes. unfold calculateTeamSizes, teamQuota.
  intros a b (i & -> & _)%list_elem_of_fmap (j & -> & _)%list_elem_of_fmap.
  repeat case_bool_decide; lia.
Qed.

Lemma generateTeams_places_everyone_witness :
  (1 ≤ 2)%Z
  ∧ seq 0 9 ≠ []
  ∧ NoDup ((λ r, id (heapOf squad r)) <$> seq 0 9)
  ∧ ∃ res,
      (generateTeams (λ _ _, true) 2 (seq 0 9) (heapOf squad)
         (rngOf [3; 1; 4; 1; 5; 9; 2; 6]%Z)).1 = Some res
      ∧ placed (resultTeams res) ≡ₚ seq 0 9
      ∧ teamSizes (resultTeams res) = [5; 4]%Z.
Proof.
  assert (Hteams : (1 ≤ 2)%Z) by lia.
  assert (Hplayers : seq 0 9 ≠ []) by discriminate.
  assert (Hids : NoDup ((λ r, id (heapOf squad r)) <$> seq 0 9)).
  { apply (bool_decide_unpack _). vm_compute. exact I. }
  split_and!; [exact Hteams|exact Hplayers|exact Hids|].
  destruct (generateTeams_places_everyone (λ _ _, true) 2 (seq 0 9) (heapOf squad)
              (rngOf [3; 1; 4; 1; 5; 9; 2; 6]%Z) Hteams Hplayers Hids)
    as (res & Hrun & Hperm & Hexact).
  exists res. split_and!; [exact Hrun|exact Hperm|].
  apply Hexact. simpl. lia.
Defined.

(** X4: [regenerateTeams], given the teams of a previous run and
    players with distinct ids, returns as many teams as there were;
    the players of these teams are copies of the given players, one of
    each; and when there are at least as many players as teams, every
    team ends with exactly the size [calculateTeamSizes] plans for
    it.  This holds wherever in the heap the copies are made. *)
Theorem regenerateTeams_places_everyone (tieRoundsUp : Z → Z → bool)
    (previousTeams : list Team) (playerSelection : string) (playersToUse : list ref)
    (next : ref) (h : Heap) (g : Rng)
    (Hteams : previousTeams ≠ [])
    (Hplayers : playersToUse ≠ [])
    (Hids : NoDup ((λ r, id (h r)) <$> playersToUse)) :
  ∃ res,
    (regenerateTeams tieRoundsUp previousTeams playerSelection playersToUse next h g).1
    = Some res
    ∧ length (resultTeams res) = length previousTeams
    ∧ (λ r, id (resultHeap res r)) <$> placed (resultTeams res)
      ≡ₚ (λ r, id (h r)) <$> playersToUse
    ∧ (length previousTeams ≤ length playersToUse →
       teamSizes (resultTeams res)
       = calculateTeamSizes (Z.of_nat (length playersToUse))
           (Z.of_nat (length previousTeams))).
Proof.
  unfold regenerateTeams.
  destruct previousTeams as [|team ts] eqn:Hprevious; [done|]. rewrite <- Hprevious.
  assert (Hcount : 1 ≤ length previousTeams) by (subst; simpl; lia).
  clear Hprevious Hteams.
  rewrite (bool_decide_eq_false_2 (playersToUse = [])), andb_false_r by done.
  rewrite bindR_run.
  pose proof (applyRandomization_ids playersToUse next h g) as Hcopies. simpl in Hcopies.
  set (randomized := (applyRandomization playersToUse next h g).1) in *.
  set (numTeams := Z.of_nat (length previousTeams)).
  set (total := Z.of_nat (length playersToUse)).
  set (sizes := calculateTeamSizes total numTeams).
  assert (Hsame : length randomized.1 = length playersToUse).
  { apply Permutation_length in Hcopies. by rewrite !length_fmap in Hcopies. }
  assert (Hlen : length sizes = Z.to_nat numTeams) by apply calculateTeamSizes_length.
  assert (Hsum : sumZ sizes = total) by (apply calculateTeamSizes_sum; lia).
  assert (Hids' : NoDup ((λ r, id (randomized.2 r)) <$> randomized.1))
    by by rewrite Hcopies.
  destruct (run_everyone tieRoundsUp numTeams sizes randomized.1 randomized.2
              (applyRandomization playersToUse next h g).2 Hids') as (res & Hrun & Hperm).
  { lia. }
  { rewrite take_ge by lia. lia. }
  destruct (run_distinctIds tieRoundsUp numTeams sizes randomized.1 randomized.2
              (applyRandomization playersToUse next h g).2 Hids')
    as (res' & Hrun' & _ & _ & Hid).
  assert (res' = res) as -> by congruence.
  destruct (run_lookup tieRoundsUp numTeams sizes randomized.1 randomized.2
              (applyRandomization playersToUse next h g).2) as (res' & Hrun'' & Hteams & _).
  assert (res' = res) as -> by congruence.
  exists res. split_and!; [done| | |].
  - rewrite Hteams. subst numTeams. lia.
  - rewrite <- Hcopies, <- Hperm.
    erewrite list_fmap_ext; [done|]. intros _ r _. apply Hid.
  - intros Hmany.
    destruct (run_exact tieRoundsUp numTeams sizes randomized.1 randomized.2
                (applyRandomization playersToUse next h g).2 Hids' Hlen)
      as (res' & Hrun3 & _ & Hexact).
    { intros size. apply calculateTeamSizes_quota. lia. }
    { lia. }
    by assert (res' = res) as -> by congruence.
Qed.

Lemma regenerateTeams_places_everyone_witness :
  [newTeam [] 0; newTeam [] 1] ≠ []
  ∧ seq 0 9 ≠ []
  ∧ NoDup ((λ r, id (heapOf squad r)) <$> seq 0 9)
  ∧ ∃ res,
      (regenerateTeams (λ _ _, true) [newTeam [] 0; newTeam [] 1] "all" (seq 0 9) 9
         (heapOf squad) (rngOf [3; 1; 4; 1; 5; 9; 2; 6]%Z)).1 = Some res
      ∧ length (resultTeams res) = 2
      ∧ teamSizes (resultTeams res) = [5; 4]%Z.
Proof.
  assert (Hteams : [newTeam [] 0; newTeam [] 1] ≠ []) by discriminate.
  assert (Hplayers : seq 0 9 ≠ []) by discriminate.
  assert (Hids : NoDup ((λ r, id (heapOf squad r)) <$> seq 0 9)).
  { apply (bool_decide_unpack _). vm_compute. exact I. }
  split_and!; [exact Hteams|exact Hplayers|exact Hids|].
  destruct (regenerateTeams_places_everyone (λ _ _, true) [newTeam [] 0; newTeam [] 1]
              "all" (seq 0 9) 9 (heapOf squad) (rngOf [3; 1; 4; 1; 5; 9; 2; 6]%Z)
              Hteams Hplayers Hids)
    as (res & Hrun & Hlen & _ & Hexact).
  exists res. split_and!; [exact Hrun|exact Hlen|].
  apply Hexact. simpl. lia.
Defined.

(** X5: when every target size is at least 1, every run ends without
    raising and no returned team holds more players than its target
    size; when moreover the players have distinct ids, there is one
    target size per team and the target sizes sum to the number of
    players, every team ends with exactly its target size. *)
Theorem run_sizes (tieRoundsUp : Z → Z → bool) (numTeams : Z)
    (targetTeamSizes : list Z) (playersToUse : list ref) (h : Heap) (g : Rng)
    (Hsizes : ∀ size, size ∈ targetTeamSizes → (1 ≤ size)%Z) :
  ∃ res,
    (createBalancedTeamsWithSizeControl tieRoundsUp numTeams targetTeamSizes
       playersToUse h g).1 = Some res
    ∧ Forall withinTarget (resultTeams res)
    ∧ (NoDup ((λ r, id (h r)) <$> playersToUse) →
       length targetTeamSizes = Z.to_nat numTeams →
       sumZ targetTeamSizes = Z.of_nat (length playersToUse) →
       teamSizes (resultTeams res) = targetTeamSizes).
Proof.
  destruct (run_withinTarget tieRoundsUp numTeams targetTeamSizes playersToUse h g Hsizes)
    as (res & Hrun & Hwithin).
  exists res. split_and!; [done..|]. intros Hids Hlen Hsum.
  destruct (run_exact tieRoundsUp numTeams targetTeamSizes playersToUse h g
              Hids Hlen Hsizes Hsum) as (res' & Hrun' & _ & Hexact).
  by assert (res' = res) as -> by congruence.
Qed.

Lemma run_sizes_witness :
  (∀ size, size ∈ [3; 6]%Z → (1 ≤ size)%Z)
  ∧ ∃ res,
      (createBalancedTeamsWithSizeControl (λ _ _, true) 2 [3; 6]%Z (seq 0 9)
         (heapOf squad) (rngOf [3; 1; 4; 1; 5; 9; 2; 6]%Z)).1 = Some res
      ∧ Forall withinTarget (resultTeams res)
      ∧ teamSizes (resultTeams res) = [3; 6]%Z.
Proof.
  assert (Hsizes : ∀ size, size ∈ [3; 6]%Z → (1 ≤ size)%Z).
  { intros size [->|[->|?%elem_of_nil]%elem_of_cons]%elem_of_cons; [lia|lia|done]. }
  split; [exact Hsizes|].
  destruct (run_sizes (λ _ _, true) 2 [3; 6]%Z (seq 0 9) (heapOf squad)
              (rngOf [3; 1; 4; 1; 5; 9; 2; 6]%Z) Hsizes) as (res & Hrun & Hwithin & Hexact).
  exists res. split_and!; [exact Hrun|exact Hwithin|].
  apply Hexact.
  - apply (bool_decide_unpack _). vm_compute. exact I.
  - reflexivity.
  - reflexivity.
Defined.

(** ** The positions the phases write *)

Lemma elem_of_slots (f : Formation) (r : ref) :
  r ∈ slots f ↔ goalkeeper f = Some r ∨ ∃ line, r ∈ lineOf line f.
Proof.
  unfold slots. rewrite !elem_of_app. split.
  - intros [Hr|[Hr|[Hr|Hr]]].
    + left. destruct (goalkeeper f); simpl in Hr.
      * by apply list_elem_of_singleton in Hr as ->.
      * by apply elem_of_nil in Hr.
    + right. by exists defender.
    + right. by exists midfielder.
    + right. by exists forward.
  - intros [->|[[] Hr]]; simpl; auto. left. by left.
Qed.

Lemma elem_of_pushLine (line' line : Line) (pl r : ref) (f : Formation) :
  r ∈ lineOf line' (pushLine line pl f) ↔ r ∈ lineOf line' f ∨ line' = line ∧ r = pl.
Proof.
  destruct line, line'; simpl; rewrite ?elem_of_app, ?list_elem_of_singleton;
    intuition congruence.
Qed.

Lemma teamMarked_ext (h0 h h' : Heap) (team : Team) :
  withinCaps team →
  (∀ r, r ∈ players team → assignedPosition (h' r) = assignedPosition (h r)) →
  teamMarked h0 h team → teamMarked h0 h' team.
Proof.
  intros (_ & _ & _ & _ & _ & Hheld) Hsame (Hkeeper & Hlines & Hbench).
  split_and!.
  - intros kp Hkp. rewrite Hsame; [by apply Hkeeper|].
    apply Hheld, elem_of_slots. by left.
  - intros line pl Hpl. unfold lineMarked. rewrite Hsame; [by apply Hlines|].
    apply Hheld, elem_of_slots. right. by exists line.
  - intros pl Hpl Hout. rewrite Hsame by done. by apply Hbench.
Qed.

(** A team after a player joined it, in a line or on the bench. *)
Lemma pushPlayer_teamMarked (h0 h : Heap) (slot : Slot) (pl : ref) (team : Team) :
  teamMarked h0 h team →
  match slot with
  | inGoal => False
  | inLine line => lineMarked h0 h line pl
  | onBench => assignedPosition (h pl) = assignedPosition (h0 pl)
  end →
  teamMarked h0 h (pushPlayer pl (slotFormation slot pl (formation team)) team).
Proof.
  intros (Hkeeper & Hlines & Hbench) Hslot. destruct slot as [|line|]; [done| |].
  - split_and!; simpl.
    + intros kp. rewrite pushLine_goalkeeper. apply Hkeeper.
    + intros line' r [Hr|[-> ->]]%elem_of_pushLine; [by apply Hlines|done].
    + intros r [Hr| ->%list_elem_of_singleton]%elem_of_app Hout.
      * apply Hbench; [done|]. intros Hin. apply Hout.
        apply elem_of_slots. apply elem_of_slots in Hin as [Hin|[line' Hin]].
        -- left. by rewrite pushLine_goalkeeper.
        -- right. exists line'. apply elem_of_pushLine. by left.
      * destruct Hout. apply elem_of_slots. right. exists line.
        apply elem_of_pushLine. by right.
  - split_and!; simpl; [done..|].
    intros r [Hr| ->%list_elem_of_singleton]%elem_of_app Hout; [by apply Hbench|done].
Qed.

Lemma sameIdentity_playsIn (p q : Player) (line : Line) :
  sameIdentity p q → playsIn line q = playsIn line p.
Proof. intros (_ & _ & Hpositions & _). unfold playsIn. by rewrite Hpositions. Qed.

Lemma sameIdentity_bestPosition (p q : Player) (line : Line) :
  sameIdentity p q →
  getBestPositionForFormationLine q line = getBestPositionForFormationLine p line.
Proof.
  intros (_ & _ & Hpositions & Hpreferred & _).
  unfold getBestPositionForFormationLine. by rewrite Hpositions, Hpreferred.
Qed.

Lemma chooseLine_playsIn (prio : Line) (p : Player) (team : Team) (line : Line) :
  chooseLine prio p team = Some line → playsIn prio p → playsIn line p.
Proof.
  unfold chooseLine. intros Hline Hprio.
  repeat match type of Hline with
         | (if ?c then _ else _) = _ => destruct c eqn:?
         end; simplify_eq; try done;
    repeat match goal with
           | H : _ && _ = true |- _ => apply andb_prop in H as [_ ?]
           end;
    by apply Is_true_true.
Qed.

Section Marking.
Variables (numTeams : Z) (h0 : Heap) (input : list ref).

Lemma not_placed_free (st : Run) (pl : ref) :
  wellFormed numTeams h0 input st →
  id (h0 pl) ∉ assignedPlayers st →
  pl ∉ placed (teams st).
Proof. intros Hwf Hfree Hin. by apply Hfree, (wf_assigned _ _ _ _ Hwf). Qed.

Lemma draftInto_marked (line : Line) (pl : ref) (team : Team) (st : Run) :
  wellFormed numTeams h0 input st →
  marked h0 st →
  id (h0 pl) ∉ assignedPlayers st →
  playsIn line (h0 pl) →
  teams st !! Z.to_nat (currentTeam st) = Some team →
  marked h0 (draftInto line pl team st).
Proof.
  intros Hwf [Hteams Hrest] Hfree Hplays Hteam.
  pose proof (not_placed_free st pl Hwf Hfree) as Hout.
  pose proof (wf_caps _ _ _ _ Hwf) as Hcaps.
  rewrite Forall_forall in Hteams, Hcaps.
  set (h' := update pl (setAssignedPosition
                          (getBestPositionForFormationLine (heap st pl) line)) (heap st)).
  assert (Hext : ∀ t, t ∈ teams st → teamMarked h0 h' t).
  { intros t Ht. apply (teamMarked_ext h0 (heap st)); [by apply Hcaps| |by apply Hteams].
    intros r Hr. subst h'. rewrite update_ne; [done|]. intros ->.
    apply Hout, elem_of_placed. by exists t. }
  split; simpl; fold h'.
  - apply Forall_insert.
    + apply Forall_forall, Hext.
    + apply (pushPlayer_teamMarked h0 h' (inLine line)).
      * apply Hext. by eapply list_elem_of_lookup_2.
      * left. split; [done|]. subst h'. rewrite update_eq. simpl. f_equal.
        apply sameIdentity_bestPosition, (wf_heap _ _ _ _ Hwf).
  - intros r Hr. subst h'. rewrite update_ne.
    + apply Hrest. intros Hin. apply Hr.
      eapply elem_of_Permutation_proper; [by eapply placed_insert|]. by right.
    + intros ->. apply Hr.
      eapply elem_of_Permutation_proper; [by eapply placed_insert|]. by left.
Qed.

Lemma advance_marked (st : Run) : marked h0 st → marked h0 (advance numTeams st).
Proof. unfold marked. by rewrite advance_heap, advance_teams. Qed.

Lemma draftLoop_marked (item : PoolItem) (attempts : nat) (st st' : Run) (assigned : bool) :
  draftLoop numTeams item attempts st = Some (st', assigned) →
  wellFormed numTeams h0 input st →
  marked h0 st →
  id (h0 (player item)) ∉ assignedPlayers st →
  playsIn (priority item) (h0 (player item)) →
  marked h0 st'.
Proof.
  revert st. induction attempts as [|attempts IH];
    intros st Hloop Hwf Hmarked Hfree Hplays.
  { by simplify_eq/=. }
  cbn [draftLoop] in Hloop.
  destruct (teamAt (teams st) (currentTeam st)) as [team|] eqn:Hteam; [|done].
  simpl in Hloop. destruct (reachedTargetSize team).
  { eapply IH; eauto using advance_wellFormed, advance_marked.
    by rewrite advance_assignedPlayers. }
  destruct (chooseLine _ _ team) as [line|] eqn:Hline.
  - simplify_eq. apply draftInto_marked; [done..| |by apply teamAt_lookup].
    rewrite <- (sameIdentity_playsIn _ _ _ (wf_heap _ _ _ _ Hwf (player item))).
    eapply chooseLine_playsIn; [done|].
    by rewrite (sameIdentity_playsIn _ _ _ (wf_heap _ _ _ _ Hwf (player item))).
  - eapply IH; eauto using advance_wellFormed, advance_marked.
    by rewrite advance_assignedPlayers.
Qed.

Lemma draftItem_marked (item : PoolItem) (st st' : Run) :
  draftItem numTeams st item = Some st' →
  wellFormed numTeams h0 input st →
  marked h0 st →
  playsIn (priority item) (h0 (player item)) →
  marked h0 st'.
Proof.
  unfold draftItem, unassigned. intros Hitem Hwf Hmarked Hplays.
  case_bool_decide as Hfree; [|by simplify_eq].
  rewrite (wf_id _ _ _ _ _ Hwf) in Hfree.
  destruct (draftLoop numTeams item (Z.to_nat numTeams) st) as [[st1 assigned]|] eqn:Hloop;
    [|done].
  simpl in Hitem. simplify_eq.
  pose proof (draftLoop_marked _ _ _ _ _ Hloop Hwf Hmarked Hfree Hplays).
  destruct assigned; [by apply advance_marked|done].
Qed.

Lemma snakeDraft_marked (pool : list PoolItem) (st st' : Run) :
  snakeDraft numTeams pool st = Some st' →
  wellFormed numTeams h0 input st →
  marked h0 st →
  (∀ item, item ∈ pool →
     player item ∈ input ∧ playsIn (priority item) (h0 (player item))) →
  marked h0 st'.
Proof.
  unfold snakeDraft. revert st.
  induction pool as [|item pool IH]; intros st Hdraft Hwf Hmarked Hpool.
  { by simplify_eq/=. }
  cbn [forEachM] in Hdraft.
  destruct (draftItem numTeams st item) as [st1|] eqn:Hitem; [|done].
  simpl in Hdraft.
  destruct (Hpool item) as [Hin Hplays]; [by left|].
  destruct (draftItem_kept _ _ _ _ _ _ Hitem Hwf Hin) as (Hwf1 & _).
  apply (IH st1 Hdraft Hwf1).
  - by eapply draftItem_marked.
  - intros it Hit. apply Hpool. by right.
Qed.

Lemma leftoverSweep_marked (l : list ref) (st : Run) :
  marked h0 st →
  (∀ r, r ∈ l → assignedPosition (heap st r) = assignedPosition (h0 r)) →
  marked h0 (leftoverSweep l st).
Proof.
  revert st. induction l as [|pl l IH]; intros st Hmarked Hl; [done|].
  cbn [leftoverSweep]. pose proof (sweepPlayer_step st pl) as Hstep.
  destruct (sweepPlayer st pl) as [st'|]; [|done].
  destruct Hstep as (i & team & slot & Hi & _ & -> & Hslot).
  destruct Hmarked as [Hteams Hrest].
  assert (Hpl : assignedPosition (heap st pl) = assignedPosition (h0 pl)).
  { apply Hl. by left. }
  apply IH.
  - split; simpl.
    + apply Forall_insert; [done|]. apply pushPlayer_teamMarked.
      * by eapply Forall_lookup_1.
      * destruct slot as [|line|]; [done|by right|done].
    + intros r Hr. apply Hrest. intros Hin. apply Hr.
      eapply elem_of_Permutation_proper; [by eapply placed_insert|]. by right.
  - intros r Hr. simpl. apply Hl. by right.
Qed.
End Marking.

(** *** Phase 1 *)

Lemma goalkeeperLoop_heap (teamOrder : list nat) (shuffledGKs : list ref) (st st' : Run) :
  goalkeeperLoop teamOrder shuffledGKs st = Some st' →
  (∀ r, r ∈ placed (teams st) → r ∈ placed (teams st'))
  ∧ ∀ r, r ∉ placed (teams st') → heap st' r = heap st r.
Proof.
  revert shuffledGKs st.
  induction teamOrder as [|i teamOrder IH]; intros [|pl gks] st Hloop;
    try (simplify_eq/=; by split).
  cbn [goalkeeperLoop] in Hloop.
  destruct (assignGoalkeeper st pl i) as [st1|] eqn:Hst1; [|done]. simpl in Hloop.
  destruct (IH gks st1 Hloop) as [Hmono Hheap].
  pose proof (places_placed _ _ _ (assignGoalkeeper_places _ _ _ _ Hst1)) as Hplaced.
  split.
  - intros r Hr. apply Hmono. rewrite Hplaced. by right.
  - intros r Hr. rewrite Hheap by done.
    unfold assignGoalkeeper in Hst1.
    destruct (teams st !! i) as [team|]; simplify_eq/=.
    rewrite update_ne; [done|]. intros ->. apply Hr, Hmono.
    rewrite Hplaced. by left.
Qed.

(** Phase 1 writes the keepers it deals and nobody else. *)
Lemma goalkeeperPhase_heap (numTeams : Z) (sizes : list Z) (sorted : list ref)
    (h : Heap) (g : Rng) (st1 : Run) :
  (goalkeeperPhase numTeams sizes sorted h g).1 = Some st1 →
  ∀ r, r ∉ placed (teams st1) → heap st1 r = h r.
Proof.
  destruct (goalkeeperPhase_run numTeams sizes sorted h g)
    as (start & coin & pref & alt & order & -> & _).
  intros Hloop r Hr. by destruct (goalkeeperLoop_heap _ _ _ _ Hloop) as [_ ->].
Qed.

Lemma keeperDealt_teamMarked (h0 h : Heap) (team : Team) :
  withinCaps team → keeperDealt h team → teamMarked h0 h team.
Proof.
  intros (_ & _ & _ & _ & Hslotted & Hheld) Hdealt.
  unfold keeperDealt in Hdealt. unfold slotted in Hslotted.
  assert (Hlines : ∀ line, lineOf line (formation team) = []).
  { intros line. apply length_zero_iff_nil.
    destruct (goalkeeper (formation team)) as [kp|].
    - destruct Hdealt as [Hplayers _]. rewrite Hplayers in Hslotted. simpl in Hslotted.
      destruct line; simpl; lia.
    - rewrite Hdealt in Hslotted. simpl in Hslotted. destruct line; simpl; lia. }
  split_and!.
  - intros kp Hkp. rewrite Hkp in Hdealt. by destruct Hdealt.
  - intros line pl. rewrite Hlines. by intros ?%elem_of_nil.
  - intros pl Hpl Hout. destruct Hout.
    destruct (goalkeeper (formation team)) as [kp|] eqn:Hkp.
    + destruct Hdealt as [Hplayers _]. rewrite Hplayers in Hpl.
      apply list_elem_of_singleton in Hpl as ->. apply elem_of_slots. by left.
    + rewrite Hdealt in Hpl. by apply elem_of_nil in Hpl.
Qed.

Lemma rateTeams_assignedPosition (tieRoundsUp : Z → Z → bool) (h : Heap) (ts : list Team)
    (r : ref) :
  assignedPosition (resultHeap (rateTeams tieRoundsUp h ts) r) = assignedPosition (h r).
Proof.
  revert h. induction ts as [|team ts IH]; intros h; [done|].
  simpl. rewrite IH, stripTeam_lookup. by destruct (decide _).
Qed.

Lemma rateTeam_teamMarked (tieRoundsUp : Z → Z → bool) (h0 h h' : Heap) (team : Team) :
  teamMarked h0 h team ↔ teamMarked h0 h (rateTeam tieRoundsUp h' team).
Proof. done. Qed.

(** What a run leaves in [assignedPosition]. *)
Lemma run_marked (tieRoundsUp : Z → Z → bool) (numTeams : Z) (sizes : list Z)
    (input : list ref) (h : Heap) (g : Rng) :
  ∃ res,
    (createBalancedTeamsWithSizeControl tieRoundsUp numTeams sizes input h g).1 = Some res
    ∧ Forall (teamMarked h (resultHeap res)) (resultTeams res)
    ∧ ∀ r, r ∉ placed (resultTeams res) →
        assignedPosition (resultHeap res r) = assignedPosition (h r).
Proof.
  destruct (run_steps tieRoundsUp numTeams sizes input h g)
    as (start & coin & gks & st1 & pool & st2 & shuffled
        & Hrun & Hrun1 & Hdealt & Hshape & Hdraft & Hpool & Hperm & Hwf1 & Hwf2 & Hwf3).
  cbv zeta in *.
  assert (Hst1 : marked h st1).
  { split.
    - pose proof (wf_caps _ _ _ _ Hwf1) as Hcaps.
      rewrite Forall_forall in Hcaps, Hshape. apply Forall_forall. intros team Hteam.
      apply keeperDealt_teamMarked; auto.
    - intros r Hr. by rewrite (goalkeeperPhase_heap _ _ _ _ _ _ Hrun1 r Hr). }
  assert (Hst2 : marked h st2).
  { eapply snakeDraft_marked; eauto. intros item (? & _ & ?)%Hpool. done. }
  assert (Hst3 : marked h (leftoverSweep shuffled st2)).
  { apply leftoverSweep_marked; [done|]. intros r Hr. apply Hst2.
    rewrite Hperm in Hr. unfold finalRemainingPlayers in Hr.
    apply list_elem_of_filter in Hr as [Hfree _].
    unfold unassigned in Hfree. apply bool_decide_unpack in Hfree.
    rewrite (wf_id _ _ _ _ _ Hwf2) in Hfree. by eapply not_placed_free. }
  eexists. split; [exact Hrun|]. destruct Hst3 as [Hteams Hrest].
  rewrite rateTeams_teams, placed_rateTeam. split.
  - pose proof (wf_caps _ _ _ _ Hwf3) as Hcaps.
    rewrite Forall_forall in Hcaps, Hteams.
    apply Forall_fmap, Forall_forall. intros team Hteam.
    simpl. apply rateTeam_teamMarked.
    apply (teamMarked_ext h (heap (leftoverSweep shuffled st2))); [by apply Hcaps| |].
    + intros r _. apply rateTeams_assignedPosition.
    + by apply Hteams.
  - intros r Hr. rewrite rateTeams_assignedPosition. by apply Hrest.
Qed.

(** ** The position chosen for a formation line *)

Lemma linePositions_head (line : Line) :
  ∃ pos, head (linePositions line) = Some pos ∧ pos ∈ linePositions line.
Proof. destruct line; eexists; (split; [reflexivity|by left]). Qed.

Lemma bestPosition_cases (p : Player) (line : Line) :
  let available := filter (λ pos, pos ∈ linePositions line) (positions p) in
  (preferredPosition p ∈ available
   ∧ getBestPositionForFormationLine p line = preferredPosition p)
  ∨ (((preferredPosition p ∉ available)
      ∧ (∃ pos, head available = Some pos
                ∧ getBestPositionForFormationLine p line = pos))
     ∨ (available = []
        ∧ head (linePositions line) = Some (getBestPositionForFormationLine p line))).
Proof.
  intros available. unfold getBestPositionForFormationLine. fold available.
  case_bool_decide as Hpreferred; [by left|right].
  destruct available as [|pos rest] eqn:Havailable.
  - right. split; [done|]. simpl.
    by destruct (linePositions_head line) as (pos & -> & _).
  - left. split; [done|]. by exists pos.
Qed.

Lemma playsIn_available (p : Player) (line : Line) :
  playsIn line p ↔ filter (λ pos, pos ∈ linePositions line) (positions p) ≠ [].
Proof.
  unfold playsIn. rewrite Is_true_true, existsb_exists. split.
  - intros (pos & Hpos%list_elem_of_In & Hline%bool_decide_eq_true) Hnil.
    assert (pos ∈ filter (λ pos, pos ∈ linePositions line) (positions p)) as Hin
      by by apply list_elem_of_filter.
    rewrite Hnil in Hin. by apply elem_of_nil in Hin.
  - intros Hne.
    destruct (filter (λ pos, pos ∈ linePositions line) (positions p))
      as [|pos rest] eqn:Hfilter; [done|].
    assert (pos ∈ filter (λ pos, pos ∈ linePositions line) (positions p)) as Hin
      by (rewrite Hfilter; by left).
    apply list_elem_of_filter in Hin as [Hline Hpos].
    exists pos. split; [by apply list_elem_of_In|by apply bool_decide_eq_true].
Qed.

Lemma bestPosition_line (p : Player) (line : Line) :
  getBestPositionForFormationLine p line ∈ linePositions line.
Proof.
  destruct (bestPosition_cases p line)
    as [[Hin ->]|[(_ & pos & Hhead & ->)|[_ Hhead]]].
  - by apply list_elem_of_filter in Hin as [? _].
  - apply head_Some_elem_of in Hhead. by apply list_elem_of_filter in Hhead as [? _].
  - by apply head_Some_elem_of in Hhead.
Qed.

Lemma bestPosition_played (p : Player) (line : Line) :
  playsIn line p → getBestPositionForFormationLine p line ∈ positions p.
Proof.
  intros Hplays%playsIn_available.
  destruct (bestPosition_cases p line)
    as [[Hin ->]|[(_ & pos & Hhead & ->)|[Hnil _]]]; [| |done].
  - by apply list_elem_of_filter in Hin as [_ ?].
  - apply head_Some_elem_of in Hhead. by apply list_elem_of_filter in Hhead as [_ ?].
Qed.

(** X6: [getBestPositionForFormationLine] always returns a position
    code of the formation line it is asked for.  It returns the
    player's preferred position when that is one of the player's
    positions and belongs to the line; otherwise the first of the
    player's positions, in the player's own order, that belongs to the
    line; and when the player has no position in the line, the first
    code of the line (CB, CDM or LW), which is then not one of the
    player's positions.  So the result is one of the player's positions
    exactly when the player plays in the line. *)
Theorem getBestPositionForFormationLine_spec (p : Player) (line : Line) :
  let best := getBestPositionForFormationLine p line in
  let available := filter (λ pos, pos ∈ linePositions line) (positions p) in
  best ∈ linePositions line
  ∧ (preferredPosition p ∈ positions p → preferredPosition p ∈ linePositions line →
     best = preferredPosition p)
  ∧ (∀ pos, head available = Some pos → preferredPosition p ∉ available → best = pos)
  ∧ (available = [] →
     best = match line with defender => "CB" | midfielder => "CDM" | forward => "LW" end%string)
  ∧ (best ∈ positions p ↔ playsIn line p).
Proof.
  intros best available. split_and!.
  - apply bestPosition_line.
  - intros Hown Hline. subst best. unfold getBestPositionForFormationLine.
    rewrite bool_decide_eq_true_2; [done|]. by apply list_elem_of_filter.
  - intros pos Hhead Hnot. subst best.
    destruct (bestPosition_cases p line)
      as [[Hin _]|[(_ & pos' & Hhead' & ->)|[Hnil _]]]; [done| |].
    + fold available in Hhead'. congruence.
    + fold available in Hnil. by rewrite Hnil in Hhead.
  - intros Hnil. subst best.
    destruct (bestPosition_cases p line)
      as [[Hin _]|[(_ & pos' & Hhead' & _)|[_ Hhead]]].
    + fold available in Hin. rewrite Hnil in Hin. by apply elem_of_nil in Hin.
    + fold available in Hhead'. by rewrite Hnil in Hhead'.
    + destruct line; simpl in Hhead; congruence.
  - split; [|apply bestPosition_played].
    intros Hown. apply playsIn_available. fold available. intros Hnil.
    assert (best ∈ available) as Hin.
    { apply list_elem_of_filter. split; [apply bestPosition_line|done]. }
    rewrite Hnil in Hin. by apply elem_of_nil in Hin.
Qed.

(** ** What a run leaves in [assignedPosition] *)


(** ** The keepers after phase 1 *)

Lemma keepers_cons (team : Team) (ts : list Team) :
  keepers (team :: ts) = option_list (goalkeeper (formation team)) ++ keepers ts.
Proof. unfold keepers. simpl. by destruct (goalkeeper (formation team)). Qed.

Lemma grown_keepers (ts ts' : list Team) :
  Forall2 grown ts ts' → keepers ts' = keepers ts.
Proof.
  induction 1 as [|t t' ts ts' (_ & Hkeeper & _) _ IH]; [done|].
  by rewrite !keepers_cons, Hkeeper, IH.
Qed.

(** X8: the keepers of the returned teams are the keepers phase 1
    dealt: phases 2 and 3 put nobody in goal and move no keeper.  So
    when [k] of the given players have 'GK' among their positions,
    exactly [min(numTeams, k)] returned teams have a keeper; the keeper
    is one of those [k] players, is the first of the team's [players]
    and is marked 'GK'. *)
Theorem keepers_kept (tieRoundsUp : Z → Z → bool) (numTeams : Z)
    (targetTeamSizes : list Z) (playersToUse : list ref) (h : Heap) (g : Rng) :
  let capable := filter (λ pl, canKeep (h pl)) playersToUse in
  ∃ st1 res,
    (goalkeeperPhase numTeams targetTeamSizes (sortPlayers h playersToUse) h g).1 = Some st1
    ∧ (createBalancedTeamsWithSizeControl tieRoundsUp numTeams targetTeamSizes
         playersToUse h g).1 = Some res
    ∧ keepers (resultTeams res) = keepers (teams st1)
    ∧ length (keepers (resultTeams res)) = Z.to_nat numTeams `min` length capable
    ∧ ∀ team kp, team ∈ resultTeams res → goalkeeper (formation team) = Some kp →
        head (players team) = Some kp
        ∧ kp ∈ capable
        ∧ assignedPosition (resultHeap res kp) = Some GK.
Proof.
  intros capable.
  destruct (run_grown tieRoundsUp numTeams targetTeamSizes playersToUse h g)
    as (start & coin & gks & st1 & res & Hrun & Hrun1 & _ & Hshape & _ & Hgrown).
  destruct (goalkeeperPhase_spec numTeams targetTeamSizes playersToUse h g)
    as (st1' & pref & alt & Hrun1' & _ & _ & _ & _ & Hkeepers & Hpref & Halt & _).
  assert (st1' = st1) as -> by congruence.
  destruct (run_marked tieRoundsUp numTeams targetTeamSizes playersToUse h g)
    as (res' & Hrun' & Hmarked & _).
  assert (res' = res) as -> by congruence.
  assert (Hgks : pref ++ alt ≡ₚ capable).
  { rewrite Hpref, Halt.
    rewrite (list_filter_iff (λ pl, negb (prefersGK (h pl))) (λ pl, ¬ prefersGK (h pl)))
      by (intros; apply negb_True).
    apply filter_app_complement. }
  pose proof (grown_keepers _ _ Hgrown) as Hsame.
  exists st1, res. split_and!; [done..| |].
  - by rewrite Hsame, Hkeepers, length_take, Hgks.
  - intros team kp Hteam Hkp.
    apply list_elem_of_lookup in Hteam as [i Hi].
    destruct (Forall2_lookup_r _ _ _ _ _ Hgrown Hi)
      as (t1 & Ht1 & _ & Hkeeper & [rest Hplayers] & _).
    rewrite Forall_forall in Hshape, Hmarked.
    split_and!.
    + assert (Hdealt : keeperDealt (heap st1) t1).
      { eapply Hshape, list_elem_of_lookup_2, Ht1. }
      unfold keeperDealt in Hdealt. rewrite <- Hkeeper, Hkp in Hdealt.
      destruct Hdealt as [Hone _]. by rewrite Hplayers, Hone.
    + rewrite <- Hgks. apply (elem_of_submseteq_take (Z.to_nat numTeams)).
      rewrite <- Hkeepers, <- Hsame. apply elem_of_keepers. exists team.
      split; [by eapply list_elem_of_lookup_2|done].
    + assert (Hin : team ∈ resultTeams res) by by eapply list_elem_of_lookup_2.
      by destruct (Hmarked team Hin) as (Hkeeper' & _); apply Hkeeper'.
Qed.

(** ** The snake order *)

Lemma advance_snakeCursor (numTeams : Z) (st : Run) (m : Z) :
  (1 ≤ numTeams)%Z → (0 ≤ m < 2 * numTeams)%Z →
  (currentTeam st, direction st) = snakeCursor numTeams m →
  (currentTeam (advance numTeams st), direction (advance numTeams st))
  = snakeCursor numTeams ((m + 1) `mod` (2 * numTeams)).
Proof.
  intros Hn Hm. unfold snakeCursor.
  destruct (decide (m + 1 < 2 * numTeams)%Z) as [Hlt|Hge].
  - rewrite Z.mod_small by lia. unfold advance.
    repeat case_bool_decide; intros [= Hcur Hdir]; simpl;
      rewrite ?Hcur, ?Hdir in *; f_equal; lia.
  - replace (m + 1)%Z with (2 * numTeams)%Z by lia. rewrite Z_mod_same_full.
    unfold advance.
    repeat case_bool_decide; intros [= Hcur Hdir]; simpl;
      rewrite ?Hcur, ?Hdir in *; f_equal; lia.
Qed.

Lemma iter_advance_snakeCursor (numTeams : Z) (st : Run) (m : Z) (k : nat) :
  (1 ≤ numTeams)%Z → (0 ≤ m < 2 * numTeams)%Z →
  (currentTeam st, direction st) = snakeCursor numTeams m →
  let st' := Nat.iter k (advance numTeams) st in
  (currentTeam st', direction st')
  = snakeCursor numTeams ((m + Z.of_nat k) `mod` (2 * numTeams)).
Proof.
  intros Hn Hm Hst. induction k as [|k IH]; cbv zeta in *.
  { simpl. rewrite Z.add_0_r, Z.mod_small by lia. done. }
  cbn [Nat.iter].
  replace ((m + Z.of_nat (S k)) `mod` (2 * numTeams))%Z
    with (((m + Z.of_nat k) `mod` (2 * numTeams) + 1) `mod` (2 * numTeams))%Z.
  - apply advance_snakeCursor; [done| |done]. apply Z.mod_pos_bound. lia.
  - rewrite Zplus_mod_idemp_l. f_equal. lia.
Qed.

(** X9: for [numTeams >= 1] the moves of the cursor follow the snake
    order: a cycle of [2 * numTeams] picks that goes up the teams
    [0 .. numTeams-1] and then down again, so that the team at either
    end is picked twice in a row and every team is picked exactly twice
    in a cycle.  Every cursor in range with a direction [1] or [-1] is
    at a pick of the cycle, the first state of a run has such a
    direction; a move goes to the next pick of the cycle, [k] moves go
    [k] picks further, and [2 * numTeams] moves lead back to the same
    cursor and direction. *)
Theorem advance_snake_cycle (numTeams : Z) (Hteams : (1 ≤ numTeams)%Z) :
  (∀ sizes h start coin,
     direction (startRun numTeams sizes h start coin) = 1%Z
     ∨ direction (startRun numTeams sizes h start coin) = (-1)%Z)
  ∧ (∀ st, cursorInRange numTeams st →
       direction st = 1%Z ∨ direction st = (-1)%Z →
       ∃ m, (0 ≤ m < 2 * numTeams)%Z
            ∧ (currentTeam st, direction st) = snakeCursor numTeams m)
  ∧ (∀ m team, (0 ≤ team < numTeams)%Z → (0 ≤ m < 2 * numTeams)%Z →
       (snakeCursor numTeams m).1 = team ↔ m = team ∨ m = (2 * numTeams - 1 - team)%Z)
  ∧ (∀ st m (k : nat), (0 ≤ m < 2 * numTeams)%Z →
       (currentTeam st, direction st) = snakeCursor numTeams m →
       let st' := Nat.iter k (advance numTeams) st in
       (currentTeam st', direction st')
       = snakeCursor numTeams ((m + Z.of_nat k) `mod` (2 * numTeams)))
  ∧ (∀ st, cursorInRange numTeams st →
       direction st = 1%Z ∨ direction st = (-1)%Z →
       let st' := Nat.iter (Z.to_nat (2 * numTeams)) (advance numTeams) st in
       currentTeam st' = currentTeam st ∧ direction st' = direction st).
Proof.
  assert (Hon : ∀ st, cursorInRange numTeams st →
            direction st = 1%Z ∨ direction st = (-1)%Z →
            ∃ m, (0 ≤ m < 2 * numTeams)%Z
                 ∧ (currentTeam st, direction st) = snakeCursor numTeams m).
  { intros st [Hlo Hhi] [Hdir|Hdir].
    - exists (currentTeam st). split; [lia|]. unfold snakeCursor.
      rewrite bool_decide_eq_true_2 by done. by rewrite Hdir.
    - exists (2 * numTeams - 1 - currentTeam st)%Z. split; [lia|]. unfold snakeCursor.
      rewrite bool_decide_eq_false_2 by lia. rewrite Hdir. f_equal. lia. }
  split_and!.
  - intros sizes h start coin. simpl. case_bool_decide; auto.
  - exact Hon.
  - intros m team Hteam Hm. unfold snakeCursor. case_bool_decide; simpl; lia.
  - intros st m k Hm Hst. by apply iter_advance_snakeCursor.
  - intros st Hcur Hdir. destruct (Hon st Hcur Hdir) as (m & Hm & Hst).
    pose proof (iter_advance_snakeCursor numTeams st m (Z.to_nat (2 * numTeams))
                  Hteams Hm Hst) as Hiter.
    cbv zeta in *. rewrite Z2Nat.id in Hiter by lia.
    replace (m + 2 * numTeams)%Z with (m + 1 * (2 * numTeams))%Z in Hiter by lia.
    rewrite Z.mod_add, Z.mod_small, <- Hst in Hiter by lia.
    by simplify_eq.
Qed.

Lemma advance_snake_cycle_witness :
  (1 ≤ 3)%Z
  ∧ ∀ st, cursorInRange 3 st →
      direction st = 1%Z ∨ direction st = (-1)%Z →
      let st' := Nat.iter (Z.to_nat (2 * 3)) (advance 3) st in
      currentTeam st' = currentTeam st ∧ direction st' = direction st.
Proof.
  assert (Hteams : (1 ≤ 3)%Z) by lia.
  split; [exact Hteams|].
  exact (proj2 (proj2 (proj2 (proj2 (advance_snake_cycle 3 Hteams))))).
Defined.

(** ** Shuffles *)

Lemma randomBelow_state (n : Z) (g : Rng) :
  (randomBelow n g).2 = {| draws := draws g; consumed := S (consumed g) |}.
Proof. done. Qed.

Lemma shuffleLoop_state {A} (i : nat) (l : list A) (g : Rng) :
  (shuffleLoop i l g).2 = {| draws := draws g; consumed := consumed g + i |}.
Proof.
  revert l g. induction i as [|i IH]; intros l g.
  { simpl. destruct g. simpl. f_equal. lia. }
  cbn [shuffleLoop]. rewrite bindR_run, IH, randomBelow_state. simpl. f_equal. lia.
Qed.

(** The index drawn for the element at [i] is at most [i]. *)
Lemma randomBelow_index (i : nat) (g : Rng) :
  Z.to_nat (randomBelow (Z.of_nat i + 1) g).1 ≤ i.
Proof.
  pose proof (randomBelow_range (Z.of_nat i + 1) g). lia.
Qed.

Lemma shuffleLoop_ext {A} (i : nat) (l : list A) (g g' : Rng) :
  consumed g = consumed g' →
  (∀ k, consumed g ≤ k → draws g k = draws g' k) →
  (shuffleLoop i l g).1 = (shuffleLoop i l g').1.
Proof.
  revert l g g'. induction i as [|i IH]; intros l g g' Hc Hd; [done|].
  cbn [shuffleLoop]. rewrite !bindR_run.
  assert ((randomBelow (Z.of_nat (S i) + 1) g).1 = (randomBelow (Z.of_nat (S i) + 1) g').1)
    as ->.
  { unfold randomBelow. rewrite !bindR_run. simpl. rewrite <- Hc, Hd by done. done. }
  apply IH.
  - rewrite !randomBelow_state. simpl. by rewrite Hc.
  - intros k. rewrite !randomBelow_state. simpl. intros Hk. apply Hd. lia.
Qed.

Lemma drawFor_spec (j n : Z) :
  (1 ≤ n)%Z → (2 * n ≤ resolution)%Z → (0 ≤ j < n)%Z →
  (0 ≤ drawFor j n < resolution)%Z
  ∧ (roundDouble (drawFor j n * n) `div` resolution = j)%Z.
Proof.
  intros Hn Hsmall Hj. unfold drawFor.
  assert (HR : (0 < resolution)%Z) by reflexivity.
  set (R := resolution) in *.
  pose proof (Z.div_mod (j * R + n - 1) n) as Hdiv.
  pose proof (Z.mod_pos_bound (j * R + n - 1) n) as Hmod.
  set (d := ((j * R + n - 1) `div` n)%Z) in *.
  set (r := ((j * R + n - 1) `mod` n)%Z) in *.
  assert (Hlow : (j * R ≤ d * n)%Z) by nia.
  assert (Hhigh : (d * n < j * R + n)%Z) by nia.
  split.
  - split; [nia|]. nia.
  - apply (roundDouble_floor _ j n); done.
Qed.

Lemma swap_lookup {A} (i j : nat) (l : list A) (x y : A) :
  l !! i = Some x → l !! j = Some y →
  swap i j l = <[j := x]> (<[i := y]> l).
Proof. unfold swap. by intros -> ->. Qed.

Lemma swap_length {A} (i j : nat) (l : list A) : length (swap i j l) = length l.
Proof. by rewrite swap_Permutation. Qed.

(** Every arrangement that continues the settled end of the array can
    come out of the loop. *)
Lemma shuffleLoop_reaches {A} (i : nat) (array target : list A) (c : nat) :
  i < length array →
  (2 * (Z.of_nat i + 1) ≤ resolution)%Z →
  take (S i) target ≡ₚ take (S i) array →
  drop (S i) target = drop (S i) array →
  ∃ f, (shuffleLoop i array {| draws := f; consumed := c |}).1 = target.
Proof.
  revert array c. induction i as [|i IH]; intros array c Hlen Hres Htake Hdrop.
  { exists (λ _, 0%Z). simpl.
    destruct array as [|a array]; [simpl in Hlen; lia|].
    destruct target as [|t target]; simpl in *.
    - by apply Permutation_nil_cons in Htake.
    - rewrite !take_0 in Htake. rewrite !drop_0 in Hdrop.
      apply Permutation_singleton_l in Htake. by simplify_eq. }
  assert (Hsame : length target = length array).
  { rewrite <- (take_drop (S (S i)) target), <- (take_drop (S (S i)) array).
    by rewrite !length_app, Htake, Hdrop. }
  destruct (lookup_lt_is_Some_2 target (S i)) as [x Hx]; [lia|].
  destruct (lookup_lt_is_Some_2 array (S i)) as [y Hy]; [lia|].
  assert (x ∈ take (S (S i)) array) as [j Hj]%list_elem_of_lookup.
  { rewrite <- Htake. apply list_elem_of_lookup. exists (S i).
    rewrite lookup_take_lt by lia. done. }
  apply lookup_take_Some in Hj as [Hj Hjlt].
  set (array' := swap (S i) j array).
  assert (Harray' : array' = <[j := y]> (<[S i := x]> array)) by by apply swap_lookup.
  assert (Hlast : array' !! S i = Some x).
  { rewrite Harray'. destruct (decide (j = S i)) as [->|Hne].
    - rewrite list_lookup_insert_eq by (rewrite length_insert; lia). congruence.
    - rewrite list_lookup_insert_ne by done.
      rewrite list_lookup_insert_eq by lia. done. }
  destruct (IH array' (S c)) as [f' Hf'].
  - subst array'. rewrite swap_length. lia.
  - lia.
  - apply (Permutation_app_inv_r [x]).
    rewrite <- (take_S_r target (S i) x Hx), <- (take_S_r array' (S i) x Hlast).
    rewrite Htake, Harray'.
    rewrite take_insert_lt by lia. rewrite take_insert_lt by lia.
    assert (take (S (S i)) array !! S i = Some y) as Hy'.
    { rewrite lookup_take_lt by lia. done. }
    assert (take (S (S i)) array !! j = Some x) as Hj'.
    { rewrite lookup_take_lt by lia. done. }
    rewrite <- (swap_lookup (S i) j _ y x Hy' Hj'). by rewrite swap_Permutation.
  - rewrite (drop_S target x (S i) Hx), (drop_S array' x (S i) Hlast), Hdrop. f_equal.
    rewrite Harray'. rewrite drop_insert_lt by lia. rewrite drop_insert_lt by lia. done.
  - destruct (drawFor_spec (Z.of_nat j) (Z.of_nat (S i) + 1)) as [Hd Hj']; [lia|lia|lia|].
    exists (λ k, if decide (k = c) then drawFor (Z.of_nat j) (Z.of_nat (S i) + 1) else f' k).
    cbn [shuffleLoop]. rewrite bindR_run.
    assert ((randomBelow (Z.of_nat (S i) + 1)
               {| draws := λ k, if decide (k = c)
                                then drawFor (Z.of_nat j) (Z.of_nat (S i) + 1) else f' k;
                  consumed := c |}).1 = Z.of_nat j) as ->.
    { unfold randomBelow. rewrite bindR_run. simpl.
      rewrite decide_True by done. rewrite Z.mod_small by done. done. }
    rewrite Nat2Z.id. fold array'. rewrite <- Hf'.
    apply shuffleLoop_ext; rewrite randomBelow_state; simpl; [done|].
    intros k Hk. rewrite decide_False by lia. done.
Qed.

(** The product is rounded before the floor is taken: for the draw
    [7505999378950826] the exact product with 6 is [5 - 2^-51], which
    is not a double; the nearest one is 5. *)
Example randomBelow_rounded :
  ((7505999378950826 * 6) `div` resolution = 4)%Z
  ∧ (randomBelow 6 (rngOf [7505999378950826%Z])).1 = 5%Z.
Proof. split; vm_compute; reflexivity. Qed.

(** X10: [shuffleArray] (and the same loop in [shufflePlayers])
    returns the elements it was given, in some order, after one call of
    [Math.random()] for every index from the last down to 1; the index
    it swaps with, the floor of the rounded product, is never beyond
    the current one; and every arrangement of the elements can come
    out: for every permutation of an array of fewer than [2^32]
    elements, as the arrays of JavaScript are, there are random draws
    that make the shuffle return it. *)
Theorem shuffleArray_spec {A} (array : list A) :
  (∀ g, (shuffleArray array g).1 ≡ₚ array
        ∧ length (shuffleArray array g).1 = length array
        ∧ draws (shuffleArray array g).2 = draws g
        ∧ consumed (shuffleArray array g).2 = consumed g + (length array - 1))
  ∧ (∀ (i : nat) g, Z.to_nat (randomBelow (Z.of_nat i + 1) g).1 ≤ i)
  ∧ (∀ target, target ≡ₚ array → (Z.of_nat (length array) < 2 ^ 32)%Z →
       ∃ g, (shuffleArray array g).1 = target).
Proof.
  split_and!.
  - intros g. unfold shuffleArray. rewrite shuffleLoop_state. simpl.
    split_and!; [apply shuffleLoop_Permutation| |done..].
    by rewrite shuffleLoop_Permutation.
  - apply randomBelow_index.
  - intros target Hperm Hres. unfold shuffleArray.
    destruct array as [|a array].
    { apply Permutation_nil_r in Hperm as ->. by exists (rngOf []). }
    destruct (shuffleLoop_reaches (length (a :: array) - 1) (a :: array) target 0)
      as [f Hf].
    + simpl. lia.
    + simpl length in *. change resolution with (2 ^ 53)%Z. lia.
    + replace (S (length (a :: array) - 1)) with (length (a :: array)) by (simpl; lia).
      rewrite firstn_all. rewrite take_ge; [done|]. by rewrite Hperm.
    + replace (S (length (a :: array) - 1)) with (length (a :: array)) by (simpl; lia).
      rewrite drop_all. rewrite drop_ge; [done|]. by rewrite Hperm.
    + by eexists.
Qed.

(** ** The copies of [applyRandomization] *)

(** [(Math.random() - 0.5) * 10] lies in [-5, 5). *)
Lemma jitter_range (d : Z) :
  (0 ≤ d < resolution)%Z → (-5 * resolution ≤ jitter d < 5 * resolution)%Z.
Proof.
  intros Hd. unfold jitter.
  assert (HR : (0 < resolution)%Z) by reflexivity.
  change (resolution `div` 2)%Z with (2 ^ 52)%Z.
  assert (Hhalf : (resolution = 2 * 2 ^ 52)%Z) by reflexivity.
  destruct (decide (2 ^ 52 ≤ d)%Z) as [Hup|Hdown].
  - set (p := ((d - 2 ^ 52) * 10)%Z).
    assert (Hp : (0 ≤ p)%Z) by (subst p; lia).
    rewrite roundDouble_nonneg by done.
    pose proof (roundMagnitude_nonneg _ Hp).
    pose proof (roundMagnitude_error _ Hp) as Herr.
    split; [lia|]. subst p. nia.
  - set (p := ((2 ^ 52 - d) * 10)%Z).
    replace ((d - 2 ^ 52) * 10)%Z with (- p)%Z by (subst p; lia).
    rewrite roundDouble_opp.
    assert (Hp : (0 < p)%Z) by (subst p; lia).
    rewrite roundDouble_nonneg by lia.
    pose proof (roundMagnitude_nonneg p ltac:(lia)).
    assert (roundMagnitude p ≤ 5 * resolution)%Z; [|lia].
    apply roundMagnitude_below; [subst p; lia|]. intros Hs.
    change (5 * resolution)%Z with (5 * 2 ^ 53)%Z.
    apply (unit_divide p 5 53); [|done..].
    split; [done|]. subst p. change (2 ^ (53 + 53))%Z with (2 ^ 54 * 2 ^ 52)%Z. nia.
Qed.

Lemma jitters_range (count : nat) (g : Rng) :
  Forall (λ j, -5 * resolution ≤ j < 5 * resolution)%Z (jitters count g).1.
Proof.
  revert g. induction count as [|count IH]; intros g; [constructor|].
  cbn [jitters]. rewrite !bindR_run. simpl. constructor; [|apply IH].
  apply jitter_range. apply (mathRandom_range g).
Qed.

Lemma jitters_drawn (count : nat) (g : Rng) :
  Forall (λ j, ∃ d, (0 ≤ d < resolution)%Z ∧ j = jitter d) (jitters count g).1.
Proof.
  revert g. induction count as [|count IH]; intros g; [constructor|].
  cbn [jitters]. rewrite !bindR_run. simpl. constructor; [|apply IH].
  eexists. split; [apply (mathRandom_range g)|done].
Qed.

(** X11: [applyRandomization] returns as many players as it was given,
    every one a new object: the copies live at the addresses from the
    first free one on, one address each, and every object that was
    there before is as it was; so the given players, who were there
    before, are not among the players returned and are as they were.
    The copies are those of the given players in a shuffled order: a copy
    has the id, name, positions, preferred position, stat blocks and
    [assignedPosition] of its original, and a [tempRatingAdjustment],
    the rounded product [(Math.random() - 0.5) * 10], that is at least
    -5 and less than 5. *)
Theorem applyRandomization_copies (playersToUse : list ref) (next : ref) (h : Heap)
    (g : Rng) :
  let randomized := (applyRandomization playersToUse next h g).1 in
  randomized.1 = seq next (length playersToUse)
  ∧ NoDup randomized.1
  ∧ (∀ r, r ∈ randomized.1 → next ≤ r)
  ∧ (∀ r, r < next → randomized.2 r = h r)
  ∧ (Forall (λ r, r < next) playersToUse →
     ∀ r, r ∈ playersToUse → ¬ (r ∈ randomized.1) ∧ randomized.2 r = h r)
  ∧ ∃ shuffled,
      shuffled ≡ₚ playersToUse
      ∧ ∀ (i : nat) pl, shuffled !! i = Some pl →
          randomized.1 !! i = Some (next + i)
          ∧ sameIdentity (h pl) (randomized.2 (next + i))
          ∧ assignedPosition (randomized.2 (next + i)) = assignedPosition (h pl)
          ∧ ∃ d, (0 ≤ d < resolution)%Z
                 ∧ tempRatingAdjustment (randomized.2 (next + i)) = Some (jitter d)
                 ∧ (-5 * resolution ≤ jitter d < 5 * resolution)%Z.
Proof.
  unfold applyRandomization. repeat (rewrite bindR_run; cbv beta zeta). simpl.
  set (shuffled := (shuffleArray _ _).1).
  match goal with |- context [jitters ?n ?g'] => set (g3 := g') end.
  set (adjustments := (jitters _ _).1).
  assert (Hlen : length adjustments = length shuffled) by apply jitters_length.
  assert (Hshuffled : shuffled ≡ₚ playersToUse).
  { subst shuffled. by rewrite !shuffleArray_Permutation. }
  pose proof (jitters_drawn (length shuffled) g3) as Hdrawn. fold adjustments in Hdrawn.
  assert (Hcount : length (zip_with (λ pl j, withTempRatingAdjustment j (h pl))
                             shuffled adjustments) = length playersToUse).
  { rewrite length_zip_with, Hlen, Nat.min_id. by rewrite Hshuffled. }
  rewrite Hcount.
  split_and!.
  - done.
  - apply NoDup_seq.
  - intros r Hr%elem_of_seq. lia.
  - intros r Hr. by rewrite decide_True.
  - intros Hbelow r Hr. rewrite Forall_forall in Hbelow. specialize (Hbelow r Hr).
    split; [|by rewrite decide_True].
    intros Hin%elem_of_seq. lia.
  - exists shuffled. split; [done|]. intros i pl Hi.
    destruct (lookup_lt_is_Some_2 adjustments i) as [j Hj].
    { rewrite Hlen. by eapply lookup_lt_Some. }
    assert (zip_with (λ pl j, withTempRatingAdjustment j (h pl)) shuffled adjustments !! i
            = Some (withTempRatingAdjustment j (h pl))) as Hcopy.
    { rewrite lookup_zip_with. unfold ref in *. by rewrite Hi, Hj. }
    rewrite decide_False by lia. replace (next + i - next) with i by lia.
    unfold ref in *. rewrite Hcopy. simpl. split_and!; [|by split_and!|done|].
    + apply lookup_seq_lt. rewrite <- Hshuffled. by eapply lookup_lt_Some.
    + destruct (Forall_lookup_1 _ _ _ _ Hdrawn Hj) as (d & Hd & ->).
      exists d. split; [done|]. split; [done|]. by apply jitter_range.
Qed.

(** ** Who holds a slot and who sits on the bench *)

Lemma slotted_pushLine (line : Line) (pl : ref) (f : Formation) :
  slotted (pushLine line pl f) = S (slotted f).
Proof. unfold slotted. destruct line; simpl; rewrite length_app; simpl; lia. Qed.

Lemma elem_of_slots_pushLine (line : Line) (pl r : ref) (f : Formation) :
  r ∈ slots (pushLine line pl f) ↔ r ∈ slots f ∨ r = pl.
Proof.
  rewrite !elem_of_slots, pushLine_goalkeeper. split.
  - intros [?|[line' [?|[_ ->]]%elem_of_pushLine]]; eauto.
  - intros [[?|[line' ?]]| ->]; [by left| |].
    + right. exists line'. apply elem_of_pushLine. by left.
    + right. exists line. apply elem_of_pushLine. by right.
Qed.

Lemma slotted_lines (team : Team) :
  (∀ line, ¬ hasRoom line team) →
  withinCaps team →
  slotted (formation team)
  = length (option_list (goalkeeper (formation team))) + 11.
Proof.
  intros Hfull (_ & Hdef & Hmid & Hfwd & _).
  pose proof (Hfull defender) as Hd. pose proof (Hfull midfielder) as Hm.
  pose proof (Hfull forward) as Hf.
  unfold hasRoom in *. rewrite bool_decide_spec in Hd, Hm, Hf. simpl in *.
  unfold slotted. lia.
Qed.

(** A team with room in a line has nobody on the bench. *)
Lemma fielded_room (team : Team) (line : Line) :
  withinCaps team → fielded team → hasRoom line team →
  slotted (formation team) = length (players team).
Proof.
  intros (_ & _ & _ & _ & Hle & _) (_ & _ & Hfull) Hroom.
  destruct (decide (slotted (formation team) < length (players team))) as [Hlt|]; [|lia].
  by destruct (Hfull Hlt line).
Qed.

Lemma pushLine_fielded (line : Line) (pl : ref) (team : Team) :
  withinCaps team → fielded team → hasRoom line team →
  fielded (pushPlayer pl (pushLine line pl (formation team)) team).
Proof.
  intros Hcaps Hfielded Hroom.
  pose proof (fielded_room team line Hcaps Hfielded Hroom) as Hall.
  destruct Hfielded as (Hin & _ & _).
  unfold fielded. simpl. rewrite slotted_pushLine, Hall. rewrite Hall in Hin.
  rewrite take_ge in Hin by done.
  split_and!.
  - intros r. rewrite take_ge by (rewrite length_app; simpl; lia).
    rewrite elem_of_slots_pushLine.
    intros [?| ->%list_elem_of_singleton]%elem_of_app; auto.
  - intros r. rewrite drop_ge by (rewrite length_app; simpl; lia).
    by intros ?%elem_of_nil.
  - rewrite length_app. simpl. lia.
Qed.

Lemma bench_fielded (pl : ref) (team : Team) :
  withinCaps team → fielded team →
  (∀ line, ¬ hasRoom line team) →
  pl ∉ players team →
  fielded (pushPlayer pl (formation team) team).
Proof.
  intros (_ & _ & _ & _ & Hle & Hheld) (Hin & Hout & _) Hfull Hfresh.
  unfold fielded. simpl. split_and!.
  - intros r. rewrite take_app_le by done. apply Hin.
  - intros r. rewrite drop_app_le by done.
    intros [?| ->%list_elem_of_singleton]%elem_of_app; [by apply Hout|].
    intros Hslot. by apply Hfresh, Hheld.
  - intros _ line. apply (Hfull line).
Qed.

Lemma keeperDealt_fielded (h : Heap) (team : Team) :
  withinCaps team → keeperDealt h team → fielded team.
Proof.
  intros Hcaps Hdealt.
  destruct (keeperDealt_teamMarked h h team Hcaps Hdealt) as (_ & _ & Hbench).
  destruct Hcaps as (_ & _ & _ & _ & Hle & _).
  assert (Hall : slotted (formation team) = length (players team)).
  { unfold keeperDealt in Hdealt. unfold slotted in *.
    destruct (goalkeeper (formation team)).
    - destruct Hdealt as [Hplayers _]. rewrite Hplayers in *. simpl in *. lia.
    - rewrite Hdealt in *. simpl in *. lia. }
  unfold fielded. rewrite Hall, take_ge, drop_ge by done. split_and!.
  - intros pl Hpl. destruct (decide (pl ∈ slots (formation team))) as [|Hout]; [done|].
    unfold keeperDealt in Hdealt.
    destruct (goalkeeper (formation team)) as [kp|] eqn:Hkp.
    + destruct Hdealt as [Hplayers _]. rewrite Hplayers in Hpl.
      apply list_elem_of_singleton in Hpl as ->. apply elem_of_slots. by left.
    + rewrite Hdealt in Hpl. by apply elem_of_nil in Hpl.
  - by intros pl ?%elem_of_nil.
  - lia.
Qed.

Section Fielding.
Variables (numTeams : Z) (h0 : Heap) (input : list ref).

Lemma draftLoop_fielded (item : PoolItem) (attempts : nat) (st st' : Run) (assigned : bool) :
  draftLoop numTeams item attempts st = Some (st', assigned) →
  wellFormed numTeams h0 input st →
  Forall fielded (teams st) →
  Forall fielded (teams st').
Proof.
  revert st. induction attempts as [|attempts IH]; intros st Hloop Hwf Hteams.
  { by simplify_eq/=. }
  cbn [draftLoop] in Hloop.
  destruct (teamAt (teams st) (currentTeam st)) as [team|] eqn:Hteam; [|done].
  simpl in Hloop. destruct (reachedTargetSize team).
  { eapply IH; eauto using advance_wellFormed. by rewrite advance_teams. }
  destruct (chooseLine _ _ team) as [line|] eqn:Hline.
  - simplify_eq. simpl. apply teamAt_lookup in Hteam.
    apply Forall_insert; [done|]. apply pushLine_fielded.
    + exact (Forall_lookup_1 _ _ _ _ (wf_caps _ _ _ _ Hwf) Hteam).
    + exact (Forall_lookup_1 _ _ _ _ Hteams Hteam).
    + by eapply chooseLine_hasRoom.
  - eapply IH; eauto using advance_wellFormed. by rewrite advance_teams.
Qed.

Lemma snakeDraft_fielded (pool : list PoolItem) (st st' : Run) :
  snakeDraft numTeams pool st = Some st' →
  wellFormed numTeams h0 input st →
  (∀ item, item ∈ pool → player item ∈ input) →
  Forall fielded (teams st) →
  Forall fielded (teams st').
Proof.
  unfold snakeDraft. revert st.
  induction pool as [|item pool IH]; intros st Hdraft Hwf Hpool Hteams.
  { by simplify_eq/=. }
  cbn [forEachM] in Hdraft.
  destruct (draftItem numTeams st item) as [st1|] eqn:Hitem; [|done].
  simpl in Hdraft.
  assert (Hin : player item ∈ input) by (apply Hpool; by left).
  destruct (draftItem_kept _ _ _ _ _ _ Hitem Hwf Hin) as (Hwf1 & _).
  apply (IH st1 Hdraft Hwf1).
  - intros it Hit. apply Hpool. by right.
  - unfold draftItem in Hitem. destruct (unassigned st (player item)); [|by simplify_eq].
    destruct (draftLoop numTeams item (Z.to_nat numTeams) st) as [[st2 assigned]|] eqn:Hloop;
      [|done].
    simpl in Hitem. simplify_eq.
    pose proof (draftLoop_fielded _ _ _ _ _ Hloop Hwf Hteams).
    destruct assigned; [by rewrite advance_teams|done].
Qed.

Lemma leftoverSweep_fielded (l : list ref) (st : Run) :
  wellFormed numTeams h0 input st →
  (∀ r, r ∈ l → r ∈ input) →
  NoDup ((λ r, id (h0 r)) <$> l) →
  (∀ r, r ∈ l → id (h0 r) ∉ assignedPlayers st) →
  Forall fielded (teams st) →
  Forall fielded (teams (leftoverSweep l st)).
Proof.
  revert st. induction l as [|pl l IH]; intros st Hwf Hl Hnodup Hfree Hteams; [done|].
  cbn [leftoverSweep]. pose proof (sweepPlayer_step st pl) as Hstep.
  destruct (sweepPlayer st pl) as [st'|] eqn:Hsweep; [|done].
  pose proof (sweepPlayer_places _ _ _ Hsweep) as Hplaces.
  destruct Hstep as (i & team & slot & Hi & Hbelow & -> & Hslot).
  rewrite fmap_cons in Hnodup. apply NoDup_cons in Hnodup as [Hpl Hnodup].
  assert (Hin : pl ∈ input) by (apply Hl; by left).
  assert (Hout : pl ∉ placed (teams st)).
  { eapply not_placed_free; [done|]. apply Hfree. by left. }
  pose proof (Forall_lookup_1 _ _ _ _ (wf_caps _ _ _ _ Hwf) Hi) as Hcaps.
  pose proof (Forall_lookup_1 _ _ _ _ Hteams Hi) as Hfielded.
  apply IH.
  - by eapply places_wellFormed.
  - intros r Hr. apply Hl. by right.
  - done.
  - intros r Hr. simpl. rewrite (wf_id _ _ _ _ _ Hwf).
    intros [Hold|Hnew%elem_of_singleton]%elem_of_union.
    + apply (Hfree r); [by right|done].
    + apply Hpl. apply list_elem_of_fmap. by exists r.
  - simpl. apply Forall_insert; [done|].
    destruct slot as [|line|]; [done| |]; simpl.
    + by apply pushLine_fielded.
    + destruct Hslot as [Hfull _]. apply bench_fielded; [done..| |].
      * intros line. apply (Hfull team line); [|done]. by eapply list_elem_of_lookup_2.
      * intros Hpl'. apply Hout, elem_of_placed. exists team.
        split; [by eapply list_elem_of_lookup_2|done].
Qed.
End Fielding.

Lemma run_fielded (tieRoundsUp : Z → Z → bool) (numTeams : Z) (sizes : list Z)
    (input : list ref) (h : Heap) (g : Rng) :
  NoDup ((λ r, id (h r)) <$> input) →
  ∃ res,
    (createBalancedTeamsWithSizeControl tieRoundsUp numTeams sizes input h g).1 = Some res
    ∧ Forall (λ team, withinCaps team ∧ fielded team) (resultTeams res).
Proof.
  intros Hids.
  destruct (run_steps tieRoundsUp numTeams sizes input h g)
    as (start & coin & gks & st1 & pool & st2 & shuffled
        & Hrun & Hrun1 & Hdealt & Hshape & Hdraft & Hpool & Hperm & Hwf1 & Hwf2 & Hwf3).
  cbv zeta in *.
  assert (Hst1 : Forall fielded (teams st1)).
  { pose proof (wf_caps _ _ _ _ Hwf1) as Hcaps.
    rewrite Forall_forall in Hcaps, Hshape. apply Forall_forall. intros team Hteam.
    eapply keeperDealt_fielded; eauto. }
  assert (Hst2 : Forall fielded (teams st2)).
  { eapply snakeDraft_fielded; eauto. by intros item (? & _)%Hpool. }
  assert (Hsub : shuffled ⊆+ input).
  { rewrite Hperm. unfold finalRemainingPlayers.
    etrans; [apply sublist_submseteq, sublist_filter|].
    by rewrite sortPlayers_Permutation. }
  assert (Hst3 : Forall fielded (teams (leftoverSweep shuffled st2))).
  { apply (leftoverSweep_fielded numTeams h input); [done| | | |done].
    - intros r Hr. by eapply elem_of_submseteq.
    - by eapply NoDup_fmap_submseteq.
    - intros r Hr. rewrite Hperm in Hr. unfold finalRemainingPlayers in Hr.
      apply list_elem_of_filter in Hr as [Hfree _].
      unfold unassigned in Hfree. apply bool_decide_unpack in Hfree.
      by rewrite (wf_id _ _ _ _ _ Hwf2) in Hfree. }
  eexists. split; [exact Hrun|]. rewrite rateTeams_teams.
  pose proof (wf_caps _ _ _ _ Hwf3) as Hcaps.
  rewrite Forall_forall in Hcaps, Hst3.
  apply Forall_fmap, Forall_forall. intros team Hteam.
  split; [exact (Hcaps team Hteam)|exact (Hst3 team Hteam)].
Qed.

(** X12: the players a team lists under "Substitutes" against the
    players who hold no slot of its formation.  After a run on players
    with distinct ids, the players of a returned team are, in the
    order they joined, first those who hold a slot and then the bench,
    and there is a bench only when the three lines are full.  In a
    team without a keeper the page lists exactly the bench as
    substitutes.  In a team with a keeper it lists nobody up to 11
    players, and the bench is then empty; from 12 players on it lists
    the twelfth player, who holds a slot of the formation, followed by
    the bench. *)
Theorem substitutes_listed (tieRoundsUp : Z → Z → bool) (numTeams : Z)
    (targetTeamSizes : list Z) (playersToUse : list ref) (h : Heap) (g : Rng)
    (Hids : NoDup ((λ r, id (h r)) <$> playersToUse)) :
  ∃ res,
    (createBalancedTeamsWithSizeControl tieRoundsUp numTeams targetTeamSizes
       playersToUse h g).1 = Some res
    ∧ ∀ team, team ∈ resultTeams res →
        let bench := drop (slotted (formation team)) (players team) in
        (∀ pl, pl ∈ players team → pl ∈ bench ↔ pl ∉ slots (formation team))
        ∧ (bench ≠ [] →
           length (defenders (formation team)) = 4
           ∧ length (midfielders (formation team)) = 4
           ∧ length (forwards (formation team)) = 3)
        ∧ match goalkeeper (formation team) with
          | None => substitutes team = bench
          | Some kp =>
              (length (players team) ≤ 11 → substitutes team = [] ∧ bench = [])
              ∧ (11 < length (players team) →
                 ∃ twelfth,
                   players team !! 11 = Some twelfth
                   ∧ twelfth ∈ slots (formation team)
                   ∧ substitutes team = twelfth :: bench)
          end.
Proof.
  destruct (run_fielded tieRoundsUp numTeams targetTeamSizes playersToUse h g Hids)
    as (res & Hrun & Hteams).
  exists res. split; [done|]. rewrite Forall_forall in Hteams.
  intros team [Hcaps (Hin & Hout & Hfull)]%Hteams bench.
  pose proof Hcaps as (Hgk & Hdef & Hmid & Hfwd & Hle & _).
  assert (Hlines : bench ≠ [] → ∀ line, ¬ hasRoom line team).
  { intros Hbench. apply Hfull.
    destruct (decide (slotted (formation team) < length (players team))); [done|].
    destruct Hbench. subst bench. apply drop_ge. lia. }
  assert (Hcount : bench ≠ [] →
            slotted (formation team)
            = length (option_list (goalkeeper (formation team))) + 11).
  { intros Hbench. apply slotted_lines; auto. }
  assert (Hlen : length bench = length (players team) - slotted (formation team)).
  { subst bench. by rewrite length_drop. }
  split_and!.
  - intros pl Hpl. split; [apply Hout|]. intros Hslot.
    rewrite <- (take_drop (slotted (formation team)) (players team)) in Hpl.
    apply elem_of_app in Hpl as [Hpl|Hpl]; [|done]. by destruct Hslot; apply Hin.
  - intros Hbench. specialize (Hlines Hbench).
    pose proof (Hlines defender) as Hd. pose proof (Hlines midfielder) as Hm.
    pose proof (Hlines forward) as Hf.
    unfold hasRoom in *. rewrite bool_decide_spec in Hd, Hm, Hf. simpl in *. lia.
  - unfold substitutes. unfold slotted in Hle, Hcount, Hlen.
    destruct (goalkeeper (formation team)) as [kp|] eqn:Hkp; simpl in *.
    + split.
      * intros Hfew. rewrite bool_decide_eq_false_2 by lia. split; [done|].
        destruct bench as [|b bench'] eqn:Hbench; [done|].
        specialize (Hcount ltac:(done)). simpl in Hlen. lia.
      * intros Hmany. rewrite bool_decide_eq_true_2 by lia.
        assert (Htwelve : slotted (formation team) = 12).
        { unfold slotted. rewrite Hkp. simpl.
          destruct bench as [|b bench'] eqn:Hbench.
          - simpl in Hlen. lia.
          - specialize (Hcount ltac:(done)). lia. }
        destruct (lookup_lt_is_Some_2 (players team) 11) as [twelfth Htwelfth]; [lia|].
        exists twelfth. split_and!; [done| |].
        -- apply Hin. rewrite Htwelve. apply list_elem_of_lookup. exists 11.
           by rewrite lookup_take_lt by lia.
        -- subst bench. rewrite Htwelve. by apply drop_S.
    + case_bool_decide as Hmany.
      * destruct bench as [|b bench'] eqn:Hbench.
        -- simpl in Hlen. lia.
        -- specialize (Hcount ltac:(done)). rewrite <- Hbench. subst bench.
           unfold slotted. rewrite Hkp. simpl. simpl in Hcount. by rewrite Hcount.
      * destruct bench as [|b bench'] eqn:Hbench; [done|].
        specialize (Hcount ltac:(done)). simpl in Hlen. lia.
Qed.

(** One team of the fourteen players of [fullSquad]: two keepers are
    left without a slot, and the page lists them after the twelfth
    player, a forward. *)
Example fullSquad_bench :
  (λ res, (λ team, (players team, substitutes team,
                    drop (slotted (formation team)) (players team)))
            <$> resultTeams res)
    <$> (createBalancedTeamsWithSizeControl (λ _ _, true) 1 [14]%Z (seq 0 14)
           (heapOf fullSquad) (rngOf [3; 1; 4; 1; 5; 9; 2; 6]%Z)).1
  = Some [([1; 9; 8; 7; 13; 12; 10; 11; 6; 5; 4; 3; 2; 0], [3; 2; 0], [2; 0])].
Proof. vm_compute. reflexivity. Qed.

Lemma substitutes_listed_witness :
  NoDup ((λ r, id (heapOf fullSquad r)) <$> seq 0 14)
  ∧ ∃ res,
      (createBalancedTeamsWithSizeControl (λ _ _, true) 1 [14]%Z (seq 0 14)
         (heapOf fullSquad) (rngOf [3; 1; 4; 1; 5; 9; 2; 6]%Z)).1 = Some res
      ∧ ∀ team, team ∈ resultTeams res →
          ∀ pl, pl ∈ players team →
            pl ∈ drop (slotted (formation team)) (players team)
            ↔ pl ∉ slots (formation team).
Proof.
  assert (Hids : NoDup ((λ r, id (heapOf fullSquad r)) <$> seq 0 14)).
  { apply (bool_decide_unpack _). vm_compute. exact I. }
  split; [exact Hids|].
  destruct (substitutes_listed (λ _ _, true) 1 [14]%Z (seq 0 14) (heapOf fullSquad)
              (rngOf [3; 1; 4; 1; 5; 9; 2; 6]%Z) Hids) as (res & Hrun & Hteams).
  exists res. split; [exact Hrun|].
  intros team Hteam. exact (proj1 (Hteams team Hteam)).
Defined.

(** ** Sorted and stable *)

Section Sort.
Context {A : Type} (behind : A → A → bool).
Hypothesis behind_asym : ∀ x y, behind x y → ¬ behind y x.
Hypothesis behind_through : ∀ x y z, ¬ behind x y → ¬ behind y z → ¬ behind x z.

Lemma insertSorted_sorted (x : A) (l : list A) :
  StronglySorted (λ a b, ¬ behind a b) l →
  StronglySorted (λ a b, ¬ behind a b) (insertSorted behind x l).
Proof using behind_asym behind_through.
  induction 1 as [|y l Hl IH Hy]; simpl.
  { repeat constructor. }
  destruct (behind x y) eqn:Hxy.
  - constructor; [done|]. rewrite insertSorted_Permutation.
    constructor; [|done]. by apply behind_asym, Is_true_true.
  - assert (Hnot : ¬ behind x y) by (rewrite Hxy; exact (λ H, H)).
    constructor; [by constructor|]. constructor; [done|].
    eapply Forall_impl; [exact Hy|]. intros z Hz. by eapply behind_through.
Qed.

(** The sort leaves nobody behind a later element. *)
Lemma stableSort_sorted (l : list A) :
  StronglySorted (λ a b, ¬ behind a b) (stableSort behind l).
Proof using behind_asym behind_through.
  induction l as [|x l IH]; [constructor|]. by apply insertSorted_sorted.
Qed.

Context (P : A → Prop) `{!∀ x, Decision (P x)}.
Hypothesis P_level : ∀ x y, P x → P y → ¬ behind x y.

Lemma insertSorted_filter (x : A) (l : list A) :
  filter P (insertSorted behind x l) = filter P (x :: l).
Proof using P_level.
  induction l as [|y l IH]; [done|]. simpl.
  destruct (behind x y) eqn:Hxy; [|done].
  rewrite filter_cons, IH, !filter_cons.
  destruct (decide (P y)) as [Hy|]; [|done].
  destruct (decide (P x)) as [Hx|]; [|done].
  destruct (P_level x y Hx Hy). by apply Is_true_true.
Qed.

(** The sort is stable: elements none of which is behind another keep
    their order. *)
Lemma stableSort_filter (l : list A) :
  filter P (stableSort behind l) = filter P l.
Proof using P_level.
  induction l as [|x l IH]; [done|].
  unfold stableSort in *. simpl. by rewrite insertSorted_filter, !filter_cons, IH.
Qed.
End Sort.

Lemma StronglySorted_weaken {A} (R R' : A → A → Prop) (l : list A) :
  (∀ a b, R a b → R' a b) → StronglySorted R l → StronglySorted R' l.
Proof.
  intros HR. induction 1 as [|x l _ IH Hx]; constructor; [done|].
  eapply Forall_impl; [exact Hx|]. auto.
Qed.

Lemma filter_ext_elem {A} (P Q : A → Prop) `{!∀ x, Decision (P x)} `{!∀ x, Decision (Q x)}
    (l : list A) :
  (∀ x, x ∈ l → P x ↔ Q x) → filter P l = filter Q l.
Proof.
  induction l as [|x l IH]; intros Hiff; [done|].
  rewrite !filter_cons, IH by (intros y Hy; apply Hiff; by right).
  destruct (decide (P x)) as [HP|HP], (decide (Q x)) as [HQ|HQ]; try done.
  - destruct HQ. apply Hiff; [by left|done].
  - destruct HP. apply Hiff; [by left|done].
Qed.

Lemma insertSorted_ext {A} (behind behind' : A → A → bool) (x : A) (l : list A) :
  (∀ y, y ∈ l → behind x y = behind' x y) →
  insertSorted behind x l = insertSorted behind' x l.
Proof.
  induction l as [|y l IH]; intros Hsame; [done|]. simpl.
  rewrite <- (Hsame y) by by left.
  destruct (behind x y); [|done]. f_equal. apply IH. intros z Hz. apply Hsame. by right.
Qed.

(** The sort only asks its comparison function about the elements of
    the list. *)
Lemma stableSort_ext {A} (behind behind' : A → A → bool) (l : list A) :
  (∀ x y, x ∈ l → y ∈ l → behind x y = behind' x y) →
  stableSort behind l = stableSort behind' l.
Proof.
  induction l as [|x l IH]; intros Hsame; [done|].
  unfold stableSort in *. simpl. rewrite IH.
  - apply insertSorted_ext. intros y Hy. apply Hsame; [by left|].
    right. by rewrite <- (stableSort_Permutation behind' l).
  - intros y z Hy Hz. apply Hsame; by right.
Qed.

Lemma plainPosition_sortOrder (p : Player) :
  plainPosition p → ∃ order, sortOrder p = Some order.
Proof.
  unfold plainPosition, sortOrder. destruct (sortPosition p) as [pos|]; [|by eexists].
  intros Hplain%bool_decide_unpack.
  destruct (positionOrder !! pos) as [order|]; [by eexists|].
  rewrite bool_decide_eq_false_2 by done. by eexists.
Qed.

(** X13: when no player has for position the name of a member of
    [Object.prototype], [sortPlayersByPosition] returns the players it
    was given, ordered by the number [positionOrder] holds for their
    preferred position, or for their first position when the preferred
    one is empty, smallest first; players with the same number keep
    the order they came in.  The numbers of the table lie between 1
    and 12; a player whose position is not in the table and is no such
    name, or who has no position, gets 50 and so comes after every
    player whose position is in the table; for such a name the lookup
    gives no number. *)
Theorem sortPlayersByPosition_spec (h : Heap) (l : list ref)
    (Hplain : Forall (λ r, plainPosition (h r)) l) :
  let sorted := sortPlayersByPosition h l in
  sorted ≡ₚ l
  ∧ StronglySorted
      (λ a b, ∃ orderA orderB,
         sortOrder (h a) = Some orderA ∧ sortOrder (h b) = Some orderB
         ∧ (orderA ≤ orderB)%Z) sorted
  ∧ (∀ order, filter (λ a, sortOrder (h a) = Some order) sorted
              = filter (λ a, sortOrder (h a) = Some order) l)
  ∧ (∀ p, match sortPosition p with
          | None => sortOrder p = Some 50%Z
          | Some pos =>
              match positionOrder !! pos with
              | Some order =>
                  sortOrder p = Some order ∧ (1 ≤ order ≤ 12)%Z ∧ pos ∉ objectPrototype
              | None =>
                  if bool_decide (pos ∈ objectPrototype) then sortOrder p = None
                  else sortOrder p = Some 50%Z
              end
          end)
  ∧ (∀ p, preferredPosition p ≠ ""%string →
          sortPosition p = Some (preferredPosition p))
  ∧ (∀ p, preferredPosition p = ""%string → sortPosition p = head (positions p)).
Proof.
  intros sorted.
  set (orderOf := λ r, default 50%Z (sortOrder (h r))).
  assert (Horder : ∀ r, r ∈ l → sortOrder (h r) = Some (orderOf r)).
  { intros r Hr. rewrite Forall_forall in Hplain.
    destruct (plainPosition_sortOrder (h r) (Hplain r Hr)) as [order Hr'].
    subst orderOf. simpl. by rewrite Hr'. }
  assert (Hsorted : sorted = stableSort (λ a b, bool_decide (orderOf b < orderOf a)%Z) l).
  { apply stableSort_ext. intros a b Ha Hb. by rewrite (Horder a Ha), (Horder b Hb). }
  assert (Hperm : sorted ≡ₚ l) by apply stableSort_Permutation.
  split_and!.
  - done.
  - assert (Hall : Forall (λ r, r ∈ l) sorted).
    { apply Forall_forall. intros r Hr. by rewrite <- Hperm. }
    assert (Hless : StronglySorted (λ a b, orderOf a ≤ orderOf b)%Z sorted).
    { rewrite Hsorted. eapply StronglySorted_weaken; [|apply stableSort_sorted].
      - intros a b. simpl. rewrite bool_decide_spec. lia.
      - intros a b. rewrite !bool_decide_spec. lia.
      - intros a b c. rewrite !bool_decide_spec. lia. }
    clear Hsorted Hperm. induction Hless as [|a rest Hrest IH Ha]; [constructor|].
    apply Forall_cons in Hall as [Hin Hall]. constructor; [by apply IH|].
    rewrite Forall_forall in Ha, Hall. apply Forall_forall. intros b Hb.
    exists (orderOf a), (orderOf b). split_and!; [by apply Horder|by apply Horder, Hall|].
    by apply Ha.
  - intros order.
    transitivity (filter (λ a, orderOf a = order) sorted).
    { apply filter_ext_elem. intros a Ha. rewrite Hperm in Ha. rewrite (Horder a Ha).
      split; [by intros [= ->]|by intros ->]. }
    transitivity (filter (λ a, orderOf a = order) l).
    { rewrite Hsorted. apply stableSort_filter.
      intros a b Ha Hb. rewrite bool_decide_spec. lia. }
    apply filter_ext_elem. intros a Ha. rewrite (Horder a Ha).
    split; [by intros ->|by intros [= ->]].
  - intros p. unfold sortOrder.
    destruct (sortPosition p) as [pos|]; [|done].
    destruct (positionOrder !! pos) as [order|] eqn:Hpos; [|by case_bool_decide].
    split; [done|].
    apply (elem_of_map_to_list positionOrder pos order) in Hpos.
    assert (Forall (λ e : string * Z, (1 ≤ e.2 ≤ 12)%Z ∧ e.1 ∉ objectPrototype)
              (map_to_list positionOrder)) as Hall.
    { apply (bool_decide_unpack _). vm_compute. exact I. }
    rewrite Forall_forall in Hall. exact (Hall (pos, order) Hpos).
  - intros p Hp. unfold sortPosition. by rewrite bool_decide_eq_false_2.
  - intros p Hp. unfold sortPosition. by rewrite bool_decide_eq_true_2.
Qed.

Lemma sortPlayersByPosition_spec_witness :
  Forall (λ r, plainPosition (heapOf squad r)) (seq 0 9)
  ∧ sortPlayersByPosition (heapOf squad) (seq 0 9) ≡ₚ seq 0 9
  ∧ StronglySorted
      (λ a b, ∃ orderA orderB,
         sortOrder (heapOf squad a) = Some orderA
         ∧ sortOrder (heapOf squad b) = Some orderB
         ∧ (orderA ≤ orderB)%Z)
      (sortPlayersByPosition (heapOf squad) (seq 0 9)).
Proof.
  assert (Hplain : Forall (λ r, plainPosition (heapOf squad r)) (seq 0 9)).
  { apply (bool_decide_unpack _). vm_compute. exact I. }
  split; [exact Hplain|].
  destruct (sortPlayersByPosition_spec (heapOf squad) (seq 0 9) Hplain)
    as (Hperm & Hsorted & _).
  split; [exact Hperm|exact Hsorted].
Defined.

(** A sum is rounded: an adjustment of [10 / 2^53] is lost on a rating
    of 75, and the two players tie. *)
Example effectiveRating_rounded :
  let adjusted := withTempRatingAdjustment 10 (outfielder 2 "CB" 75) in
  effectiveRating adjusted = effectiveRating (outfielder 1 "CM" 75)
  ∧ sortPlayers (heapOf [outfielder 1 "CM" 75; adjusted]) [0; 1] = [0; 1].
Proof. split; vm_compute; reflexivity. Qed.

(** X14: the rating sort at the start of a run returns the players it
    was given in the order of their rating, the temporary adjustment
    added and the sum rounded as the addition of doubles rounds it,
    highest first; players with the same rounded sum keep the order
    they came in.  Without an adjustment the sum is the rating itself,
    for a rating that is a double. *)
Theorem sortPlayers_spec (h : Heap) (l : list ref) :
  let sorted := sortPlayers h l in
  sorted ≡ₚ l
  ∧ StronglySorted (λ a b, effectiveRating (h b) ≤ effectiveRating (h a))%Z sorted
  ∧ (∀ rating, filter (λ a, effectiveRating (h a) = rating) sorted
               = filter (λ a, effectiveRating (h a) = rating) l)
  ∧ (∀ p j, tempRatingAdjustment p = Some j →
            effectiveRating p = roundDouble (getPlayerOverallRating p * resolution + j))
  ∧ (∀ p, tempRatingAdjustment p = None →
          (Z.abs (getPlayerOverallRating p) < resolution)%Z →
          effectiveRating p = (getPlayerOverallRating p * resolution)%Z).
Proof.
  intros sorted. split_and!.
  - apply sortPlayers_Permutation.
  - eapply StronglySorted_weaken; [|apply stableSort_sorted].
    + intros a b. simpl. rewrite bool_decide_spec. lia.
    + intros a b. rewrite !bool_decide_spec. lia.
    + intros a b c. rewrite !bool_decide_spec. lia.
  - intros rating. apply stableSort_filter.
    intros a b Ha Hb. rewrite bool_decide_spec. lia.
  - intros p j Hp. unfold effectiveRating. by rewrite Hp.
  - intros p Hp Hrating. unfold effectiveRating. rewrite Hp. simpl. rewrite Z.add_0_r.
    apply roundDouble_exact. intros Hs.
    set (rating := getPlayerOverallRating p) in *.
    assert (HR : (0 < resolution)%Z) by reflexivity.
    change resolution with (2 ^ 53)%Z in *.
    apply (unit_divide (Z.abs (rating * 2 ^ 53)) rating 53); [|done..].
    assert (rating ≠ 0)%Z by (intros Hzero; rewrite Hzero in Hs; simpl in Hs; lia).
    rewrite Z.abs_mul, (Z.abs_eq (2 ^ 53)) by lia.
    change (2 ^ (53 + 53))%Z with (2 ^ 53 * 2 ^ 53)%Z. nia.
Qed.

(** ** What the page shows *)

(** X15: [getTeamSize] counts the slots of the formation that are
    held, not the players of the team; in a returned team that is at
    most 12 and at most [players.length], and it is [players.length]
    exactly when the team has nobody on the bench. *)
Theorem getTeamSize_spec (tieRoundsUp : Z → Z → bool) (numTeams : Z)
    (targetTeamSizes : list Z) (playersToUse : list ref) (h : Heap) (g : Rng) :
  (∀ team, getTeamSize team = slotted (formation team))
  ∧ ∃ res,
      (createBalancedTeamsWithSizeControl tieRoundsUp numTeams targetTeamSizes
         playersToUse h g).1 = Some res
      ∧ ∀ team, team ∈ resultTeams res →
          getTeamSize team ≤ 12
          ∧ getTeamSize team ≤ length (players team)
          ∧ (getTeamSize team = length (players team)
             ↔ drop (slotted (formation team)) (players team) = []).
Proof.
  assert (Hsize : ∀ team, getTeamSize team = slotted (formation team)).
  { intros team. unfold getTeamSize, slotted.
    assert (∀ l : list ref,
              filter (λ entry : option ref, entry ≠ None) (Some <$> l) = Some <$> l) as Hall.
    { intros l. induction l as [|x l IH]; [done|].
      rewrite fmap_cons, filter_cons_True by done. by rewrite IH. }
    rewrite filter_cons, !filter_app, !Hall.
    destruct (goalkeeper (formation team)); simpl;
      rewrite ?length_app, ?length_fmap; simpl; lia. }
  split; [done|].
  destruct (run_phases tieRoundsUp numTeams targetTeamSizes playersToUse h g)
    as (st1 & st2 & _ & _ & Hrun & _ & Hwf3 & _).
  set (st3 := (sweepPhase _ st2 _).1) in *.
  eexists. split; [exact Hrun|]. rewrite rateTeams_teams.
  intros team (t & -> & Ht)%list_elem_of_fmap. rewrite Hsize. simpl.
  pose proof (wf_caps _ _ _ _ Hwf3) as Hcaps. rewrite Forall_forall in Hcaps.
  destruct (Hcaps t Ht) as (Hgk & Hdef & Hmid & Hfwd & Hle & _).
  split_and!; [unfold slotted; lia|done|].
  split.
  - intros ->. apply drop_all.
  - intros Hnil. apply (f_equal length) in Hnil. rewrite length_drop in Hnil.
    simpl in Hnil. lia.
Qed.


(** * The gallery *)

(** ** Finding a player by id *)

Lemma head_filter_Some {A} (P : A → Prop) `{!∀ x, Decision (P x)} (l : list A) (x : A) :
  head (filter P l) = Some x
  ↔ ∃ i, l !! i = Some x ∧ P x ∧ ∀ j y, j < i → l !! j = Some y → ¬ P y.
Proof.
  induction l as [|y l IH].
  { split; [done|]. by intros (i & ? & _). }
  rewrite filter_cons. destruct (decide (P y)) as [Hy|Hy]; simpl.
  - split.
    + intros [= ->]. exists 0. split_and!; [done..|]. intros j z Hj. lia.
    + intros ([|i] & Hi & Hx & Hfirst); [by simplify_eq/=|].
      destruct (Hfirst 0 y); [lia|done..].
  - rewrite IH. split.
    + intros (i & Hi & Hx & Hfirst). exists (S i). split_and!; [done..|].
      intros [|j] z Hj Hz; simplify_eq/=; [done|]. apply (Hfirst j z); [lia|done].
    + intros ([|i] & Hi & Hx & Hfirst); simplify_eq/=; [done|].
      exists i. split_and!; [done..|]. intros j z Hj Hz. apply (Hfirst (S j) z); [lia|done].
Qed.

Lemma head_filter_None {A} (P : A → Prop) `{!∀ x, Decision (P x)} (l : list A) :
  head (filter P l) = None ↔ ∀ x, x ∈ l → ¬ P x.
Proof.
  rewrite head_None. split.
  - intros Hnil x Hx HP. assert (x ∈ filter P l) as Hin by by apply list_elem_of_filter.
    rewrite Hnil in Hin. by apply elem_of_nil in Hin.
  - intros Hnone. destruct (filter P l) as [|x k] eqn:Hfilter; [done|].
    assert (x ∈ filter P l) as [HP Hx]%list_elem_of_filter by (rewrite Hfilter; by left).
    by destruct (Hnone x Hx).
Qed.

Lemma findPlayer_Some (playerId : Z) (app : App) (r : ref) :
  findPlayer playerId app = Some r
  ↔ ∃ i, appPlayers app !! i = Some r
         ∧ id (appHeap app r) = playerId
         ∧ ∀ j r', j < i → appPlayers app !! j = Some r' → id (appHeap app r') ≠ playerId.
Proof. exact (head_filter_Some (λ r, id (appHeap app r) = playerId) _ r). Qed.

Lemma findPlayer_None (playerId : Z) (app : App) :
  findPlayer playerId app = None
  ↔ ∀ r, r ∈ appPlayers app → id (appHeap app r) ≠ playerId.
Proof. exact (head_filter_None (λ r, id (appHeap app r) = playerId) _). Qed.

Lemma findPlayer_ext (playerId : Z) (app app' : App) :
  appHeap app' = appHeap app → appPlayers app' = appPlayers app →
  findPlayer playerId app' = findPlayer playerId app.
Proof. unfold findPlayer. by intros -> ->. Qed.

(** ** Players made from the form *)

Lemma hasOutfieldPositions_spec (l : list string) :
  hasOutfieldPositions l ↔ ∃ pos, pos ∈ l ∧ pos ≠ GK.
Proof.
  unfold hasOutfieldPositions. rewrite Is_true_true, existsb_exists. split.
  - intros (pos & Hin%list_elem_of_In & Hpos%bool_decide_eq_true). eauto.
  - intros (pos & Hin & Hpos). exists pos.
    split; [by apply list_elem_of_In|by apply bool_decide_eq_true].
Qed.

Lemma parsedOr75_nonzero (parsed : option Z) : parsedOr75 parsed ≠ 0%Z.
Proof.
  unfold parsedOr75. destruct parsed as [n|]; [|done]. by destruct (decide (n = 0%Z)).
Qed.

Lemma writeForm_coherent (form : Form) (first : string) (p : Player) :
  formPositions form ≠ [] → coherent (writeForm form first p).
Proof.
  intros Hpositions. unfold coherent. simpl. split_and!.
  - done.
  - unfold isGoalkeeper. case_bool_decide; split; [done|by eexists|by intros [? ?]|done].
  - rewrite <- hasOutfieldPositions_spec.
    destruct (hasOutfieldPositions (formPositions form)); simpl.
    + split; [done|by eexists].
    + split; [by intros [? ?]|done].
  - intros s [Hs|Hs].
    + destruct (isGoalkeeper (formPositions form)); simplify_eq/=. apply parsedOr75_nonzero.
    + destruct (hasOutfieldPositions (formPositions form)); simplify_eq/=.
      apply parsedOr75_nonzero.
Qed.

Lemma checkTeamSettingsChange_cases (currentTeamCount : option Z)
    (currentPlayerSelection : string) (app : App) :
  checkTeamSettingsChange currentTeamCount currentPlayerSelection app = app
  ∨ checkTeamSettingsChange currentTeamCount currentPlayerSelection app = clearTeams app.
Proof.
  unfold checkTeamSettingsChange. destruct (appTeams app); [by left|].
  cbv zeta. destruct (_ || _); [by right|by left].
Qed.

Lemma checkTeamSettingsChange_fields (currentTeamCount : option Z)
    (currentPlayerSelection : string) (app : App) :
  let app' := checkTeamSettingsChange currentTeamCount currentPlayerSelection app in
  appHeap app' = appHeap app
  ∧ appSelected app' = appSelected app
  ∧ appNext app' = appNext app
  ∧ appPlayers app' = appPlayers app
  ∧ playerBeingEdited app' = playerBeingEdited app
  ∧ lastGenerationPlayerCount app' = lastGenerationPlayerCount app
  ∧ (appTeams app' = appTeams app ∨ appTeams app' = []).
Proof.
  intros app'. subst app'.
  destruct (checkTeamSettingsChange_cases currentTeamCount currentPlayerSelection app)
    as [-> | ->]; simpl; split_and!; auto.
Qed.

Lemma getSelectedPlayers_ext (app app' : App) :
  appPlayers app' = appPlayers app →
  (∀ r, r ∈ appPlayers app → isSelected app' r = isSelected app r) →
  getSelectedPlayers app' = getSelectedPlayers app.
Proof.
  unfold getSelectedPlayers. intros -> Hflags. apply filter_ext_elem.
  intros r Hr. by rewrite Hflags.
Qed.

(** ** The cards of the gallery *)

Lemma playerCard_coherent (p : Player) :
  coherent p →
  (∃ gk out, gkStats p = Some gk ∧ outfieldStats p = Some out
             ∧ playerCard p = Some (dualCard (overall gk) (overall out)))
  ∨ playerCard p = Some (singleCard (getPlayerOverallRating p)).
Proof.
  intros (Hsome & Hgk & Hout & _). unfold playerCard, isGoalkeeper, getPlayerOverallRating.
  rewrite <- hasOutfieldPositions_spec in Hout.
  case_bool_decide as Hkeep; destruct (hasOutfieldPositions (positions p)) eqn:Hfield; simpl.
  - destruct (proj2 Hgk Hkeep) as [gk Hg]. destruct (proj2 Hout I) as [out Ho].
    left. exists gk, out. by rewrite Hg, Ho.
  - destruct (proj2 Hgk Hkeep) as [gk Hg]. right. rewrite Hg.
    destruct (outfieldStats p) eqn:Ho; [|done]. by destruct (proj1 Hout).
  - right. destruct (gkStats p) eqn:Hg; [by destruct Hkeep; apply Hgk|].
    destruct (proj2 Hout I) as [out Ho]. by rewrite Ho.
  - destruct (positions p) as [|pos rest] eqn:Hpositions; [done|].
    destruct (decide (pos = GK)) as [->|Hpos]; [by destruct Hkeep; left|].
    simpl in Hfield. by rewrite bool_decide_eq_true_2 in Hfield.
Qed.

Lemma playerCard_is_Some (p : Player) : coherent p → is_Some (playerCard p).
Proof. intros [(gk & out & _ & _ & ->)| ->]%playerCard_coherent; by eexists. Qed.

Lemma sameIdentity_playerCard (p q : Player) : sameIdentity p q → playerCard q = playerCard p.
Proof.
  intros (_ & _ & Hpositions & _ & Hout & Hgk). unfold playerCard.
  by rewrite Hpositions, Hout, Hgk.
Qed.

Lemma updatePlayersList_is_Some (app : App) :
  is_Some (updatePlayersList app)
  ↔ ∀ r, r ∈ appPlayers app → is_Some (playerCard (appHeap app r)).
Proof. unfold updatePlayersList. by rewrite mapM_is_Some, Forall_forall. Qed.

Lemma updatePlayersList_ext (app app' : App) :
  appHeap app' = appHeap app → appPlayers app' = appPlayers app →
  updatePlayersList app' = updatePlayersList app.
Proof. unfold updatePlayersList. by intros -> ->. Qed.

(** With a new player who has a card, the gallery renders when it did
    before. *)
Lemma updatePlayersList_pushNewPlayer (player : Player) (app : App) :
  allocated app → is_Some (playerCard player) →
  is_Some (updatePlayersList (pushNewPlayer player app)) ↔ is_Some (updatePlayersList app).
Proof.
  intros Halloc Hcard. rewrite !updatePlayersList_is_Some. simpl. split.
  - intros Hall r Hr. specialize (Hall r). rewrite decide_False in Hall.
    + apply Hall, elem_of_app. by left.
    + apply Halloc in Hr. lia.
  - intros Hall r [Hr| ->%list_elem_of_singleton]%elem_of_app.
    + rewrite decide_False; [by apply Hall|]. apply Halloc in Hr. lia.
    + by rewrite decide_True.
Qed.

Lemma checkTeamSettingsChange_idemp (currentTeamCount : option Z)
    (currentPlayerSelection : string) (app : App) :
  checkTeamSettingsChange currentTeamCount currentPlayerSelection
    (checkTeamSettingsChange currentTeamCount currentPlayerSelection app)
  = checkTeamSettingsChange currentTeamCount currentPlayerSelection app.
Proof.
  destruct (checkTeamSettingsChange_cases currentTeamCount currentPlayerSelection app)
    as [Hsame | ->]; [|done].
  by rewrite !Hsame.
Qed.


(** ** Adding and updating players *)

(** The two ways [addPlayer] ends after the push. *)
Lemma addPlayer_Some (form : Form) (now : Z) (currentTeamCount : option Z)
    (currentPlayerSelection : string) (app app' : App) :
  addPlayer form now currentTeamCount currentPlayerSelection app = Some app' →
  ∃ first rest,
    formName form ≠ ""%string
    ∧ formPositions form = first :: rest
    ∧ let pushed := pushNewPlayer (writeForm form first (blankPlayer now)) app in
      (is_Some (updatePlayersList pushed)
       ∧ app' = checkTeamSettingsChange currentTeamCount currentPlayerSelection pushed)
      ∨ (updatePlayersList pushed = None ∧ app' = pushed).
Proof.
  unfold addPlayer. case_bool_decide as Hname; [done|].
  destruct (formPositions form) as [|first rest]; [done|]. cbv zeta.
  intros Hadded. exists first, rest. split_and!; [done..|].
  destruct (updatePlayersList _) as [cards|] eqn:Hcards; simplify_eq; [left|right]; eauto.
Qed.

Lemma addPlayer_fields (form : Form) (now : Z) (currentTeamCount : option Z)
    (currentPlayerSelection : string) (app app' : App) :
  addPlayer form now currentTeamCount currentPlayerSelection app = Some app' →
  ∃ first rest,
    formName form ≠ ""%string
    ∧ formPositions form = first :: rest
    ∧ let pushed := pushNewPlayer (writeForm form first (blankPlayer now)) app in
      appHeap app' = appHeap pushed
      ∧ appSelected app' = appSelected pushed
      ∧ appNext app' = appNext pushed
      ∧ appPlayers app' = appPlayers pushed
      ∧ playerBeingEdited app' = playerBeingEdited app
      ∧ lastGenerationPlayerCount app' = lastGenerationPlayerCount app
      ∧ (appTeams app' = appTeams app ∨ appTeams app' = []).
Proof.
  intros (first & rest & Hname & Hpositions & Hends)%addPlayer_Some.
  exists first, rest. split_and!; [done..|]. cbv zeta in *.
  destruct Hends as [[_ ->]|[_ ->]]; [|by split_and!; auto].
  destruct (checkTeamSettingsChange_fields currentTeamCount currentPlayerSelection
              (pushNewPlayer (writeForm form first (blankPlayer now)) app))
    as (? & ? & ? & ? & ? & ? & ?).
  by split_and!.
Qed.

(** X17: [addPlayer] stops at an alert exactly when the name is empty
    or no position is checked.  Otherwise it pushes one new object at
    the end of the gallery, selected, with the clock as its id and the
    name and the positions of the form; the preferred position is the
    one of the form, or the first position when the form has none; the
    object has goalkeeper stats exactly when 'GK' is among its
    positions, outfield stats exactly when it has another position, and
    no overall rating of 0; it has no assigned position.  No other
    object and no other flag is written, and the teams are left as
    they are or emptied.  When [updatePlayersList] raises on the new
    gallery the teams are left as they are; when it does not, the
    change detection has run, and running it again changes nothing.
    In a gallery whose addresses are in use the new object is none of
    the players there, the selected players are those there were,
    followed by the new one, and the gallery renders exactly when it
    did before. *)
Theorem addPlayer_spec (form : Form) (now : Z) (currentTeamCount : option Z)
    (currentPlayerSelection : string) (app : App) :
  let added := addPlayer form now currentTeamCount currentPlayerSelection app in
  (added = None ↔ formName form = ""%string ∨ formPositions form = [])
  ∧ ∀ app', added = Some app' →
      let r := appNext app in
      let p := appHeap app' r in
      appPlayers app' = appPlayers app ++ [r]
      ∧ appNext app' = S r
      ∧ isSelected app' r = true
      ∧ id p = now
      ∧ name p = formName form
      ∧ positions p = formPositions form
      ∧ (formPreferredPosition form ≠ ""%string →
         preferredPosition p = formPreferredPosition form)
      ∧ (formPreferredPosition form = ""%string →
         head (formPositions form) = Some (preferredPosition p))
      ∧ assignedPosition p = None
      ∧ tempRatingAdjustment p = None
      ∧ coherent p
      ∧ (∀ r', r' ≠ r →
           appHeap app' r' = appHeap app r'
           ∧ appSelected app' !! r' = appSelected app !! r')
      ∧ playerBeingEdited app' = playerBeingEdited app
      ∧ lastGenerationPlayerCount app' = lastGenerationPlayerCount app
      ∧ (appTeams app' = appTeams app ∨ appTeams app' = [])
      ∧ (updatePlayersList app' = None → appTeams app' = appTeams app)
      ∧ (is_Some (updatePlayersList app') →
         checkTeamSettingsChange currentTeamCount currentPlayerSelection app' = app')
      ∧ (allocated app →
         allocated app'
         ∧ (r ∉ appPlayers app)
         ∧ getSelectedPlayers app' = getSelectedPlayers app ++ [r]
         ∧ (is_Some (updatePlayersList app') ↔ is_Some (updatePlayersList app))).
Proof.
  intros added. subst added. split.
  - unfold addPlayer. case_bool_decide as Hname; [by split; [left|]|].
    destruct (formPositions form) as [|first rest]; [by split; [right|]|].
    cbv zeta. split; [by destruct (updatePlayersList _)|]. by intros [?|?].
  - intros app' Hadded.
    pose proof (addPlayer_Some _ _ _ _ _ _ Hadded)
      as (first & rest & Hname & Hpositions & Hends).
    destruct (addPlayer_fields _ _ _ _ _ _ Hadded)
      as (first' & rest' & _ & Hpositions' & Hheap & Hselected & Hnext & Hplayers
          & Hedited & Hlast & Hteams).
    assert (first' = first) as -> by congruence. clear Hpositions' rest'.
    cbv zeta in *. set (player := writeForm form first (blankPlayer now)) in *.
    assert (Hrender : updatePlayersList app' = updatePlayersList (pushNewPlayer player app)).
    { by apply updatePlayersList_ext. }
    assert (Hcoherent : coherent player).
    { apply writeForm_coherent. by rewrite Hpositions. }
    unfold allocated, getSelectedPlayers, isSelected.
    rewrite Hrender, Hheap, Hselected, Hnext, Hplayers, Hedited, Hlast.
    assert (Hnew : appHeap (pushNewPlayer player app) (appNext app) = player).
    { simpl. by rewrite decide_True. }
    rewrite Hnew. simpl. rewrite lookup_insert_eq.
    split_and!; try done.
    + by case_bool_decide.
    + rewrite Hpositions. by case_bool_decide.
    + intros r' Hr'. by rewrite decide_False, lookup_insert_ne by done.
    + intros Hraised. destruct Hends as [[[cards Hcards] _]|[_ ->]]; [congruence|done].
    + intros Hrendered. destruct Hends as [[_ ->]|[Hraised _]].
      * apply checkTeamSettingsChange_idemp.
      * rewrite Hraised in Hrendered. by destruct Hrendered.
    + intros Halloc.
      assert (Hfresh : appNext app ∉ appPlayers app).
      { intros Hin. apply Halloc in Hin. lia. }
      split_and!; [|done| |].
      * intros r' [Hr'| ->%list_elem_of_singleton]%elem_of_app; [apply Halloc in Hr'|]; lia.
      * rewrite filter_app, filter_cons, lookup_insert_eq. simpl. f_equal.
        apply filter_ext_elem. intros r' Hr'.
        rewrite lookup_insert_ne; [done|]. by intros <-.
      * apply updatePlayersList_pushNewPlayer; [done|]. by apply playerCard_is_Some.
Qed.

(** The two ways [updatePlayer] ends after the writes. *)
Lemma updatePlayer_Some (form : Form) (app app' : App) :
  updatePlayer form app = Some app' →
  ∃ r first rest,
    playerBeingEdited app = Some r
    ∧ formName form ≠ ""%string
    ∧ formPositions form = first :: rest
    ∧ let written := writeEdited r form first app in
      (is_Some (updatePlayersList written) ∧ app' = cancelEdit written)
      ∨ (updatePlayersList written = None ∧ app' = written).
Proof.
  unfold updatePlayer. destruct (playerBeingEdited app) as [r|]; [|done].
  case_bool_decide as Hname; [done|].
  destruct (formPositions form) as [|first rest]; [done|]. cbv zeta.
  intros Hupdated. exists r, first, rest. split_and!; [done..|].
  destruct (updatePlayersList _) as [cards|] eqn:Hcards; simplify_eq; [left|right]; eauto.
Qed.

(** X18: [editPlayer] makes the first player of the gallery with the
    given id the player being edited, and changes nothing when no
    player has that id.  [updatePlayer] returns without writing
    exactly when nobody is being edited, the name is empty or no
    position is checked.  Otherwise it writes the object being edited
    and no other: name and positions are those of the form, the
    object has goalkeeper stats exactly when 'GK' is among its
    positions, outfield stats exactly when it has another position,
    and no overall rating of 0; its id, its assigned position and its
    rating adjustment are kept.  The gallery, the selection, the teams
    and the player count of the last generation are left as they are,
    so that the teams hold the updated object.  When
    [updatePlayersList] does not raise, which is so when the other
    players of the gallery have their cards, nobody is being edited
    afterwards and a second [updatePlayer] writes nothing; when it
    raises, the player is still being edited. *)
Theorem updatePlayer_spec (form : Form) (app : App) :
  (∀ playerId,
     (findPlayer playerId app = None → editPlayer playerId app = app)
     ∧ ∀ r, findPlayer playerId app = Some r →
         playerBeingEdited (editPlayer playerId app) = Some r
         ∧ r ∈ appPlayers app
         ∧ id (appHeap app r) = playerId
         ∧ appHeap (editPlayer playerId app) = appHeap app
         ∧ appPlayers (editPlayer playerId app) = appPlayers app
         ∧ appTeams (editPlayer playerId app) = appTeams app)
  ∧ (updatePlayer form app = None
     ↔ playerBeingEdited app = None ∨ formName form = ""%string ∨ formPositions form = [])
  ∧ ∀ app' r, updatePlayer form app = Some app' → playerBeingEdited app = Some r →
      let p := appHeap app r in
      let p' := appHeap app' r in
      id p' = id p
      ∧ assignedPosition p' = assignedPosition p
      ∧ tempRatingAdjustment p' = tempRatingAdjustment p
      ∧ name p' = formName form
      ∧ positions p' = formPositions form
      ∧ (formPreferredPosition form ≠ ""%string →
         preferredPosition p' = formPreferredPosition form)
      ∧ (formPreferredPosition form = ""%string →
         head (formPositions form) = Some (preferredPosition p'))
      ∧ coherent p'
      ∧ (∀ r', r' ≠ r → appHeap app' r' = appHeap app r')
      ∧ appPlayers app' = appPlayers app
      ∧ appSelected app' = appSelected app
      ∧ appNext app' = appNext app
      ∧ appTeams app' = appTeams app
      ∧ lastGenerationPlayerCount app' = lastGenerationPlayerCount app
      ∧ ((∀ r', r' ∈ appPlayers app → r' ≠ r → is_Some (playerCard (appHeap app r'))) →
         is_Some (updatePlayersList app'))
      ∧ (is_Some (updatePlayersList app') →
         playerBeingEdited app' = None ∧ updatePlayer form app' = None)
      ∧ (updatePlayersList app' = None → playerBeingEdited app' = Some r).
Proof.
  split_and!.
  - intros playerId. unfold editPlayer. split.
    + by intros ->.
    + intros r Hfind. rewrite Hfind. simpl.
      apply findPlayer_Some in Hfind as (i & Hi & Hid & _).
      split_and!; try done. by eapply list_elem_of_lookup_2.
  - unfold updatePlayer. destruct (playerBeingEdited app) as [r|]; [|by split; [left|]].
    case_bool_decide as Hname; [by split; [right; left|]|].
    destruct (formPositions form) as [|first rest]; [by split; [right; right|]|].
    cbv zeta. split; [by destruct (updatePlayersList _)|]. by intros [?|[?|?]].
  - intros app' r Hupdated Hedited.
    apply updatePlayer_Some in Hupdated
      as (r' & first & rest & Hedited' & Hname & Hpositions & Hends).
    assert (r' = r) as -> by congruence. cbv zeta in *.
    set (written := writeEdited r form first app) in *.
    assert (Hfields : appHeap app' = appHeap written
                      ∧ appPlayers app' = appPlayers app
                      ∧ appSelected app' = appSelected app
                      ∧ appNext app' = appNext app
                      ∧ appTeams app' = appTeams app
                      ∧ lastGenerationPlayerCount app' = lastGenerationPlayerCount app).
    { by destruct Hends as [[_ ->]|[_ ->]]. }
    destruct Hfields as (Hheap & Hplayers & Hselected & Hnext & Hteams & Hlast).
    assert (Hrender : updatePlayersList app' = updatePlayersList written).
    { by apply updatePlayersList_ext. }
    assert (Hcoherent : coherent (writeForm form first (appHeap app r))).
    { apply writeForm_coherent. by rewrite Hpositions. }
    rewrite Hrender, Hheap. simpl. rewrite update_eq. simpl.
    split_and!; try done.
    + by case_bool_decide.
    + rewrite Hpositions. by case_bool_decide.
    + intros r' Hr'. unfold update. by rewrite decide_False.
    + intros Hothers. apply updatePlayersList_is_Some. intros r' Hr'. simpl.
      unfold update. case_decide as Heq; [by apply playerCard_is_Some|by apply Hothers].
    + intros Hrendered. destruct Hends as [[_ ->]|[Hraised _]].
      * split; [done|]. by unfold updatePlayer.
      * rewrite Hraised in Hrendered. by destruct Hrendered.
    + intros Hraised. destruct Hends as [[[cards Hcards] _]|[_ ->]]; [congruence|done].
Qed.

(** ** The ratings of a player made from the form *)

Lemma playsIn_outfield (line : Line) (p : Player) :
  playsIn line p → ∃ pos, pos ∈ positions p ∧ pos ≠ GK.
Proof.
  unfold playsIn. rewrite Is_true_true, existsb_exists.
  intros (pos & Hpos%list_elem_of_In & Hline%bool_decide_eq_true).
  exists pos. split; [done|]. intros ->.
  destruct line; simpl in Hline;
    repeat (apply elem_of_cons in Hline as [Hline|Hline]; [discriminate|]);
    by apply elem_of_nil in Hline.
Qed.

Lemma lineRole_outfield (line : Line) : lineRole line ≠ GK.
Proof. by destruct line. Qed.

Lemma coherent_keeper (p : Player) :
  coherent p → canKeep p →
  ∃ gk, gkStats p = Some gk ∧ getPlayerRatingForPosition p GK = overall gk.
Proof.
  intros (_ & Hgk & _) Hkeep%bool_decide_unpack. apply Hgk in Hkeep as [gk Hstats].
  exists gk. split; [done|]. unfold getPlayerRatingForPosition.
  by rewrite decide_True, Hstats by done.
Qed.

Lemma coherent_outfield (p : Player) (role : string) :
  coherent p → (∃ pos, pos ∈ positions p ∧ pos ≠ GK) → role ≠ GK →
  ∃ out, outfieldStats p = Some out ∧ getPlayerRatingForPosition p role = overall out.
Proof.
  intros (_ & _ & Hout & _) Hpos Hrole. apply Hout in Hpos as [out Hstats].
  exists out. split; [done|]. unfold getPlayerRatingForPosition.
  by rewrite decide_False, Hstats by done.
Qed.

(** X19: for a player as the form makes them, the ratings come from
    the stat blocks and never from the fallback 75: the overall rating
    is the overall of one of the player's stat blocks; a player with
    'GK' among the positions is rated in goal with the goalkeeper
    overall, and a player who plays in a formation line is rated in
    that line with the outfield overall, which is also the rating
    counted in the team total unless the player prefers 'GK'; a player
    without 'GK' is rated the same in every role; and a substitute
    whose preferred position is one of their positions is shown with
    the rating counted in the team total. *)
Theorem coherent_ratings (p : Player) (Hcoherent : coherent p) :
  (∃ s, (gkStats p = Some s ∨ outfieldStats p = Some s)
        ∧ getPlayerOverallRating p = overall s)
  ∧ (canKeep p →
     ∃ gk, gkStats p = Some gk
           ∧ getPlayerRatingForPosition p GK = overall gk
           ∧ (preferredPosition p = GK → getPlayerOverallRating p = overall gk))
  ∧ (∀ line, playsIn line p →
       ∃ out, outfieldStats p = Some out
              ∧ lineupRating line p = overall out
              ∧ (preferredPosition p ≠ GK → getPlayerOverallRating p = overall out))
  ∧ (¬ canKeep p → ∀ role, getPlayerRatingForPosition p role = getPlayerOverallRating p)
  ∧ (preferredPosition p ∈ positions p → substituteRating p = getPlayerOverallRating p).
Proof.
  pose proof Hcoherent as (Hsome & Hgk & Hout & _).
  split_and!.
  - unfold getPlayerOverallRating.
    destruct (gkStats p) as [gk|] eqn:Hgks, (outfieldStats p) as [out|] eqn:Houts.
    + destruct (decide (preferredPosition p = GK)); eauto.
    + eauto.
    + eauto.
    + destruct (positions p) as [|pos rest] eqn:Hpositions; [done|].
      destruct (decide (pos = GK)) as [->|Hpos].
      * destruct (proj2 Hgk) as [? ?]; [by left|done].
      * destruct (proj2 Hout) as [? ?]; [|done]. exists pos. split; [by left|done].
  - intros Hkeep. destruct (coherent_keeper p Hcoherent Hkeep) as (gk & Hstats & Hrating).
    exists gk. split_and!; [done..|]. intros Hpref. unfold getPlayerOverallRating.
    rewrite Hstats. destruct (outfieldStats p); [|done]. by rewrite decide_True.
  - intros line Hplays.
    destruct (coherent_outfield p (lineRole line) Hcoherent (playsIn_outfield line p Hplays)
                (lineRole_outfield line)) as (out & Hstats & Hrating).
    exists out. split_and!; [done..|]. intros Hpref. unfold getPlayerOverallRating.
    rewrite Hstats. destruct (gkStats p); [|done]. by rewrite decide_False.
  - intros Hkeep role. unfold canKeep in Hkeep. rewrite bool_decide_spec in Hkeep.
    assert (gkStats p = None) as Hnone.
    { destruct (gkStats p) eqn:Hstats; [|done]. destruct Hkeep. by apply Hgk. }
    unfold getPlayerRatingForPosition, getPlayerOverallRating. rewrite Hnone.
    by destruct (decide (role = GK)).
  - intros Hpref. destruct (decide (preferredPosition p = GK)) as [Hkeeper|Hfield].
    + assert (canKeep p) as Hkeep.
      { unfold canKeep. apply bool_decide_pack. by rewrite <- Hkeeper. }
      destruct (coherent_keeper p Hcoherent Hkeep) as (gk & Hstats & Hrating).
      unfold substituteRating, substituteCategory. cbv zeta.
      rewrite bool_decide_eq_true_2 by done. fold GK. rewrite Hrating.
      unfold getPlayerOverallRating. rewrite Hstats.
      destruct (outfieldStats p); [|done]. by rewrite decide_True.
    + assert (substituteCategory p ≠ GK) as Hcategory.
      { unfold substituteCategory. cbv zeta. repeat case_bool_decide; done. }
      destruct (coherent_outfield p (substituteCategory p) Hcoherent) as (out & Hstats & Hrating);
        [by exists (preferredPosition p)|done|].
      unfold substituteRating. rewrite Hrating. unfold getPlayerOverallRating.
      rewrite Hstats. destruct (gkStats p); [|done]. by rewrite decide_False.
Qed.

Lemma coherent_ratings_witness :
  coherent dualRole
  ∧ substituteRating dualRole = getPlayerOverallRating dualRole.
Proof.
  assert (Hcoherent : coherent dualRole).
  { unfold coherent, dualRole, stats. simpl. split_and!.
    - discriminate.
    - split; [intros _; by left|by eexists].
    - split; [intros _; exists "CB"%string; split; [by right; left|discriminate]|by eexists].
    - intros s [[= <-]|[= <-]]; simpl; discriminate. }
  split; [exact Hcoherent|].
  apply (coherent_ratings dualRole Hcoherent). simpl. by left.
Defined.

(** ** The selection *)

Lemma setSelected_isSelected (r r' : ref) (value : bool) (app : App) :
  isSelected (setSelected r value app) r' = if decide (r' = r) then value else isSelected app r'.
Proof.
  unfold isSelected. simpl. destruct (decide (r' = r)) as [->|Hr].
  - by rewrite lookup_insert_eq.
  - by rewrite lookup_insert_ne.
Qed.

(** X20: [togglePlayerSelection] inverts the flag of the first player
    of the gallery with the given id, setting it for a player who has
    none, and writes nothing else, also when later players have the
    same id; it changes nothing when no player has the id.  The
    gallery, the player objects and the teams are left as they are.
    Toggling twice gives every player the flag they had. *)
Theorem togglePlayerSelection_spec (playerId : Z) (app : App) :
  let app' := togglePlayerSelection playerId app in
  appPlayers app' = appPlayers app
  ∧ appHeap app' = appHeap app
  ∧ appTeams app' = appTeams app
  ∧ lastGenerationPlayerCount app' = lastGenerationPlayerCount app
  ∧ ((∀ r, r ∈ appPlayers app → id (appHeap app r) ≠ playerId) → app' = app)
  ∧ (∀ i r, appPlayers app !! i = Some r →
       id (appHeap app r) = playerId →
       (∀ j r', j < i → appPlayers app !! j = Some r' → id (appHeap app r') ≠ playerId) →
       isSelected app' r = negb (isSelected app r)
       ∧ (appSelected app !! r = None → appSelected app' !! r = Some true)
       ∧ ∀ r', r' ≠ r → appSelected app' !! r' = appSelected app !! r')
  ∧ (∀ r, isSelected (togglePlayerSelection playerId app') r = isSelected app r)
  ∧ getSelectedPlayers (togglePlayerSelection playerId app') = getSelectedPlayers app.
Proof.
  intros app'. subst app'.
  assert (Hfields : appPlayers (togglePlayerSelection playerId app) = appPlayers app
                    ∧ appHeap (togglePlayerSelection playerId app) = appHeap app).
  { unfold togglePlayerSelection. by destruct (findPlayer playerId app). }
  destruct Hfields as [Hplayers Hheap].
  assert (Htwice : ∀ r, isSelected (togglePlayerSelection playerId
                                      (togglePlayerSelection playerId app)) r
                        = isSelected app r).
  { intros r. unfold togglePlayerSelection at 1.
    rewrite (findPlayer_ext playerId app _ Hheap Hplayers).
    unfold togglePlayerSelection. destruct (findPlayer playerId app) as [r0|]; [|done].
    rewrite !setSelected_isSelected.
    destruct (decide (r = r0)) as [->|]; [|done].
    rewrite decide_True by done. apply negb_involutive. }
  split_and!; try done.
  - unfold togglePlayerSelection. by destruct (findPlayer playerId app).
  - unfold togglePlayerSelection. by destruct (findPlayer playerId app).
  - intros Hnone%findPlayer_None. unfold togglePlayerSelection. by rewrite Hnone.
  - intros i r Hi Hid Hfirst.
    assert (findPlayer playerId app = Some r) as Hfind.
    { apply findPlayer_Some. by exists i. }
    unfold togglePlayerSelection. rewrite Hfind. split_and!.
    + rewrite setSelected_isSelected. by rewrite decide_True.
    + intros Hnone. simpl. rewrite lookup_insert_eq. unfold isSelected. by rewrite Hnone.
    + intros r' Hr'. simpl. by rewrite lookup_insert_ne.
  - apply getSelectedPlayers_ext.
    + unfold togglePlayerSelection at 1.
      rewrite (findPlayer_ext playerId app _ Hheap Hplayers).
      unfold togglePlayerSelection. by destruct (findPlayer playerId app).
    + intros r _. apply Htwice.
Qed.

Lemma filter_all {A} (P : A → Prop) `{!∀ x, Decision (P x)} (l : list A) :
  (∀ x, x ∈ l → P x) → filter P l = l.
Proof.
  induction l as [|x l IH]; intros Hall; [done|].
  rewrite filter_cons_True, IH; [done| |].
  - intros y Hy. apply Hall. by right.
  - apply Hall. by left.
Qed.

Lemma filter_none {A} (P : A → Prop) `{!∀ x, Decision (P x)} (l : list A) :
  (∀ x, x ∈ l → ¬ P x) → filter P l = [].
Proof.
  induction l as [|x l IH]; intros Hnone; [done|].
  rewrite filter_cons_False, IH; [done| |].
  - intros y Hy. apply Hnone. by right.
  - apply Hnone. by left.
Qed.

Lemma selectEach_fold (value : bool) (l : list ref) (app : App) :
  let app' := foldl (λ app' r, setSelected r value app') app l in
  appHeap app' = appHeap app
  ∧ appNext app' = appNext app
  ∧ appPlayers app' = appPlayers app
  ∧ appTeams app' = appTeams app
  ∧ playerBeingEdited app' = playerBeingEdited app
  ∧ lastGenerationPlayerCount app' = lastGenerationPlayerCount app
  ∧ (∀ r, r ∈ l → appSelected app' !! r = Some value)
  ∧ (∀ r, r ∉ l → appSelected app' !! r = appSelected app !! r).
Proof.
  revert app. induction l as [|x l IH]; intros app; cbv zeta.
  { simpl. split_and!; try done. by intros r ?%elem_of_nil. }
  cbn [foldl]. destruct (IH (setSelected x value app)) as (? & ? & ? & ? & ? & ? & Hin & Hout).
  split_and!; try done.
  - intros r [->|Hr]%elem_of_cons.
    + destruct (decide (x ∈ l)) as [Hx|Hx]; [by apply Hin|].
      rewrite Hout by done. simpl. by rewrite lookup_insert_eq.
    + by apply Hin.
  - intros r [Hx Hr]%not_elem_of_cons. rewrite Hout by done. simpl.
    by rewrite lookup_insert_ne.
Qed.

(** X21: [selectAllPlayers] and [deselectAllPlayers] set the flag of
    every player of the gallery and of no other object, and write
    nothing else.  After [selectAllPlayers] the selected players are
    the whole gallery, in its order, so that the two selection modes
    use the same players; after [deselectAllPlayers] nobody is
    selected.  The selected players are always players of the
    gallery, in the order of the gallery. *)
Theorem selectAllPlayers_spec (app : App) :
  getSelectedPlayers (selectAllPlayers app) = appPlayers app
  ∧ getSelectedPlayers (deselectAllPlayers app) = []
  ∧ (∀ playerSelection,
       playersForSelection playerSelection (selectAllPlayers app) = appPlayers app)
  ∧ getSelectedPlayers app `sublist_of` appPlayers app
  ∧ ∀ value,
      let app' := selectEach value app in
      appPlayers app' = appPlayers app
      ∧ appHeap app' = appHeap app
      ∧ appTeams app' = appTeams app
      ∧ lastGenerationPlayerCount app' = lastGenerationPlayerCount app
      ∧ (∀ r, r ∈ appPlayers app → appSelected app' !! r = Some value)
      ∧ (∀ r, r ∉ appPlayers app → appSelected app' !! r = appSelected app !! r).
Proof.
  assert (Hflags : ∀ value r, r ∈ appPlayers app → isSelected (selectEach value app) r = value).
  { intros value r Hr. unfold isSelected, selectEach.
    destruct (selectEach_fold value (appPlayers app) app)
      as (_ & _ & _ & _ & _ & _ & Hin & _).
    cbv zeta in Hin. by rewrite (Hin r Hr). }
  assert (Hplayers : ∀ value, appPlayers (selectEach value app) = appPlayers app).
  { intros value. unfold selectEach.
    by destruct (selectEach_fold value (appPlayers app) app) as (_ & _ & ? & _). }
  assert (Hall : getSelectedPlayers (selectAllPlayers app) = appPlayers app).
  { unfold getSelectedPlayers, selectAllPlayers. rewrite Hplayers.
    apply filter_all. intros r Hr. by rewrite Hflags. }
  split_and!.
  - done.
  - unfold getSelectedPlayers, deselectAllPlayers. rewrite Hplayers.
    apply filter_none. intros r Hr. rewrite Hflags by done. by intros [].
  - intros playerSelection. unfold playersForSelection.
    case_bool_decide; [done|]. apply Hplayers.
  - apply sublist_filter.
  - intros value. cbv zeta. unfold selectEach.
    destruct (selectEach_fold value (appPlayers app) app)
      as (? & ? & ? & ? & ? & ? & Hin & Hout).
    by split_and!.
Qed.

(** ** Removing players *)

Lemma findPlayer_distinct (playerId : Z) (app : App) (r : ref) :
  NoDup ((λ r, id (appHeap app r)) <$> appPlayers app) →
  findPlayer playerId app = Some r
  ↔ r ∈ appPlayers app ∧ id (appHeap app r) = playerId.
Proof.
  intros Hids. split.
  - intros (i & Hi & Hid & _)%findPlayer_Some. split; [|done].
    by eapply list_elem_of_lookup_2.
  - intros [Hr Hid]. destruct (findPlayer playerId app) as [r'|] eqn:Hfind.
    + apply findPlayer_Some in Hfind as (i & Hi & Hid' & _).
      f_equal. apply (NoDup_fmap_eq (λ r, id (appHeap app r)) (appPlayers app)); [done| |done|].
      * by eapply list_elem_of_lookup_2.
      * by rewrite Hid, Hid'.
    + rewrite findPlayer_None in Hfind. by destruct (Hfind r Hr).
Qed.

(** X22: [removePlayer] removes from the gallery every player with
    the given id, also when several have it, and keeps the others in
    their order: afterwards no player with that id is found, players
    with another id are found as before, and removing again changes
    nothing; when the ids are distinct and a player has the id, the
    gallery loses exactly one player.  The selected players are those
    selected before without the players removed.  Nothing else is
    written: the teams of the last generation, the player count of
    that generation and the player being edited stay, also when they
    hold a removed player.  [clearPlayers] returns without asking in
    an empty gallery, whatever the teams are, and changes nothing when
    the answer is no; otherwise it empties both the gallery and the
    teams. *)
Theorem removePlayer_spec (playerId : Z) (app : App) :
  let app' := removePlayer playerId app in
  (∀ r, r ∈ appPlayers app' ↔ r ∈ appPlayers app ∧ id (appHeap app r) ≠ playerId)
  ∧ appPlayers app' `sublist_of` appPlayers app
  ∧ findPlayer playerId app' = None
  ∧ (∀ other, other ≠ playerId → findPlayer other app' = findPlayer other app)
  ∧ removePlayer playerId app' = app'
  ∧ (findPlayer playerId app = None → app' = app)
  ∧ (NoDup ((λ r, id (appHeap app r)) <$> appPlayers app) →
     is_Some (findPlayer playerId app) →
     length (appPlayers app) = S (length (appPlayers app')))
  ∧ getSelectedPlayers app'
    = filter (λ r, id (appHeap app r) ≠ playerId) (getSelectedPlayers app)
  ∧ appHeap app' = appHeap app
  ∧ appSelected app' = appSelected app
  ∧ appTeams app' = appTeams app
  ∧ lastGenerationPlayerCount app' = lastGenerationPlayerCount app
  ∧ playerBeingEdited app' = playerBeingEdited app
  ∧ (∀ confirmed,
       (appPlayers app = [] ∨ confirmed = false → clearPlayers confirmed app = app)
       ∧ (appPlayers app ≠ [] →
          appPlayers (clearPlayers true app) = []
          ∧ appTeams (clearPlayers true app) = []
          ∧ appHeap (clearPlayers true app) = appHeap app
          ∧ lastGenerationPlayerCount (clearPlayers true app)
            = lastGenerationPlayerCount app)).
Proof.
  intros app'. subst app'.
  assert (Hin : ∀ r, r ∈ appPlayers (removePlayer playerId app)
                      ↔ r ∈ appPlayers app ∧ id (appHeap app r) ≠ playerId).
  { intros r. unfold removePlayer. simpl. rewrite list_elem_of_filter. tauto. }
  split_and!; try done.
  - apply sublist_filter.
  - apply findPlayer_None. intros r [_ Hr]%Hin. done.
  - intros other Hother. unfold findPlayer, removePlayer. simpl.
    rewrite list_filter_filter. f_equal. apply filter_ext_elem.
    intros r _. split; [tauto|]. intros Hid. split; [done|congruence].
  - unfold removePlayer. simpl. f_equal. rewrite list_filter_filter.
    apply filter_ext_elem. intros r _. tauto.
  - intros Hnone. rewrite findPlayer_None in Hnone. unfold removePlayer.
    rewrite filter_all by done. by destruct app.
  - intros Hids [r Hfind]. unfold removePlayer. simpl.
    pose proof Hfind as (i & Hi & Hid & _)%findPlayer_Some.
    apply list_elem_of_split_length in Hi as (l1 & l2 & Hsplit & _).
    rewrite Hsplit in Hids |- *. rewrite fmap_app, fmap_cons in Hids.
    apply NoDup_app in Hids as (_ & Hl1 & [Hl2 _]%NoDup_cons).
    rewrite filter_app, filter_cons_False by (intros ?; done).
    rewrite !filter_all, !length_app; [simpl; lia| |].
    + intros r' Hr' Hsame. apply Hl2. apply list_elem_of_fmap. exists r'.
      split; [congruence|done].
    + intros r' Hr' Hsame. apply (Hl1 (id (appHeap app r'))).
      * apply list_elem_of_fmap. by exists r'.
      * rewrite Hsame, <- Hid. by left.
  - unfold getSelectedPlayers, removePlayer, isSelected. simpl.
    rewrite !list_filter_filter. apply filter_ext_elem. intros r _. tauto.
  - intros confirmed. unfold clearPlayers. split.
    + intros [->| ->]; [done|]. by destruct (appPlayers app).
    + intros Hplayers. by destruct (appPlayers app).
Qed.

(** ** The change detection *)

(** X23: [checkTeamSettingsChange] writes nothing but the teams, and
    either keeps them or empties them.  It keeps them exactly when
    there are no teams, or when the team count of the page is a number
    equal to the number of teams and the player count of the last
    generation is null, 0 or the number of players the selection mode
    now gives.  A second check with the same settings changes
    nothing. *)
Theorem checkTeamSettingsChange_spec (currentTeamCount : option Z)
    (currentPlayerSelection : string) (app : App) :
  let app' := checkTeamSettingsChange currentTeamCount currentPlayerSelection app in
  let used := Z.of_nat (length (playersForSelection currentPlayerSelection app)) in
  (app' = app ∨ app' = clearTeams app)
  ∧ (appTeams app' = appTeams app ∨ appTeams app' = [])
  ∧ (appTeams app' = appTeams app
     ↔ appTeams app = []
       ∨ (currentTeamCount = Some (Z.of_nat (length (appTeams app)))
          ∧ (lastGenerationPlayerCount app = None
             ∨ lastGenerationPlayerCount app = Some 0%Z
             ∨ lastGenerationPlayerCount app = Some used)))
  ∧ checkTeamSettingsChange currentTeamCount currentPlayerSelection app' = app'
  ∧ appHeap app' = appHeap app
  ∧ appSelected app' = appSelected app
  ∧ appPlayers app' = appPlayers app
  ∧ playerBeingEdited app' = playerBeingEdited app
  ∧ lastGenerationPlayerCount app' = lastGenerationPlayerCount app.
Proof.
  intros app' used. subst app'.
  destruct (checkTeamSettingsChange_fields currentTeamCount currentPlayerSelection app)
    as (? & ? & ? & ? & ? & ? & ?).
  split_and!; try done.
  - apply checkTeamSettingsChange_cases.
  - unfold checkTeamSettingsChange. destruct (appTeams app) as [|team ts] eqn:Hteams.
    { rewrite Hteams. split; [by left|done]. }
    cbv zeta. fold used.
    set (teamCountChanged := match currentTeamCount with
                             | Some count => bool_decide (Z.of_nat (length (team :: ts)) ≠ count)
                             | None => true
                             end).
    set (playerCountChanged := match lastGenerationPlayerCount app with
                               | Some last => bool_decide (last ≠ 0%Z) && bool_decide (last ≠ used)
                               | None => false
                               end).
    assert (Hteam : teamCountChanged = false
                    ↔ currentTeamCount = Some (Z.of_nat (length (team :: ts)))).
    { subst teamCountChanged. destruct currentTeamCount as [count|]; [|done].
      destruct (decide (Z.of_nat (length (team :: ts)) = count)) as [Heq|Hne].
      - rewrite bool_decide_eq_false_2 by (intros Hne; by apply Hne).
        split; [intros _; by rewrite Heq|done].
      - rewrite bool_decide_eq_true_2 by done. split; [done|].
        intros [= Heq]. by destruct Hne. }
    assert (Hplayer : playerCountChanged = false
                      ↔ lastGenerationPlayerCount app = None
                        ∨ lastGenerationPlayerCount app = Some 0%Z
                        ∨ lastGenerationPlayerCount app = Some used).
    { subst playerCountChanged. destruct (lastGenerationPlayerCount app) as [last|]; [|by split; [left|]].
      destruct (decide (last = 0%Z)) as [->|Hzero].
      { rewrite bool_decide_eq_false_2 by (by intros []). split; [by right; left|done]. }
      rewrite bool_decide_eq_true_2 by done. simpl.
      destruct (decide (last = used)) as [->|Hused].
      { rewrite bool_decide_eq_false_2 by (by intros []). split; [by right; right|done]. }
      rewrite bool_decide_eq_true_2 by done. split; [done|].
      intros [?|[[= ?]|[= ?]]]; done. }
    destruct teamCountChanged, playerCountChanged; simpl; rewrite ?Hteams.
    + split; [done|]. intros [?|[Hcount _]]; [done|]. by apply Hteam in Hcount.
    + split; [done|]. intros [?|[Hcount _]]; [done|]. by apply Hteam in Hcount.
    + split; [done|]. intros [?|[_ Hcount]]; [done|]. by apply Hplayer in Hcount.
    + split; [|done]. intros _. right. split; [by apply Hteam|by apply Hplayer].
  - destruct (checkTeamSettingsChange_cases currentTeamCount currentPlayerSelection app)
      as [Hsame | ->]; [|done].
    by rewrite !Hsame.
Qed.

(** ** Shuffling the gallery *)

Lemma findPlayer_Permutation (playerId : Z) (app app' : App) :
  appHeap app' = appHeap app →
  appPlayers app' ≡ₚ appPlayers app →
  NoDup ((λ r, id (appHeap app r)) <$> appPlayers app) →
  findPlayer playerId app' = findPlayer playerId app.
Proof.
  intros Hheap Hperm Hids.
  assert (Hids' : NoDup ((λ r, id (appHeap app' r)) <$> appPlayers app')).
  { by rewrite Hheap, Hperm. }
  destruct (findPlayer playerId app) as [r|] eqn:Hfind.
  - apply findPlayer_distinct; [done|].
    apply findPlayer_distinct in Hfind as [Hr Hid]; [|done].
    by rewrite Hheap, Hperm.
  - apply findPlayer_None. rewrite findPlayer_None in Hfind.
    intros r Hr. rewrite Hheap. apply Hfind. by rewrite <- Hperm.
Qed.

(** X24: [shufflePlayers] reorders the gallery and writes nothing
    else: the gallery holds the same players, and so do the selected
    players; it takes one draw less than there are players.  The
    number of players either selection mode gives is the same, so the
    change detection keeps or empties the teams as it would without
    the shuffle; and when the ids are distinct, every id finds the
    same player as before. *)
Theorem shufflePlayers_spec (app : App) (g : Rng) :
  let app' := (shufflePlayers app g).1 in
  appPlayers app' ≡ₚ appPlayers app
  ∧ getSelectedPlayers app' ≡ₚ getSelectedPlayers app
  ∧ consumed (shufflePlayers app g).2 = consumed g + (length (appPlayers app) - 1)
  ∧ (∀ playerSelection,
       length (playersForSelection playerSelection app')
       = length (playersForSelection playerSelection app))
  ∧ (∀ currentTeamCount playerSelection,
       appTeams (checkTeamSettingsChange currentTeamCount playerSelection app')
       = appTeams (checkTeamSettingsChange currentTeamCount playerSelection app))
  ∧ (NoDup ((λ r, id (appHeap app r)) <$> appPlayers app) →
     ∀ playerId, findPlayer playerId app' = findPlayer playerId app)
  ∧ appHeap app' = appHeap app
  ∧ appSelected app' = appSelected app
  ∧ appTeams app' = appTeams app
  ∧ lastGenerationPlayerCount app' = lastGenerationPlayerCount app
  ∧ playerBeingEdited app' = playerBeingEdited app.
Proof.
  intros app'. subst app'. unfold shufflePlayers. rewrite !bindR_run. simpl.
  pose proof (shuffleArray_Permutation (appPlayers app) g) as Hperm.
  assert (Hselected :
    getSelectedPlayers
      {| appHeap := appHeap app; appSelected := appSelected app; appNext := appNext app;
         appPlayers := (shuffleArray (appPlayers app) g).1; appTeams := appTeams app;
         playerBeingEdited := playerBeingEdited app;
         lastGenerationPlayerCount := lastGenerationPlayerCount app |}
    ≡ₚ getSelectedPlayers app).
  { unfold getSelectedPlayers, isSelected. simpl. by rewrite Hperm. }
  assert (Hlength : ∀ playerSelection,
    length (playersForSelection playerSelection
      {| appHeap := appHeap app; appSelected := appSelected app; appNext := appNext app;
         appPlayers := (shuffleArray (appPlayers app) g).1; appTeams := appTeams app;
         playerBeingEdited := playerBeingEdited app;
         lastGenerationPlayerCount := lastGenerationPlayerCount app |})
    = length (playersForSelection playerSelection app)).
  { intros playerSelection. unfold playersForSelection. case_bool_decide.
    - by rewrite Hselected.
    - simpl. by rewrite Hperm. }
  split_and!; try done.
  - unfold shuffleArray. rewrite shuffleLoop_state. simpl. lia.
  - intros currentTeamCount playerSelection. unfold checkTeamSettingsChange.
    cbn [appTeams lastGenerationPlayerCount].
    destruct (appTeams app) as [|team ts] eqn:Hteams; [done|]. cbv zeta. rewrite Hlength.
    by destruct (_ || _).
  - intros Hids playerId. by apply findPlayer_Permutation.
Qed.

(** ** Generating teams from the gallery *)

Lemma run_identity (tieRoundsUp : Z → Z → bool) (numTeams : Z) (sizes : list Z)
    (input : list ref) (h : Heap) (g : Rng) :
  ∃ res,
    (createBalancedTeamsWithSizeControl tieRoundsUp numTeams sizes input h g).1 = Some res
    ∧ length (resultTeams res) = Z.to_nat numTeams
    ∧ (∀ r, sameIdentity (h r) (resultHeap res r))
    ∧ (∀ r, r ∈ placed (resultTeams res) → r ∈ input).
Proof.
  destruct (run_steps tieRoundsUp numTeams sizes input h g)
    as (start & coin & gks & st1 & pool & st2 & shuffled & Hrun & _ & _ & _ & _ & _ & _
        & _ & _ & Hwf).
  cbv zeta in *. eexists. split; [exact Hrun|].
  destruct (rateTeams_spec tieRoundsUp (heap (leftoverSweep shuffled st2))
              (teams (leftoverSweep shuffled st2))) as (Hteams & Hsame & _).
  cbv zeta in *. split_and!.
  - rewrite Hteams, length_fmap. apply (wf_length _ _ _ _ Hwf).
  - intros r. eapply sameIdentity_trans; [apply (wf_heap _ _ _ _ Hwf)|apply Hsame].
  - intros r. rewrite Hteams, placed_rateTeam. apply (wf_input _ _ _ _ Hwf).
Qed.

Lemma generateTeams_None (tieRoundsUp : Z → Z → bool) (numTeams : Z)
    (playersToUse : list ref) (h : Heap) (g : Rng) :
  (generateTeams tieRoundsUp numTeams playersToUse h g).1 = None ↔ playersToUse = [].
Proof.
  split.
  - intros Hnone. destruct (decide (playersToUse = [])) as [|Hplayers]; [done|].
    rewrite generateTeams_run in Hnone by done.
    destruct (run_identity tieRoundsUp numTeams
                (calculateTeamSizes (Z.of_nat (length playersToUse)) numTeams)
                playersToUse h g) as (res & Hrun & _).
    congruence.
  - by intros ->.
Qed.

Lemma pushed_playersForSelection (playerSelection : string) (app pushed : App) :
  allocated app →
  appPlayers pushed = appPlayers app ++ [appNext app] →
  appSelected pushed = <[appNext app := true]> (appSelected app) →
  playersForSelection playerSelection pushed
  = playersForSelection playerSelection app ++ [appNext app].
Proof.
  intros Halloc Hplayers Hselected. unfold playersForSelection.
  case_bool_decide; [|done].
  unfold getSelectedPlayers, isSelected. rewrite Hplayers, Hselected.
  rewrite filter_app, filter_cons, lookup_insert_eq. simpl. f_equal.
  apply filter_ext_elem. intros r Hr. rewrite lookup_insert_ne; [done|].
  intros <-. apply Halloc in Hr. lia.
Qed.

(** After a player is added to a gallery that renders, teams made from
    another number of players are gone. *)
Lemma addPlayer_teams (form : Form) (now : Z) (currentTeamCount : option Z)
    (playerSelection : string) (app added : App) (count : Z) :
  allocated app →
  is_Some (updatePlayersList app) →
  lastGenerationPlayerCount app = Some count →
  count ≠ 0%Z →
  count = Z.of_nat (length (playersForSelection playerSelection app)) →
  addPlayer form now currentTeamCount playerSelection app = Some added →
  appTeams added = [].
Proof.
  intros Halloc Hrender Hlast Hcount Hused
    (first & rest & _ & Hpositions & Hends)%addPlayer_Some.
  cbv zeta in Hends. set (pushed := pushNewPlayer _ app) in *.
  destruct Hends as [[_ ->]|[Hraised _]].
  2:{ apply (updatePlayersList_pushNewPlayer (writeForm form first (blankPlayer now)))
        in Hrender; [|done|].
      - fold pushed in Hrender. rewrite Hraised in Hrender. by destruct Hrender.
      - apply playerCard_is_Some, writeForm_coherent. by rewrite Hpositions. }
  pose proof (pushed_playersForSelection playerSelection app pushed Halloc eq_refl eq_refl)
    as Hpushed.
  unfold checkTeamSettingsChange.
  destruct (appTeams pushed) as [|team ts] eqn:Hteams; [done|].
  cbv zeta. rewrite Hpushed.
  replace (lastGenerationPlayerCount pushed) with (Some count) by done.
  rewrite (bool_decide_eq_true_2 (count ≠ 0%Z)) by done.
  rewrite (bool_decide_eq_true_2 (count ≠ _)) by (rewrite length_app; simpl; lia).
  by rewrite orb_true_r.
Qed.

(** X25: [generateTeams] on the gallery stops at an alert exactly when
    the selection mode gives no player.  Otherwise it stores the teams
    and the number of players used, and leaves the gallery, the
    selection and the fields [id], [name], [positions],
    [preferredPosition] and the stats of every player as they were.
    The teams hold only players
    the selection mode gives, and all of them when at least one team
    is asked for and their ids are distinct.  A check of the settings
    with the same team count and selection mode keeps the teams, a
    check with any other team count empties them, and after
    [addPlayer] with the same selection mode, in a gallery that
    renders and whose addresses are in use, no teams are left.  The
    gallery renders after the generation exactly when it did
    before. *)
Theorem generateTeamsStep_spec (tieRoundsUp : Z → Z → bool) (numTeams : Z)
    (playerSelection : string) (app : App) (g : Rng) :
  let playersToUse := playersForSelection playerSelection app in
  let generated := (generateTeamsStep tieRoundsUp numTeams playerSelection app g).1 in
  (generated = None ↔ playersToUse = [])
  ∧ ∀ app', generated = Some app' →
      length (appTeams app') = Z.to_nat numTeams
      ∧ lastGenerationPlayerCount app' = Some (Z.of_nat (length playersToUse))
      ∧ appPlayers app' = appPlayers app
      ∧ appSelected app' = appSelected app
      ∧ appNext app' = appNext app
      ∧ playerBeingEdited app' = playerBeingEdited app
      ∧ (∀ r, sameIdentity (appHeap app r) (appHeap app' r))
      ∧ playersForSelection playerSelection app' = playersToUse
      ∧ (∀ r, r ∈ placed (appTeams app') → r ∈ playersToUse)
      ∧ ((1 ≤ numTeams)%Z →
         NoDup ((λ r, id (appHeap app r)) <$> playersToUse) →
         placed (appTeams app') ≡ₚ playersToUse)
      ∧ checkTeamSettingsChange (Some numTeams) playerSelection app' = app'
      ∧ (∀ currentTeamCount, currentTeamCount ≠ Some numTeams →
           appTeams (checkTeamSettingsChange currentTeamCount playerSelection app') = [])
      ∧ updatePlayersList app' = updatePlayersList app
      ∧ (∀ form now currentTeamCount added,
           allocated app →
           is_Some (updatePlayersList app) →
           addPlayer form now currentTeamCount playerSelection app' = Some added →
           appTeams added = []).
Proof.
  intros playersToUse generated. subst generated. unfold generateTeamsStep.
  fold playersToUse. rewrite bindR_run. simpl. split.
  - rewrite <- (generateTeams_None tieRoundsUp numTeams playersToUse (appHeap app) g).
    by destruct (generateTeams tieRoundsUp numTeams playersToUse (appHeap app) g).1.
  - intros app' Hgenerated.
    destruct (generateTeams tieRoundsUp numTeams playersToUse (appHeap app) g).1
      as [res|] eqn:Hrun; [|done].
    simpl in Hgenerated. injection Hgenerated as <-. simpl.
    assert (Hplayers : playersToUse ≠ []).
    { intros Hnil. apply (generateTeams_None tieRoundsUp numTeams _ (appHeap app) g) in Hnil.
      congruence. }
    rewrite generateTeams_run in Hrun by done.
    destruct (run_identity tieRoundsUp numTeams
                (calculateTeamSizes (Z.of_nat (length playersToUse)) numTeams)
                playersToUse (appHeap app) g) as (res' & Hrun' & Hlength & Hsame & Hplaced).
    assert (res' = res) as -> by congruence.
    assert (Hused : playersForSelection playerSelection
                      {| appHeap := resultHeap res; appSelected := appSelected app;
                         appNext := appNext app; appPlayers := appPlayers app;
                         appTeams := resultTeams res;
                         playerBeingEdited := playerBeingEdited app;
                         lastGenerationPlayerCount := Some (Z.of_nat (length playersToUse)) |}
                    = playersToUse) by done.
    assert (Hmany : playersToUse ≠ [] → Z.of_nat (length playersToUse) ≠ 0%Z).
    { destruct playersToUse; [done|]. simpl. lia. }
    assert (Hcards : updatePlayersList
                       {| appHeap := resultHeap res; appSelected := appSelected app;
                          appNext := appNext app; appPlayers := appPlayers app;
                          appTeams := resultTeams res;
                          playerBeingEdited := playerBeingEdited app;
                          lastGenerationPlayerCount := Some (Z.of_nat (length playersToUse)) |}
                     = updatePlayersList app).
    { unfold updatePlayersList. simpl. apply mapM_ext. intros r.
      apply sameIdentity_playerCard, Hsame. }
    split_and!; try done.
    + intros Hteams Hids.
      destruct (run_everyone tieRoundsUp numTeams
                  (calculateTeamSizes (Z.of_nat (length playersToUse)) numTeams)
                  playersToUse (appHeap app) g Hids) as (res' & Hrun'' & Hperm).
      { rewrite calculateTeamSizes_length. lia. }
      { rewrite take_ge by (rewrite calculateTeamSizes_length; lia).
        rewrite calculateTeamSizes_sum; lia. }
      by assert (res' = res) as -> by congruence.
    + unfold checkTeamSettingsChange. cbn [appTeams lastGenerationPlayerCount].
      destruct (resultTeams res) as [|team ts] eqn:Hteams; [done|].
      cbv zeta. rewrite Hused.
      rewrite (bool_decide_eq_false_2 (_ ≠ numTeams)).
      2:{ intros Hne. apply Hne. rewrite Hlength. simpl in Hlength. lia. }
      rewrite (bool_decide_eq_false_2 (Z.of_nat (length playersToUse) ≠ Z.of_nat _))
        by (intros Hne; by apply Hne).
      by rewrite andb_false_r.
    + intros currentTeamCount Hcount. unfold checkTeamSettingsChange.
      cbn [appTeams lastGenerationPlayerCount].
      destruct (resultTeams res) as [|team ts] eqn:Hteams; [done|].
      cbv zeta. destruct currentTeamCount as [count|]; [|done].
      rewrite bool_decide_eq_true_2; [done|].
      intros Heq. apply Hcount. f_equal. rewrite <- Heq, Hlength. simpl in Hlength. lia.
    + intros form now currentTeamCount added Halloc Hrender Hadded.
      eapply addPlayer_teams; [| | | | |exact Hadded];
        [done| |done|by apply Hmany|by rewrite Hused].
      by rewrite Hcards.
Qed.

(** ** Names of imported players *)

Lemma string_length_app (s t : string) :
  String.length (s +:+ t) = String.length s + String.length t.
Proof. induction s as [|a s IH]; simpl; [done|]. by rewrite IH. Qed.

Lemma string_app_inj_r (s t u : string) : s +:+ u = t +:+ u → s = t.
Proof.
  revert t. induction s as [|a s IH]; intros [|b t] Heq; simpl in *.
  - done.
  - apply (f_equal String.length) in Heq.
    rewrite !string_length_app in Heq. simpl in Heq. lia.
  - apply (f_equal String.length) in Heq.
    rewrite !string_length_app in Heq. simpl in Heq. lia.
  - injection Heq as -> Heq. f_equal. by apply IH.
Qed.

Lemma candidateName_inj (name : string) : Inj (=) (=) (candidateName name).
Proof.
  intros [|j] [|k] Heq; simpl in Heq.
  - done.
  - apply (f_equal String.length) in Heq. rewrite !string_length_app in Heq.
    simpl in Heq. lia.
  - apply (f_equal String.length) in Heq. rewrite !string_length_app in Heq.
    simpl in Heq. lia.
  - apply (inj (String.app name)) in Heq. apply (inj (String.app " (")) in Heq.
    apply string_app_inj_r in Heq. apply (inj pretty) in Heq. lia.
Qed.

(** The names tried and found taken are distinct, so there are at most
    as many as there are names. *)
Lemma candidates_bound (names : list string) (name : string) (k : nat) :
  (∀ j, j < k → candidateName name j ∈ names) → k ≤ length names.
Proof.
  intros Htaken.
  assert (Hsub : candidateName name <$> seq 0 k ⊆+ names).
  { apply NoDup_submseteq.
    - apply (@NoDup_fmap_2 _ _ (candidateName name) (candidateName_inj name)), NoDup_seq.
    - intros s (j & -> & Hj%elem_of_seq)%list_elem_of_fmap. apply Htaken. lia. }
  apply submseteq_length in Hsub. by rewrite length_fmap, length_seq in Hsub.
Qed.

Lemma uniqueNameLoop_spec (names : list string) (name : string) (k attemptsLeft : nat) :
  (∀ j, j < k → candidateName name j ∈ names) →
  length names < k + attemptsLeft →
  ∃ m, k ≤ m ≤ length names
       ∧ uniqueNameLoop names name (candidateName name k) (Z.of_nat k + 1) attemptsLeft
         = Some (candidateName name m)
       ∧ (candidateName name m ∉ names)
       ∧ ∀ j, j < m → candidateName name j ∈ names.
Proof.
  revert k. induction attemptsLeft as [|attemptsLeft IH]; intros k Htaken Hfuel.
  { pose proof (candidates_bound names name k Htaken). lia. }
  cbn [uniqueNameLoop]. case_bool_decide as Hk.
  - destruct (IH (S k)) as (m & Hm & Hloop & Hfree & Hbelow).
    + intros j Hj. destruct (decide (j = k)) as [->|]; [done|]. apply Htaken. lia.
    + lia.
    + exists m. split; [lia|]. split_and!; [|done..].
      rewrite <- Hloop. f_equal; [|lia]. unfold candidateName. do 4 f_equal. lia.
  - exists k. split; [|by split_and!].
    pose proof (candidates_bound names name k Htaken). lia.
Qed.

(** X26: the duplicate-name loop of the import ends, after at most as
    many renamings as there are players: the final name is the name
    itself when no player has it, and otherwise the name followed by
    the least counter [k >= 1], in brackets, for which no player has
    the result; in either case no player has the final name. *)
Theorem uniqueName_spec (names : list string) (name : string) :
  ∃ k, k ≤ length names
       ∧ uniqueName names name = Some (candidateName name k)
       ∧ (candidateName name k ∉ names)
       ∧ (∀ j, j < k → candidateName name j ∈ names)
       ∧ (k = 0 ↔ name ∉ names)
       ∧ (name ∉ names → uniqueName names name = Some name)
       ∧ (name ∈ names →
          uniqueName names name = Some (name +:+ " (" +:+ pretty (Z.of_nat k) +:+ ")")).
Proof.
  destruct (uniqueNameLoop_spec names name 0 (S (length names)))
    as (k & Hk & Hloop & Hfree & Htaken).
  { intros j Hj. lia. }
  { lia. }
  exists k. change (uniqueNameLoop names name (candidateName name 0) (Z.of_nat 0 + 1)
                      (S (length names))) with (uniqueName names name) in Hloop.
  assert (Hzero : k = 0 ↔ name ∉ names).
  { split; [by intros ->|]. intros Hname. destruct k as [|k]; [done|].
    destruct Hname. apply (Htaken 0). lia. }
  split_and!; [lia|done..| |].
  - intros Hname. apply Hzero in Hname. by subst k.
  - intros Hname. destruct k as [|k]; [|done]. by destruct (proj1 Hzero).
Qed.

Lemma uniqueName_free (names : list string) (name : string) :
  ∃ finalName, uniqueName names name = Some finalName ∧ finalName ∉ names.
Proof.
  destruct (uniqueNameLoop_spec names name 0 (S (length names)))
    as (k & _ & Hloop & Hfree & _); [intros j Hj; lia|lia|].
  by exists (candidateName name k).
Qed.

(** The import loop ends for every list of imported names and pushes
    one player for each of them, after the players there were, under
    the name of the record or that name with a counter. *)
Lemma importNames_pushes (names imported : list string) :
  ∃ final,
    importNames names imported = Some (names ++ final)
    ∧ Forall2 (λ name finalName, ∃ k, finalName = candidateName name k) imported final
    ∧ (NoDup names → NoDup (names ++ final))
    ∧ NoDup final
    ∧ (∀ finalName, finalName ∈ final → finalName ∉ names)
    ∧ (NoDup (names ++ imported) → final = imported).
Proof.
  revert names. induction imported as [|name imported IH]; intros names.
  { exists []. rewrite app_nil_r. split_and!; try done.
    - apply NoDup_nil_2.
    - by intros s ?%elem_of_nil. }
  cbn [importNames].
  destruct (uniqueNameLoop_spec names name 0 (S (length names)))
    as (k & _ & Hunique & Hfree & Htaken); [intros j Hj; lia|lia|].
  change (uniqueName names name = Some (candidateName name k)) in Hunique.
  set (finalName := candidateName name k) in *.
  rewrite Hunique. simpl.
  destruct (IH (names ++ [finalName])) as (final & Himport & Hnamed & Hdistinct & Hfinal
                                           & Hnew & Hsame).
  exists (finalName :: final). rewrite <- app_assoc in Himport. simpl in Himport.
  split_and!.
  - done.
  - constructor; [by exists k|done].
  - intros Hnames. rewrite <- app_assoc in Hdistinct. apply Hdistinct.
    apply NoDup_app. split_and!; [done| |apply NoDup_singleton].
    intros s Hs ->%list_elem_of_singleton. done.
  - apply NoDup_cons. split; [|done]. intros Hin. apply (Hnew finalName Hin).
    apply elem_of_app. right. by left.
  - intros s [->|Hs]%elem_of_cons; [done|]. intros Hin. apply (Hnew s Hs).
    apply elem_of_app. by left.
  - intros Hall.
    assert (Hname : name ∉ names).
    { apply NoDup_app in Hall as (_ & Hdisjoint & _). intros Hin.
      apply (Hdisjoint name Hin). by left. }
    assert (finalName = name) as Hkept.
    { subst finalName. destruct k as [|k]; [done|]. destruct Hname. apply (Htaken 0). lia. }
    rewrite Hkept in *. f_equal. apply Hsame. by rewrite <- app_assoc.
Qed.

Lemma validPlayers_names (playersToImport : list PlayerData) :
  (∀ playerData, playerData ∈ playersToImport → ¬ invalidPlayer playerData) →
  Forall2 (λ playerData name,
             dataName playerData = Some name ∧ name ≠ ""%string
             ∧ positionsIsArray playerData)
    playersToImport (omap dataName playersToImport).
Proof.
  induction playersToImport as [|playerData l IH]; intros Hvalid; [constructor|].
  assert (Hhead : ¬ invalidPlayer playerData) by (apply Hvalid; by left).
  unfold invalidPlayer in Hhead. simpl.
  destruct (dataName playerData) as [name|] eqn:Hname; [|by destruct Hhead].
  constructor.
  - split; [done|]. case_bool_decide as Hempty; [by destruct Hhead|]. split; [done|].
    simpl in Hhead. by destruct (positionsIsArray playerData).
  - apply IH. intros d Hd. apply Hvalid. by right.
Qed.

(** One record without a name cancels the import of the others; with
    valid records, names that are taken get a counter. *)
Example importPlayersFromJSON_sample :
  importPlayersFromJSON ["Ann"] false
    [ {| dataName := Some "Bob"; positionsIsArray := true |};
      {| dataName := Some ""; positionsIsArray := true |} ]%string
  = Some ["Ann"]%string
  ∧ importPlayersFromJSON ["Ann"] false
      [ {| dataName := Some "Ann"; positionsIsArray := true |};
        {| dataName := Some "Bob"; positionsIsArray := true |};
        {| dataName := Some "Ann"; positionsIsArray := true |} ]%string
    = Some ["Ann"; "Ann (1)"; "Bob"; "Ann (2)"]%string
  ∧ importPlayersFromJSON ["Ann"] true
      [ {| dataName := Some "Ann"; positionsIsArray := true |} ]%string
    = Some ["Ann"]%string.
Proof. split_and!; vm_compute; reflexivity. Qed.

(** X27: [importPlayersFromJSON], as far as the names of the players
    go and for a file in which the names are strings, always ends.
    When a record of the file has no name, an empty
    name, or positions that are not an array, the import is cancelled
    and the gallery is as it was.  Otherwise the players of the
    gallery are dropped first when the user confirms that, and one
    player is pushed for every record, in the order of the file, under
    the name of the record or, when a player has it, that name with a
    counter; the names pushed differ from each other and from the
    names kept, so that distinct names stay distinct, and names that
    clash with no name kept and with no other imported name are kept
    as they are. *)
Theorem importPlayersFromJSON_spec (names : list string) (confirmed : bool)
    (playersToImport : list PlayerData) :
  ∃ after,
    importPlayersFromJSON names confirmed playersToImport = Some after
    ∧ ((∃ playerData, playerData ∈ playersToImport ∧ invalidPlayer playerData) →
       after = names)
    ∧ ((∀ playerData, playerData ∈ playersToImport → ¬ invalidPlayer playerData) →
       let kept := if confirmed then [] else names in
       ∃ final,
         after = kept ++ final
         ∧ Forall2 (λ playerData finalName,
                      ∃ name k, dataName playerData = Some name ∧ name ≠ ""%string
                                ∧ finalName = candidateName name k)
             playersToImport final
         ∧ NoDup final
         ∧ (∀ finalName, finalName ∈ final → finalName ∉ kept)
         ∧ (NoDup kept → NoDup after)
         ∧ (NoDup (kept ++ omap dataName playersToImport) →
            final = omap dataName playersToImport)).
Proof.
  unfold importPlayersFromJSON.
  set (invalidPlayers := filter (λ playerData, invalidPlayer playerData) playersToImport).
  case_bool_decide as Hinvalid.
  { exists names. split_and!; [done..|].
    intros Hvalid. destruct invalidPlayers as [|playerData rest] eqn:Hfilter;
      [simpl in Hinvalid; lia|].
    assert (playerData ∈ invalidPlayers) as Hin by (rewrite Hfilter; by left).
    apply list_elem_of_filter in Hin as [Hbad Hin]. by destruct (Hvalid playerData Hin). }
  assert (Hvalid : ∀ playerData, playerData ∈ playersToImport → ¬ invalidPlayer playerData).
  { intros playerData Hin Hbad.
    assert (playerData ∈ invalidPlayers) as Hin' by by apply list_elem_of_filter.
    destruct invalidPlayers; [by apply elem_of_nil in Hin'|simpl in Hinvalid; lia]. }
  set (kept := if confirmed then [] else names).
  assert ((if (if bool_decide (0 < length names) then confirmed else true)
           then [] else names) = kept) as ->.
  { subst kept. case_bool_decide as Hnames; [done|].
    destruct names; [by destruct confirmed|simpl in Hnames; lia]. }
  destruct (importNames_pushes kept (omap dataName playersToImport))
    as (final & Himport & Hnamed & Hdistinct & Hfinal & Hnew & Hsame).
  exists (kept ++ final). split; [done|]. split.
  { intros (playerData & Hin & Hbad). by destruct (Hvalid playerData Hin). }
  intros _. exists final. split_and!; [done| |done..].
  pose proof (validPlayers_names playersToImport Hvalid) as Hnames.
  clear -Hnames Hnamed. revert final Hnamed.
  induction Hnames as [|playerData name l l' (Hname & Hfull & _) _ IH];
    intros final Hnamed.
  { apply Forall2_nil_inv_l in Hnamed as ->. constructor. }
  apply Forall2_cons_inv_l in Hnamed as (finalName & final' & (k & ->) & Hrest & ->).
  constructor; [by exists name, k|by apply IH].
Qed.

(** ** The ratings shown in a lineup *)

Lemma sameIdentity_positionRating (p q : Player) (role : string) :
  sameIdentity p q → getPlayerRatingForPosition q role = getPlayerRatingForPosition p role.
Proof.
  intros (_ & _ & _ & _ & Hout & Hgk). unfold getPlayerRatingForPosition.
  by rewrite Hout, Hgk.
Qed.

Lemma run_caps (tieRoundsUp : Z → Z → bool) (numTeams : Z) (sizes : list Z)
    (input : list ref) (h : Heap) (g : Rng) :
  ∃ res,
    (createBalancedTeamsWithSizeControl tieRoundsUp numTeams sizes input h g).1 = Some res
    ∧ Forall withinCaps (resultTeams res).
Proof.
  destruct (run_phases tieRoundsUp numTeams sizes input h g)
    as (st1 & st2 & _ & _ & Hrun & _ & Hwf3 & _).
  set (st3 := (sweepPhase _ st2 _).1) in *.
  eexists. split; [exact Hrun|]. rewrite rateTeams_teams.
  apply Forall_fmap. eapply Forall_impl; [apply (wf_caps _ _ _ _ Hwf3)|].
  by intros team.
Qed.

(** The keeper of a returned team is a player with 'GK' among the
    positions. *)
Lemma run_keeper_capable (tieRoundsUp : Z → Z → bool) (numTeams : Z) (sizes : list Z)
    (input : list ref) (h : Heap) (g : Rng) :
  ∃ res,
    (createBalancedTeamsWithSizeControl tieRoundsUp numTeams sizes input h g).1 = Some res
    ∧ ∀ team kp, team ∈ resultTeams res → goalkeeper (formation team) = Some kp →
        kp ∈ input ∧ canKeep (h kp).
Proof.
  destruct (run_grown tieRoundsUp numTeams sizes input h g)
    as (start & coin & gks & st1 & res & Hrun & Hrun1 & _ & _ & _ & Hgrown).
  destruct (goalkeeperPhase_spec numTeams sizes input h g)
    as (st1' & pref & alt & Hrun1' & _ & _ & _ & _ & Hkeepers & Hpref & Halt & _).
  assert (st1' = st1) as -> by congruence.
  exists res. split; [done|]. intros team kp Hteam Hkp.
  assert (Hin : kp ∈ pref ++ alt).
  { apply (elem_of_submseteq_take (Z.to_nat numTeams)).
    rewrite <- Hkeepers, <- (grown_keepers _ _ Hgrown). apply elem_of_keepers. by exists team. }
  rewrite Hpref, Halt in Hin.
  apply elem_of_app in Hin as [Hin|Hin];
    apply list_elem_of_filter in Hin as [_ Hin];
    by apply list_elem_of_filter in Hin as [? ?].
Qed.

(** X28: when every player given to a run is as the form makes them,
    the ratings shown in the lineups of the returned teams come from
    the stat blocks: the keeper of a team has goalkeeper stats and is
    shown with their overall; a player of a formation line either has
    outfield stats and is shown with their overall, or has no position
    but 'GK': such a player was put in the line by the leftover sweep,
    with the assigned position they came with, and is shown with
    [max(gk - 20, 40)] while the team total counts the goalkeeper
    overall. *)
Theorem lineup_ratings (tieRoundsUp : Z → Z → bool) (numTeams : Z)
    (targetTeamSizes : list Z) (playersToUse : list ref) (h : Heap) (g : Rng)
    (Hcoherent : ∀ pl, pl ∈ playersToUse → coherent (h pl)) :
  ∃ res,
    (createBalancedTeamsWithSizeControl tieRoundsUp numTeams targetTeamSizes
       playersToUse h g).1 = Some res
    ∧ ∀ team, team ∈ resultTeams res →
        (∀ kp, goalkeeper (formation team) = Some kp →
           ∃ gk, gkStats (h kp) = Some gk
                 ∧ getPlayerRatingForPosition (resultHeap res kp) GK = overall gk)
        ∧ (∀ line pl, pl ∈ lineOf line (formation team) →
             (∃ out, outfieldStats (h pl) = Some out
                     ∧ lineupRating line (resultHeap res pl) = overall out)
             ∨ (∃ gk, gkStats (h pl) = Some gk
                      ∧ outfieldStats (h pl) = None
                      ∧ (∀ pos, pos ∈ positions (h pl) → pos = GK)
                      ∧ lineupRating line (resultHeap res pl) = Z.max (overall gk - 20) 40
                      ∧ getPlayerOverallRating (resultHeap res pl) = overall gk
                      ∧ assignedPosition (resultHeap res pl) = assignedPosition (h pl))).
Proof.
  destruct (run_identity tieRoundsUp numTeams targetTeamSizes playersToUse h g)
    as (res & Hrun & _ & Hsame & Hplaced).
  destruct (run_caps tieRoundsUp numTeams targetTeamSizes playersToUse h g)
    as (res' & Hrun' & Hcaps).
  assert (res' = res) as -> by congruence.
  destruct (run_keeper_capable tieRoundsUp numTeams targetTeamSizes playersToUse h g)
    as (res' & Hrun'' & Hkeepers).
  assert (res' = res) as -> by congruence.
  destruct (run_marked tieRoundsUp numTeams targetTeamSizes playersToUse h g)
    as (res' & Hrun''' & Hmarked & _).
  assert (res' = res) as -> by congruence.
  exists res. split; [done|]. intros team Hteam.
  rewrite Forall_forall in Hcaps, Hmarked. split.
  - intros kp Hkp. destruct (Hkeepers team kp Hteam Hkp) as [Hin Hkeep].
    destruct (coherent_keeper (h kp) (Hcoherent kp Hin) Hkeep) as (gk & Hstats & Hrating).
    exists gk. split; [done|]. by rewrite (sameIdentity_positionRating _ _ _ (Hsame kp)).
  - intros line pl Hpl.
    assert (Hin : pl ∈ playersToUse).
    { apply Hplaced, elem_of_placed. exists team. split; [done|].
      destruct (Hcaps team Hteam) as (_ & _ & _ & _ & _ & Hheld).
      apply Hheld, elem_of_slots. right. by exists line. }
    pose proof (Hcoherent pl Hin) as Hpl_coherent.
    unfold lineupRating.
    rewrite (sameIdentity_positionRating _ _ _ (Hsame pl)),
      (sameIdentity_rating _ _ (Hsame pl)).
    destruct (outfieldStats (h pl)) as [out|] eqn:Hout.
    + left. exists out. split; [done|]. unfold getPlayerRatingForPosition.
      by rewrite decide_False, Hout by apply lineRole_outfield.
    + right. destruct Hpl_coherent as (Hsome & Hgk & Houtfield & _).
      assert (Honly : ∀ pos, pos ∈ positions (h pl) → pos = GK).
      { intros pos Hpos. destruct (decide (pos = GK)) as [|Hne]; [done|].
        destruct (proj2 Houtfield) as [? ?]; [by exists pos|]. congruence. }
      assert (Hkeep : GK ∈ positions (h pl)).
      { destruct (positions (h pl)) as [|pos rest] eqn:Hpositions; [done|].
        rewrite <- (Honly pos) by by left. by left. }
      apply Hgk in Hkeep as [gk Hstats]. exists gk.
      split_and!; [done..| | |].
      * unfold getPlayerRatingForPosition.
        by rewrite decide_False, Hout, Hstats by apply lineRole_outfield.
      * unfold getPlayerOverallRating. by rewrite Hstats, Hout.
      * destruct (Hmarked team Hteam) as (_ & Hlines & _).
        destruct (Hlines line pl Hpl) as [[Hplays _]|?]; [|done].
        apply playsIn_outfield in Hplays as (pos & Hpos & Hne).
        by destruct Hne; apply Honly.
Qed.

Lemma keeper_coherent (i rating : Z) : rating ≠ 0%Z → coherent (keeper i rating).
Proof.
  intros Hrating. unfold coherent, keeper, stats. simpl. split_and!.
  - discriminate.
  - split; [intros _; by left|by eexists].
  - split; [by intros [? ?]|].
    by intros (pos & ->%list_elem_of_singleton & ?).
  - by intros s [[= <-]|?].
Qed.

Lemma outfielder_coherent (i : Z) (pos : string) (rating : Z) :
  pos ≠ GK → rating ≠ 0%Z → coherent (outfielder i pos rating).
Proof.
  intros Hpos Hrating. unfold coherent, outfielder, stats. simpl. split_and!.
  - discriminate.
  - split; [by intros [? ?]|]. intros Hin%list_elem_of_singleton. by destruct Hpos.
  - split; [|by eexists]. intros _. exists pos. split; [by left|done].
  - by intros s [?|[= <-]].
Qed.

Lemma dualRole_coherent : coherent dualRole.
Proof.
  unfold coherent, dualRole, stats. simpl. split_and!.
  - discriminate.
  - split; [intros _; by left|by eexists].
  - split; [|by eexists]. intros _. exists "CB"%string. split; [by right; left|discriminate].
  - intros s [[= <-]|[= <-]]; simpl; discriminate.
Qed.

Lemma lineup_ratings_witness :
  (∀ pl, pl ∈ seq 0 9 → coherent (heapOf squad pl))
  ∧ ∃ res,
      (createBalancedTeamsWithSizeControl (λ _ _, true) 2 [5; 4]%Z (seq 0 9)
         (heapOf squad) (rngOf [3; 1; 4; 1; 5; 9; 2; 6]%Z)).1 = Some res
      ∧ ∀ team kp, team ∈ resultTeams res → goalkeeper (formation team) = Some kp →
          ∃ gk, gkStats (heapOf squad kp) = Some gk
                ∧ getPlayerRatingForPosition (resultHeap res kp) GK = overall gk.
Proof.
  assert (Hcoherent : ∀ pl, pl ∈ seq 0 9 → coherent (heapOf squad pl)).
  { intros pl Hpl. apply elem_of_seq in Hpl.
    do 9 (destruct pl as [|pl];
          [first [apply keeper_coherent|apply outfielder_coherent|apply dualRole_coherent];
           discriminate|]).
    lia. }
  split; [exact Hcoherent|].
  destruct (lineup_ratings (λ _ _, true) 2 [5; 4]%Z (seq 0 9) (heapOf squad)
              (rngOf [3; 1; 4; 1; 5; 9; 2; 6]%Z) Hcoherent) as (res & Hrun & Hteams).
  exists res. split; [exact Hrun|].
  intros team kp Hteam Hkp. by apply (Hteams team Hteam).
Defined.


(** ** What the operations of the page keep *)

Lemma sameIdentity_coherent (p q : Player) : sameIdentity p q → coherent p → coherent q.
Proof.
  intros (_ & _ & Hpositions & _ & Hout & Hgk). unfold coherent.
  by rewrite Hpositions, Hout, Hgk.
Qed.

Lemma playersForSelection_players (playerSelection : string) (app : App) (r : ref) :
  r ∈ playersForSelection playerSelection app → r ∈ appPlayers app.
Proof.
  unfold playersForSelection, getSelectedPlayers. case_bool_decide; [|done].
  by intros [_ ?]%list_elem_of_filter.
Qed.

Lemma addPlayer_sound (form : Form) (now : Z) (currentTeamCount : option Z)
    (currentPlayerSelection : string) (app app' : App) :
  addPlayer form now currentTeamCount currentPlayerSelection app = Some app' →
  sound app → sound app'.
Proof.
  intros (first & rest & _ & Hpositions & Hheap' & Hselected' & Hnext' & Hplayers'
          & Hedited' & Hlast' & Hteams')%addPlayer_fields
    (Hnodup & Halloc & Hcoherent & Hflags & Hteams & Hedited & Hcaps & Hlast).
  cbv zeta in *.
  unfold sound, allocated. rewrite Hheap', Hselected', Hnext', Hplayers', Hedited', Hlast'.
  simpl. split_and!.
  - apply NoDup_app. split_and!; [done| |apply NoDup_singleton].
    intros r Hr ->%list_elem_of_singleton. apply Halloc in Hr. lia.
  - intros r [Hr| ->%list_elem_of_singleton]%elem_of_app; [apply Halloc in Hr|]; lia.
  - intros r Hr. case_decide as Hne.
    + apply writeForm_coherent. by rewrite Hpositions.
    + apply Hcoherent. lia.
  - intros r [Hr| ->%list_elem_of_singleton]%elem_of_app.
    + destruct (decide (r = appNext app)) as [->|Hne]; [by rewrite lookup_insert_eq|].
      rewrite lookup_insert_ne by done. by apply Hflags.
    + by rewrite lookup_insert_eq.
  - intros r Hr. destruct Hteams' as [Hsame|Hnone]; rewrite ?Hsame, ?Hnone in Hr.
    + apply Hteams in Hr. lia.
    + by apply elem_of_nil in Hr.
  - intros r Hr. apply Hedited in Hr. lia.
  - destruct Hteams' as [-> | ->]; [done|apply Forall_nil_2].
  - destruct Hteams' as [-> | ->]; [done|]. by intros [].
Qed.

Lemma updatePlayer_sound (form : Form) (app app' : App) :
  updatePlayer form app = Some app' → sound app → sound app'.
Proof.
  intros (r & first & rest & Hedited' & _ & Hpositions & Hends)%updatePlayer_Some
    (Hnodup & Halloc & Hcoherent & Hflags & Hteams & Hedited & Hcaps & Hlast).
  cbv zeta in *.
  assert (Hwritten : ∀ r', r' < appNext app →
            coherent (appHeap (writeEdited r form first app) r')).
  { intros r' Hr'. simpl. unfold update. case_decide as Hne.
    - apply writeForm_coherent. by rewrite Hpositions.
    - by apply Hcoherent. }
  destruct Hends as [[_ ->]|[_ ->]]; unfold sound, allocated; simpl; by split_and!.
Qed.

Lemma generateTeamsStep_sound (tieRoundsUp : Z → Z → bool) (numTeams : Z)
    (playerSelection : string) (app app' : App) (g : Rng) :
  (generateTeamsStep tieRoundsUp numTeams playerSelection app g).1 = Some app' →
  sound app → sound app'.
Proof.
  intros Hgenerated (Hnodup & Halloc & Hcoherent & Hflags & Hteams & Hedited & Hcaps & Hlast).
  unfold generateTeamsStep in Hgenerated. rewrite bindR_run in Hgenerated.
  simpl in Hgenerated.
  set (playersToUse := playersForSelection playerSelection app) in *.
  destruct (generateTeams tieRoundsUp numTeams playersToUse (appHeap app) g).1
    as [res|] eqn:Hrun; [|done].
  simpl in Hgenerated. injection Hgenerated as <-.
  assert (Hplayers : playersToUse ≠ []).
  { intros Hnil. apply (generateTeams_None tieRoundsUp numTeams _ (appHeap app) g) in Hnil.
    congruence. }
  rewrite generateTeams_run in Hrun by done.
  destruct (run_identity tieRoundsUp numTeams
              (calculateTeamSizes (Z.of_nat (length playersToUse)) numTeams)
              playersToUse (appHeap app) g) as (res' & Hrun' & _ & Hsame & Hplaced).
  assert (res' = res) as -> by congruence.
  destruct (run_caps tieRoundsUp numTeams
              (calculateTeamSizes (Z.of_nat (length playersToUse)) numTeams)
              playersToUse (appHeap app) g) as (res' & Hrun'' & Hcaps').
  assert (res' = res) as -> by congruence.
  unfold sound, allocated. simpl. split_and!; try done.
  - intros r Hr. eapply sameIdentity_coherent; [apply Hsame|]. by apply Hcoherent.
  - intros r Hr%Hplaced. by apply Halloc, (playersForSelection_players playerSelection).
  - intros _. eexists. split; [done|]. destruct playersToUse; [done|]. simpl. lia.
Qed.

(** X29: the operations of the player form, the gallery, the change
    detection and [generateTeams] keep the state of the application
    sound, from the state the constructor sets up: no object is twice
    in the gallery; every player object made so far, in the gallery,
    in a team or being edited, has at least one position, goalkeeper
    stats exactly with 'GK' among the positions, outfield stats
    exactly with another position and no overall of 0; every player of
    the gallery has a [selected] flag; the teams respect the slot
    caps; and while there are teams, the player count of the last
    generation is a positive number.  In a sound state
    [updatePlayersList] does not raise, so that [addPlayer] always
    reaches the change detection and [updatePlayer] always ends the
    edit. *)
Theorem pageStep_sound :
  (∀ h, sound (initialApp h))
  ∧ (∀ app app', sound app → pageStep app app' → sound app')
  ∧ (∀ h app, rtc pageStep (initialApp h) app → sound app)
  ∧ (∀ app, sound app →
       is_Some (updatePlayersList app)
       ∧ (∀ form now currentTeamCount currentPlayerSelection app',
            addPlayer form now currentTeamCount currentPlayerSelection app = Some app' →
            checkTeamSettingsChange currentTeamCount currentPlayerSelection app' = app')
       ∧ (∀ form app', updatePlayer form app = Some app' → playerBeingEdited app' = None)).
Proof.
  assert (Hinitial : ∀ h, sound (initialApp h)).
  { intros h. unfold sound, allocated, initialApp. simpl. split_and!; try done.
    - apply NoDup_nil_2.
    - by intros r ?%elem_of_nil.
    - intros r Hr. lia.
    - by intros r ?%elem_of_nil.
    - by intros r ?%elem_of_nil. }
  assert (Hstep : ∀ app app', sound app → pageStep app app' → sound app').
  { intros app app' Hsound Hstep.
    destruct Hstep as [form now count selection app app' Hadded
                      |playerId app|playerId app|form app app' Hupdated|app|app g
                      |confirmed app|playerId app|app|app|count selection app
                      |tieRoundsUp numTeams selection app g app' Hgenerated].
    - by eapply addPlayer_sound.
    - destruct Hsound as (Hnodup & Halloc & Hcoherent & Hflags & Hteams & Hedited & Hcaps
                          & Hlast).
      unfold sound, allocated, removePlayer. simpl. split_and!; try done.
      + by apply NoDup_filter.
      + intros r [_ Hr]%list_elem_of_filter. by apply Halloc.
      + intros r [_ Hr]%list_elem_of_filter. by apply Hflags.
    - destruct Hsound as (Hnodup & Halloc & Hcoherent & Hflags & Hteams & Hedited & Hcaps
                          & Hlast).
      unfold editPlayer. destruct (findPlayer playerId app) as [r|] eqn:Hfind.
      + unfold sound, allocated. simpl. split_and!; try done.
        intros r' [= <-]. apply findPlayer_Some in Hfind as (i & Hi & _).
        eapply Halloc, list_elem_of_lookup_2, Hi.
      + by split_and!.
    - by eapply updatePlayer_sound.
    - destruct Hsound as (Hnodup & Halloc & Hcoherent & Hflags & Hteams & Hedited & Hcaps
                          & Hlast).
      unfold sound, allocated, cancelEdit. simpl. by split_and!.
    - destruct Hsound as (Hnodup & Halloc & Hcoherent & Hflags & Hteams & Hedited & Hcaps
                          & Hlast).
      unfold shufflePlayers. rewrite bindR_run. unfold sound, allocated. simpl.
      pose proof (shuffleArray_Permutation (appPlayers app) g) as Hperm.
      split_and!; try done.
      + by rewrite Hperm.
      + intros r Hr. apply Halloc. by rewrite <- Hperm.
      + intros r Hr. apply Hflags. by rewrite <- Hperm.
    - destruct Hsound as (Hnodup & Halloc & Hcoherent & Hflags & Hteams & Hedited & Hcaps
                          & Hlast).
      assert (Hkeep : sound app) by by split_and!.
      unfold clearPlayers. destruct (appPlayers app) as [|pl l]; [done|].
      destruct confirmed; [|done].
      unfold sound, allocated. simpl. split_and!; try done.
      + apply NoDup_nil_2.
      + by intros r ?%elem_of_nil.
      + by intros r ?%elem_of_nil.
      + by intros r ?%elem_of_nil.
    - destruct Hsound as (Hnodup & Halloc & Hcoherent & Hflags & Hteams & Hedited & Hcaps
                          & Hlast).
      unfold togglePlayerSelection. destruct (findPlayer playerId app) as [r|].
      + unfold sound, allocated. simpl. split_and!; try done.
        intros r' Hr'. destruct (decide (r' = r)) as [->|Hne].
        * by rewrite lookup_insert_eq.
        * rewrite lookup_insert_ne by done. by apply Hflags.
      + by split_and!.
    - destruct Hsound as (Hnodup & Halloc & Hcoherent & Hflags & Hteams & Hedited & Hcaps
                          & Hlast).
      unfold selectAllPlayers, selectEach.
      destruct (selectEach_fold true (appPlayers app) app)
        as (Hheap' & Hnext' & Hplayers' & Hteams' & Hedited' & Hlast' & Hin & _).
      cbv zeta in *. unfold sound, allocated.
      rewrite Hheap', Hnext', Hplayers', Hteams', Hedited', Hlast'.
      split_and!; try done. intros r Hr. by rewrite (Hin r Hr).
    - destruct Hsound as (Hnodup & Halloc & Hcoherent & Hflags & Hteams & Hedited & Hcaps
                          & Hlast).
      unfold deselectAllPlayers, selectEach.
      destruct (selectEach_fold false (appPlayers app) app)
        as (Hheap' & Hnext' & Hplayers' & Hteams' & Hedited' & Hlast' & Hin & _).
      cbv zeta in *. unfold sound, allocated.
      rewrite Hheap', Hnext', Hplayers', Hteams', Hedited', Hlast'.
      split_and!; try done. intros r Hr. by rewrite (Hin r Hr).
    - destruct Hsound as (Hnodup & Halloc & Hcoherent & Hflags & Hteams & Hedited & Hcaps
                          & Hlast).
      destruct (checkTeamSettingsChange_fields count selection app)
        as (Hheap' & Hselected' & Hnext' & Hplayers' & Hedited' & Hlast' & Hteams').
      cbv zeta in *. unfold sound, allocated.
      rewrite Hheap', Hselected', Hnext', Hplayers', Hedited', Hlast'.
      destruct Hteams' as [-> | ->]; split_and!; try done;
        try apply Forall_nil_2; by intros r ?%elem_of_nil.
    - by eapply generateTeamsStep_sound. }
  assert (Hrender : ∀ app, sound app → is_Some (updatePlayersList app)).
  { intros app (_ & Halloc & Hcoherent & _). apply updatePlayersList_is_Some.
    intros r Hr. by apply playerCard_is_Some, Hcoherent, Halloc. }
  split_and!; [done..| |].
  - intros h. apply (rtc_ind_r sound (initialApp h)); [apply Hinitial|].
    intros app app' _ Hstep' Hsound. by eapply Hstep.
  - intros app Hsound. split_and!.
    + by apply Hrender.
    + intros form now currentTeamCount currentPlayerSelection app' Hadded.
      pose proof (Hrender app' (addPlayer_sound _ _ _ _ _ _ Hadded Hsound)) as Hcards.
      apply addPlayer_Some in Hadded as (first & rest & _ & _ & [[_ ->]|[Hraised ->]]).
      * apply checkTeamSettingsChange_idemp.
      * rewrite Hraised in Hcards. by destruct Hcards.
    + intros form app' Hupdated.
      pose proof (Hrender app' (updatePlayer_sound _ _ _ Hupdated Hsound)) as Hcards.
      apply updatePlayer_Some in Hupdated
        as (r & first & rest & _ & _ & _ & [[_ ->]|[Hraised ->]]); [done|].
      rewrite Hraised in Hcards. by destruct Hcards.
Qed.
